(** * PortionPal: nutrient value normalizer and retry executor

    A shallow embedding of two utility modules of the application:

    - [mealNormalization] ([parseNutritionNumber], [normalizeNutritionData],
      [extractNutritionFromText], [mergeNutrition]), together with the part
      of the regular-expression semantics of ECMAScript its patterns use;
    - [retry] ([calculateDelay], the default retry predicates and the
      [retry] loop), as a state-passing program over an abstract host.

    Numbers are IEEE 754 doubles: a finite number is the rational it
    denotes, and the operations that round ([Number(s)], [+], [-], [*],
    [/], [Math.pow], the literal [0.2]) give the double nearest to the
    exact result, ties to even, and an infinity beyond the range of
    doubles.  This is how the parser, the backoff delays, the new
    dimensions of an image and the compression ratio are computed.  The
    two zeros are not told apart.  The settings of [calculateDelay] are
    finite numbers.  In [compressImage] and in the performance monitor
    the size limit [maxSizeMB * 1024 * 1024], the lower quality
    [quality * 0.7] and the difference of two clock readings are the
    expressions of the source written over the rationals; they are only
    named, and nothing is derived from their values. *)

From Stdlib Require Import ZArith NArith QArith Qround Qminmax Qpower.
From Stdlib Require Import Lia Lqa List String Ascii Bool.
From Stdlib Require Import DecimalString DecimalPos.
From Stdlib Require Qcanon.
From stdpp Require Import base option list strings gmap.

Close Scope Q_scope.
Local Open Scope Z_scope.

(** ** Strings as sequences of UTF-16 code units *)

Definition CodeUnit := N.
Definition JsString := list CodeUnit.

(** ASCII literals of the source, as code units. *)
Definition js (s : string) : JsString :=
  map N_of_ascii (list_ascii_of_string s).

Definition ch (a : ascii) : CodeUnit := N_of_ascii a.

Definition EN_DASH : CodeUnit := 8211%N.  (* U+2013 *)
Definition EM_DASH : CodeUnit := 8212%N.  (* U+2014 *)

(** WhiteSpace and LineTerminator code points of ECMAScript: what [\s]
    matches and what [String.prototype.trim] strips. *)
Definition is_space (c : CodeUnit) : bool :=
  ((9 <=? c) && (c <=? 13) || (c =? 32) || (c =? 160) || (c =? 5760)
   || (8192 <=? c) && (c <=? 8202) || (c =? 8232) || (c =? 8233)
   || (c =? 8239) || (c =? 8287) || (c =? 12288) || (c =? 65279))%N.

Definition is_digit (c : CodeUnit) : bool := ((48 <=? c) && (c <=? 57))%N.

(** [Canonicalize] of the pattern semantics under flag [i], on the code
    units the patterns of this program contain (ASCII letters, [_], [-]
    and the two dashes): a code unit above 127 never canonicalizes to an
    ASCII one, and no other code unit canonicalizes to a dash. *)
Definition canonicalize (ignoreCase : bool) (c : CodeUnit) : CodeUnit :=
  if ignoreCase && (97 <=? c)%N && (c <=? 122)%N then (c - 32)%N else c.

Fixpoint dropSpaces (s : JsString) : JsString :=
  match s with
  | c :: s' => if is_space c then dropSpaces s' else s
  | [] => []
  end.

Definition trimStart (s : JsString) : JsString := dropSpaces s.
Definition trimEnd (s : JsString) : JsString := rev (dropSpaces (rev s)).
Definition trim (s : JsString) : JsString := trimEnd (trimStart s).

(** [s.replace(/x/g, y)] for a single code unit [x]. *)
Definition replaceAll (x y : CodeUnit) (s : JsString) : JsString :=
  map (fun c => if (c =? x)%N then y else c) s.

(** ** Regular expressions: the fragment the patterns are written in *)

Inductive CharClass : Type :=
| CDigit                        (* [0-9] *)
| CSpace                        (* \s *)
| COneOf (cs : list CodeUnit).  (* [.,]  [-+]  [:-]  \. *)

Definition class_mem (cl : CharClass) (c : CodeUnit) : bool :=
  match cl with
  | CDigit => is_digit c
  | CSpace => is_space c
  | COneOf cs => existsb (N.eqb c) cs
  end.

Inductive Regex : Type :=
| REmpty
| RChar (c : CodeUnit)                              (* a pattern character *)
| RClass (cl : CharClass)
| RSeq (r1 r2 : Regex)
| RAlt (r1 r2 : Regex)                              (* r1|r2 *)
| ROpt (r : Regex)                                  (* (?:r)? *)
| RRep (cl : CharClass) (lo : nat) (hi : option nat) (* cl{lo,hi}, greedy *)
| RGroup (i : nat) (r : Regex).                     (* i-th capturing group *)

Definition Captures := list (nat * JsString).

Definition setCapture (i : nat) (v : JsString) (caps : Captures) : Captures :=
  (i, v) :: filter (fun p => negb (Nat.eqb (fst p) i)) caps.

Fixpoint getCapture (i : nat) (caps : Captures) : option JsString :=
  match caps with
  | [] => None
  | (j, v) :: caps' => if Nat.eqb j i then Some v else getCapture i caps'
  end.

(** The code units consumed between input [s] and its suffix [rest]. *)
Definition consumed (s rest : JsString) : JsString :=
  take (length s - length rest)%nat s.

Definition MatchState := (JsString * Captures)%type.
Definition Continuation := JsString -> Captures -> option MatchState.

Record MatchResult : Type := mkMatch {
  index : nat;             (* m.index *)
  matched : JsString;      (* m[0] *)
  groups : Captures        (* m[1], m[2], ... *)
}.

Section Matcher.
Variable ignoreCase : bool.

(** Greedy repetition of a class: one more code unit first, the
    continuation only once that fails and [lo] is reached. *)
Fixpoint repeatClass (cl : CharClass) (lo : nat) (hi : option nat)
    (s : JsString) (caps : Captures) (k : Continuation) {struct s}
    : option MatchState :=
  let stop := match lo with O => k s caps | S _ => None end in
  match hi with
  | Some O => stop
  | _ =>
    match s with
    | c :: s' =>
      if class_mem cl c then
        match repeatClass cl (Nat.pred lo) (option_map Nat.pred hi) s' caps k with
        | Some r => Some r
        | None => stop
        end
      else stop
    | [] => stop
    end
  end.

(** The backtracking matcher, in continuation-passing style as the
    language definition gives it. *)
Fixpoint matchRegex (r : Regex) (s : JsString) (caps : Captures)
    (k : Continuation) {struct r} : option MatchState :=
  match r with
  | REmpty => k s caps
  | RChar c =>
    match s with
    | x :: s' =>
      if (canonicalize ignoreCase x =? canonicalize ignoreCase c)%N
      then k s' caps else None
    | [] => None
    end
  | RClass cl =>
    match s with
    | x :: s' => if class_mem cl x then k s' caps else None
    | [] => None
    end
  | RSeq r1 r2 =>
    matchRegex r1 s caps (fun s1 caps1 => matchRegex r2 s1 caps1 k)
  | RAlt r1 r2 =>
    match matchRegex r1 s caps k with
    | Some res => Some res
    | None => matchRegex r2 s caps k
    end
  | ROpt r1 =>
    (* an iteration that consumes nothing is rejected *)
    match matchRegex r1 s caps
            (fun s1 caps1 =>
               if Nat.eqb (length s1) (length s) then None else k s1 caps1) with
    | Some res => Some res
    | None => k s caps
    end
  | RRep cl lo hi => repeatClass cl lo hi s caps k
  | RGroup i r1 =>
    matchRegex r1 s caps
      (fun s1 caps1 => k s1 (setCapture i (consumed s s1) caps1))
  end.

Definition matchAt (r : Regex) (s : JsString) : option MatchState :=
  matchRegex r s [] (fun rest caps => Some (rest, caps)).

(** [RegExpBuiltinExec] without flag [g]: the first start index, from
    0 to the length of the input, at which the pattern matches. *)
Fixpoint searchFrom (r : Regex) (idx : nat) (s : JsString) {struct s}
    : option MatchResult :=
  match matchAt r s with
  | Some (rest, caps) => Some (mkMatch idx (consumed s rest) caps)
  | None =>
    match s with
    | [] => None
    | _ :: s' => searchFrom r (S idx) s'
    end
  end.

(** [s.match(r)] *)
Definition stringMatch (r : Regex) (s : JsString) : option MatchResult :=
  searchFrom r 0 s.
End Matcher.

(** Pattern-building shorthands. *)
Fixpoint rseq (rs : list Regex) : Regex :=
  match rs with
  | [] => REmpty
  | [r] => r
  | r :: rs' => RSeq r (rseq rs')
  end.

Fixpoint ralt (rs : list Regex) : Regex :=
  match rs with
  | [] => REmpty
  | [r] => r
  | r :: rs' => RAlt r (ralt rs')
  end.

Definition rlit (s : string) : Regex := rseq (map RChar (js s)).
Definition rplus (cl : CharClass) : Regex := RRep cl 1 None.
Definition rstar (cl : CharClass) : Regex := RRep cl 0 None.
Definition rquest (cl : CharClass) : Regex := RRep cl 0 (Some 1%nat).

(** ** Numbers *)

Inductive JsNumber : Type :=
| NFinite (q : Q)
| NNaN
| NPosInf
| NNegInf.

Inductive JsValue : Type :=
| VUndefined
| VNull
| VBool (b : bool)
| VNumber (n : JsNumber)
| VString (s : JsString)
| VObject.

Definition isNaN (n : JsNumber) : bool :=
  match n with NNaN => true | _ => false end.

Definition isFinite (n : JsNumber) : bool :=
  match n with NFinite _ => true | _ => false end.

(** *** Rounding to the nearest double *)

Definition pow2 (e : Z) : Q := (2 ^ e)%Q.

(** The integer nearest to [x], the even one of the two when [x] lies
    half way. *)
Definition roundHalfEven (x : Q) : Z :=
  let f := Qfloor x in
  match (x - inject_Z f ?= 1 # 2)%Q with
  | Lt => f
  | Gt => f + 1
  | Eq => if Z.even f then f else f + 1
  end.

(** For a positive [x], the [b] with [2^b <= x < 2^(b+1)]. *)
Definition binade (x : Q) : Z :=
  let e := Z.log2 (Qnum x) - Z.log2 (Zpos (Qden x)) in
  if Qle_bool (pow2 e) x then e else e - 1.

(** The exponent of the last place of the doubles around a positive [x]:
    53 significant bits, and no exponent below that of the subnormal
    numbers. *)
Definition exponent (x : Q) : Z := Z.max (binade x) (-1022) - 52.

(** The multiple of [2^exponent] nearest to a positive [x]. *)
Definition nearest (x : Q) : Q :=
  (inject_Z (roundHalfEven (x / pow2 (exponent x))) * pow2 (exponent x))%Q.

(** The Number value for [x]: the nearest double, the one with an even
    significand on a tie, and an infinity from 2^1024 on. *)
Definition round64 (x : Q) : JsNumber :=
  match Qnum x with
  | 0 => NFinite 0%Q
  | Zpos _ =>
    let y := nearest x in
    if Qle_bool (pow2 1024) y then NPosInf else NFinite (Qred y)
  | Zneg _ =>
    let y := nearest (- x)%Q in
    if Qle_bool (pow2 1024) y then NNegInf else NFinite (Qred (- y)%Q)
  end.

Definition js_neg (n : JsNumber) : JsNumber :=
  match n with
  | NFinite q => NFinite (- q)%Q
  | NNaN => NNaN
  | NPosInf => NNegInf
  | NNegInf => NPosInf
  end.

(** [Math.round]: the nearest integer, ties towards positive infinity. *)
Definition Math_round (n : JsNumber) : JsNumber :=
  match n with
  | NFinite q => NFinite (inject_Z (Qfloor (q + (1 # 2))%Q))
  | _ => n
  end.

Definition Math_max (a b : JsNumber) : JsNumber :=
  match a, b with
  | NNaN, _ | _, NNaN => NNaN
  | NPosInf, _ | _, NPosInf => NPosInf
  | NNegInf, x | x, NNegInf => x
  | NFinite p, NFinite q => if Qle_bool p q then NFinite q else NFinite p
  end.

Definition js_add (a b : JsNumber) : JsNumber :=
  match a, b with
  | NNaN, _ | _, NNaN => NNaN
  | NPosInf, NNegInf | NNegInf, NPosInf => NNaN
  | NPosInf, _ | _, NPosInf => NPosInf
  | NNegInf, _ | _, NNegInf => NNegInf
  | NFinite p, NFinite q => round64 (p + q)%Q
  end.

(** Division by a positive finite constant. *)
Definition js_div_pos (a : JsNumber) (d : Q) : JsNumber :=
  match a with
  | NFinite p => round64 (p / d)%Q
  | _ => a
  end.

Definition zero : JsNumber := NFinite 0%Q.
Definition ofZ (z : Z) : JsNumber := NFinite (inject_Z z).

(** [a / b] on finite numbers: a division by zero gives an infinity, or
    NaN for [0 / 0] (zeros are taken as positive). *)
Definition js_div (a b : Q) : JsNumber :=
  if Qeq_bool b 0 then
    if Qeq_bool a 0 then NNaN
    else if Qle_bool 0 a then NPosInf else NNegInf
  else round64 (a / b)%Q.

(** [x * q] for a finite [q]. *)
Definition js_mul (x : JsNumber) (q : Q) : JsNumber :=
  match x with
  | NFinite p => round64 (p * q)%Q
  | NNaN => NNaN
  | NPosInf =>
    if Qeq_bool q 0 then NNaN else if Qle_bool 0 q then NPosInf else NNegInf
  | NNegInf =>
    if Qeq_bool q 0 then NNaN else if Qle_bool 0 q then NNegInf else NPosInf
  end.

(** [a - b] *)
Definition js_sub (a b : JsNumber) : JsNumber := js_add a (js_neg b).

(** [a * b] *)
Definition js_times (a b : JsNumber) : JsNumber :=
  match a, b with
  | NNaN, _ | _, NNaN => NNaN
  | NFinite p, NFinite q => round64 (p * q)%Q
  | NFinite p, NPosInf | NPosInf, NFinite p =>
    if Qeq_bool p 0 then NNaN else if Qle_bool 0 p then NPosInf else NNegInf
  | NFinite p, NNegInf | NNegInf, NFinite p =>
    if Qeq_bool p 0 then NNaN else if Qle_bool 0 p then NNegInf else NPosInf
  | NPosInf, NPosInf | NNegInf, NNegInf => NPosInf
  | NPosInf, NNegInf | NNegInf, NPosInf => NNegInf
  end.

Definition Math_min (a b : JsNumber) : JsNumber :=
  match a, b with
  | NNaN, _ | _, NNaN => NNaN
  | NNegInf, _ | _, NNegInf => NNegInf
  | NPosInf, x | x, NPosInf => x
  | NFinite p, NFinite q => NFinite (Qmin p q)
  end.

(** [Math.pow(base, exponent)] for a finite [base] and an integer
    [exponent]: 1 for the exponent 0, as the language requires, and
    otherwise the double nearest to the power.  The language leaves the
    accuracy of [Math.pow] to the implementation; the correctly rounded
    result is what an implementation returns wherever the power is a
    double itself. *)
Definition Math_pow (base : Q) (exponent : Z) : JsNumber :=
  if exponent =? 0 then NFinite 1%Q
  else if Qeq_bool base 0 && (exponent <? 0) then NPosInf
  else round64 (base ^ exponent)%Q.

(** [a > b] on finite numbers. *)
Definition Qgt_bool (a b : Q) : bool := negb (Qle_bool a b).

(** ** [Number(s)] on decimal literals *)

Fixpoint digitsValue (acc : N) (s : JsString) : N :=
  match s with
  | c :: s' => digitsValue (acc * 10 + (c - 48))%N s'
  | [] => acc
  end.

Fixpoint spanDigits (s : JsString) : JsString * JsString :=
  match s with
  | c :: s' =>
    if is_digit c then let (ds, rest) := spanDigits s' in (c :: ds, rest)
    else ([], s)
  | [] => ([], [])
  end.

Fixpoint pow10 (n : nat) : positive :=
  match n with
  | O => 1%positive
  | S n' => (10 * pow10 n')%positive
  end.

(** The value of the digits [ip], a decimal point and the digits [fp]. *)
Definition decimalValue (ip fp : JsString) : Q :=
  Qmake (Z.of_N (digitsValue 0 (ip ++ fp))) (pow10 (length fp)).

(** [StrUnsignedDecimalLiteral] without exponent: [ddd], [ddd.], [ddd.ddd]
    or [.ddd]. *)
Definition unsignedDecimal (s : JsString) : option Q :=
  let (ip, rest) := spanDigits s in
  match rest with
  | [] => match ip with [] => None | _ => Some (decimalValue ip []) end
  | c :: s' =>
    if (c =? ch ".")%N then
      let (fp, rest') := spanDigits s' in
      match rest', ip ++ fp with
      | [], _ :: _ => Some (decimalValue ip fp)
      | _, _ => None
      end
    else None
  end.

(** The mathematical value of a numeric string, before it is rounded,
    for the strings the patterns below can capture: an optional sign and
    a decimal literal without exponent.  The empty string has the value
    0; every other string is NaN here (white space, exponents,
    hexadecimal literals and [Infinity] never occur in a capture). *)
Definition literalValue (s : JsString) : JsNumber :=
  match s with
  | [] => zero
  | c :: s' =>
    if (c =? ch "-")%N then
      match unsignedDecimal s' with Some q => NFinite (- q)%Q | None => NNaN end
    else if (c =? ch "+")%N then
      match unsignedDecimal s' with Some q => NFinite q | None => NNaN end
    else
      match unsignedDecimal s with Some q => NFinite q | None => NNaN end
  end.

(** [Number(s)]: the mathematical value, rounded to a double. *)
Definition Number (s : JsString) : JsNumber :=
  match literalValue s with
  | NFinite q => round64 q
  | n => n
  end.

(** ** mealNormalization *)

Module Nutrition.

Record NormalizedNutrition : Type := mkNutrition {
  calories : JsNumber;
  protein : JsNumber;
  carbs : JsNumber;
  fat : JsNumber;
  fiber : option JsNumber      (* fiber?: number, [None] when absent *)
}.

(** [[0-9]+(?:\.[0-9]+)?] *)
Definition decimalRe : Regex :=
  rseq [rplus CDigit; ROpt (rseq [RChar (ch "."); rplus CDigit])].

(** [(?:-|–|—|to)] *)
Definition separatorRe : Regex :=
  ralt [RChar (ch "-"); RChar EN_DASH; RChar EM_DASH; rlit "to"].

(** [/([0-9]+(?:\.[0-9]+)?)\s*(?:-|–|—|to)\s*([0-9]+(?:\.[0-9]+)?)/i] *)
Definition rangeRe : Regex :=
  rseq [RGroup 1 decimalRe; rstar CSpace; separatorRe; rstar CSpace;
        RGroup 2 decimalRe].

(** [/[-+]?[0-9]*\.?[0-9]+/] *)
Definition numberRe : Regex :=
  rseq [rquest (COneOf [ch "-"; ch "+"]); rstar CDigit; ROpt (RChar (ch "."));
        rplus CDigit].

Definition capture (i : nat) (m : MatchResult) : JsString :=
  default [] (getCapture i (groups m)).

(** The range branch of [parseNutritionNumber]: the midpoint when the
    range pattern matches and both ends convert to numbers. *)
Definition rangeMidpoint (s : JsString) : option JsNumber :=
  match stringMatch true rangeRe s with
  | Some rangeMatch =>
    let a := Number (capture 1 rangeMatch) in
    let b := Number (capture 2 rangeMatch) in
    if negb (isNaN a) && negb (isNaN b)
    then Some (Math_max zero (Math_round (js_div_pos (js_add a b) 2)))
    else None
  | None => None
  end.

(** The fallback branch: the first float or integer of the string. *)
Definition firstNumber (s : JsString) : JsNumber :=
  match stringMatch false numberRe s with
  | Some m => Math_max zero (Math_round (Number (matched m)))
  | None => zero
  end.

Definition normalizeString (value : JsString) : JsString :=
  trim (replaceAll (ch ",") (ch ".") value).

Definition parseNutritionNumber (value : JsValue) : JsNumber :=
  match value with
  | VUndefined | VNull => zero
  | VNumber n =>
    if isFinite n then Math_max zero (Math_round n) else zero
  | VString str =>
    let s := normalizeString str in
    match rangeMidpoint s with
    | Some v => v
    | None => firstNumber s
    end
  | _ => zero
  end.

(** [parseNumber]: the same without the range branch (and without
    [trim]). *)
Definition parseNumber (value : JsValue) : JsNumber :=
  match value with
  | VUndefined | VNull => zero
  | VNumber n =>
    if isFinite n then Math_max zero (Math_round n) else zero
  | VString str => firstNumber (replaceAll (ch ",") (ch ".") str)
  | _ => zero
  end.

(** *** normalizeNutritionData *)

(** Property read on a loosely typed record: [undefined] when absent. *)
Definition prop (raw : gmap string JsValue) (key : string) : JsValue :=
  default VUndefined (raw !! key).

(** [a ?? b] *)
Definition nullish (a b : JsValue) : JsValue :=
  match a with
  | VUndefined | VNull => b
  | _ => a
  end.

Notation "a ?? b" := (nullish a b) (at level 45, left associativity).

Definition normalizeNutritionData (raw : gmap string JsValue)
    : NormalizedNutrition :=
  {| calories := parseNutritionNumber
       (prop raw "calories" ?? prop raw "kalori" ?? prop raw "total_calories"
        ?? prop raw "estimasi_kalori");
     protein := parseNutritionNumber
       (prop raw "protein" ?? prop raw "protein_g" ?? prop raw "protein_grams"
        ?? prop raw "protein_gram");
     carbs := parseNutritionNumber
       (prop raw "carbs" ?? prop raw "karbohidrat" ?? prop raw "karbohidrat_g"
        ?? prop raw "carbs_grams" ?? prop raw "carbs_g");
     fat := parseNutritionNumber
       (prop raw "fat" ?? prop raw "lemak" ?? prop raw "lemak_g"
        ?? prop raw "fat_grams" ?? prop raw "fat_g");
     fiber := Some (parseNutritionNumber
       (prop raw "fiber" ?? prop raw "serat" ?? prop raw "fiber_g")) |}.

(** *** extractNutritionFromText *)

(** [[0-9]{1,4}(?:[.,][0-9]+)?] *)
Definition shortDecimalRe : Regex :=
  rseq [RRep CDigit 1 (Some 4%nat);
        ROpt (rseq [RClass (COneOf [ch "."; ch ","]); rplus CDigit])].

(** A number, optionally continued to a range. *)
Definition valueRe : Regex :=
  rseq [shortDecimalRe;
        ROpt (rseq [rstar CSpace; separatorRe; rstar CSpace; shortDecimalRe])].

(** [new RegExp(key + "\\s*[:-]?\\s*(...)", 'i')] *)
Definition keyRe (key : string) : Regex :=
  rseq [rlit key; rstar CSpace; rquest (COneOf [ch ":"; ch "-"]); rstar CSpace;
        RGroup 1 valueRe].

(** [new RegExp("(...)\\s*(?:" + keys.join('|') + ")", 'i')] *)
Definition unitRe (keys : list string) : Regex :=
  rseq [RGroup 1 valueRe; rstar CSpace; ralt (map rlit keys)].

(** [m && m[1]] *)
Definition hasCapture (i : nat) (m : option MatchResult) : bool :=
  match m with
  | Some r => match getCapture i (groups r) with
              | Some (_ :: _) => true
              | _ => false
              end
  | None => false
  end.

(** The [for (const key of keys)] loop of [searchNumber]. *)
Fixpoint searchKeys (text : JsString) (keys : list string) : option JsNumber :=
  match keys with
  | key :: keys' =>
    let m := stringMatch true (keyRe key) text in
    if hasCapture 1 m
    then option_map (fun r => parseNutritionNumber (VString (capture 1 r))) m
    else searchKeys text keys'
  | [] => None
  end.

Definition searchNumber (text : JsString) (keys : list string)
    : option JsNumber :=
  match searchKeys text keys with
  | Some v => Some v
  | None =>
    let mm := stringMatch true (unitRe keys) text in
    if hasCapture 1 mm
    then option_map (fun r => parseNutritionNumber (VString (capture 1 r))) mm
    else None
  end.

(** [text.replace(/```/g, ' ')] *)
Fixpoint replaceFences (s : JsString) : JsString :=
  match s with
  | 96%N :: (96%N :: 96%N :: s3) => 32%N :: replaceFences s3
  | c :: s' => c :: replaceFences s'
  | [] => []
  end.

Definition caloriesKeys : list string := ["calories"; "kalori"; "kcal"].
Definition proteinKeys : list string := ["protein"; "protein_g"; "proteingrams"].
Definition carbsKeys : list string :=
  ["carbs"; "carbohydrate"; "karbohidrat"; "carbs_g"].
Definition fatKeys : list string := ["fat"; "lemak"; "fat_g"].

(** [cleanedText] is computed and left unused: the searches run on
    [text]. *)
Definition extractNutritionFromText (text : JsString) : NormalizedNutrition :=
  let cleanedText := replaceFences text in
  let calories := searchNumber text caloriesKeys in
  let protein := searchNumber text proteinKeys in
  let carbs := searchNumber text carbsKeys in
  let fat := searchNumber text fatKeys in
  {| calories := default zero calories;
     protein := default zero protein;
     carbs := default zero carbs;
     fat := default zero fat;
     fiber := None |}.

(** *** isNutritionEmpty, mergeNutrition *)

(** [x === 0] *)
Definition isZero (n : JsNumber) : bool :=
  match n with
  | NFinite q => Qeq_bool q 0
  | _ => false
  end.

Definition isNutritionEmpty (nutrition : NormalizedNutrition) : bool :=
  isZero (calories nutrition) && isZero (protein nutrition)
  && isZero (carbs nutrition) && isZero (fat nutrition).

(** Truthiness of a number: neither zero nor NaN. *)
Definition truthy (n : JsNumber) : bool :=
  match n with
  | NFinite q => negb (Qeq_bool q 0)
  | NNaN => false
  | _ => true
  end.

(** [a || b] on numbers *)
Definition orElse (a b : JsNumber) : JsNumber := if truthy a then a else b.

(** [a || b] on optional numbers ([undefined] is falsy) *)
Definition orElseOpt (a b : option JsNumber) : option JsNumber :=
  match a with
  | Some x => if truthy x then a else b
  | None => b
  end.

Definition mergeNutrition (primary fallback : NormalizedNutrition)
    : NormalizedNutrition :=
  {| calories := orElse (calories primary) (calories fallback);
     protein := orElse (protein primary) (protein fallback);
     carbs := orElse (carbs primary) (carbs fallback);
     fat := orElse (fat primary) (fat fallback);
     fiber := orElseOpt (fiber primary) (fiber fallback) |}.

End Nutrition.

(** ** retry *)

Module Retry.

(** [haystack.includes(needle)] *)
Fixpoint includes (haystack needle : string) : bool :=
  if String.prefix needle haystack then true
  else match haystack with
       | String _ rest => includes rest needle
       | EmptyString => false
       end.

(** Decimal rendering of an integer inside a template literal. *)
Definition showZ (z : Z) : string := NilZero.string_of_int (Z.to_int z).

(** A [Response], as far as [retry] reads it. *)
Record Response : Type := mkResponse {
  status : Z;
  statusText : string;
  ok : bool
}.

(** Error objects are opaque values of the host: the executor reads their
    message and class, hands them on, and constructs new ones. *)
Class ErrorModel : Type := {
  ErrorObj : Type;
  message : ErrorObj -> string;
  instanceofTypeError : ErrorObj -> bool;
  newError : string -> ErrorObj              (* new Error(msg) *)
}.

Section Executor.
Context {E : ErrorModel}.

(** A thrown value: an [Error] object, or anything else, of which only
    [String(value)] is used. *)
Inductive Thrown : Type :=
| ThrownError (e : ErrorObj)
| ThrownOther (rendering : string).

(** What the awaited promise settles to; [T] stands for every result
    that is not a [Response]. *)
Context {T : Type}.

Inductive Value : Type :=
| IsResponse (r : Response)
| Other (v : T).

Inductive Outcome : Type :=
| Resolves (result : Value)
| Rejects (error : Thrown).

(** The two predicates are taken as total functions without effects. *)
Record RetryOptions : Type := mkOptions {
  maxRetries : option Z;
  initialDelay : option Q;
  maxDelay : option Q;
  backoffMultiplier : option Q;
  jitter : option bool;
  isRetryable : option (Thrown -> bool);
  isRetryableResponse : option (Response -> bool);
  errorMessagePrefix : option string
}.

Record RetryResult : Type := mkResult {
  success : bool;
  data : option Value;
  error : option ErrorObj;
  attempts : Z;
  totalTime : Z
}.

(** The host: the wrapped operation with whatever state it depends
    on, the clock, the random source and the timer. *)
Class HostModel : Type := {
  Host : Type;
  fn : Host -> Outcome * Host;             (* await fn() *)
  Date_now : Host -> Z;
  Math_random : Host -> Q * Host;
  sleep : JsNumber -> Host -> Host         (* await sleep(ms) *)
}.

Context {H : HostModel}.

(** A run of the executor: the host, and a trace of what the executor
    did to it (how often it invoked [fn], which delays it slept). *)
Record Run : Type := mkRun {
  host : Host;
  invocations : nat;
  sleeps : list JsNumber
}.

Definition invoke (w : Run) : Outcome * Run :=
  let (outcome, h) := fn (host w) in
  (outcome, mkRun h (S (invocations w)) (sleeps w)).

Definition calculateDelay (attempt : Z)
    (initialDelay maxDelay backoffMultiplier : Q) (jitter : bool)
    (h : Host) : JsNumber * Host :=
  let exponentialDelay :=
    js_times (NFinite initialDelay) (Math_pow backoffMultiplier attempt) in
  let delay := Math_min exponentialDelay (NFinite maxDelay) in
  if jitter then
    let jitterAmount := js_times delay (round64 0.2) in
    let (r, h') := Math_random h in
    let jitterValue :=
      js_times (js_sub (js_times (NFinite r) (NFinite 2)) (NFinite 1))
        jitterAmount in
    (Math_max zero (js_add delay jitterValue), h')
  else (delay, h).

Definition defaultIsRetryable (error : Thrown) : bool :=
  match error with
  | ThrownError e =>
    if instanceofTypeError e && includes (message e) "fetch" then true
    else if includes (message e) "timeout" || includes (message e) "Timeout"
    then true
    else if includes (message e) "network" || includes (message e) "Network"
    then true
    else false
  | ThrownOther _ => false
  end.

Definition defaultIsRetryableResponse (response : Response) : bool :=
  (status response >=? 500) || (status response =? 429).

(** [error instanceof Error ? error : new Error(String(error))] *)
Definition toError (error : Thrown) : ErrorObj :=
  match error with
  | ThrownError e => e
  | ThrownOther rendering => newError rendering
  end.

(** The options after destructuring, defaults applied. *)
Record Settings : Type := mkSettings {
  maxRetries' : Z;
  initialDelay' : Q;
  maxDelay' : Q;
  backoffMultiplier' : Q;
  jitter' : bool;
  isRetryable' : Thrown -> bool;
  isRetryableResponse' : Response -> bool;
  errorMessagePrefix' : string
}.

Definition destructure (options : RetryOptions) : Settings :=
  {| maxRetries' := default 3 (maxRetries options);
     initialDelay' := default 1000%Q (initialDelay options);
     maxDelay' := default 10000%Q (maxDelay options);
     backoffMultiplier' := default 2%Q (backoffMultiplier options);
     jitter' := default true (jitter options);
     isRetryable' := default defaultIsRetryable (isRetryable options);
     isRetryableResponse' :=
       default defaultIsRetryableResponse (isRetryableResponse options);
     errorMessagePrefix' :=
       default "Retry failed"%string (errorMessagePrefix options) |}.

Section Loop.
Variable o : Settings.
Variable startTime : Z.

(** [calculateDelay] followed by [await sleep(delay)]. *)
Definition backoff (attempt : Z) (w : Run) : Run :=
  let (delay, h) :=
    calculateDelay attempt (initialDelay' o) (maxDelay' o)
      (backoffMultiplier' o) (jitter' o) (host w) in
  mkRun (sleep delay h) (invocations w) (sleeps w ++ [delay]).

Definition failure (e : ErrorObj) (attempts : Z) (w : Run) : RetryResult :=
  mkResult false None (Some e) attempts (Date_now (host w) - startTime).

(** The [for] loop; [fuel] bounds the number of loop tests. *)
Fixpoint retryLoop (fuel : nat) (attempt : Z) (lastError : option ErrorObj)
    (w : Run) {struct fuel} : option (RetryResult * Run) :=
  match fuel with
  | O => None
  | S fuel' =>
    if attempt <=? maxRetries' o then
      let (outcome, w1) := invoke w in
      match outcome with
      | Resolves result =>
        let succeeded :=
          Some (mkResult true (Some result) None (attempt + 1)
                  (Date_now (host w1) - startTime), w1) in
        match result with
        | IsResponse response =>
          if negb (ok response) && isRetryableResponse' o response then
            if attempt >=? maxRetries' o then
              let error := newError
                (errorMessagePrefix' o ++ " after " ++ showZ (attempt + 1)
                 ++ " attempts: " ++ showZ (status response) ++ " "
                 ++ statusText response)%string in
              Some (failure error (attempt + 1) w1, w1)
            else retryLoop fuel' (attempt + 1) lastError (backoff attempt w1)
          else succeeded
        | Other _ => succeeded
        end
      | Rejects error =>
        let lastError := toError error in
        if negb (isRetryable' o error) then
          Some (failure lastError (attempt + 1) w1, w1)
        else if attempt >=? maxRetries' o then
          Some (failure lastError (attempt + 1) w1, w1)
        else
          retryLoop fuel' (attempt + 1) (Some lastError) (backoff attempt w1)
      end
    else
      Some (failure (default (newError "Unknown error") lastError)
              (maxRetries' o + 1) w, w)
  end.
End Loop.

(** Loop tests [retry] can need: one per attempt and the final one. *)
Definition loopBound (o : Settings) : nat := S (Z.to_nat (maxRetries' o + 1)).

Definition retry (options : RetryOptions) (w : Run)
    : option (RetryResult * Run) :=
  let o := destructure options in
  let startTime := Date_now (host w) in
  retryLoop o startTime (loopBound o) 0 None w.
End Executor.

Arguments Thrown : clear implicits.
Arguments Value : clear implicits.
Arguments Outcome : clear implicits.
Arguments RetryOptions : clear implicits.
Arguments RetryResult : clear implicits.
Arguments HostModel : clear implicits.

(** *** RetryPresets *)

Record Preset : Type := mkPreset {
  presetMaxRetries : Z;
  presetInitialDelay : Q;
  presetMaxDelay : Q;
  presetBackoffMultiplier : Q
}.

Definition quick : Preset := mkPreset 2 1000 3000 2.
Definition standard : Preset := mkPreset 3 1000 10000 2.
Definition aggressive : Preset := mkPreset 5 500 15000 2.
Definition conservative : Preset := mkPreset 2 2000 8000 2.

(** [{...preset}] as the options of a call. *)
Definition presetOptions {E : ErrorModel} (preset : Preset) : RetryOptions E :=
  mkOptions (Some (presetMaxRetries preset)) (Some (presetInitialDelay preset))
    (Some (presetMaxDelay preset)) (Some (presetBackoffMultiplier preset))
    None None None None.

(** *** retryFetch *)

Section Fetch.
Context {E : ErrorModel}.

(** The operation is [() => fetch(url, options)]: its promise settles to
    a [Response] or rejects, there is no other kind of result. *)
Context {H : HostModel E Empty_set}.

(** How the call ends: [return response] or [throw error]. *)
Inductive Completion : Type :=
| Returns (response : Response)
| Throws (error : ErrorObj).

(** [{...retryOptions, isRetryableResponse: (response) => ...}] *)
Definition fetchOptions (retryOptions : RetryOptions E) : RetryOptions E :=
  {| maxRetries := maxRetries retryOptions;
     initialDelay := initialDelay retryOptions;
     maxDelay := maxDelay retryOptions;
     backoffMultiplier := backoffMultiplier retryOptions;
     jitter := jitter retryOptions;
     isRetryable := isRetryable retryOptions;
     isRetryableResponse := Some (fun response =>
       match isRetryableResponse retryOptions with
       | Some custom => custom response
       | None => defaultIsRetryableResponse response
       end);
     errorMessagePrefix := errorMessagePrefix retryOptions |}.

Definition retryFetch (retryOptions : RetryOptions E) (w : Run)
    : option (Completion * Run) :=
  match retry (fetchOptions retryOptions) w with
  | Some (result, w') =>
    if negb (success result) then
      Some (Throws (default (newError "Fetch failed after retries")
                      (error result)), w')
    else
      match data result with
      | Some (IsResponse response) => Some (Returns response, w')
      | Some (Other v) => match v with end
      | None => Some (Throws (newError "No data returned from fetch"), w')
      end
  | None => None
  end.
End Fetch.

Arguments Completion : clear implicits.

(** *** A scripted host, in the manner of the test suite's mocks *)

Module Mock.

Record MockError : Type := mkMockError {
  isTypeError : bool;
  text : string
}.

#[export] Instance mockErrors : ErrorModel := {|
  ErrorObj := MockError;
  message := text;
  instanceofTypeError := isTypeError;
  newError := mkMockError false
|}.

(** [script]: the outcomes queued with [mock...Once]; [always]: the
    outcome once the queue is empty; [clock]: fake timers; [randoms]:
    the draws [Math.random] will return. *)
Record MockHost : Type := mkMockHost {
  script : list (Outcome mockErrors string);
  always : Outcome mockErrors string;
  clock : Z;
  randoms : list Q
}.

Definition mockFn (h : MockHost) : Outcome mockErrors string * MockHost :=
  match script h with
  | outcome :: rest => (outcome, mkMockHost rest (always h) (clock h) (randoms h))
  | [] => (always h, h)
  end.

Definition mockRandom (h : MockHost) : Q * MockHost :=
  match randoms h with
  | r :: rest => (r, mkMockHost (script h) (always h) (clock h) rest)
  | [] => ((1 # 2)%Q, h)
  end.

(** Fake timers: the clock advances by the delay, taken as 0 when it is
    no finite number. *)
Definition elapsed (ms : JsNumber) : Z :=
  match ms with
  | NFinite q => Qceiling q
  | _ => 0
  end.

Definition mockSleep (ms : JsNumber) (h : MockHost) : MockHost :=
  mkMockHost (script h) (always h) (clock h + elapsed ms) (randoms h).

#[export] Instance mockHost : HostModel mockErrors string := {|
  Host := MockHost;
  fn := mockFn;
  Date_now := clock;
  Math_random := mockRandom;
  sleep := mockSleep
|}.

Definition start (script : list (Outcome mockErrors string))
    (always : Outcome mockErrors string) : Run :=
  mkRun (mkMockHost script always 0 []) 0 [].

Definition options (maxRetries : Z) (initialDelay : Q)
    : RetryOptions mockErrors :=
  mkOptions (Some maxRetries) (Some initialDelay) None None None None None None.

Definition networkError : Thrown mockErrors :=
  ThrownError (mkMockError false "Network error").
Definition validationError : Thrown mockErrors :=
  ThrownError (mkMockError false "Validation error").

(** [vi.fn().mockRejectedValue(error)]: an operation that throws the same
    error at every call; the host state is the fake clock. *)
Definition failingHost (error : Thrown mockErrors)
    : HostModel mockErrors string := {|
  Host := Z;
  fn := fun now => (Rejects error, now);
  Date_now := fun now => now;
  Math_random := fun now => ((1 # 2)%Q, now);
  sleep := fun ms now => now + elapsed ms
|}.

Definition failingStart (error : Thrown mockErrors)
    : Run (H := failingHost error) :=
  mkRun (H := failingHost error) 0 0 [].

Definition response (status : Z) : Value string :=
  IsResponse (mkResponse status "" ((200 <=? status) && (status <=? 299))).

(** [fetch] mocked to resolve with the same response at every call; the
    host state is the fake clock. *)
Definition respondingHost (r : Response) : HostModel mockErrors Empty_set := {|
  Host := Z;
  fn := fun now => (Resolves (IsResponse r), now);
  Date_now := fun now => now;
  Math_random := fun now => ((1 # 2)%Q, now);
  sleep := fun ms now => now + elapsed ms
|}.

Definition respondingStart (r : Response) : Run (H := respondingHost r) :=
  mkRun (H := respondingHost r) 0 0 [].


(** The options of the call of the analysis service: the standard
    preset, with a prefix and the response predicate written out. *)
Definition analysisOptions : RetryOptions mockErrors :=
  mkOptions (Some (presetMaxRetries standard)) (Some (presetInitialDelay standard))
    (Some (presetMaxDelay standard)) (Some (presetBackoffMultiplier standard))
    None None
    (Some (fun response => (status response >=? 500) || (status response =? 429)))
    (Some "Failed to call nutrition-ai"%string).

(** Three retries from one second on, jitter off. *)
Definition steadyOptions : RetryOptions mockErrors :=
  mkOptions (Some 3) (Some 1000%Q) (Some 10000%Q) (Some 2%Q) (Some false)
    None None None.

Definition unavailable : Response := mkResponse 503 "Service Unavailable" false.
Definition notFound : Response := mkResponse 404 "Not Found" false.

End Mock.

End Retry.

(** ** imageCompression *)

Module ImageCompression.

(** [x.toFixed(1)] for a finite [x] from 0 to below 10^21, where it
    prints no exponent: the digits of the integer [n] for which [n / 10]
    is nearest to [x], the larger one on a tie, with a point before the
    last digit. *)
Definition toFixed1 (x : Q) : string :=
  let n := Qfloor (x * 10 + (1 # 2))%Q in
  (Retry.showZ (n / 10) ++ "." ++ Retry.showZ (n mod 10))%string.

(** [formatFileSize] on a size that is an integer number of bytes from
    0 to below 2^53, as [File.size] and [Blob.size] are.  There [bytes],
    [bytes / 1024] and [bytes / (1024 * 1024)] are doubles, so that the
    two divisions round nothing, and the quotients are far below 10^21. *)
Definition formatFileSize (bytes : Z) : string :=
  if bytes <? 1024 then (Retry.showZ bytes ++ " B")%string
  else if bytes <? 1024 * 1024
       then (toFixed1 (inject_Z bytes / 1024) ++ " KB")%string
       else (toFixed1 (inject_Z bytes / (1024 * 1024)) ++ " MB")%string.


(** *** compressImage *)

Record Blob {Data : Type} : Type := mkBlob {
  blobSize : Z;
  blobData : Data
}.

Record File {Data : Type} : Type := mkFile {
  size : Z;
  name : string;
  type : string;
  lastModified : Z;
  data : Data
}.

Arguments Blob : clear implicits.
Arguments File : clear implicits.
Arguments mkBlob {Data} blobSize blobData.
Arguments mkFile {Data} size name type lastModified data.

Record CompressionOptions : Type := mkCompressionOptions {
  maxSizeMB : option Q;
  maxWidthOrHeight : option Q;
  quality : option Q
}.

Record CompressionResult {Data : Type} : Type := mkCompressionResult {
  file : File Data;
  originalSize : Z;
  compressedSize : Z;
  compressionRatio : JsNumber
}.

Arguments CompressionResult : clear implicits.
Arguments mkCompressionResult {Data} file originalSize compressedSize
  compressionRatio.

(** The canvas once the image is drawn on it: the image and the two
    dimensions assigned to it. *)
Record Canvas : Type := mkCanvas {
  source : string;
  canvasWidth : JsNumber;
  canvasHeight : JsNumber
}.

(** Which handler of the [FileReader] is called: [onerror], or [onload]
    with [e.target?.result]. *)
Inductive ReadEvent : Type :=
| ReadError
| ReadLoad (result : option string).

(** Which handler of the [Image] is called: [onerror], or [onload] with
    [img.width] and [img.height]. *)
Inductive ImageEvent : Type :=
| ImageError
| ImageLoad (width height : N).

Section Compress.
Context {E : Retry.ErrorModel}.

(** [canvas.toBlob] throws, or calls back with a blob or [null]. *)
Inductive BlobEvent {Data : Type} : Type :=
| BlobThrows (error : Retry.Thrown E)
| BlobCallback (blob : option (Blob Data)).

Arguments BlobEvent : clear implicits.

(** The browser around [compressImage].  The constructors ([FileReader],
    [Image], [File]), [document.createElement] and the assignments to the
    canvas are taken not to throw; each reader and each image calls
    exactly one of its two handlers. *)
Class CanvasModel : Type := {
  Data : Type;
  readAsDataURL : File Data -> ReadEvent;
  loadImage : string -> ImageEvent;                 (* img.src = ... *)
  getContext2d : Canvas -> bool;                    (* is the context there *)
  drawImage : Canvas -> option (Retry.Thrown E);    (* the error it throws *)
  toBlob : Canvas -> Q -> BlobEvent Data;           (* type image/jpeg *)
  Date_now : Z
}.

Context {C : CanvasModel}.

(** How the promise ends; it stays pending when the second [toBlob],
    called outside the [try] block, throws. *)
Inductive Promise : Type :=
| Resolved (result : CompressionResult Data)
| Rejected (error : Retry.Thrown E)
| Pending.

(** The new dimensions: the longer side becomes [maxWidthOrHeight] when
    one side exceeds it. *)
Definition newDimensions (width height : N) (maxWidthOrHeight : Q)
    : JsNumber * JsNumber :=
  let w := inject_Z (Z.of_N width) in
  let h := inject_Z (Z.of_N height) in
  if Qgt_bool w maxWidthOrHeight || Qgt_bool h maxWidthOrHeight then
    if Qgt_bool w h
    then (NFinite maxWidthOrHeight, js_mul (js_div h w) maxWidthOrHeight)
    else (js_mul (js_div w h) maxWidthOrHeight, NFinite maxWidthOrHeight)
  else (NFinite w, NFinite h).

(** [resolve({file: new File([blob], file.name, ...), ...})] *)
Definition compressedTo (original : File Data) (blob : Blob Data)
    : Promise :=
  Resolved
    {| file := mkFile (blobSize blob) (name original) "image/jpeg" Date_now
                 (blobData blob);
       originalSize := size original;
       compressedSize := blobSize blob;
       compressionRatio :=
         js_div (inject_Z (blobSize blob)) (inject_Z (size original)) |}.

Definition rejectWith (message : string) : Promise :=
  Rejected (Retry.ThrownError (Retry.newError message)).

Definition compressImage (original : File Data) (options : CompressionOptions)
    : Promise :=
  let maxSizeMB := default 1%Q (maxSizeMB options) in
  let maxWidthOrHeight := default 1920%Q (maxWidthOrHeight options) in
  let quality := default 0.8%Q (quality options) in
  let originalSize := size original in
  let maxSizeBytes := (maxSizeMB * 1024 * 1024)%Q in
  if Qle_bool (inject_Z originalSize) maxSizeBytes then
    Resolved {| file := original;
                originalSize := originalSize;
                compressedSize := originalSize;
                compressionRatio := NFinite 1 |}
  else
    match readAsDataURL original with
    | ReadLoad (Some (String c url)) =>
      match loadImage (String c url) with
      | ImageLoad imgWidth imgHeight =>
        let (width, height) := newDimensions imgWidth imgHeight maxWidthOrHeight in
        let canvas := mkCanvas (String c url) width height in
        if negb (getContext2d canvas) then rejectWith "Failed to get canvas context"
        else
          match drawImage canvas with
          | Some error => Rejected error
          | None =>
            match toBlob canvas quality with
            | BlobThrows error => Rejected error
            | BlobCallback None => rejectWith "Failed to compress image"
            | BlobCallback (Some blob) =>
              if Qgt_bool (inject_Z (blobSize blob)) maxSizeBytes
                 && Qgt_bool quality 0.5
              then
                match toBlob canvas (quality * 0.7)%Q with
                | BlobThrows _ => Pending
                | BlobCallback None => compressedTo original blob
                | BlobCallback (Some smallerBlob) =>
                  compressedTo original smallerBlob
                end
              else compressedTo original blob
            end
          end
      | ImageError => rejectWith "Failed to load image"
      end
    | ReadLoad _ => rejectWith "Failed to read file"
    | ReadError => rejectWith "Failed to read file"
    end.

End Compress.

Arguments BlobEvent {E} Data.
Arguments Promise {E C}.

(** A browser for examples: every image is 4000 by 3000, and the canvas
    encodes to a million bytes times the quality. *)
Definition exampleCanvas : CanvasModel (E := Retry.Mock.mockErrors) := {|
  Data := unit;
  readAsDataURL := fun _ => ReadLoad (Some "data:image/png;base64,iVBORw0KGgo=");
  loadImage := fun _ => ImageLoad 4000 3000;
  getContext2d := fun _ => true;
  drawImage := fun _ => None;
  toBlob := fun _ quality =>
    BlobCallback (Some (mkBlob (Qfloor (quality * 1000000)) tt));
  Date_now := 1761955200000
|}.

Definition examplePhoto : File unit :=
  mkFile 5000000 "meal.png" "image/png" 1761955100000 tt.

End ImageCompression.

(** ** performanceMonitor: the metrics buffer and the tracked calls *)

Module PerformanceMonitor.
Import Retry.

Record PerformanceMetric : Type := mkMetric {
  name : string;
  value : JsNumber;
  unit : string;
  timestamp : string;
  context : gmap string JsValue
}.

Definition MAX_BUFFER_SIZE : nat := 50.

(** The browser, as far as the monitor reads it and acts on it: the
    user agent, the path of the page, the two clocks, the build mode and
    the development log. *)
Class BrowserModel : Type := {
  Browser : Type;
  navigator_userAgent : Browser -> JsString;
  location_pathname : Browser -> JsString;
  Date_toISOString : Browser -> string;      (* new Date().toISOString() *)
  performance_now : Browser -> Q;
  DEV : bool;                                  (* import.meta.env.DEV *)
  logPerformance :
    string -> JsNumber -> string -> option (gmap string JsValue)
    -> Browser -> Browser
}.

Section Monitor.
Context {E : ErrorModel} {B : BrowserModel}.

(** The state of the module: [metricsBuffer], oldest metric first, and
    the browser around it. *)
Record Monitor : Type := mkMonitor {
  metricsBuffer : list PerformanceMetric;
  browser : Browser
}.

(** [const metric = {...}]: the properties [userAgent] and [url] are
    written after the spread of [context]. *)
Definition metric (name : string) (value : JsNumber) (unit : string)
    (context : option (gmap string JsValue)) (b : Browser) : PerformanceMetric :=
  {| name := name;
     value := value;
     unit := unit;
     timestamp := Date_toISOString b;
     context :=
       <["url"%string := VString (location_pathname b)]>
         (<["userAgent"%string := VString (navigator_userAgent b)]>
            (default ∅ context)) |}.

Definition recordMetric (name : string) (value : JsNumber) (unit : option string)
    (context : option (gmap string JsValue)) (st : Monitor) : Monitor :=
  let unit := default "ms"%string unit in
  let pushed := metricsBuffer st ++ [metric name value unit context (browser st)] in
  let b := if DEV then logPerformance name value unit context (browser st)
           else browser st in
  if (MAX_BUFFER_SIZE <? length pushed)%nat
  then mkMonitor (tail pushed) b      (* metricsBuffer.shift() *)
  else mkMonitor pushed b.

Definition getMetricsBuffer (st : Monitor) : list PerformanceMetric :=
  metricsBuffer st.

Definition clearMetricsBuffer (st : Monitor) : Monitor :=
  mkMonitor [] (browser st).

(** How an awaited call settles. *)
Inductive Settled (A : Type) : Type :=
| Fulfilled (result : A)
| Rejected (error : Thrown E).

Arguments Fulfilled {A} result.
Arguments Rejected {A} error.

(** [error instanceof Error ? error.message : String(error)] *)
Definition errorText (error : Thrown E) : string :=
  match error with
  | ThrownError e => message e
  | ThrownOther rendering => rendering
  end.

Definition trackAPICall {A : Type} (apiName : string)
    (apiCall : Monitor -> Settled A * Monitor)
    (context : option (gmap string JsValue)) (st : Monitor)
    : Settled A * Monitor :=
  let startTime := performance_now (browser st) in
  let (outcome, st1) := apiCall st in
  let duration := (performance_now (browser st1) - startTime)%Q in
  match outcome with
  | Fulfilled result =>
    (Fulfilled result,
     recordMetric ("api-" ++ apiName) (NFinite duration) (Some "ms"%string)
       (Some (<["type"%string := VString (js "api-call")]>
                (<["success"%string := VBool true]> (default ∅ context))))
       st1)
  | Rejected error =>
    (Rejected error,
     recordMetric ("api-" ++ apiName) (NFinite duration) (Some "ms"%string)
       (Some (<["type"%string := VString (js "api-call")]>
                (<["error"%string := VString (js (errorText error))]>
                   (<["success"%string := VBool false]> (default ∅ context)))))
       st1)
  end.

Definition trackEdgeFunction (functionName : string)
    (functionCall : Monitor -> Settled Response * Monitor)
    (context : option (gmap string JsValue)) (st : Monitor)
    : Settled Response * Monitor :=
  let startTime := performance_now (browser st) in
  let (outcome, st1) := functionCall st in
  let duration := (performance_now (browser st1) - startTime)%Q in
  match outcome with
  | Fulfilled response =>
    (Fulfilled response,
     recordMetric ("edge-" ++ functionName) (NFinite duration) (Some "ms"%string)
       (Some (<["type"%string := VString (js "edge-function")]>
                (<["status"%string := VNumber (ofZ (status response))]>
                   (<["success"%string := VBool (ok response)]>
                      (default ∅ context)))))
       st1)
  | Rejected error =>
    (Rejected error,
     recordMetric ("edge-" ++ functionName) (NFinite duration) (Some "ms"%string)
       (Some (<["type"%string := VString (js "edge-function")]>
                (<["error"%string := VString (js (errorText error))]>
                   (<["success"%string := VBool false]> (default ∅ context)))))
       st1)
  end.

(** A call of [recordMetric], by its arguments. *)
Record MetricCall : Type := mkCall {
  callName : string;
  callValue : JsNumber;
  callUnit : option string;
  callContext : option (gmap string JsValue)
}.

Definition record (st : Monitor) (c : MetricCall) : Monitor :=
  recordMetric (callName c) (callValue c) (callUnit c) (callContext c) st.

(** The calls made one after the other, and the metrics they build. *)
Definition recordAll (calls : list MetricCall) (st : Monitor) : Monitor :=
  fold_left record calls st.

Fixpoint recorded (calls : list MetricCall) (st : Monitor)
    : list PerformanceMetric :=
  match calls with
  | [] => []
  | c :: calls' =>
    metric (callName c) (callValue c) (default "ms"%string (callUnit c))
      (callContext c) (browser st)
    :: recorded calls' (record st c)
  end.

End Monitor.

Arguments Settled {E} A.
Arguments Fulfilled {E A} result.
Arguments Rejected {E A} error.

(** A browser for examples: the state is the reading of
    [performance.now()]. *)
Definition exampleBrowser : BrowserModel := {|
  Browser := Q;
  navigator_userAgent := fun _ => js "Mozilla/5.0";
  location_pathname := fun _ => js "/history";
  Date_toISOString := fun _ => "2025-11-01T00:00:00.000Z"%string;
  performance_now := fun now => now;
  DEV := false;
  logPerformance := fun _ _ _ _ now => now
|}.

End PerformanceMonitor.

(** ** What a pattern matches: the relational reading

    [Matches ic r w caps caps'] says that pattern [r] matches exactly the
    word [w], turning captures [caps] into [caps'].  The backtracking
    matcher is compared with it below. *)

Inductive Matches (ic : bool) : Regex -> JsString -> Captures -> Captures -> Prop :=
| MEmpty caps : Matches ic REmpty [] caps caps
| MChar c x caps :
    canonicalize ic x = canonicalize ic c ->
    Matches ic (RChar c) [x] caps caps
| MClass cl x caps :
    class_mem cl x = true ->
    Matches ic (RClass cl) [x] caps caps
| MSeq r1 r2 w1 w2 caps caps1 caps2 :
    Matches ic r1 w1 caps caps1 ->
    Matches ic r2 w2 caps1 caps2 ->
    Matches ic (RSeq r1 r2) (w1 ++ w2) caps caps2
| MAltL r1 r2 w caps caps' :
    Matches ic r1 w caps caps' ->
    Matches ic (RAlt r1 r2) w caps caps'
| MAltR r1 r2 w caps caps' :
    Matches ic r2 w caps caps' ->
    Matches ic (RAlt r1 r2) w caps caps'
| MOptSkip r caps : Matches ic (ROpt r) [] caps caps
| MOptTake r w caps caps' :
    Matches ic r w caps caps' -> w <> [] ->
    Matches ic (ROpt r) w caps caps'
| MRep cl lo hi w caps :
    forallb (class_mem cl) w = true ->
    (lo <= length w)%nat ->
    (forall h, hi = Some h -> (length w <= h)%nat) ->
    Matches ic (RRep cl lo hi) w caps caps
| MGroup i r w caps caps' :
    Matches ic r w caps caps' ->
    Matches ic (RGroup i r) w caps (setCapture i w caps').

(** [r] matches somewhere in [s], starting after [pre]. *)
Definition OccursAt (ic : bool) (r : Regex) (s pre w : JsString) : Prop :=
  exists post caps', s = pre ++ w ++ post /\ Matches ic r w [] caps'.

Definition Occurs (ic : bool) (r : Regex) (s : JsString) : Prop :=
  exists pre w, OccursAt ic r s pre w.

(** Patterns without a capturing group. *)
Fixpoint groupFree (r : Regex) : bool :=
  match r with
  | REmpty | RChar _ | RClass _ | RRep _ _ _ => true
  | RSeq r1 r2 | RAlt r1 r2 => groupFree r1 && groupFree r2
  | ROpt r1 => groupFree r1
  | RGroup _ _ => false
  end.

(** [rest] does not go on with a code unit satisfying [P]: a run of
    such code units ends before it. *)
Definition endsRun (P : CodeUnit -> bool) (rest : JsString) : Prop :=
  match rest with c :: _ => P c = false | [] => True end.

Definition stopsAt (cl : CharClass) (rest : JsString) : Prop :=
  endsRun (class_mem cl) rest.

(** ** The words of the specification *)

Definition Digits (w : JsString) : Prop := forallb is_digit w = true.
Definition Spaces (w : JsString) : Prop := forallb is_space w = true.

(** An unsigned integer or decimal: [ddd] or [ddd.ddd]. *)
Definition Decimal (w : JsString) : Prop :=
  exists ip, Digits ip /\ ip <> [] /\
    (w = ip \/ exists fp, Digits fp /\ fp <> [] /\ w = ip ++ ch "." :: fp).

(** A range separator: [-], an en dash, an em dash, or the word "to" in
    either case. *)
Definition Separator (w : JsString) : Prop :=
  w = [ch "-"] \/ w = [EN_DASH] \/ w = [EM_DASH] \/
  exists t o, (t = ch "t" \/ t = ch "T") /\ (o = ch "o" \/ o = ch "O")
              /\ w = [t; o].

(** [s] reads [pre A ws1 sep ws2 B post]: a range from [A] to [B]. *)
Definition RangeAt (s pre A B : JsString) : Prop :=
  exists ws1 sep ws2 post,
    s = pre ++ A ++ ws1 ++ sep ++ ws2 ++ B ++ post /\
    Decimal A /\ Spaces ws1 /\ Separator sep /\ Spaces ws2 /\ Decimal B.

Definition HasRange (s : JsString) : Prop := exists pre A B, RangeAt s pre A B.

(** A signed or unsigned integer or decimal: an optional sign, optional
    integer digits, an optional point, and digits. *)
Definition SignedNumber (w : JsString) : Prop :=
  exists sign ip point fp,
    w = sign ++ ip ++ point ++ fp /\
    (sign = [] \/ sign = [ch "-"] \/ sign = [ch "+"]) /\
    Digits ip /\ (point = [] \/ point = [ch "."]) /\ Digits fp /\ fp <> [].

(** The same without a sign. *)
Definition UnsignedNumber (w : JsString) : Prop :=
  exists ip point fp,
    w = ip ++ point ++ fp /\
    Digits ip /\ (point = [] \/ point = [ch "."]) /\ Digits fp /\ fp <> [].

Definition NumberAt (s pre w : JsString) : Prop :=
  exists post, s = pre ++ w ++ post /\ SignedNumber w.

Definition HasDigit (s : JsString) : Prop := existsb is_digit s = true.

(** The code units a decimal is written with. *)
Definition decimalUnit (c : CodeUnit) : bool := is_digit c || (c =? ch ".")%N.

(** [max(0, round(x))], with [round] the nearest integer and halves
    rounded up. *)
Definition clampRound (x : Q) : JsNumber :=
  ofZ (Z.max 0 (Qfloor (x + (1 # 2))%Q)).

(** [Math.max(0, Math.round(x))] on the double nearest to [x]. *)
Definition clamp64 (x : Q) : JsNumber :=
  Math_max zero (Math_round (round64 x)).

(** [Math.max(0, Math.round((a + b) / 2))] on the doubles nearest to [a]
    and [b]. *)
Definition midpoint64 (a b : Q) : JsNumber :=
  Math_max zero (Math_round (js_div_pos (js_add (round64 a) (round64 b)) 2)).

(** The order of the numbers other than NaN. *)
Definition js_le (a b : JsNumber) : Prop :=
  match a, b with
  | NNaN, _ | _, NNaN => False
  | NNegInf, _ | _, NPosInf => True
  | NFinite p, NFinite q => (p <= q)%Q
  | _, _ => False
  end.

(** A rational that is a double. *)
Definition IsDouble (q : Q) : Prop :=
  exists r, round64 q = NFinite r /\ (r == q)%Q.

(** A value other than a string. *)
Definition notString (v : JsValue) : Prop := forall str, v <> VString str.

(** A non-negative integer, or positive infinity. *)
Definition CountOrInfinity (n : JsNumber) : Prop :=
  (exists z, 0 <= z /\ n = ofZ z) \/ n = NPosInf.

(** The first alias of [keys] whose value in [raw] is present, that is
    neither missing, [undefined] nor [null]. *)
Fixpoint firstPresent (raw : gmap string JsValue) (keys : list string) : JsValue :=
  match keys with
  | key :: keys' =>
    match raw !! key with
    | Some VUndefined | Some VNull | None => firstPresent raw keys'
    | Some v => v
    end
  | [] => VUndefined
  end.

(** A number as the extraction patterns write it: one to four integer
    digits, then optionally a period or a comma and a fraction. *)
Definition ShortDecimal (w : JsString) : Prop :=
  exists ip, Digits ip /\ (1 <= length ip <= 4)%nat /\
    (w = ip \/
     exists p fp, (p = ch "." \/ p = ch ",") /\ Digits fp /\ fp <> [] /\
                  w = ip ++ p :: fp).

(** What the value group of the extraction patterns captures: such a
    number, or a range of two of them. *)
Definition ValueWord (w : JsString) : Prop :=
  ShortDecimal w \/
  exists A ws1 sep ws2 B,
    w = A ++ ws1 ++ sep ++ ws2 ++ B /\
    ShortDecimal A /\ Spaces ws1 /\ Separator sep /\ Spaces ws2 /\ ShortDecimal B.

(** The property names [normalizeNutritionData] reads. *)
Definition aliasKeys : list string :=
  ["calories"; "kalori"; "total_calories"; "estimasi_kalori";
   "protein"; "protein_g"; "protein_grams"; "protein_gram";
   "carbs"; "karbohidrat"; "karbohidrat_g"; "carbs_grams"; "carbs_g";
   "fat"; "lemak"; "lemak_g"; "fat_grams"; "fat_g";
   "fiber"; "serat"; "fiber_g"]%string.

(** A number other than NaN. *)
Definition notNaN (n : JsNumber) : Prop := isNaN n = false.

(** The sum of a list of delays. *)
Definition Qsum (l : list Q) : Q := fold_right Qplus 0%Q l.

(** The longest delay [calculateDelay] returns for attempt [n]: its
    [delay], plus its [jitterAmount] when jitter is on. *)
Definition longestDelay (n : Z) (initialDelay maxDelay backoffMultiplier : Q)
    (jitter : bool) : JsNumber :=
  let delay :=
    Math_min (js_times (NFinite initialDelay) (Math_pow backoffMultiplier n))
      (NFinite maxDelay) in
  if jitter then js_add delay (js_times delay (round64 0.2)) else delay.

(** [needle] occurs somewhere in [haystack]. *)
Definition Contains (needle haystack : string) : Prop :=
  exists pre post, haystack = (pre ++ needle ++ post)%string.

(** * Properties of the retry executor *)

Section RetryFacts.
Import Retry.
Context {E : ErrorModel} {T : Type} {H : HostModel E T}.

(** A settled value on which the executor stops with success: anything
    but a response that is not ok and flagged by [isRetryableResponse]. *)
Definition accepted (o : Settings) (v : Value T) : bool :=
  match v with
  | IsResponse r => negb (negb (ok r) && isRetryableResponse' o r)
  | Other _ => true
  end.

(** A call that makes at most [maxAttempts] attempts and sleeps at most
    [total] milliseconds in all. *)
Definition waitsAtMost (options : RetryOptions E) (w : Run)
    (maxAttempts : Z) (total : Q) : Prop :=
  exists res w' delays,
    retry options w = Some (res, w') /\
    sleeps w' = sleeps w ++ map NFinite delays /\
    attempts res <= maxAttempts /\ (Qsum delays <= total)%Q.

Lemma invoke_outcome (w : Run) : fst (invoke w) = fst (fn (host w)).
Proof. unfold invoke. destruct (fn (host w)); reflexivity. Qed.

Lemma invoke_invocations (w : Run) :
  invocations (snd (invoke w)) = S (invocations w).
Proof. unfold invoke. destruct (fn (host w)); reflexivity. Qed.

Lemma invoke_sleeps (w : Run) : sleeps (snd (invoke w)) = sleeps w.
Proof. unfold invoke. destruct (fn (host w)); reflexivity. Qed.

Lemma backoff_invocations (o : Settings) (attempt : Z) (w : Run) :
  invocations (backoff o attempt w) = invocations w.
Proof.
  unfold backoff. destruct (calculateDelay _ _ _ _ _ _); reflexivity.
Qed.

Lemma backoff_sleeps (o : Settings) (attempt : Z) (w : Run) :
  sleeps (backoff o attempt w) =
  sleeps w ++ [fst (calculateDelay attempt (initialDelay' o) (maxDelay' o)
                      (backoffMultiplier' o) (jitter' o) (host w))].
Proof.
  unfold backoff. destruct (calculateDelay _ _ _ _ _ _) as [d h]. reflexivity.
Qed.

(** One turn of the loop, by the outcome of the attempt. *)
Lemma retryLoop_step (o : Settings) (startTime : Z) (fuel : nat)
    (attempt : Z) (lastError : option ErrorObj) (w : Run) :
  attempt <= maxRetries' o ->
  retryLoop o startTime (S fuel) attempt lastError w =
  let w1 := snd (invoke w) in
  match fst (invoke w) with
  | Resolves v =>
    if accepted o v then
      Some (mkResult true (Some v) None (attempt + 1)
              (Date_now (host w1) - startTime), w1)
    else if attempt >=? maxRetries' o then
      match v with
      | IsResponse r =>
        Some (failure startTime
                (newError (errorMessagePrefix' o ++ " after "
                           ++ showZ (attempt + 1) ++ " attempts: "
                           ++ showZ (status r) ++ " " ++ statusText r)%string)
                (attempt + 1) w1, w1)
      | Other _ => None
      end
    else retryLoop o startTime fuel (attempt + 1) lastError (backoff o attempt w1)
  | Rejects e =>
    if negb (isRetryable' o e) || (attempt >=? maxRetries' o) then
      Some (failure startTime (toError e) (attempt + 1) w1, w1)
    else retryLoop o startTime fuel (attempt + 1) (Some (toError e))
           (backoff o attempt w1)
  end.
Proof.
  intros Hle. cbn [retryLoop].
  apply Z.leb_le in Hle. rewrite Hle.
  destruct (invoke w) as [[v | e] w1]; cbn [fst snd].
  - destruct v as [r | v]; cbn [accepted]; [|reflexivity].
    destruct (negb (ok r) && isRetryableResponse' o r); cbn [negb]; reflexivity.
  - destruct (negb (isRetryable' o e)); cbn [orb]; [reflexivity|].
    destruct (attempt >=? maxRetries' o); reflexivity.
Qed.

(** The loop returns, and its count of attempts is the count of
    invocations it made. *)
Lemma retryLoop_counts (o : Settings) (startTime : Z) :
  forall (fuel : nat) (attempt : Z) (lastError : option ErrorObj) (w : Run),
    attempt <= maxRetries' o ->
    (Z.to_nat (maxRetries' o - attempt) < fuel)%nat ->
    exists res w',
      retryLoop o startTime fuel attempt lastError w = Some (res, w') /\
      Z.of_nat (invocations w') = Z.of_nat (invocations w) + (attempts res - attempt) /\
      attempt + 1 <= attempts res <= maxRetries' o + 1.
Proof.
  induction fuel as [|fuel IH]; intros attempt lastError w Hle Hfuel; [lia|].
  rewrite retryLoop_step by assumption. cbv zeta.
  pose proof (invoke_invocations w) as Hinv.
  assert (Hdone : forall res : RetryResult E T,
    attempts res = attempt + 1 ->
    exists res' w', Some (res, snd (invoke w)) = Some (res', w') /\
      Z.of_nat (invocations w') = Z.of_nat (invocations w) + (attempts res' - attempt) /\
      attempt + 1 <= attempts res' <= maxRetries' o + 1).
  { intros res Hres. exists res, (snd (invoke w)).
    split; [reflexivity|]. rewrite Hinv, Hres. lia. }
  assert (Hnext : forall lastError',
    (attempt >=? maxRetries' o) = false ->
    exists res w',
      retryLoop o startTime fuel (attempt + 1) lastError'
        (backoff o attempt (snd (invoke w))) = Some (res, w') /\
      Z.of_nat (invocations w') = Z.of_nat (invocations w) + (attempts res - attempt) /\
      attempt + 1 <= attempts res <= maxRetries' o + 1).
  { intros lastError' Hlt.
    rewrite Z.geb_leb in Hlt. apply Z.leb_gt in Hlt.
    destruct (IH (attempt + 1) lastError' (backoff o attempt (snd (invoke w))))
      as (res & w' & Hrun & Hcount & Hrange); [lia | lia |].
    exists res, w'. split; [exact Hrun|].
    rewrite backoff_invocations, Hinv in Hcount. lia. }
  destruct (fst (invoke w)) as [v | e].
  - destruct (accepted o v) eqn:Hacc; [apply Hdone; reflexivity|].
    destruct (attempt >=? maxRetries' o) eqn:Hge; [|apply Hnext; reflexivity].
    destruct v as [r | v]; [apply Hdone; reflexivity | discriminate Hacc].
  - destruct (negb (isRetryable' o e)); cbn [orb]; [apply Hdone; reflexivity|].
    destruct (attempt >=? maxRetries' o) eqn:Hge;
      [apply Hdone; reflexivity | apply Hnext; reflexivity].
Qed.

Lemma step_accept (o : Settings) (startTime : Z) (fuel : nat) (attempt : Z)
    (lastError : option ErrorObj) (w : Run) (v : Value T) :
  attempt <= maxRetries' o ->
  fst (fn (host w)) = Resolves v -> accepted o v = true ->
  retryLoop o startTime (S fuel) attempt lastError w =
  Some (mkResult true (Some v) None (attempt + 1)
          (Date_now (host (snd (invoke w))) - startTime), snd (invoke w)).
Proof.
  intros Hle Hfn Hacc. rewrite retryLoop_step by assumption.
  cbv zeta. rewrite invoke_outcome, Hfn, Hacc. reflexivity.
Qed.

Lemma step_again_response (o : Settings) (startTime : Z) (fuel : nat)
    (attempt : Z) (lastError : option ErrorObj) (w : Run) (v : Value T) :
  attempt < maxRetries' o ->
  fst (fn (host w)) = Resolves v -> accepted o v = false ->
  retryLoop o startTime (S fuel) attempt lastError w =
  retryLoop o startTime fuel (attempt + 1) lastError
    (backoff o attempt (snd (invoke w))).
Proof.
  intros Hlt Hfn Hacc. rewrite retryLoop_step by lia.
  cbv zeta. rewrite invoke_outcome, Hfn, Hacc.
  replace (attempt >=? maxRetries' o) with false; [reflexivity|].
  symmetry. rewrite Z.geb_leb. apply Z.leb_gt. exact Hlt.
Qed.

Lemma step_again_error (o : Settings) (startTime : Z) (fuel : nat)
    (attempt : Z) (lastError : option ErrorObj) (w : Run) (e : Thrown E) :
  attempt < maxRetries' o ->
  fst (fn (host w)) = Rejects e -> isRetryable' o e = true ->
  retryLoop o startTime (S fuel) attempt lastError w =
  retryLoop o startTime fuel (attempt + 1) (Some (toError e))
    (backoff o attempt (snd (invoke w))).
Proof.
  intros Hlt Hfn Hretry. rewrite retryLoop_step by lia.
  cbv zeta. rewrite invoke_outcome, Hfn, Hretry. cbn [negb orb].
  replace (attempt >=? maxRetries' o) with false; [reflexivity|].
  symmetry. rewrite Z.geb_leb. apply Z.leb_gt. exact Hlt.
Qed.

Lemma step_give_up (o : Settings) (startTime : Z) (fuel : nat)
    (attempt : Z) (lastError : option ErrorObj) (w : Run) (e : Thrown E) :
  attempt <= maxRetries' o ->
  fst (fn (host w)) = Rejects e ->
  isRetryable' o e = false \/ attempt = maxRetries' o ->
  retryLoop o startTime (S fuel) attempt lastError w =
  Some (failure startTime (toError e) (attempt + 1) (snd (invoke w)),
        snd (invoke w)).
Proof.
  intros Hle Hfn Hwhy. rewrite retryLoop_step by assumption.
  cbv zeta. rewrite invoke_outcome, Hfn.
  destruct Hwhy as [-> | ->]; [reflexivity|].
  replace (maxRetries' o >=? maxRetries' o) with true.
  - destruct (negb (isRetryable' o e)); reflexivity.
  - symmetry. rewrite Z.geb_leb. apply Z.leb_le. lia.
Qed.

Lemma loopBound_enough (o : Settings) :
  (Z.to_nat (maxRetries' o - 0) < loopBound o)%nat.
Proof. unfold loopBound. lia. Qed.
Lemma loopBound_two (o : Settings) :
  1 <= maxRetries' o -> exists fuel, Z.to_nat (maxRetries' o + 1) = S fuel.
Proof.
  intros Hm. exists (Z.to_nat (maxRetries' o)).
  rewrite <- Z2Nat.inj_succ by lia. f_equal.
Qed.

(** Outside the data model: with a negative [maxRetries] the loop body
    never runs, the operation is not invoked, and the statement after the
    loop returns [maxRetries + 1] attempts. *)
Lemma retry_negative_budget (options : RetryOptions E) (w : Run) :
  maxRetries' (destructure options) < 0 ->
  retry options w =
  Some (failure (Date_now (host w)) (newError "Unknown error")
          (maxRetries' (destructure options) + 1) w, w).
Proof.
  intros Hneg. unfold retry, loopBound. cbv zeta. cbn [retryLoop].
  replace (0 <=? maxRetries' (destructure options)) with false; [reflexivity|].
  symmetry. apply Z.leb_gt. exact Hneg.
Qed.

(** C1. With a non-negative [maxRetries], [retry] returns, the
    [attempts] of its result is exactly the number of invocations of
    the operation during the run, and lies between 1 and
    [maxRetries + 1].  Success at the first call gives attempts 1 and
    one invocation; a retryable error followed by success gives
    attempts 2; an operation that always throws a retryable error
    under [maxRetries = 2] gives failure, attempts 3 and three
    invocations; a 500 response followed by a 200 response under the
    default response predicate gives success with attempts 2. *)
Theorem retry_attempts_count_invocations
    (options : RetryOptions E) (w : Run) :
  let o := destructure options in
  0 <= maxRetries' o ->
  exists res w',
    retry options w = Some (res, w') /\
    (invocations w <= invocations w')%nat /\
    attempts res = Z.of_nat (invocations w' - invocations w) /\
    1 <= attempts res <= maxRetries' o + 1 /\
    (forall v,
       fst (fn (host w)) = Resolves v -> accepted o v = true ->
       success res = true /\ data res = Some v /\ attempts res = 1 /\
       invocations w' = S (invocations w)) /\
    (forall e v,
       1 <= maxRetries' o ->
       fst (fn (host w)) = Rejects e -> isRetryable' o e = true ->
       fst (fn (host (backoff o 0 (snd (invoke w))))) = Resolves v ->
       accepted o v = true ->
       success res = true /\ data res = Some v /\ attempts res = 2 /\
       invocations w' = S (S (invocations w))) /\
    (maxRetries' o = 2 ->
     (forall h, exists e, fst (fn h) = Rejects e /\ isRetryable' o e = true) ->
     success res = false /\ attempts res = 3 /\
     invocations w' = S (S (S (invocations w)))) /\
    (forall r500 r200,
       1 <= maxRetries' o -> isRetryableResponse options = None ->
       fst (fn (host w)) = Resolves (IsResponse r500) ->
       status r500 = 500 -> ok r500 = false ->
       fst (fn (host (backoff o 0 (snd (invoke w)))))
         = Resolves (IsResponse r200) ->
       status r200 = 200 -> ok r200 = true ->
       success res = true /\ data res = Some (IsResponse r200) /\
       attempts res = 2).
Proof.
  intros o. assert (Ho : o = destructure options) by reflexivity.
  clearbody o. intros Hmax.
  destruct (retryLoop_counts o (Date_now (host w)) (loopBound o) 0 None w
              Hmax (loopBound_enough o))
    as (res & w' & Hrun & Hcount & Hrange).
  exists res, w'.
  assert (Hretry : retry options w = Some (res, w')).
  { unfold retry. cbv zeta. rewrite <- Ho. exact Hrun. }
  split; [exact Hretry|]. split; [lia|]. split; [lia|]. split; [lia|].
  unfold loopBound in Hrun.
  split; [|split; [|split]].
  - intros v Hfn Hacc.
    rewrite (step_accept o _ _ 0 None w v Hmax Hfn Hacc) in Hrun.
    injection Hrun as <- <-. cbn [success data attempts].
    rewrite invoke_invocations. auto.
  - intros e v Hone Hfn Hre Hfn2 Hacc.
    destruct (loopBound_two o Hone) as [fuel Hfuel]. rewrite Hfuel in Hrun.
    rewrite (step_again_error o _ _ 0 None w e) in Hrun by (assumption || lia).
    rewrite (step_accept o _ _ (0 + 1) _ _ v) in Hrun by (assumption || lia).
    injection Hrun as <- <-. cbn [success data attempts].
    rewrite invoke_invocations, backoff_invocations, invoke_invocations. auto.
  - intros Htwo Hall.
    rewrite Htwo in Hrun. change (Z.to_nat (2 + 1)) with 3%nat in Hrun.
    destruct (Hall (host w)) as (e0 & Hfn0 & Hre0).
    rewrite (step_again_error o _ _ 0 None w e0) in Hrun by (assumption || lia).
    set (w1 := backoff o 0 (snd (invoke w))) in *.
    destruct (Hall (host w1)) as (e1 & Hfn1 & Hre1).
    rewrite (step_again_error o _ _ (0 + 1) _ w1 e1) in Hrun by (assumption || lia).
    set (w2 := backoff o (0 + 1) (snd (invoke w1))) in *.
    destruct (Hall (host w2)) as (e2 & Hfn2 & Hre2).
    rewrite (step_give_up o _ _ (0 + 1 + 1) _ w2 e2) in Hrun
      by (assumption || lia || (right; lia)).
    injection Hrun as <- <-. cbn [success attempts failure].
    subst w2 w1.
    repeat (rewrite invoke_invocations || rewrite backoff_invocations).
    repeat split.
  - intros r500 r200 Hone Hdefault Hfn Hstatus Hok Hfn2 Hstatus2 Hok2.
    destruct (loopBound_two o Hone) as [fuel Hfuel]. rewrite Hfuel in Hrun.
    assert (Hflag : accepted o (IsResponse r500) = false).
    { cbn [accepted]. rewrite Hok. cbn [negb andb].
      rewrite Ho. unfold destructure. cbn [isRetryableResponse'].
      rewrite Hdefault. cbn [default]. unfold defaultIsRetryableResponse.
      rewrite Hstatus. reflexivity. }
    assert (Hacc : accepted o (IsResponse r200) = true).
    { cbn [accepted]. rewrite Hok2. reflexivity. }
    rewrite (step_again_response o _ _ 0 None w _) in Hrun
      by (eassumption || lia).
    rewrite (step_accept o _ _ (0 + 1) _ _ _) in Hrun by (eassumption || lia).
    injection Hrun as <- <-. cbn [success data attempts]. auto.
Qed.

(** C4. When an attempt throws a value that [isRetryable] rejects,
    the loop stops at once: no sleep, no further invocation, failure
    with the attempts made so far, and the thrown error object itself
    as [error].  From [retry], a first attempt that throws such an
    error gives attempts 1 whatever the non-negative [maxRetries]. *)
Theorem non_retryable_error_stops
    (options : RetryOptions E) (w : Run) (e : Thrown E) :
  let o := destructure options in
  fst (fn (host w)) = Rejects e ->
  isRetryable' o e = false ->
  (forall startTime fuel attempt lastError,
     attempt <= maxRetries' o ->
     exists res w',
       retryLoop o startTime (S fuel) attempt lastError w = Some (res, w') /\
       success res = false /\ data res = None /\
       attempts res = attempt + 1 /\
       error res = Some (toError e) /\
       (forall err, e = ThrownError err -> error res = Some err) /\
       invocations w' = S (invocations w) /\ sleeps w' = sleeps w) /\
  (0 <= maxRetries' o ->
   exists res w',
     retry options w = Some (res, w') /\
     success res = false /\ attempts res = 1 /\
     error res = Some (toError e) /\
     (forall err, e = ThrownError err -> error res = Some err) /\
     invocations w' = S (invocations w) /\ sleeps w' = sleeps w).
Proof.
  intros o Hfn Hno.
  assert (Hloop : forall startTime fuel attempt lastError,
     attempt <= maxRetries' o ->
     exists res w',
       retryLoop o startTime (S fuel) attempt lastError w = Some (res, w') /\
       success res = false /\ data res = None /\
       attempts res = attempt + 1 /\
       error res = Some (toError e) /\
       (forall err, e = ThrownError err -> error res = Some err) /\
       invocations w' = S (invocations w) /\ sleeps w' = sleeps w).
  { intros startTime fuel attempt lastError Hle.
    eexists _, _. split.
    - apply step_give_up; [exact Hle | exact Hfn | left; exact Hno].
    - cbn [failure success data attempts error].
      rewrite invoke_invocations, invoke_sleeps.
      repeat split. intros err ->. reflexivity. }
  split; [exact Hloop|].
  intros Hmax.
  destruct (Hloop (Date_now (host w)) (Z.to_nat (maxRetries' o + 1)) 0 None Hmax)
    as (res & w' & Hrun & Hs & _ & Ha & He & Hid & Hinv & Hsl).
  exists res, w'. repeat split; assumption.
Qed.

(** C6. When an attempt resolves with a response that is not ok and
    that [isRetryableResponse] does not flag, the loop stops at once
    with success and that response as data: no sleep, no further
    invocation.  The default response predicate flags a response
    exactly when its status is at least 500 or equal to 429. *)
Theorem unflagged_response_succeeds
    (options : RetryOptions E) (w : Run) (r : Response) :
  let o := destructure options in
  (fst (fn (host w)) = Resolves (IsResponse r) ->
   ok r = false -> isRetryableResponse' o r = false ->
   (forall startTime fuel attempt lastError,
      attempt <= maxRetries' o ->
      exists res w',
        retryLoop o startTime (S fuel) attempt lastError w = Some (res, w') /\
        success res = true /\ data res = Some (IsResponse r) /\
        error res = None /\ attempts res = attempt + 1 /\
        invocations w' = S (invocations w) /\ sleeps w' = sleeps w) /\
   (0 <= maxRetries' o ->
    exists res w',
      retry options w = Some (res, w') /\
      success res = true /\ data res = Some (IsResponse r) /\
      attempts res = 1 /\
      invocations w' = S (invocations w) /\ sleeps w' = sleeps w)) /\
  (defaultIsRetryableResponse r = true <-> (500 <= status r \/ status r = 429)) /\
  (isRetryableResponse options = None -> status r < 500 -> status r <> 429 ->
   isRetryableResponse' o r = false).
Proof.
  intros o.
  assert (Hdefault :
    defaultIsRetryableResponse r = true <-> (500 <= status r \/ status r = 429)).
  { unfold defaultIsRetryableResponse.
    rewrite orb_true_iff, Z.geb_leb, Z.leb_le, Z.eqb_eq. reflexivity. }
  split; [|split; [exact Hdefault|]].
  - intros Hfn Hok Hno.
    assert (Hacc : accepted o (IsResponse r) = true).
    { cbn [accepted]. rewrite Hok, Hno. reflexivity. }
    assert (Hloop : forall startTime fuel attempt lastError,
      attempt <= maxRetries' o ->
      exists res w',
        retryLoop o startTime (S fuel) attempt lastError w = Some (res, w') /\
        success res = true /\ data res = Some (IsResponse r) /\
        error res = None /\ attempts res = attempt + 1 /\
        invocations w' = S (invocations w) /\ sleeps w' = sleeps w).
    { intros startTime fuel attempt lastError Hle.
      eexists _, _. split.
      - apply step_accept; eassumption.
      - cbn [success data error attempts].
        rewrite invoke_invocations, invoke_sleeps. repeat split. }
    split; [exact Hloop|].
    intros Hmax.
    destruct (Hloop (Date_now (host w)) (Z.to_nat (maxRetries' o + 1)) 0 None Hmax)
      as (res & w' & Hrun & Hs & Hd & _ & Ha & Hinv & Hsl).
    exists res, w'. repeat split; assumption.
  - intros Hnone Hlt Hne.
    unfold o, destructure. cbn [isRetryableResponse']. rewrite Hnone.
    cbn [default].
    apply not_true_is_false. intros Hd. apply Hdefault in Hd. lia.
Qed.
End RetryFacts.

(** * Rounding to a double *)

Section Rounding.
Local Open Scope Q_scope.


Lemma pow2_pos (e : Z) : 0 < pow2 e.
Proof. apply Qpower_0_lt. reflexivity. Qed.

Lemma pow2_plus (a b : Z) : pow2 (a + b) == pow2 a * pow2 b.
Proof. apply Qpower_plus. discriminate. Qed.

Lemma pow2_succ (a : Z) : pow2 (a + 1) == 2 * pow2 a.
Proof. rewrite pow2_plus. change (pow2 1) with 2. ring. Qed.

Lemma pow2_lt (a b : Z) : (a < b)%Z -> pow2 a < pow2 b.
Proof. intros Hab. apply Qpower_lt_compat_l; [exact Hab | reflexivity]. Qed.

Lemma pow2_le (a b : Z) : (a <= b)%Z -> pow2 a <= pow2 b.
Proof. intros Hab. apply Qpower_le_compat_l; [exact Hab | discriminate]. Qed.

Lemma pow2_lt_inv (a b : Z) : pow2 a < pow2 b -> (a < b)%Z.
Proof. intros Hab. apply (Qpower_lt_compat_l_inv 2); [exact Hab | reflexivity]. Qed.

Lemma pow2_Z (n : Z) : (0 <= n)%Z -> pow2 n == inject_Z (2 ^ n).
Proof. intros Hn. rewrite Zpower_Qpower by exact Hn. reflexivity. Qed.

(** Powers of two as atoms of an arithmetic goal. *)
Ltac hide_pow2 :=
  repeat match goal with
  | |- context [pow2 ?e] =>
    let p := fresh "p" in set (p := pow2 e) in *; clearbody p
  | H : context [pow2 ?e] |- _ =>
    let p := fresh "p" in set (p := pow2 e) in *; clearbody p
  end.

(** ** Rounding to an integer *)

Lemma roundHalfEven_cases (x : Q) :
  roundHalfEven x = Qfloor x \/ roundHalfEven x = (Qfloor x + 1)%Z.
Proof.
  unfold roundHalfEven.
  destruct (x - inject_Z (Qfloor x) ?= 1 # 2); [destruct (Z.even _)|..]; auto.
Qed.

Lemma roundHalfEven_near (x : Q) :
  x - (1 # 2) <= inject_Z (roundHalfEven x) <= x + (1 # 2).
Proof.
  pose proof (Qfloor_le x) as Hlo. pose proof (Qlt_floor x) as Hhi.
  rewrite inject_Z_plus in Hhi. change (inject_Z 1) with 1 in Hhi.
  unfold roundHalfEven.
  destruct (Qcompare_spec (x - inject_Z (Qfloor x)) (1 # 2)) as [Heq | Hlt | Hgt].
  - destruct (Z.even _); [|rewrite inject_Z_plus; change (inject_Z 1) with 1]; lra.
  - lra.
  - rewrite inject_Z_plus. change (inject_Z 1) with 1. lra.
Qed.

Lemma roundHalfEven_comp (x y : Q) : x == y -> roundHalfEven x = roundHalfEven y.
Proof.
  intros Hxy. unfold roundHalfEven. rewrite (Qfloor_comp _ _ Hxy).
  rewrite (Qcompare_comp (x - inject_Z (Qfloor y)) (y - inject_Z (Qfloor y))
             (Qplus_comp _ _ Hxy _ _ (Qeq_refl _)) (1 # 2) (1 # 2) (Qeq_refl _)).
  reflexivity.
Qed.

Lemma roundHalfEven_Z (n : Z) : roundHalfEven (inject_Z n) = n.
Proof.
  unfold roundHalfEven. rewrite Qfloor_Z.
  destruct (Qcompare_spec (inject_Z n - inject_Z n) (1 # 2)) as [Heq | Hlt | Hgt].
  - exfalso. lra.
  - reflexivity.
  - exfalso. lra.
Qed.

Lemma roundHalfEven_mono (x y : Q) :
  x <= y -> (roundHalfEven x <= roundHalfEven y)%Z.
Proof.
  intros Hxy. pose proof (Qfloor_resp_le _ _ Hxy) as Hfl.
  destruct (Z.eq_dec (Qfloor x) (Qfloor y)) as [Heq | Hne].
  - unfold roundHalfEven. rewrite Heq.
    destruct (Qcompare_spec (x - inject_Z (Qfloor y)) (1 # 2)) as [Hx | Hx | Hx];
      destruct (Qcompare_spec (y - inject_Z (Qfloor y)) (1 # 2)) as [Hy | Hy | Hy];
      try destruct (Z.even _); try lia; exfalso; lra.
  - destruct (roundHalfEven_cases x) as [-> | ->];
      destruct (roundHalfEven_cases y) as [-> | ->]; lia.
Qed.

Lemma roundHalfEven_nonneg (x : Q) : 0 <= x -> 0 <= inject_Z (roundHalfEven x).
Proof.
  intros Hx. apply roundHalfEven_mono in Hx.
  change 0 with (inject_Z 0) in Hx at 1. rewrite roundHalfEven_Z in Hx.
  rewrite Zle_Qle in Hx. exact Hx.
Qed.

(** ** The binade of a positive number *)

Lemma binade_spec (x : Q) :
  0 < x -> pow2 (binade x) <= x < pow2 (binade x + 1).
Proof.
  intros Hx. destruct x as [a d].
  assert (Ha : (0 < a)%Z).
  { unfold Qlt in Hx. cbn in Hx. lia. }
  unfold binade. cbn [Qnum Qden].
  set (la := Z.log2 a). set (ld := Z.log2 (Z.pos d)).
  destruct (Z.log2_spec a Ha) as [Ha1 Ha2]. fold la in Ha1, Ha2.
  destruct (Z.log2_spec (Z.pos d) eq_refl) as [Hd1 Hd2]. fold ld in Hd1, Hd2.
  assert (Hla : (0 <= la)%Z) by apply Z.log2_nonneg.
  assert (Hld : (0 <= ld)%Z) by apply Z.log2_nonneg.
  rewrite Zle_Qle in Ha1, Hd1. rewrite Zlt_Qlt in Ha2, Hd2.
  rewrite <- pow2_Z in Ha1, Ha2, Hd1, Hd2 by lia.
  replace (Z.succ la) with (la + 1)%Z in Ha2 by lia.
  replace (Z.succ ld) with (ld + 1)%Z in Hd2 by lia.
  rewrite pow2_succ in Ha2, Hd2.
  assert (Hq : (a # d) * inject_Z (Z.pos d) == inject_Z a).
  { rewrite (Qmake_Qdiv a d). field. discriminate. }
  assert (He : pow2 (la - ld) * pow2 ld == pow2 la).
  { rewrite <- pow2_plus. replace (la - ld + ld)%Z with la by lia. reflexivity. }
  assert (He1 : pow2 (la - ld + 1) == 2 * pow2 (la - ld)) by apply pow2_succ.
  assert (He0 : 2 * pow2 (la - ld - 1) == pow2 (la - ld)).
  { rewrite <- pow2_succ. replace (la - ld - 1 + 1)%Z with (la - ld)%Z by lia.
    reflexivity. }
  pose proof (pow2_pos la) as Pla. pose proof (pow2_pos ld) as Pld.
  pose proof (pow2_pos (la - ld)) as Pe.
  pose proof (pow2_pos (la - ld - 1)) as Pe0.
  set (x := a # d) in *. set (A := inject_Z a) in *.
  set (D := inject_Z (Z.pos d)) in *.
  set (PA := pow2 la) in *. set (PD := pow2 ld) in *.
  set (E := pow2 (la - ld)) in *.
  destruct (Qle_bool E x) eqn:Hcmp.
  - apply Qle_bool_iff in Hcmp. split; [exact Hcmp|].
    rewrite He1. nra.
  - assert (Hlt : x < E).
    { apply Qnot_le_lt. intros Hle. apply Qle_bool_iff in Hle. congruence. }
    replace (la - ld - 1 + 1)%Z with (la - ld)%Z by lia. fold E.
    split; [|exact Hlt].
    set (E0 := pow2 (la - ld - 1)) in *. nra.
Qed.

Lemma binade_unique (x : Q) (b : Z) :
  0 < x -> pow2 b <= x < pow2 (b + 1) -> binade x = b.
Proof.
  intros Hx [Hlo Hhi]. destruct (binade_spec x Hx) as [Hlo' Hhi'].
  assert (H1 : (b < binade x + 1)%Z) by (apply pow2_lt_inv; lra).
  assert (H2 : (binade x < b + 1)%Z) by (apply pow2_lt_inv; lra).
  lia.
Qed.

Lemma binade_mono (x y : Q) : 0 < x -> x <= y -> (binade x <= binade y)%Z.
Proof.
  intros Hx Hxy. destruct (binade_spec x Hx) as [Hlo _].
  destruct (binade_spec y) as [_ Hhi]; [lra|].
  assert (H1 : (binade x < binade y + 1)%Z) by (apply pow2_lt_inv; lra).
  lia.
Qed.

Lemma binade_comp_pos (x y : Q) :
  0 < x -> x == y -> binade x = binade y.
Proof.
  intros Hx Hxy. symmetry. apply binade_unique; [lra|].
  rewrite <- Hxy. apply binade_spec, Hx.
Qed.

(** ** The nearest double of a positive number *)

Lemma nearest_unfold (x : Q) :
  nearest x = inject_Z (roundHalfEven (x / pow2 (exponent x))) * pow2 (exponent x).
Proof. reflexivity. Qed.

Lemma scaled_spec (x : Q) (e : Z) : x / pow2 e * pow2 e == x.
Proof. field. pose proof (pow2_pos e). lra. Qed.

Lemma scaled_lt (x : Q) : 0 < x -> x / pow2 (exponent x) < pow2 53.
Proof.
  intros Hx. destruct (binade_spec x Hx) as [_ Hhi].
  pose proof (scaled_spec x (exponent x)) as Hs.
  pose proof (pow2_pos (exponent x)) as Hu.
  assert (Hle : pow2 (binade x + 1) <= pow2 (53 + exponent x)).
  { apply pow2_le. unfold exponent. lia. }
  rewrite (pow2_plus 53) in Hle.
  pose proof (pow2_pos 53) as H53.
  set (s := x / pow2 (exponent x)) in *. set (u := pow2 (exponent x)) in *.
  set (p53 := pow2 53) in *. set (pb := pow2 (binade x + 1)) in *.
  clearbody s u p53 pb.
  apply Qnot_le_lt. intros Hge.
  assert (Hprod : p53 * u <= s * u) by (apply Qmult_le_compat_r; lra).
  lra.
Qed.

Lemma scaled_ge (x : Q) :
  0 < x -> (-1022 <= binade x)%Z -> pow2 52 <= x / pow2 (exponent x).
Proof.
  intros Hx Hb. destruct (binade_spec x Hx) as [Hlo _].
  pose proof (scaled_spec x (exponent x)) as Hs.
  pose proof (pow2_pos (exponent x)) as Hu.
  assert (Heq : pow2 (binade x) == pow2 52 * pow2 (exponent x)).
  { rewrite <- pow2_plus. unfold exponent. rewrite Z.max_l by lia.
    replace (52 + (binade x - 52))%Z with (binade x) by lia. reflexivity. }
  pose proof (pow2_pos 52) as H52.
  set (s := x / pow2 (exponent x)) in *. set (u := pow2 (exponent x)) in *.
  set (p52 := pow2 52) in *. set (pb := pow2 (binade x)) in *.
  clearbody s u p52 pb.
  apply Qnot_lt_le. intros Hlt.
  assert (Hprod : s * u < p52 * u) by (apply Qmult_lt_compat_r; lra).
  lra.
Qed.

Lemma roundHalfEven_pow2 (k : Z) : (0 <= k)%Z -> inject_Z (roundHalfEven (pow2 k)) == pow2 k.
Proof.
  intros Hk. rewrite (roundHalfEven_comp _ _ (pow2_Z k Hk)), roundHalfEven_Z.
  symmetry. apply pow2_Z, Hk.
Qed.

Lemma nearest_nonneg (x : Q) : 0 < x -> 0 <= nearest x.
Proof.
  intros Hx. rewrite nearest_unfold.
  pose proof (pow2_pos (exponent x)) as Hu.
  assert (Hs : 0 <= x / pow2 (exponent x)).
  { pose proof (scaled_spec x (exponent x)).
    set (s := x / pow2 (exponent x)) in *. clearbody s. hide_pow2. nra. }
  pose proof (roundHalfEven_mono _ _ Hs) as Hr.
  change 0 with (inject_Z 0) in Hr at 1. rewrite roundHalfEven_Z in Hr.
  rewrite Zle_Qle in Hr. change (inject_Z 0) with 0 in Hr.
  apply Qmult_le_0_compat; [exact Hr | lra].
Qed.

Lemma nearest_mono (x y : Q) : 0 < x -> x <= y -> nearest x <= nearest y.
Proof.
  intros Hx Hxy. assert (Hy : 0 < y) by lra.
  pose proof (binade_mono x y Hx Hxy) as Hb.
  rewrite !nearest_unfold.
  pose proof (pow2_pos (exponent x)) as Hux. pose proof (pow2_pos (exponent y)) as Huy.
  pose proof (scaled_spec x (exponent x)) as Hsx.
  pose proof (scaled_spec y (exponent y)) as Hsy.
  destruct (Z.eq_dec (exponent x) (exponent y)) as [Heq | Hne].
  - rewrite Heq in *.
    assert (Hs : x / pow2 (exponent y) <= y / pow2 (exponent y)).
    { set (sx := x / pow2 (exponent y)) in *. set (sy := y / pow2 (exponent y)) in *.
      clearbody sx sy. hide_pow2. nra. }
    apply roundHalfEven_mono in Hs. rewrite Zle_Qle in Hs. hide_pow2. nra.
  - assert (Hlt : (exponent x + 1 <= exponent y)%Z) by (unfold exponent in *; lia).
    assert (Hby : (-1022 <= binade y)%Z) by (unfold exponent in *; lia).
    pose proof (scaled_lt x Hx) as Hsx53.
    pose proof (scaled_ge y Hy Hby) as Hsy52.
    apply Qlt_le_weak, roundHalfEven_mono in Hsx53.
    apply roundHalfEven_mono in Hsy52.
    rewrite Zle_Qle in Hsx53, Hsy52.
    rewrite roundHalfEven_pow2 in Hsx53, Hsy52 by lia.
    apply pow2_le in Hlt. rewrite pow2_succ in Hlt.
    assert (H53 : pow2 53 == 2 * pow2 52) by reflexivity.
    pose proof (pow2_pos 52) as H52.
    set (nx := inject_Z (roundHalfEven (x / pow2 (exponent x)))) in *.
    set (ny := inject_Z (roundHalfEven (y / pow2 (exponent y)))) in *.
    set (ux := pow2 (exponent x)) in *. set (uy := pow2 (exponent y)) in *.
    assert (Hnx : 0 <= nx).
    { apply roundHalfEven_nonneg.
      set (sx := x / ux) in *. clearbody sx ux.
      apply Qnot_lt_le. intros Hneg.
      assert (Hprod : sx * ux < 0 * ux) by (apply Qmult_lt_compat_r; lra).
      lra. }
    clearbody nx ny ux uy. hide_pow2.
    assert (H1 : nx * ux <= (2 * p) * ux) by (apply Qmult_le_compat_r; lra).
    assert (H2 : p * uy <= ny * uy) by (apply Qmult_le_compat_r; lra).
    assert (H3 : p * (2 * ux) <= p * uy) by (apply Qmult_le_l; lra).
    lra.
Qed.

Lemma nearest_comp (x y : Q) : 0 < x -> x == y -> nearest x == nearest y.
Proof.
  intros Hx Hxy. rewrite !nearest_unfold. unfold exponent.
  rewrite (binade_comp_pos x y Hx Hxy).
  set (u := pow2 (Z.max (binade y) (-1022) - 52)).
  rewrite (roundHalfEven_comp (x / u) (y / u)) by (rewrite Hxy; reflexivity).
  reflexivity.
Qed.

(** A positive number [n * 2^e] with [n < 2^53] and [e >= -1074] is its
    own nearest double. *)
Lemma nearest_repr (n e : Z) :
  (0 < n < 2 ^ 53)%Z -> (-1074 <= e)%Z ->
  nearest (inject_Z n * pow2 e) == inject_Z n * pow2 e.
Proof.
  intros [Hn0 Hn] He. set (x := inject_Z n * pow2 e).
  assert (Hxv : x == inject_Z n * pow2 e) by reflexivity. clearbody x.
  pose proof (pow2_pos e) as Hue.
  assert (Hn0' : 0 < inject_Z n) by (rewrite Zlt_Qlt in Hn0; exact Hn0).
  assert (Hx : 0 < x).
  { rewrite Hxv. apply Qmult_lt_0_compat; assumption. }
  assert (Hb : (exponent x <= e)%Z).
  { destruct (binade_spec x Hx) as [Hlo _].
    assert (Hlt : pow2 (binade x) < pow2 (53 + e)).
    { rewrite pow2_plus. rewrite Zlt_Qlt in Hn. rewrite <- pow2_Z in Hn by lia.
      assert (Hprod : inject_Z n * pow2 e < pow2 53 * pow2 e)
        by (apply Qmult_lt_compat_r; assumption).
      lra. }
    apply pow2_lt_inv in Hlt. unfold exponent. lia. }
  rewrite nearest_unfold.
  assert (Hs : x / pow2 (exponent x) == inject_Z (n * 2 ^ (e - exponent x))).
  { rewrite inject_Z_mult, <- pow2_Z by lia.
    assert (Hsplit : pow2 e == pow2 (e - exponent x) * pow2 (exponent x)).
    { rewrite <- pow2_plus. replace (e - exponent x + exponent x)%Z with e by lia.
      reflexivity. }
    pose proof (pow2_pos (exponent x)) as Hu.
    set (u := pow2 (exponent x)) in *. set (v := pow2 (e - exponent x)) in *.
    clearbody u v.
    assert (Hx2 : x == inject_Z n * v * u) by (rewrite Hxv, Hsplit; ring).
    rewrite Hx2. field. lra. }
  rewrite (roundHalfEven_comp _ _ Hs), roundHalfEven_Z, <- Hs. apply scaled_spec.
Qed.

(** ** Rounding to a double *)

Lemma Qnum_pos (x : Q) : 0 < x <-> exists p, Qnum x = Z.pos p.
Proof.
  destruct x as [[|p|p] d]; unfold Qlt; cbn; split;
    try (intros [q Hq]; discriminate Hq); try lia; eauto.
Qed.

Lemma round64_pos (x : Q) :
  0 < x ->
  round64 x = if Qle_bool (pow2 1024) (nearest x) then NPosInf
              else NFinite (Qred (nearest x)).
Proof. intros Hx. apply Qnum_pos in Hx as [p Hp]. unfold round64. rewrite Hp. reflexivity. Qed.

Lemma round64_zero (x : Q) : x == 0 -> round64 x = zero.
Proof.
  intros Hx. unfold round64. destruct x as [[|p|p] d]; [reflexivity|..];
    unfold Qeq in Hx; cbn in Hx; lia.
Qed.

Lemma Qopp_opp_eq (q : Q) : - - q = q.
Proof. destruct q as [[|p|p] d]; reflexivity. Qed.

Lemma round64_opp (x : Q) : round64 (- x) = js_neg (round64 x).
Proof.
  destruct x as [[|p|p] d].
  - reflexivity.
  - change (- (Z.pos p # d)) with (Z.neg p # d). unfold round64. cbn [Qnum].
    change (- (Z.neg p # d)) with (Z.pos p # d).
    destruct (Qle_bool _ _); [reflexivity|]. cbn [js_neg].
    rewrite Qred_opp. reflexivity.
  - change (- (Z.neg p # d)) with (Z.pos p # d). unfold round64. cbn [Qnum].
    change (- (Z.neg p # d)) with (Z.pos p # d).
    destruct (Qle_bool _ _); [reflexivity|]. cbn [js_neg].
    rewrite Qred_opp, Qopp_opp_eq. reflexivity.
Qed.

Lemma round64_neg (x : Q) :
  x < 0 ->
  round64 x = if Qle_bool (pow2 1024) (nearest (- x)) then NNegInf
              else NFinite (Qred (- nearest (- x))).
Proof.
  intros Hx. rewrite <- (Qopp_opp_eq x) at 1. rewrite round64_opp, round64_pos by lra.
  destruct (Qle_bool _ _); [reflexivity|]. cbn [js_neg]. rewrite Qred_opp. reflexivity.
Qed.

Lemma round64_comp (x y : Q) : x == y -> round64 x = round64 y.
Proof.
  intros Hxy. destruct (Q_dec x 0) as [[Hneg | Hpos] | Hz].
  - rewrite !round64_neg by lra.
    assert (Hn : nearest (- x) == nearest (- y)) by (apply nearest_comp; lra).
    rewrite (Qleb_comp _ _ (Qeq_refl _) _ _ Hn).
    destruct (Qle_bool _ _); [reflexivity|]. f_equal. apply Qred_complete.
    rewrite Hn. reflexivity.
  - rewrite !round64_pos by lra.
    assert (Hn : nearest x == nearest y) by (apply nearest_comp; lra).
    rewrite (Qleb_comp _ _ (Qeq_refl _) _ _ Hn).
    destruct (Qle_bool _ _); [reflexivity|]. f_equal. apply Qred_complete, Hn.
  - rewrite !round64_zero by lra. reflexivity.
Qed.

Lemma js_le_refl (a : JsNumber) : a <> NNaN -> js_le a a.
Proof. destruct a; try congruence; intros _; try exact I. apply Qle_refl. Qed.

Lemma js_le_trans (a b c : JsNumber) : js_le a b -> js_le b c -> js_le a c.
Proof.
  destruct a, b, c; try (intros [] []; fail); try (intros _ []; fail);
    try (intros [] _; fail); try (intros; exact I).
  apply Qle_trans.
Qed.

Lemma round64_notNaN (x : Q) : round64 x <> NNaN.
Proof.
  unfold round64. destruct (Qnum x); [discriminate|..];
    destruct (Qle_bool _ _); discriminate.
Qed.

Lemma round64_nonneg (x : Q) : 0 <= x -> js_le zero (round64 x).
Proof.
  intros Hx. destruct (Qeq_dec x 0) as [Hz | Hnz].
  - rewrite (round64_zero x Hz). apply Qle_refl.
  - rewrite round64_pos by lra. destruct (Qle_bool _ _); [exact I|].
    change (0 <= Qred (nearest x)).
    rewrite Qred_correct. apply nearest_nonneg. lra.
Qed.

Lemma round64_mono_pos (x y : Q) :
  0 < x -> x <= y -> js_le (round64 x) (round64 y).
Proof.
  intros Hx Hxy. rewrite !round64_pos by lra.
  pose proof (nearest_mono x y Hx Hxy) as Hn.
  destruct (Qle_bool (pow2 1024) (nearest x)) eqn:Ox;
    destruct (Qle_bool (pow2 1024) (nearest y)) eqn:Oy; try exact I.
  - apply Qle_bool_iff in Ox.
    assert (Hle : pow2 1024 <= nearest y) by lra.
    apply Qle_bool_iff in Hle. congruence.
  - change (Qred (nearest x) <= Qred (nearest y)).
    rewrite !Qred_correct. exact Hn.
Qed.

Lemma js_le_neg (a b : JsNumber) : js_le a b -> js_le (js_neg b) (js_neg a).
Proof.
  destruct a, b; try (intros []; fail); try (intros; exact I).
  apply Qopp_le_compat.
Qed.

Lemma js_neg_zero : js_neg zero = zero.
Proof. reflexivity. Qed.

Theorem round64_mono (x y : Q) : x <= y -> js_le (round64 x) (round64 y).
Proof.
  intros Hxy. destruct (Qlt_le_dec 0 x) as [Hx | Hx].
  - apply round64_mono_pos; assumption.
  - destruct (Qlt_le_dec y 0) as [Hy | Hy].
    + rewrite <- (Qopp_opp_eq x), <- (Qopp_opp_eq y), !(round64_opp (- _)).
      apply js_le_neg, round64_mono_pos; lra.
    + apply js_le_trans with zero; [|apply round64_nonneg, Hy].
      rewrite <- (Qopp_opp_eq x), round64_opp, <- js_neg_zero.
      apply js_le_neg, round64_nonneg. lra.
Qed.

(** A number [n * 2^e] with [|n| < 2^53] and [e >= -1074], below 2^1024
    in magnitude, is a double. *)
Lemma round64_repr_pos (n e : Z) :
  (0 < n < 2 ^ 53)%Z -> (-1074 <= e)%Z -> inject_Z n * pow2 e < pow2 1024 ->
  round64 (inject_Z n * pow2 e) = NFinite (Qred (inject_Z n * pow2 e)).
Proof.
  intros Hn He Hmax. pose proof (nearest_repr n e Hn He) as Hnear.
  assert (Hpos : 0 < inject_Z n * pow2 e).
  { apply Qmult_lt_0_compat; [|apply pow2_pos].
    change 0 with (inject_Z 0). rewrite <- Zlt_Qlt. lia. }
  rewrite round64_pos by exact Hpos.
  destruct (Qle_bool _ _) eqn:Ov.
  - apply Qle_bool_iff in Ov. exfalso. lra.
  - f_equal. apply Qred_complete, Hnear.
Qed.

Lemma Qred_Z (n : Z) : Qred (inject_Z n) = inject_Z n.
Proof. apply Qcanon.Qred_identity. cbn. apply Z.gcd_1_r. Qed.

Theorem round64_Z (n : Z) : (Z.abs n <= 2 ^ 53)%Z -> round64 (inject_Z n) = ofZ n.
Proof.
  assert (Hpos : forall m, (0 < m <= 2 ^ 53)%Z -> round64 (inject_Z m) = ofZ m).
  { intros m Hm. destruct (Z.eq_dec m (2 ^ 53)%Z) as [-> | Hne].
    - vm_compute. reflexivity.
    - assert (Hm1 : inject_Z m * pow2 0 == inject_Z m) by apply Qmult_1_r.
      rewrite <- (round64_comp _ _ Hm1).
      rewrite round64_repr_pos; [|lia|lia|].
      + unfold ofZ. f_equal.
        transitivity (Qred (inject_Z m)); [apply Qred_complete, Hm1 | apply Qred_Z].
      + rewrite Hm1.
        apply Qlt_trans with (inject_Z (2 ^ 53)); [rewrite <- Zlt_Qlt; lia|].
        vm_compute. reflexivity. }
  intros Hn. destruct n as [|p|p].
  - reflexivity.
  - apply Hpos. lia.
  - change (inject_Z (Z.neg p)) with (- inject_Z (Z.pos p)).
    rewrite round64_opp, Hpos by lia. reflexivity.
Qed.

(** The value behind a finite result. *)
Lemma round64_finite_pos (x r : Q) :
  0 < x -> round64 x = NFinite r -> r == nearest x /\ nearest x < pow2 1024.
Proof.
  intros Hx Hr. rewrite round64_pos in Hr by exact Hx.
  destruct (Qle_bool (pow2 1024) (nearest x)) eqn:Ov; [discriminate Hr|].
  injection Hr as <-. split; [apply Qred_correct|].
  apply Qnot_le_lt. intros Hle. apply Qle_bool_iff in Hle. congruence.
Qed.

(** Rounding a number of the normal range moves it by at most 2^-53 of
    its value. *)
Lemma round64_error (x r : Q) :
  pow2 (-1022) <= x -> round64 x = NFinite r ->
  x - x * pow2 (-53) <= r <= x + x * pow2 (-53).
Proof.
  intros Hnormal Hr. pose proof (pow2_pos (-1022)) as Hmin.
  assert (Hx : 0 < x) by lra.
  destruct (round64_finite_pos x r Hx Hr) as [Hrv _].
  rewrite nearest_unfold in Hrv.
  destruct (binade_spec x Hx) as [Hlo Hhi].
  assert (Hb : (-1022 <= binade x)%Z).
  { assert (Hlt : pow2 (-1022) < pow2 (binade x + 1)) by lra.
    apply pow2_lt_inv in Hlt. lia. }
  assert (He : exponent x = (binade x - 52)%Z) by (unfold exponent; lia).
  pose proof (roundHalfEven_near (x / pow2 (exponent x))) as [Hn1 Hn2].
  pose proof (scaled_spec x (exponent x)) as Hs.
  pose proof (pow2_pos (exponent x)) as Hu.
  assert (Hhalf : pow2 (exponent x) * (1 # 2) <= x * pow2 (-53)).
  { assert (Heq : pow2 (binade x) * pow2 (-53) == pow2 (exponent x) * (1 # 2)).
    { rewrite He. rewrite <- pow2_plus.
      replace (binade x + -53)%Z with (binade x - 52 + -1)%Z by lia.
      rewrite pow2_plus. reflexivity. }
    rewrite <- Heq. apply Qmult_le_compat_r; [exact Hlo|].
    apply Qlt_le_weak, pow2_pos. }
  set (n := inject_Z (roundHalfEven (x / pow2 (exponent x)))) in *.
  set (sx := x / pow2 (exponent x)) in *. set (u := pow2 (exponent x)) in *.
  set (e53 := pow2 (-53)) in *. clearbody n sx u e53.
  assert (H1 : (sx - (1 # 2)) * u <= n * u) by (apply Qmult_le_compat_r; lra).
  assert (H2 : n * u <= (sx + (1 # 2)) * u) by (apply Qmult_le_compat_r; lra).
  rewrite Hrv. split; lra.
Qed.

Lemma round64_double (q : Q) (x : Q) :
  IsDouble q -> x <= q -> js_le (round64 x) (NFinite q).
Proof.
  intros (r & Hr & Hrq) Hx. pose proof (round64_mono _ _ Hx) as Hle.
  rewrite Hr in Hle. destruct (round64 x) as [y| | |]; try contradiction; [|exact I].
  unfold js_le in *. lra.
Qed.

End Rounding.

(** * The matcher against the relational reading of patterns *)

Lemma consumed_app (w rest : JsString) : consumed (w ++ rest) rest = w.
Proof.
  unfold consumed. rewrite length_app.
  replace (length w + length rest - length rest)%nat with (length w) by lia.
  rewrite take_app_length. reflexivity.
Qed.

Section MatcherFacts.
Variable ic : bool.

Lemma repeatClass_sound (cl : CharClass) :
  forall (s : JsString) (lo : nat) (hi : option nat) (caps : Captures)
         (k : Continuation) (res : MatchState),
    repeatClass cl lo hi s caps k = Some res ->
    exists w rest,
      s = w ++ rest /\ Matches ic (RRep cl lo hi) w caps caps /\
      k rest caps = Some res.
Proof.
  assert (Hstop : forall s lo hi caps (k : Continuation) res,
    match lo with O => k s caps | S _ => None end = Some res ->
    exists w rest,
      s = w ++ rest /\ Matches ic (RRep cl lo hi) w caps caps /\
      k rest caps = Some res).
  { intros s lo hi caps k res Hk. destruct lo; [|discriminate].
    exists [], s. split; [reflexivity|]. split; [|exact Hk].
    apply MRep; cbn; [reflexivity | lia | intros; lia]. }
  induction s as [|c s IH]; intros lo hi caps k res Hrun.
  - cbn in Hrun. apply Hstop. destruct hi as [[|h]|]; exact Hrun.
  - cbn [repeatClass] in Hrun.
    destruct (decide (hi = Some 0%nat)) as [-> | Hhi]; [apply Hstop; exact Hrun|].
    assert (Hbody :
      (if class_mem cl c
       then match repeatClass cl (Nat.pred lo) (option_map Nat.pred hi) s caps k with
            | Some r => Some r
            | None => match lo with O => k (c :: s) caps | S _ => None end
            end
       else match lo with O => k (c :: s) caps | S _ => None end) = Some res).
    { destruct hi as [[|h]|]; [congruence | exact Hrun | exact Hrun]. }
    clear Hrun. destruct (class_mem cl c) eqn:Hc; [|apply Hstop; exact Hbody].
    destruct (repeatClass cl (Nat.pred lo) (option_map Nat.pred hi) s caps k)
      as [r|] eqn:Hrec; [|apply Hstop; exact Hbody].
    injection Hbody as ->.
    destruct (IH _ _ _ _ _ Hrec) as (w & rest & -> & Hm & Hk).
    exists (c :: w), rest. split; [reflexivity|]. split; [|exact Hk].
    inversion Hm as [| | | | | | | |cl' lo' hi' w' caps' Hall Hlo Hup|]; subst.
    apply MRep.
    + cbn. rewrite Hc. exact Hall.
    + cbn. lia.
    + intros h ->. cbn in Hup. specialize (Hup (Nat.pred h) eq_refl).
      destruct h; [congruence | cbn in *; lia].
Qed.

Lemma matchRegex_sound :
  forall (r : Regex) (s : JsString) (caps : Captures) (k : Continuation)
         (res : MatchState),
    matchRegex ic r s caps k = Some res ->
    exists w rest caps',
      s = w ++ rest /\ Matches ic r w caps caps' /\ k rest caps' = Some res.
Proof.
  induction r as [|c|cl|r1 IH1 r2 IH2|r1 IH1 r2 IH2|r1 IH1|cl lo hi|i r1 IH1];
    intros s caps k res Hrun; cbn [matchRegex] in Hrun.
  - exists [], s, caps. repeat split; [constructor | exact Hrun].
  - destruct s as [|x s]; [discriminate|].
    destruct (N.eqb_spec (canonicalize ic x) (canonicalize ic c)) as [Heq|];
      [|discriminate].
    exists [x], s, caps. repeat split; [constructor; exact Heq | exact Hrun].
  - destruct s as [|x s]; [discriminate|].
    destruct (class_mem cl x) eqn:Hc; [|discriminate].
    exists [x], s, caps. repeat split; [constructor; exact Hc | exact Hrun].
  - destruct (IH1 _ _ _ _ Hrun) as (w1 & s1 & caps1 & -> & Hm1 & Hrun2).
    destruct (IH2 _ _ _ _ Hrun2) as (w2 & s2 & caps2 & -> & Hm2 & Hk).
    exists (w1 ++ w2), s2, caps2. rewrite <- app_assoc.
    repeat split; [econstructor; eassumption | exact Hk].
  - destruct (matchRegex ic r1 s caps k) as [res1|] eqn:Hleft.
    + injection Hrun as ->.
      destruct (IH1 _ _ _ _ Hleft) as (w & rest & caps' & -> & Hm & Hk).
      exists w, rest, caps'. repeat split; [apply MAltL; exact Hm | exact Hk].
    + destruct (IH2 _ _ _ _ Hrun) as (w & rest & caps' & -> & Hm & Hk).
      exists w, rest, caps'. repeat split; [apply MAltR; exact Hm | exact Hk].
  - match type of Hrun with
    | match ?inner with _ => _ end = _ => destruct inner as [res1|] eqn:Hin
    end.
    + injection Hrun as ->.
      destruct (IH1 _ _ _ _ Hin) as (w & rest & caps' & -> & Hm & Hk).
      destruct (Nat.eqb_spec (length rest) (length (w ++ rest))) as [Hlen|Hlen];
        [discriminate|].
      exists w, rest, caps'. repeat split; [|exact Hk].
      apply MOptTake; [exact Hm|]. intros ->. apply Hlen. reflexivity.
    + exists [], s, caps. repeat split; [constructor | exact Hrun].
  - destruct (repeatClass_sound _ _ _ _ _ _ _ Hrun) as (w & rest & -> & Hm & Hk).
    exists w, rest, caps. repeat split; assumption.
  - destruct (IH1 _ _ _ _ Hrun) as (w & rest & caps' & -> & Hm & Hk).
    rewrite consumed_app in Hk.
    exists w, rest, (setCapture i w caps').
    repeat split; [constructor; exact Hm | exact Hk].
Qed.

Lemma repeatClass_complete (cl : CharClass) (rest : JsString) (k : Continuation) :
  (forall caps, k rest caps <> None) ->
  forall (w : JsString) (lo : nat) (hi : option nat) (caps : Captures),
    forallb (class_mem cl) w = true -> (lo <= length w)%nat ->
    (forall h, hi = Some h -> (length w <= h)%nat) ->
    repeatClass cl lo hi (w ++ rest) caps k <> None.
Proof.
  intros Hk. induction w as [|c w IH]; intros lo hi caps Hall Hlo Hup.
  - cbn in Hlo. assert (lo = 0%nat) as -> by lia. cbn [app].
    destruct rest as [|c rest']; cbn [repeatClass].
    + destruct hi as [[|h]|]; apply Hk.
    + destruct hi as [[|h]|]; [apply Hk | |];
        (destruct (class_mem cl c); [|apply Hk];
         destruct (repeatClass cl _ _ rest' caps k); [discriminate | apply Hk]).
  - cbn in Hall. apply andb_prop in Hall as [Hc Hall].
    cbn [app repeatClass]. rewrite Hc.
    assert (Hrec : repeatClass cl (Nat.pred lo) (option_map Nat.pred hi)
                     (w ++ rest) caps k <> None).
    { apply IH; [exact Hall | cbn in Hlo; lia |].
      intros h Hh. destruct hi as [h'|]; [|discriminate].
      cbn in Hh. injection Hh as <-. specialize (Hup h' eq_refl).
      cbn in Hup. lia. }
    destruct hi as [[|h]|].
    + specialize (Hup 0%nat eq_refl). cbn in Hup. lia.
    + destruct (repeatClass cl _ _ (w ++ rest) caps k); [discriminate | congruence].
    + destruct (repeatClass cl _ _ (w ++ rest) caps k); [discriminate | congruence].
Qed.

Lemma matchRegex_complete (r : Regex) (w : JsString) (caps caps' : Captures) :
  Matches ic r w caps caps' ->
  forall (rest : JsString) (k : Continuation) (caps0 : Captures),
    (forall c, k rest c <> None) ->
    matchRegex ic r (w ++ rest) caps0 k <> None.
Proof.
  induction 1 as [caps|c x caps Heq|cl x caps Hc
                 |r1 r2 w1 w2 caps caps1 caps2 _ IH1 _ IH2
                 |r1 r2 w caps caps' _ IH|r1 r2 w caps caps' _ IH
                 |r caps|r w caps caps' _ IH Hne
                 |cl lo hi w caps Hall Hlo Hup|i r w caps caps' _ IH];
    intros rest k caps0 Hk; cbn [matchRegex app].
  - apply Hk.
  - rewrite Heq, N.eqb_refl. apply Hk.
  - rewrite Hc. apply Hk.
  - rewrite <- app_assoc. apply IH1. intros c. apply IH2. exact Hk.
  - specialize (IH rest k caps0 Hk).
    destruct (matchRegex ic r1 (w ++ rest) caps0 k); [discriminate | congruence].
  - specialize (IH rest k caps0 Hk).
    destruct (matchRegex ic r1 (w ++ rest) caps0 k); [discriminate | exact IH].
  - match goal with
    | |- match ?inner with _ => _ end <> _ => destruct inner
    end; [discriminate | apply Hk].
  - match goal with
    | |- match ?inner with _ => _ end <> _ =>
      assert (Hin : inner <> None); [|destruct inner; [discriminate | congruence]]
    end.
    apply IH. intros c.
    destruct (Nat.eqb_spec (length rest) (length (w ++ rest))) as [Hlen|_];
      [|apply Hk].
    rewrite length_app in Hlen. destruct w; [congruence | cbn in Hlen; lia].
  - apply repeatClass_complete; assumption.
  - apply IH. intros c. apply Hk.
Qed.

Lemma matchAt_sound (r : Regex) (s rest : JsString) (caps : Captures) :
  matchAt ic r s = Some (rest, caps) ->
  exists w, s = w ++ rest /\ Matches ic r w [] caps.
Proof.
  intros Hrun. unfold matchAt in Hrun.
  destruct (matchRegex_sound _ _ _ _ _ Hrun) as (w & rest' & caps' & -> & Hm & Hk).
  injection Hk as -> ->. exists w. split; [reflexivity | exact Hm].
Qed.

Lemma matchAt_complete (r : Regex) (w post : JsString) (caps caps' : Captures) :
  Matches ic r w caps caps' -> matchAt ic r (w ++ post) <> None.
Proof.
  intros Hm. unfold matchAt.
  eapply matchRegex_complete; [exact Hm | discriminate].
Qed.

(** [s.match(r)] returns the leftmost place at which [r] matches. *)
Lemma searchFrom_sound (r : Regex) :
  forall (s : JsString) (idx : nat) (m : MatchResult),
    searchFrom ic r idx s = Some m ->
    exists pre post,
      s = pre ++ matched m ++ post /\
      index m = (idx + length pre)%nat /\
      Matches ic r (matched m) [] (groups m) /\
      (forall pre' w', OccursAt ic r s pre' w' ->
                       (length pre <= length pre')%nat).
Proof.
  induction s as [|c s IH]; intros idx m Hrun; cbn [searchFrom] in Hrun.
  - destruct (matchAt ic r []) as [[rest caps]|] eqn:Hat; [|discriminate].
    injection Hrun as <-. cbn [matched index groups].
    destruct (matchAt_sound _ _ _ _ Hat) as (w & Hs & Hm).
    rewrite Hs, consumed_app. exists [], rest.
    split; [reflexivity|]. split; [cbn; lia|]. split; [exact Hm|].
    intros; cbn; lia.
  - destruct (matchAt ic r (c :: s)) as [[rest caps]|] eqn:Hat.
    + injection Hrun as <-. cbn [matched index groups].
      destruct (matchAt_sound _ _ _ _ Hat) as (w & Hs & Hm).
      rewrite Hs, consumed_app. exists [], rest.
      split; [reflexivity|]. split; [cbn; lia|]. split; [exact Hm|].
      intros; cbn; lia.
    + destruct (IH _ _ Hrun) as (pre & post & Hs & Hidx & Hm & Hleft).
      exists (c :: pre), post. cbn [app length].
      split; [f_equal; exact Hs|]. split; [lia|]. split; [exact Hm|].
      intros pre' w' (post' & caps' & Hs' & Hm').
      destruct pre' as [|c' pre'].
      * cbn [app] in Hs'. rewrite Hs' in Hat.
        exfalso. exact (matchAt_complete _ _ _ _ _ Hm' Hat).
      * cbn [app] in Hs'. injection Hs' as -> Hs'. cbn [length].
        apply le_n_S. apply (Hleft pre' w').
        exists post', caps'. split; assumption.
Qed.

Lemma searchFrom_none (r : Regex) :
  forall (s : JsString) (idx : nat),
    searchFrom ic r idx s = None -> ~ Occurs ic r s.
Proof.
  induction s as [|c s IH]; intros idx Hrun (pre & w & post & caps' & Hs & Hm);
    cbn [searchFrom] in Hrun.
  - destruct (matchAt ic r []) as [[rest caps]|] eqn:Hat; [discriminate|].
    destruct pre; [|discriminate]. cbn [app] in Hs. rewrite Hs in Hat.
    exact (matchAt_complete _ _ _ _ _ Hm Hat).
  - destruct (matchAt ic r (c :: s)) as [[rest caps]|] eqn:Hat; [discriminate|].
    destruct pre as [|c' pre].
    + cbn [app] in Hs. rewrite Hs in Hat.
      exact (matchAt_complete _ _ _ _ _ Hm Hat).
    + cbn [app] in Hs. injection Hs as -> Hs.
      apply (IH _ Hrun). exists pre, w, post, caps'. split; assumption.
Qed.

(** The run of the matcher behind a search result. *)
Lemma searchFrom_matchAt (r : Regex) :
  forall (s : JsString) (idx : nat) (m : MatchResult),
    searchFrom ic r idx s = Some m ->
    exists pre tail rest,
      s = pre ++ tail /\ index m = (idx + length pre)%nat /\
      matchAt ic r tail = Some (rest, groups m) /\
      matched m = consumed tail rest /\
      (forall pre' w', OccursAt ic r s pre' w' ->
                       (length pre <= length pre')%nat).
Proof.
  induction s as [|c s IH]; intros idx m Hrun; cbn [searchFrom] in Hrun.
  - destruct (matchAt ic r []) as [[rest caps]|] eqn:Hat; [|discriminate].
    injection Hrun as <-. exists [], [], rest. cbn [app length groups matched index].
    rewrite Hat. repeat split; [lia | intros; lia].
  - destruct (matchAt ic r (c :: s)) as [[rest caps]|] eqn:Hat.
    + injection Hrun as <-. exists [], (c :: s), rest.
      cbn [app length groups matched index].
      rewrite Hat. repeat split; [lia | intros; lia].
    + destruct (IH _ _ Hrun) as (pre & tail & rest & -> & Hidx & Hat' & Hm & Hleft).
      exists (c :: pre), tail, rest. cbn [app length].
      split; [reflexivity|]. split; [lia|]. split; [exact Hat'|].
      split; [exact Hm|].
      intros pre' w' (post' & caps' & Hs' & Hm').
      destruct pre' as [|c' pre'].
      * cbn [app] in Hs'. rewrite Hs' in Hat.
        exfalso. exact (matchAt_complete _ _ _ _ _ Hm' Hat).
      * cbn [app] in Hs'. injection Hs' as -> Hs'. cbn [length].
        apply le_n_S. apply (Hleft pre' w').
        exists post', caps'. split; assumption.
Qed.

(** *** Greedy repetition *)

Lemma repeatClass_zero (cl : CharClass) (hi : option nat) (rest : JsString)
    (caps : Captures) (k : Continuation) :
  stopsAt cl rest -> repeatClass cl 0 hi rest caps k = k rest caps.
Proof.
  intros Hstop. destruct rest as [|c rest]; cbn [repeatClass].
  - destruct hi as [[|h]|]; reflexivity.
  - cbn in Hstop. rewrite Hstop. destruct hi as [[|h]|]; reflexivity.
Qed.

Lemma repeatClass_stuck (cl : CharClass) (lo : nat) (hi : option nat)
    (rest : JsString) (caps : Captures) (k : Continuation) :
  stopsAt cl rest -> (0 < lo)%nat -> repeatClass cl lo hi rest caps k = None.
Proof.
  intros Hstop Hlo. destruct lo as [|lo]; [lia|].
  destruct rest as [|c rest]; cbn [repeatClass].
  - destruct hi as [[|h]|]; reflexivity.
  - cbn in Hstop. rewrite Hstop. destruct hi as [[|h]|]; reflexivity.
Qed.

(** The whole run is taken when the continuation accepts what follows. *)
Lemma repeatClass_greedy (cl : CharClass) (rest : JsString) (caps : Captures)
    (k : Continuation) :
  stopsAt cl rest -> k rest caps <> None ->
  forall (ds : JsString) (lo : nat),
    forallb (class_mem cl) ds = true -> (lo <= length ds)%nat ->
    repeatClass cl lo None (ds ++ rest) caps k = k rest caps.
Proof.
  intros Hstop Hk. induction ds as [|d ds IH]; intros lo Hall Hlo.
  - cbn in Hlo. assert (lo = 0%nat) as -> by lia. apply repeatClass_zero, Hstop.
  - cbn in Hall. apply andb_prop in Hall as [Hd Hall].
    cbn [app repeatClass option_map]. rewrite Hd.
    rewrite (IH (Nat.pred lo) Hall) by (cbn in Hlo; lia).
    destruct (k rest caps); [reflexivity | congruence].
Qed.

(** When the continuation refuses what follows the run but accepts the
    last code unit of the run with it, the run is taken but for that code
    unit. *)
Lemma repeatClass_backtrack (cl : CharClass) (rest : JsString) (caps : Captures)
    (k : Continuation) (d : CodeUnit) :
  stopsAt cl rest -> k rest caps = None ->
  class_mem cl d = true -> k (d :: rest) caps <> None ->
  forall (ds : JsString) (lo : nat),
    forallb (class_mem cl) ds = true -> (lo <= length ds)%nat ->
    repeatClass cl lo None (ds ++ d :: rest) caps k = k (d :: rest) caps.
Proof.
  intros Hstop Hno Hd Hk. induction ds as [|e ds IH]; intros lo Hall Hlo.
  - cbn in Hlo. assert (lo = 0%nat) as -> by lia.
    cbn [app repeatClass option_map Nat.pred]. rewrite Hd.
    rewrite (repeatClass_zero cl None rest caps k Hstop), Hno. reflexivity.
  - cbn in Hall. apply andb_prop in Hall as [He Hall].
    cbn [app repeatClass option_map]. rewrite He.
    rewrite (IH (Nat.pred lo) Hall) by (cbn in Hlo; lia).
    destruct (k (d :: rest) caps); [reflexivity | congruence].
Qed.

Lemma matchRegex_rep (cl : CharClass) (lo : nat) (hi : option nat)
    (s : JsString) (caps : Captures) (k : Continuation) :
  matchRegex ic (RRep cl lo hi) s caps k = repeatClass cl lo hi s caps k.
Proof. reflexivity. Qed.

Lemma matchRegex_group (i : nat) (r : Regex) (s : JsString) (caps : Captures)
    (k : Continuation) :
  matchRegex ic (RGroup i r) s caps k =
  matchRegex ic r s caps
    (fun s1 caps1 => k s1 (setCapture i (consumed s s1) caps1)).
Proof. reflexivity. Qed.

Lemma matchRegex_seq (r1 r2 : Regex) (s : JsString) (caps : Captures)
    (k : Continuation) :
  matchRegex ic (RSeq r1 r2) s caps k =
  matchRegex ic r1 s caps (fun s1 caps1 => matchRegex ic r2 s1 caps1 k).
Proof. reflexivity. Qed.
End MatcherFacts.

(** ** Inversion of the relational reading *)

Section MatchesInversion.
Variable ic : bool.

Lemma matches_seq r1 r2 w caps caps' :
  Matches ic (RSeq r1 r2) w caps caps' ->
  exists w1 w2 caps1,
    w = w1 ++ w2 /\ Matches ic r1 w1 caps caps1 /\ Matches ic r2 w2 caps1 caps'.
Proof. inversion 1; subst. eauto 6. Qed.

Lemma matches_alt r1 r2 w caps caps' :
  Matches ic (RAlt r1 r2) w caps caps' ->
  Matches ic r1 w caps caps' \/ Matches ic r2 w caps caps'.
Proof. inversion 1; subst; auto. Qed.

Lemma matches_opt r w caps caps' :
  Matches ic (ROpt r) w caps caps' ->
  (w = [] /\ caps' = caps) \/ (w <> [] /\ Matches ic r w caps caps').
Proof. inversion 1; subst; auto. Qed.

Lemma matches_rep cl lo hi w caps caps' :
  Matches ic (RRep cl lo hi) w caps caps' ->
  forallb (class_mem cl) w = true /\ (lo <= length w)%nat /\
  (forall h, hi = Some h -> (length w <= h)%nat) /\ caps' = caps.
Proof. inversion 1; subst; auto. Qed.

Lemma matches_char c w caps caps' :
  Matches ic (RChar c) w caps caps' ->
  exists x, w = [x] /\ canonicalize ic x = canonicalize ic c /\ caps' = caps.
Proof. inversion 1; subst; eauto. Qed.

Lemma matches_group i r w caps caps' :
  Matches ic (RGroup i r) w caps caps' ->
  exists caps1, Matches ic r w caps caps1 /\ caps' = setCapture i w caps1.
Proof. inversion 1; subst; eauto. Qed.

(** A pattern character that is not a letter matches only itself. *)
Lemma canonicalize_other (x c : CodeUnit) :
  (c < 65 \/ 122 < c \/ (90 < c /\ c < 97))%N ->
  canonicalize ic x = canonicalize ic c -> x = c.
Proof.
  unfold canonicalize. intros Hc.
  destruct ic; cbn [andb];
    destruct (N.leb_spec 97 x), (N.leb_spec x 122),
             (N.leb_spec 97 c), (N.leb_spec c 122); cbn [andb]; lia.
Qed.
End MatchesInversion.

Ltac not_a_letter :=
  first [ left; reflexivity
        | right; left; reflexivity
        | right; right; split; reflexivity ].

(** Under flag [i] a lower-case pattern letter matches both cases. *)
Lemma canonicalize_letter (x c : CodeUnit) :
  (97 <= c <= 122)%N ->
  canonicalize true x = canonicalize true c <-> (x = c \/ x = c - 32)%N.
Proof.
  unfold canonicalize. intros Hc. cbn [andb].
  destruct (N.leb_spec 97 x), (N.leb_spec x 122),
           (N.leb_spec 97 c), (N.leb_spec c 122); cbn [andb]; lia.
Qed.

(** ** The patterns of [parseNutritionNumber], read as the specification
    words them *)

Lemma decimalRe_Decimal ic w caps caps' :
  Matches ic Nutrition.decimalRe w caps caps' -> Decimal w /\ caps' = caps.
Proof.
  intros Hm. unfold Nutrition.decimalRe in Hm. cbn [rseq] in Hm.
  apply matches_seq in Hm as (ip & tail & caps1 & -> & Hip & Htail).
  apply matches_rep in Hip as (Hdig & Hlen & _ & ->).
  assert (Hne : ip <> []) by (intros ->; cbn in Hlen; lia).
  apply matches_opt in Htail as [[-> ->] | [_ Htail]].
  - split; [|reflexivity]. exists ip. rewrite app_nil_r. auto.
  - apply matches_seq in Htail as (pt & fp & caps2 & -> & Hpt & Hfp).
    apply matches_char in Hpt as (x & -> & Hx & ->).
    apply canonicalize_other in Hx; [|not_a_letter]. subst x.
    apply matches_rep in Hfp as (Hfdig & Hflen & _ & ->).
    split; [|reflexivity]. exists ip. split; [exact Hdig|]. split; [exact Hne|].
    right. exists fp. split; [exact Hfdig|].
    split; [intros ->; cbn in Hflen; lia | reflexivity].
Qed.

Lemma Decimal_decimalRe ic w caps :
  Decimal w -> Matches ic Nutrition.decimalRe w caps caps.
Proof.
  intros (ip & Hdig & Hne & Hw). unfold Nutrition.decimalRe. cbn [rseq].
  assert (Hip : Matches ic (rplus CDigit) ip caps caps).
  { apply MRep; [exact Hdig | destruct ip; [congruence | cbn; lia] | discriminate]. }
  destruct Hw as [-> | (fp & Hfdig & Hfne & ->)].
  - rewrite <- (app_nil_r ip). econstructor; [exact Hip | constructor].
  - econstructor; [exact Hip|]. apply MOptTake; [|discriminate].
    change (ch "." :: fp) with ([ch "."] ++ fp).
    econstructor; [constructor; reflexivity|].
    apply MRep; [exact Hfdig | destruct fp; [congruence | cbn; lia] | discriminate].
Qed.

Lemma separatorRe_Separator w caps caps' :
  Matches true Nutrition.separatorRe w caps caps' <-> (Separator w /\ caps' = caps).
Proof.
  unfold Nutrition.separatorRe, rlit. cbn [ralt rseq js map list_ascii_of_string].
  split.
  - intros Hm.
    apply matches_alt in Hm as [Hm | Hm];
      [|apply matches_alt in Hm as [Hm | Hm];
        [|apply matches_alt in Hm as [Hm | Hm]]].
    1-3: apply matches_char in Hm as (x & -> & Hx & ->);
         apply canonicalize_other in Hx; [|not_a_letter]; subst x;
         split; [|reflexivity]; unfold Separator; auto.
    apply matches_seq in Hm as (wt & wo & caps1 & -> & Ht & Ho).
    apply matches_char in Ht as (t & -> & Ht & ->).
    apply matches_char in Ho as (o & -> & Ho & ->).
    apply canonicalize_letter in Ht; [|cbv; split; discriminate].
    apply canonicalize_letter in Ho; [|cbv; split; discriminate].
    split; [|reflexivity]. right; right; right. exists t, o.
    repeat split; tauto.
  - intros [Hsep ->].
    destruct Hsep as [-> | [-> | [-> | (t & o & Ht & Ho & ->)]]].
    + apply MAltL. constructor. reflexivity.
    + apply MAltR, MAltL. constructor. reflexivity.
    + apply MAltR, MAltR, MAltL. constructor. reflexivity.
    + apply MAltR, MAltR, MAltR. change [t; o] with ([t] ++ [o]).
      econstructor; constructor.
      * destruct Ht as [-> | ->]; reflexivity.
      * destruct Ho as [-> | ->]; reflexivity.
Qed.

Lemma spaces_star ic w caps caps' :
  Matches ic (rstar CSpace) w caps caps' <-> (Spaces w /\ caps' = caps).
Proof.
  split.
  - intros Hm. apply matches_rep in Hm as (Hall & _ & _ & ->). auto.
  - intros [Hall ->]. apply MRep; [exact Hall | lia | discriminate].
Qed.

(** The range pattern matches exactly the words [A ws1 sep ws2 B], and
    captures [A] and [B]. *)
Lemma rangeRe_range w caps :
  Matches true Nutrition.rangeRe w [] caps <->
  exists A ws1 sep ws2 B,
    w = A ++ ws1 ++ sep ++ ws2 ++ B /\
    Decimal A /\ Spaces ws1 /\ Separator sep /\ Spaces ws2 /\ Decimal B /\
    caps = setCapture 2 B (setCapture 1 A []).
Proof.
  unfold Nutrition.rangeRe. cbn [rseq]. split.
  - intros Hm.
    apply matches_seq in Hm as (A & w1 & c1 & -> & HA & Hm).
    apply matches_seq in Hm as (ws1 & w2 & c2 & -> & Hws1 & Hm).
    apply matches_seq in Hm as (sep & w3 & c3 & -> & Hsep & Hm).
    apply matches_seq in Hm as (ws2 & B & c4 & -> & Hws2 & HB).
    apply matches_group in HA as (cA & HA & ->).
    apply decimalRe_Decimal in HA as [HA ->].
    apply spaces_star in Hws1 as [Hws1 ->].
    apply separatorRe_Separator in Hsep as [Hsep ->].
    apply spaces_star in Hws2 as [Hws2 ->].
    apply matches_group in HB as (cB & HB & ->).
    apply decimalRe_Decimal in HB as [HB ->].
    exists A, ws1, sep, ws2, B. repeat split; assumption.
  - intros (A & ws1 & sep & ws2 & B & -> & HA & Hws1 & Hsep & Hws2 & HB & ->).
    econstructor; [constructor; apply Decimal_decimalRe; exact HA|].
    econstructor; [apply spaces_star; split; [exact Hws1 | reflexivity]|].
    econstructor; [apply separatorRe_Separator; split; [exact Hsep | reflexivity]|].
    econstructor; [apply spaces_star; split; [exact Hws2 | reflexivity]|].
    constructor. apply Decimal_decimalRe. exact HB.
Qed.

Lemma numberRe_SignedNumber w caps caps' :
  Matches false Nutrition.numberRe w caps caps' <-> (SignedNumber w /\ caps' = caps).
Proof.
  unfold Nutrition.numberRe. cbn [rseq]. split.
  - intros Hm.
    apply matches_seq in Hm as (sign & w1 & c1 & -> & Hsign & Hm).
    apply matches_seq in Hm as (ip & w2 & c2 & -> & Hip & Hm).
    apply matches_seq in Hm as (point & fp & c3 & -> & Hpoint & Hfp).
    apply matches_rep in Hsign as (Hsign & _ & Hone & ->).
    apply matches_rep in Hip as (Hip & _ & _ & ->).
    apply matches_rep in Hfp as (Hfp & Hlen & _ & ->).
    specialize (Hone 1%nat eq_refl).
    split.
    + exists sign, ip, point, fp. split; [reflexivity|].
      repeat split; try assumption.
      * destruct sign as [|x [|y sign]]; [auto | | cbn in Hone; lia].
        cbn [forallb class_mem existsb] in Hsign.
        rewrite andb_true_r, orb_false_r in Hsign.
        apply orb_prop in Hsign as [Hx | Hx]; apply N.eqb_eq in Hx; subst x; auto.
      * apply matches_opt in Hpoint as [[-> _] | [_ Hpoint]]; [auto|].
        apply matches_char in Hpoint as (x & -> & Hx & _).
        apply canonicalize_other in Hx; [|not_a_letter]. subst x. auto.
      * intros ->. cbn in Hlen. lia.
    + apply matches_opt in Hpoint as [[_ ->] | [_ Hpoint]]; [reflexivity|].
      apply matches_char in Hpoint as (x & _ & _ & ->). reflexivity.
  - intros [(sign & ip & point & fp & -> & Hsign & Hip & Hpoint & Hfp & Hne) ->].
    econstructor; [|econstructor; [|econstructor]].
    + apply MRep.
      * destruct Hsign as [-> | [-> | ->]]; reflexivity.
      * lia.
      * intros h [= <-]. destruct Hsign as [-> | [-> | ->]]; cbn; lia.
    + apply MRep; [exact Hip | lia | discriminate].
    + destruct Hpoint as [-> | ->]; [apply MOptSkip|].
      apply MOptTake; [constructor; reflexivity | discriminate].
    + apply MRep; [exact Hfp | destruct fp; [congruence | cbn; lia] | discriminate].
Qed.

(** ** [Number] on the captured words *)

Lemma spanDigits_app (ds rest : JsString) :
  Digits ds ->
  match rest with c :: _ => is_digit c = false | [] => True end ->
  spanDigits (ds ++ rest) = (ds, rest).
Proof.
  unfold Digits. induction ds as [|d ds IH]; intros Hds Hrest; cbn [app].
  - destruct rest as [|c rest]; [reflexivity|]. cbn. rewrite Hrest. reflexivity.
  - cbn in Hds. apply andb_prop in Hds as [Hd Hds].
    cbn [spanDigits]. rewrite Hd, (IH Hds Hrest). reflexivity.
Qed.

Lemma spanDigits_all (ds : JsString) : Digits ds -> spanDigits ds = (ds, []).
Proof.
  intros Hds. rewrite <- (app_nil_r ds) at 1. apply spanDigits_app; [exact Hds | exact I].
Qed.

Lemma unsignedDecimal_integer (ip : JsString) :
  Digits ip -> ip <> [] -> unsignedDecimal ip = Some (decimalValue ip []).
Proof.
  intros Hip Hne. unfold unsignedDecimal. rewrite (spanDigits_all _ Hip).
  destruct ip; [congruence | reflexivity].
Qed.

Lemma unsignedDecimal_fraction (ip fp : JsString) :
  Digits ip -> Digits fp -> fp <> [] ->
  unsignedDecimal (ip ++ ch "." :: fp) = Some (decimalValue ip fp).
Proof.
  intros Hip Hfp Hne. unfold unsignedDecimal.
  rewrite (spanDigits_app ip (ch "." :: fp) Hip) by reflexivity.
  rewrite N.eqb_refl, (spanDigits_all _ Hfp).
  destruct (ip ++ fp) eqn:Hcat; [|reflexivity].
  apply app_eq_nil in Hcat as [_ ->]. congruence.
Qed.

Lemma decimalValue_nonneg (ip fp : JsString) : (0 <= decimalValue ip fp)%Q.
Proof. unfold decimalValue, Qle. cbn. lia. Qed.

(** An unsigned literal converts as it is: it starts with no sign. *)
Lemma Number_unsigned (s : JsString) (q : Q) :
  unsignedDecimal s = Some q -> literalValue s = NFinite q.
Proof.
  intros Hu. destruct s as [|c s]; [discriminate Hu|].
  unfold literalValue.
  destruct (N.eqb_spec c (ch "-")) as [-> | _]; [discriminate Hu|].
  destruct (N.eqb_spec c (ch "+")) as [-> | _]; [discriminate Hu|].
  rewrite Hu. reflexivity.
Qed.

Lemma Number_Decimal (w : JsString) :
  Decimal w -> exists a, literalValue w = NFinite a /\ (0 <= a)%Q.
Proof.
  intros (ip & Hip & Hne & [-> | (fp & Hfp & Hfne & ->)]).
  - exists (decimalValue ip []). split; [|apply decimalValue_nonneg].
    apply Number_unsigned, unsignedDecimal_integer; assumption.
  - exists (decimalValue ip fp). split; [|apply decimalValue_nonneg].
    apply Number_unsigned, unsignedDecimal_fraction; assumption.
Qed.

Lemma Digits_app (a b : JsString) : Digits a -> Digits b -> Digits (a ++ b).
Proof. unfold Digits. intros Ha Hb. rewrite forallb_app, Ha, Hb. reflexivity. Qed.

Lemma Number_SignedNumber (w : JsString) :
  SignedNumber w -> exists x, literalValue w = NFinite x.
Proof.
  intros (sign & ip & point & fp & -> & Hsign & Hip & Hpoint & Hfp & Hne).
  assert (Hbody : exists q, unsignedDecimal (ip ++ point ++ fp) = Some q).
  { destruct Hpoint as [-> | ->].
    - eexists. cbn [app]. apply unsignedDecimal_integer.
      + apply Digits_app; assumption.
      + intros Hnil. apply app_eq_nil in Hnil as [_ ->]. congruence.
    - eexists. apply unsignedDecimal_fraction; assumption. }
  destruct Hbody as [q Hq].
  destruct Hsign as [-> | [-> | ->]]; cbn [app].
  - exists q. apply Number_unsigned. exact Hq.
  - exists (- q)%Q. unfold literalValue. rewrite N.eqb_refl, Hq. reflexivity.
  - exists q. unfold literalValue.
    replace (ch "+" =? ch "-")%N with false by reflexivity.
    rewrite N.eqb_refl, Hq. reflexivity.
Qed.

(** ** Digits in the matched words *)

Lemma HasDigit_app (a b : JsString) :
  HasDigit (a ++ b) <-> HasDigit a \/ HasDigit b.
Proof. unfold HasDigit. rewrite existsb_app, orb_true_iff. reflexivity. Qed.

Lemma Digits_HasDigit (w : JsString) : Digits w -> w <> [] -> HasDigit w.
Proof.
  unfold Digits, HasDigit. destruct w as [|c w]; [congruence|].
  cbn. intros Hall _. apply andb_prop in Hall as [-> _]. reflexivity.
Qed.

Lemma Decimal_HasDigit (w : JsString) : Decimal w -> HasDigit w.
Proof.
  intros (ip & Hip & Hne & [-> | (fp & _ & _ & ->)]).
  - apply Digits_HasDigit; assumption.
  - apply HasDigit_app. left. apply Digits_HasDigit; assumption.
Qed.

Lemma SignedNumber_HasDigit (w : JsString) : SignedNumber w -> HasDigit w.
Proof.
  intros (sign & ip & point & fp & -> & _ & _ & _ & Hfp & Hne).
  apply HasDigit_app. right. apply HasDigit_app. right. apply HasDigit_app. right.
  apply Digits_HasDigit; assumption.
Qed.

Lemma HasDigit_NumberAt (s : JsString) :
  HasDigit s -> exists pre w, NumberAt s pre w.
Proof.
  unfold HasDigit. induction s as [|c s IH]; [discriminate|].
  cbn [existsb]. intros Hex.
  destruct (is_digit c) eqn:Hc.
  - exists [], [c], s. split; [reflexivity|].
    exists [], [], [], [c]. unfold Digits. cbn [forallb app]. rewrite Hc.
    repeat split; auto.
  - destruct (IH Hex) as (pre & w & post & -> & Hw).
    exists (c :: pre), w, post. split; [reflexivity | exact Hw].
Qed.

Lemma dropSpaces_suffix (s : JsString) : exists pre, s = pre ++ dropSpaces s.
Proof.
  induction s as [|c s [pre IH]]; [exists []; reflexivity|].
  cbn [dropSpaces]. destruct (is_space c).
  - exists (c :: pre). cbn. f_equal. exact IH.
  - exists []. reflexivity.
Qed.

Lemma trim_infix (s : JsString) : exists pre post, s = pre ++ trim s ++ post.
Proof.
  unfold trim, trimEnd, trimStart.
  destruct (dropSpaces_suffix s) as [pre Hpre].
  destruct (dropSpaces_suffix (rev (dropSpaces s))) as [post Hpost].
  exists pre, (rev post). rewrite <- rev_app_distr, <- Hpost, rev_involutive.
  exact Hpre.
Qed.

Lemma replaceAll_digit (x y : CodeUnit) (s : JsString) :
  is_digit x = false -> is_digit y = false ->
  HasDigit (replaceAll x y s) <-> HasDigit s.
Proof.
  intros Hx Hy. unfold HasDigit, replaceAll.
  induction s as [|c s IH]; [reflexivity|]. cbn [map existsb].
  rewrite !orb_true_iff, IH.
  destruct (N.eqb_spec c x) as [-> | _]; [|reflexivity].
  rewrite Hx, Hy. reflexivity.
Qed.

Lemma normalizeString_digit (str : JsString) :
  HasDigit (Nutrition.normalizeString str) -> HasDigit str.
Proof.
  unfold Nutrition.normalizeString. intros Hd.
  apply (replaceAll_digit (ch ",") (ch ".")); [reflexivity | reflexivity |].
  destruct (trim_infix (replaceAll (ch ",") (ch ".") str)) as (pre & post & Heq).
  rewrite Heq. apply HasDigit_app. right. apply HasDigit_app. left. exact Hd.
Qed.

(** * Properties of the nutrient value normalizer *)

Import Nutrition.

Lemma Math_max_round (x : Q) :
  Math_max zero (Math_round (NFinite x)) = clampRound x.
Proof.
  unfold clampRound, Math_round, Math_max, zero, ofZ.
  set (k := Qfloor (x + (1 # 2))%Q).
  assert (Hiff : Qle_bool 0 (inject_Z k) = true <-> 0 <= k).
  { rewrite Qle_bool_iff. unfold Qle. cbn. lia. }
  destruct (Qle_bool 0 (inject_Z k)).
  - rewrite Z.max_r by (apply Hiff; reflexivity). reflexivity.
  - assert (Hneg : ~ (0 <= k)) by (intros Hk; apply Hiff in Hk; discriminate).
    rewrite Z.max_l by lia. reflexivity.
Qed.

Lemma clampRound_nonneg (x : Q) : exists z, 0 <= z /\ clampRound x = ofZ z.
Proof. eexists. split; [|reflexivity]. lia. Qed.

Lemma clampRound_negative (x : Q) : (x < 0)%Q -> clampRound x = zero.
Proof.
  intros Hx. unfold clampRound.
  assert (Hfloor : Qfloor (x + (1 # 2))%Q <= 0).
  { apply Z.lt_succ_r. rewrite Zlt_Qlt.
    eapply Qle_lt_trans; [apply Qfloor_le|].
    change (inject_Z (Z.succ 0)) with 1%Q. lra. }
  rewrite Z.max_l by exact Hfloor. reflexivity.
Qed.

Lemma clampRound_nonpositive (x : Q) : (x <= 0)%Q -> clampRound x = zero.
Proof.
  intros Hx. unfold clampRound.
  assert (Hfloor : Qfloor (x + (1 # 2))%Q <= 0).
  { apply Z.lt_succ_r. rewrite Zlt_Qlt.
    eapply Qle_lt_trans; [apply Qfloor_le|].
    change (inject_Z (Z.succ 0)) with 1%Q. lra. }
  rewrite Z.max_l by exact Hfloor. reflexivity.
Qed.

(** [max(0, round(n))] of a non-negative integer is the integer. *)
Lemma clampRound_integer (z : Z) : 0 <= z -> clampRound (inject_Z z) = ofZ z.
Proof.
  intros Hz. unfold clampRound. f_equal.
  assert (Hfloor : Qfloor (inject_Z z + (1 # 2)) = z).
  { assert (Hlo : (inject_Z z <= inject_Z z + (1 # 2))%Q) by lra.
    assert (Hhi : (inject_Z z + (1 # 2) < inject_Z (z + 1))%Q).
    { rewrite inject_Z_plus. change (inject_Z 1) with 1%Q. lra. }
    apply Qfloor_resp_le in Hlo. rewrite Qfloor_Z in Hlo.
    pose proof (Qfloor_le (inject_Z z + (1 # 2))) as Hle.
    assert (Hlt : (inject_Z (Qfloor (inject_Z z + (1 # 2))) < inject_Z (z + 1))%Q)
      by lra.
    rewrite <- Zlt_Qlt in Hlt. lia. }
  rewrite Hfloor. lia.
Qed.

Lemma clampRound_le (q : Q) (n : Z) :
  (0 <= q)%Q -> (q <= inject_Z n)%Q ->
  exists z, 0 <= z <= n /\ clampRound q = ofZ z.
Proof.
  intros H0 Hn. exists (Z.max 0 (Qfloor (q + (1 # 2)))). split; [|reflexivity].
  pose proof (Qfloor_le (q + (1 # 2))) as Hle.
  assert (Hlt : (inject_Z (Qfloor (q + (1 # 2))) < inject_Z (n + 1))%Q).
  { rewrite inject_Z_plus. change (inject_Z 1) with 1%Q. lra. }
  rewrite <- Zlt_Qlt in Hlt.
  assert (0 <= n).
  { assert (Hpos : (inject_Z 0 < inject_Z (n + 1))%Q).
    { rewrite inject_Z_plus. change (inject_Z 1) with 1%Q.
      change (inject_Z 0) with 0%Q. lra. }
    rewrite <- Zlt_Qlt in Hpos. lia. }
  lia.
Qed.

(** ** Rounding, then clamping *)

Lemma Number_literal (w : JsString) (x : Q) :
  literalValue w = NFinite x -> Number w = round64 x.
Proof. intros Hw. unfold Number. rewrite Hw. reflexivity. Qed.

Lemma round64_isNaN (x : Q) : isNaN (round64 x) = false.
Proof.
  pose proof (round64_notNaN x) as Hx. destruct (round64 x); congruence || reflexivity.
Qed.

(** The double of a number between two integers that are doubles lies
    between them. *)
Lemma round64_between (x : Q) (lo hi : Z) :
  Z.abs lo <= 2 ^ 53 -> Z.abs hi <= 2 ^ 53 ->
  (inject_Z lo <= x)%Q -> (x <= inject_Z hi)%Q ->
  exists r, round64 x = NFinite r /\ (inject_Z lo <= r)%Q /\ (r <= inject_Z hi)%Q.
Proof.
  intros Hlo Hhi Hx1 Hx2.
  pose proof (round64_mono _ _ Hx1) as H1. pose proof (round64_mono _ _ Hx2) as H2.
  rewrite round64_Z in H1 by exact Hlo. rewrite round64_Z in H2 by exact Hhi.
  destruct (round64 x) as [r| | |]; try contradiction.
  exists r. auto.
Qed.

Lemma clamp_count (n : JsNumber) :
  js_le zero n -> CountOrInfinity (Math_max zero (Math_round n)).
Proof.
  destruct n as [q| | |]; try contradiction; intros _.
  - left. rewrite Math_max_round. apply clampRound_nonneg.
  - right. reflexivity.
Qed.

Lemma clamp64_count (x : Q) : CountOrInfinity (clamp64 x).
Proof.
  unfold clamp64. destruct (round64 x) as [q| | |] eqn:Hx.
  - left. rewrite Math_max_round. apply clampRound_nonneg.
  - exfalso. exact (round64_notNaN x Hx).
  - right. reflexivity.
  - left. exists 0. split; [lia | reflexivity].
Qed.

Lemma clamp64_nonpositive (x : Q) : (x <= 0)%Q -> clamp64 x = zero.
Proof.
  intros Hx. unfold clamp64. pose proof (round64_mono _ _ Hx) as Hle.
  rewrite (round64_zero 0) in Hle by reflexivity.
  destruct (round64 x) as [q| | |]; try contradiction; [|reflexivity].
  rewrite Math_max_round. apply clampRound_nonpositive. exact Hle.
Qed.

Lemma clamp64_integer (z : Z) :
  0 <= z <= 2 ^ 53 -> clamp64 (inject_Z z) = ofZ z.
Proof.
  intros Hz. unfold clamp64. rewrite round64_Z by lia.
  unfold ofZ at 1. rewrite Math_max_round. apply clampRound_integer. lia.
Qed.

Lemma clamp64_le (q : Q) (n : Z) :
  n <= 2 ^ 53 -> (0 <= q)%Q -> (q <= inject_Z n)%Q ->
  exists z, 0 <= z <= n /\ clamp64 q = ofZ z.
Proof.
  intros Hn H0 Hq.
  assert (Hn0 : 0 <= n).
  { assert (Hle : (inject_Z 0 <= inject_Z n)%Q) by (change (inject_Z 0) with 0%Q; lra).
    rewrite <- Zle_Qle in Hle. exact Hle. }
  destruct (round64_between q 0 n) as (r & Hr & Hr0 & Hrn); try lia; try assumption.
  unfold clamp64. rewrite Hr, Math_max_round. apply clampRound_le; assumption.
Qed.

Lemma midpoint64_count (a b : Q) :
  (0 <= a)%Q -> (0 <= b)%Q -> CountOrInfinity (midpoint64 a b).
Proof.
  intros Ha Hb. unfold midpoint64. apply clamp_count.
  pose proof (round64_nonneg a Ha) as Hra. pose proof (round64_nonneg b Hb) as Hrb.
  destruct (round64 a) as [p| | |]; try contradiction;
    destruct (round64 b) as [q| | |]; try contradiction; try exact I.
  cbn [js_add].
  assert (Hsum : js_le zero (round64 (p + q))).
  { apply round64_nonneg. unfold js_le, zero in Hra, Hrb. lra. }
  destruct (round64 (p + q)) as [r| | |]; try contradiction; [|exact I].
  cbn [js_div_pos]. apply round64_nonneg.
  unfold js_le, zero in Hsum. apply Qle_shift_div_l; [reflexivity | lra].
Qed.

Lemma midpoint64_le (a b : Q) (n : Z) :
  n <= 2 ^ 52 -> (0 <= a)%Q -> (a <= inject_Z n)%Q ->
  (0 <= b)%Q -> (b <= inject_Z n)%Q ->
  exists z, 0 <= z <= n /\ midpoint64 a b = ofZ z.
Proof.
  intros Hn Ha0 Ha Hb0 Hb.
  assert (Hn0 : 0 <= n).
  { assert (Hle : (inject_Z 0 <= inject_Z n)%Q) by (change (inject_Z 0) with 0%Q; lra).
    rewrite <- Zle_Qle in Hle. exact Hle. }
  destruct (round64_between a 0 n) as (p & Hp & Hp0 & Hpn); try lia; try assumption.
  destruct (round64_between b 0 n) as (q & Hq & Hq0 & Hqn); try lia; try assumption.
  change (inject_Z 0) with 0%Q in Hp0, Hq0.
  destruct (round64_between (p + q) 0 (2 * n)) as (r & Hr & Hr0 & Hrn); try lia.
  { change (inject_Z 0) with 0%Q. lra. }
  { rewrite inject_Z_mult. change (inject_Z 2) with 2%Q. lra. }
  change (inject_Z 0) with 0%Q in Hr0.
  rewrite inject_Z_mult in Hrn. change (inject_Z 2) with 2%Q in Hrn.
  destruct (round64_between (r / 2) 0 n) as (m & Hm & Hm0 & Hmn); try lia.
  { change (inject_Z 0) with 0%Q. apply Qle_shift_div_l; [reflexivity | lra]. }
  { apply Qle_shift_div_r; [reflexivity | lra]. }
  change (inject_Z 0) with 0%Q in Hm0.
  unfold midpoint64. rewrite Hp, Hq. cbn [js_add]. rewrite Hr. cbn [js_div_pos].
  rewrite Hm, Math_max_round. apply clampRound_le; assumption.
Qed.

Lemma RangeAt_OccursAt (s pre A B : JsString) :
  RangeAt s pre A B -> exists w, OccursAt true rangeRe s pre w.
Proof.
  intros (ws1 & sep & ws2 & post & -> & HA & Hws1 & Hsep & Hws2 & HB).
  exists (A ++ ws1 ++ sep ++ ws2 ++ B), post, (setCapture 2 B (setCapture 1 A [])).
  split; [rewrite <- !app_assoc; reflexivity|].
  apply rangeRe_range. exists A, ws1, sep, ws2, B. repeat split; assumption.
Qed.

Lemma rangeMidpoint_none (s : JsString) :
  stringMatch true rangeRe s = None -> ~ HasRange s /\ rangeMidpoint s = None.
Proof.
  intros Hrun. split.
  - intros (pre & A & B & Hrange).
    destruct (RangeAt_OccursAt _ _ _ _ Hrange) as [w Hocc].
    apply (searchFrom_none _ _ _ _ Hrun). exists pre, w. exact Hocc.
  - unfold rangeMidpoint. rewrite Hrun. reflexivity.
Qed.

Lemma NumberAt_OccursAt (s pre w : JsString) :
  NumberAt s pre w <-> OccursAt false numberRe s pre w.
Proof.
  split.
  - intros (post & -> & Hw). exists post, []. split; [reflexivity|].
    apply numberRe_SignedNumber. auto.
  - intros (post & caps & -> & Hm). exists post. split; [reflexivity|].
    apply numberRe_SignedNumber in Hm as [Hw _]. exact Hw.
Qed.

Lemma firstNumber_none (s : JsString) :
  stringMatch false numberRe s = None -> ~ HasDigit s /\ firstNumber s = zero.
Proof.
  intros Hrun. split.
  - intros Hd. destruct (HasDigit_NumberAt _ Hd) as (pre & w & Hat).
    apply (searchFrom_none _ _ _ _ Hrun). exists pre, w.
    apply NumberAt_OccursAt. exact Hat.
  - unfold firstNumber. rewrite Hrun. reflexivity.
Qed.

Lemma HasRange_HasDigit (s : JsString) : HasRange s -> HasDigit s.
Proof.
  intros (pre & A & B & ws1 & sep & ws2 & post & -> & HA & _).
  apply HasDigit_app. right. apply HasDigit_app. left.
  apply Decimal_HasDigit. exact HA.
Qed.

(** ** The code units of decimals and separators *)

Lemma digit_range (c : CodeUnit) : is_digit c = true <-> (48 <= c <= 57)%N.
Proof. unfold is_digit. rewrite andb_true_iff, !N.leb_le. reflexivity. Qed.

Lemma digit_not_space (c : CodeUnit) : is_digit c = true -> is_space c = false.
Proof.
  rewrite digit_range. intros Hc. apply not_true_is_false. unfold is_space.
  rewrite !orb_true_iff, !andb_true_iff, !N.leb_le, !N.eqb_eq. lia.
Qed.

Lemma Digits_units (w : JsString) : Digits w -> forallb decimalUnit w = true.
Proof.
  unfold Digits. induction w as [|c w IH]; [reflexivity|]. cbn [forallb].
  intros Hall. apply andb_prop in Hall as [Hc Hw].
  unfold decimalUnit at 1. rewrite Hc, (IH Hw). reflexivity.
Qed.

Lemma Decimal_units (d : JsString) : Decimal d -> forallb decimalUnit d = true.
Proof.
  intros (ip & Hip & _ & [-> | (fp & Hfp & _ & ->)]); [apply Digits_units, Hip|].
  rewrite forallb_app. cbn [forallb].
  rewrite (Digits_units _ Hip), (Digits_units _ Hfp). reflexivity.
Qed.

Lemma Digits_last (w : JsString) :
  Digits w -> w <> [] -> exists w0 c, w = w0 ++ [c] /\ is_digit c = true.
Proof.
  intros Hw Hne. destruct (exists_last Hne) as (w0 & c & ->).
  exists w0, c. split; [reflexivity|].
  unfold Digits in Hw. rewrite forallb_app in Hw.
  apply andb_prop in Hw as [_ Hc]. cbn in Hc. rewrite andb_true_r in Hc. exact Hc.
Qed.

Lemma Decimal_last (d : JsString) :
  Decimal d -> exists d0 c, d = d0 ++ [c] /\ is_digit c = true.
Proof.
  intros (ip & Hip & Hne & [-> | (fp & Hfp & Hfne & ->)]).
  - apply Digits_last; assumption.
  - destruct (Digits_last _ Hfp Hfne) as (f0 & c & -> & Hc).
    exists (ip ++ ch "." :: f0), c. rewrite <- app_assoc. auto.
Qed.

Lemma Separator_head (sep : JsString) :
  Separator sep -> exists x rest, sep = x :: rest /\ decimalUnit x = false.
Proof.
  intros [-> | [-> | [-> | (t & o & Ht & _ & ->)]]].
  1-3: eexists _, _; split; reflexivity.
  exists t, [o]. split; [reflexivity|]. destruct Ht as [-> | ->]; reflexivity.
Qed.

(** ** Runs of code units *)

Lemma spanDigits_spec (s : JsString) :
  s = fst (spanDigits s) ++ snd (spanDigits s) /\
  Digits (fst (spanDigits s)) /\ endsRun is_digit (snd (spanDigits s)).
Proof.
  unfold Digits. induction s as [|c s (Hs & Hd & He)]; cbn [spanDigits].
  - repeat split.
  - destruct (is_digit c) eqn:Hc.
    + destruct (spanDigits s) as [ds rest]. cbn [fst snd] in *.
      split; [cbn [app]; f_equal; exact Hs|]. split; [|exact He].
      cbn [forallb]. rewrite Hc. exact Hd.
    + cbn [fst snd app forallb]. repeat split. exact Hc.
Qed.

(** A run that ends where [x] begins is determined by the string. *)
Lemma run_unique (P : CodeUnit -> bool) :
  forall a a' x x' : JsString,
    a ++ x = a' ++ x' ->
    forallb P a = true -> forallb P a' = true ->
    endsRun P x -> endsRun P x' -> a = a' /\ x = x'.
Proof.
  induction a as [|c a IH]; intros [|c' a'] x x' Heq Ha Ha' Hx Hx'.
  - auto.
  - cbn [app] in Heq. subst x. cbn in Hx, Ha'.
    apply andb_prop in Ha' as [Hc _]. congruence.
  - cbn [app] in Heq. subst x'. cbn in Hx', Ha.
    apply andb_prop in Ha as [Hc _]. congruence.
  - cbn [app] in Heq. injection Heq as <- Heq.
    cbn in Ha, Ha'. apply andb_prop in Ha as [_ Ha]. apply andb_prop in Ha' as [_ Ha'].
    destruct (IH a' x x' Heq Ha Ha' Hx Hx') as [-> ->]. auto.
Qed.

(** A prefix within the run is no longer than the run. *)
Lemma prefix_run (P : CodeUnit -> bool) :
  forall a b x y : JsString,
    a ++ x = b ++ y -> forallb P a = true -> endsRun P y ->
    (length a <= length b)%nat.
Proof.
  induction a as [|c a IH]; intros b x y Heq Ha Hy; [cbn; lia|].
  cbn in Ha. apply andb_prop in Ha as [Hc Ha].
  destruct b as [|c' b].
  - cbn [app] in Heq. subst y. cbn in Hy. congruence.
  - cbn [app] in Heq. injection Heq as <- Heq. cbn [length].
    apply le_n_S. exact (IH b x y Heq Ha Hy).
Qed.

Lemma endsRun_digit_point (rest : JsString) : endsRun is_digit (ch "." :: rest).
Proof. reflexivity. Qed.

(** After a run of digits, either a point and a further run of digits
    follow, or no point followed by a digit does. *)
Lemma fraction_cases (r1 : JsString) :
  (exists D2 r3, r1 = ch "." :: D2 ++ r3 /\ Digits D2 /\ D2 <> [] /\
                 endsRun is_digit r3) \/
  (forall fp post, r1 = ch "." :: fp ++ post -> Digits fp -> fp = []).
Proof.
  destruct r1 as [|x r2]; [right; intros fp post Hnil; discriminate|].
  destruct (N.eqb_spec x (ch ".")) as [-> | Hx];
    [|right; intros fp post [= Hx' _]; exfalso; apply Hx; exact Hx'].
  destruct (spanDigits_spec r2) as (Hs & Hd & He).
  destruct (fst (spanDigits r2)) as [|d D2] eqn:HD.
  - right. intros [|c fp] post [= Hr2] Hfp; [reflexivity|].
    cbn [app] in Hs. rewrite <- Hs, Hr2 in He. cbn in He, Hfp.
    apply andb_prop in Hfp as [Hc _]. congruence.
  - left. exists (d :: D2), (snd (spanDigits r2)).
    split; [f_equal; exact Hs|]. split; [exact Hd|]. split; [discriminate | exact He].
Qed.

(** ** The greedy choices of the two patterns *)

(** With a continuation that accepts whatever follows, the decimal
    pattern takes the longest decimal at the start of the input. *)
Lemma decimalRe_greedy (ic : bool) (s : JsString) (caps : Captures)
    (k : Continuation) (res : MatchState) :
  (forall s' c', k s' c' <> None) ->
  matchRegex ic decimalRe s caps k = Some res ->
  exists B rest,
    s = B ++ rest /\ Decimal B /\ k rest caps = Some res /\
    (forall B' post', s = B' ++ post' -> Decimal B' ->
                      (length B' <= length B)%nat).
Proof.
  intros Hk Hrun.
  destruct (spanDigits_spec s) as (Hs & HD1 & Hend).
  set (D1 := fst (spanDigits s)) in *. set (r1 := snd (spanDigits s)) in *.
  clearbody D1 r1. subst s.
  unfold decimalRe, rplus in Hrun. cbn [rseq] in Hrun.
  rewrite matchRegex_seq, matchRegex_rep in Hrun.
  destruct D1 as [|d D1'].
  { cbn [app] in Hrun. rewrite repeatClass_stuck in Hrun by (assumption || lia).
    discriminate. }
  set (D1 := d :: D1') in *.
  assert (HD1ne : D1 <> []) by discriminate.
  assert (Hint : forall B', Digits B' -> forall post', D1 ++ r1 = B' ++ post' ->
                 (length B' <= length D1)%nat).
  { intros B' HB' post' Heq. symmetry in Heq.
    exact (prefix_run is_digit _ _ _ _ Heq HB' Hend). }
  rewrite repeatClass_greedy in Hrun;
    [ | exact Hend
      | cbn [matchRegex];
        match goal with
        | |- match ?inner with _ => _ end <> None =>
          destruct inner; [discriminate | apply Hk]
        end
      | exact HD1 | cbn; lia ].
  cbn [matchRegex] in Hrun.
  destruct (fraction_cases r1) as [(D2 & r3 & -> & HD2 & HD2ne & Hend3) | Hnofrac].
  - (* a fraction follows: it is taken whole *)
    rewrite N.eqb_refl in Hrun.
    rewrite repeatClass_greedy in Hrun;
      [ | exact Hend3
        | destruct (Nat.eqb_spec (length r3) (length (ch "." :: D2 ++ r3))) as [Hl|_];
          [cbn in Hl; rewrite length_app in Hl; lia | apply Hk]
        | exact HD2 | destruct D2; [congruence | cbn; lia] ].
    destruct (Nat.eqb_spec (length r3) (length (ch "." :: D2 ++ r3))) as [Hl|_];
      [cbn in Hl; rewrite length_app in Hl; lia|].
    destruct (k r3 caps) as [res'|] eqn:Hres; [|exfalso; exact (Hk _ _ Hres)].
    injection Hrun as ->.
    exists (D1 ++ ch "." :: D2), r3.
    split; [rewrite <- app_assoc; reflexivity|].
    split; [exists D1; split; [exact HD1|]; split; [exact HD1ne|];
            right; exists D2; auto|].
    split; [exact Hres|].
    intros B' post' Heq (ip & Hip & Hipne & [-> | (fp & Hfp & Hfpne & ->)]).
    + rewrite length_app. specialize (Hint ip Hip post' Heq). lia.
    + rewrite <- app_assoc in Heq. cbn [app] in Heq.
      destruct (run_unique is_digit _ _ _ _ Heq HD1 Hip
                  (endsRun_digit_point _) (endsRun_digit_point _)) as [<- Htail].
      injection Htail as Htail. symmetry in Htail.
      pose proof (prefix_run is_digit _ _ _ _ Htail Hfp Hend3) as Hlen.
      rewrite !length_app. cbn [length]. lia.
  - (* no fraction follows: the integer digits are the match *)
    assert (Hinner :
      match r1 with
      | x :: s' =>
        if (canonicalize ic x =? canonicalize ic (ch "."))%N
        then repeatClass CDigit 1 None s' caps
               (fun s1 caps1 =>
                  if Nat.eqb (length s1) (length r1) then None else k s1 caps1)
        else None
      | [] => None
      end = None).
    { destruct r1 as [|x r2]; [reflexivity|].
      destruct (N.eqb_spec (canonicalize ic x) (canonicalize ic (ch "."))) as [Hx|_];
        [|reflexivity].
      apply canonicalize_other in Hx; [|not_a_letter]. subst x.
      apply repeatClass_stuck; [|lia].
      destruct r2 as [|c r2]; [exact I|]. cbn.
      destruct (is_digit c) eqn:Hc; [|reflexivity].
      assert (Hone : Digits [c]) by (unfold Digits; cbn [forallb]; rewrite Hc; reflexivity).
      discriminate (Hnofrac [c] r2 eq_refl Hone). }
    rewrite Hinner in Hrun.
    exists D1, r1. split; [reflexivity|].
    split; [exists D1; auto|]. split; [exact Hrun|].
    intros B' post' Heq (ip & Hip & Hipne & [-> | (fp & Hfp & Hfpne & ->)]).
    + exact (Hint ip Hip post' Heq).
    + exfalso. rewrite <- app_assoc in Heq. cbn [app] in Heq.
      destruct (run_unique is_digit _ _ _ _ Heq HD1 Hip Hend
                  (endsRun_digit_point _)) as [_ Htail].
      apply Hfpne. exact (Hnofrac fp post' Htail Hfp).
Qed.

(** *** The range pattern: where it matches, its parts are determined *)

Lemma space_not_unit (c : CodeUnit) : is_space c = true -> decimalUnit c = false.
Proof.
  intros Hc. unfold decimalUnit. apply orb_false_intro.
  - destruct (is_digit c) eqn:Hd; [|reflexivity].
    apply digit_not_space in Hd. congruence.
  - destruct (N.eqb_spec c (ch ".")) as [-> | _]; [discriminate Hc | reflexivity].
Qed.

Lemma Separator_head_space (sep : JsString) :
  Separator sep -> exists x rest, sep = x :: rest /\ is_space x = false.
Proof.
  intros [-> | [-> | [-> | (t & o & Ht & _ & ->)]]].
  1-3: eexists _, _; split; reflexivity.
  exists t, [o]. split; [reflexivity|]. destruct Ht as [-> | ->]; reflexivity.
Qed.

Lemma Decimal_head (d : JsString) :
  Decimal d -> exists c d', d = c :: d' /\ is_digit c = true.
Proof.
  intros (ip & Hip & Hne & Hd). destruct ip as [|c ip]; [congruence|].
  unfold Digits in Hip. cbn in Hip. apply andb_prop in Hip as [Hc _].
  destruct Hd as [-> | (fp & _ & _ & ->)]; eexists _, _; (split; [reflexivity | exact Hc]).
Qed.

Lemma endsRun_after_spaces (P : CodeUnit -> bool) (ws y : JsString) :
  (forall c, is_space c = true -> P c = false) ->
  Spaces ws -> endsRun P y -> endsRun P (ws ++ y).
Proof.
  intros HP Hws Hy. destruct ws as [|c ws]; [exact Hy|].
  unfold Spaces in Hws. cbn in Hws. apply andb_prop in Hws as [Hc _].
  cbn. apply HP, Hc.
Qed.

Lemma Separator_unique (a a' x x' : JsString) :
  Separator a -> Separator a' -> a ++ x = a' ++ x' -> a = a' /\ x = x'.
Proof.
  intros [-> | [-> | [-> | (t & o & Ht & Ho & ->)]]]
         [-> | [-> | [-> | (t' & o' & Ht' & Ho' & ->)]]] Heq;
    cbn [app] in Heq; try discriminate Heq;
    injection Heq; intros; subst;
    repeat match goal with H : _ \/ _ |- _ => destruct H end;
    try discriminate; split; reflexivity.
Qed.

(** The range branch takes the leftmost range of the string; its first
    end is the only decimal that can start a range there, its second end
    is the longest that can close it. *)
Lemma rangeMidpoint_some (s : JsString) (m : MatchResult) :
  stringMatch true rangeRe s = Some m ->
  exists pre A B a b,
    RangeAt s pre A B /\
    (forall pre' A' B', RangeAt s pre' A' B' -> (length pre <= length pre')%nat) /\
    (forall A' B', RangeAt s pre A' B' ->
                   A' = A /\ (length B' <= length B)%nat) /\
    literalValue A = NFinite a /\ literalValue B = NFinite b /\
    rangeMidpoint s = Some (midpoint64 a b).
Proof.
  intros Hrun. unfold rangeMidpoint. rewrite Hrun.
  apply searchFrom_matchAt in Hrun
    as (pre & tail & rest & Hs & _ & Hat & _ & Hleft).
  unfold matchAt, rangeRe in Hat. cbn [rseq] in Hat.
  rewrite matchRegex_seq in Hat.
  apply matchRegex_sound in Hat as (A & s1 & c1 & -> & HA & Hat).
  apply matches_group in HA as (cA & HA & ->).
  apply decimalRe_Decimal in HA as [HA ->].
  rewrite matchRegex_seq in Hat.
  apply matchRegex_sound in Hat as (ws1 & s2 & c2 & -> & Hws1 & Hat).
  apply spaces_star in Hws1 as [Hws1 ->].
  rewrite matchRegex_seq in Hat.
  apply matchRegex_sound in Hat as (sep & s3 & c3 & -> & Hsep & Hat).
  apply separatorRe_Separator in Hsep as [Hsep ->].
  rewrite matchRegex_seq in Hat.
  apply matchRegex_sound in Hat as (ws2 & s4 & c4 & -> & Hws2 & Hat).
  apply spaces_star in Hws2 as [Hws2 ->].
  rewrite matchRegex_group in Hat.
  apply decimalRe_greedy in Hat as (B & post & -> & HB & Hk & Hmax);
    [|discriminate].
  rewrite consumed_app in Hk. injection Hk as <- Hcaps.
  destruct (Number_Decimal A HA) as (a & Ha & _).
  destruct (Number_Decimal B HB) as (b & Hb & _).
  assert (Hat : RangeAt s pre A B).
  { exists ws1, sep, ws2, post. rewrite Hs. repeat split; assumption. }
  exists pre, A, B, a, b.
  split; [exact Hat|]. split; [|split; [|split; [exact Ha | split; [exact Hb|]]]].
  - intros pre' A' B' Hrange.
    destruct (RangeAt_OccursAt _ _ _ _ Hrange) as [w' Hocc].
    exact (Hleft pre' w' Hocc).
  - intros A' B' (ws1' & sep' & ws2' & post' & Hs' & HA' & Hws1' & Hsep' & Hws2' & HB').
    rewrite Hs in Hs'. apply app_inv_head in Hs'.
    destruct (Separator_head _ Hsep) as (x & sx & Hx & Hxu).
    destruct (Separator_head _ Hsep') as (x' & sx' & Hx' & Hxu').
    destruct (Separator_head_space _ Hsep) as (y & sy & Hy & Hys).
    destruct (Separator_head_space _ Hsep') as (y' & sy' & Hy' & Hys').
    destruct (Decimal_head _ HB) as (cb & B0 & HcB & Hcb).
    destruct (Decimal_head _ HB') as (cb' & B0' & HcB' & Hcb').
    destruct (run_unique decimalUnit _ _ _ _ Hs') as [<- Hs1].
    { apply Decimal_units, HA. }
    { apply Decimal_units, HA'. }
    { apply endsRun_after_spaces; [exact space_not_unit | exact Hws1|].
      rewrite Hx. exact Hxu. }
    { apply endsRun_after_spaces; [exact space_not_unit | exact Hws1'|].
      rewrite Hx'. exact Hxu'. }
    split; [reflexivity|].
    destruct (run_unique is_space _ _ _ _ Hs1 Hws1 Hws1') as [<- Hs2].
    { rewrite Hy. exact Hys. }
    { rewrite Hy'. exact Hys'. }
    destruct (Separator_unique _ _ _ _ Hsep Hsep' Hs2) as [<- Hs3].
    destruct (run_unique is_space _ _ _ _ Hs3 Hws2 Hws2') as [<- Hs4].
    { rewrite HcB. cbn. apply digit_not_space, Hcb. }
    { rewrite HcB'. cbn. apply digit_not_space, Hcb'. }
    exact (Hmax B' post' Hs4 HB').
  - unfold capture. rewrite <- Hcaps.
    change (getCapture 1 (setCapture 2 B (setCapture 1 A []))) with (Some A).
    change (getCapture 2 (setCapture 2 B (setCapture 1 A []))) with (Some B).
    change (default [] (Some A)) with A. change (default [] (Some B)) with B.
    rewrite (Number_literal _ _ Ha), (Number_literal _ _ Hb), !round64_isNaN.
    reflexivity.
Qed.

(** *** The number pattern: it takes the longest number where it starts *)

Lemma UnsignedNumber_head (w : JsString) :
  UnsignedNumber w -> exists c w0, w = c :: w0 /\ decimalUnit c = true.
Proof.
  intros (ip & point & fp & -> & Hip & Hpoint & Hfp & Hne).
  destruct ip as [|c ip].
  - destruct Hpoint as [-> | ->]; [|eexists _, _; split; reflexivity].
    destruct fp as [|c fp]; [congruence|]. exists c, fp. split; [reflexivity|].
    unfold Digits in Hfp. cbn in Hfp. apply andb_prop in Hfp as [Hc _].
    unfold decimalUnit. rewrite Hc. reflexivity.
  - exists c, (ip ++ point ++ fp). split; [reflexivity|].
    unfold Digits in Hip. cbn in Hip. apply andb_prop in Hip as [Hc _].
    unfold decimalUnit. rewrite Hc. reflexivity.
Qed.

Lemma SignedNumber_parts (w : JsString) :
  SignedNumber w <->
  exists sign body,
    w = sign ++ body /\ (sign = [] \/ sign = [ch "-"] \/ sign = [ch "+"]) /\
    UnsignedNumber body.
Proof.
  split.
  - intros (sign & ip & point & fp & -> & Hsign & Hrest).
    exists sign, (ip ++ point ++ fp). split; [reflexivity|]. split; [exact Hsign|].
    exists ip, point, fp. split; [reflexivity | exact Hrest].
  - intros (sign & body & -> & Hsign & ip & point & fp & -> & Hrest).
    exists sign, ip, point, fp. split; [reflexivity|]. split; [exact Hsign | exact Hrest].
Qed.

(** With a continuation that accepts whatever follows,
    [[0-9]*\.?[0-9]+] takes the longest unsigned number at the start of
    the input. *)
Lemma unsignedRe_greedy (t : JsString) (caps : Captures) (k : Continuation)
    (res : MatchState) :
  (forall s' c', k s' c' <> None) ->
  matchRegex false
    (RSeq (rstar CDigit) (RSeq (ROpt (RChar (ch "."))) (rplus CDigit)))
    t caps k = Some res ->
  exists w rest,
    t = w ++ rest /\ UnsignedNumber w /\ k rest caps = Some res /\
    (forall w' post', t = w' ++ post' -> UnsignedNumber w' ->
                      (length w' <= length w)%nat).
Proof.
  intros Hk Hrun.
  destruct (spanDigits_spec t) as (Ht & HD1 & Hend).
  set (D1 := fst (spanDigits t)) in *. set (r1 := snd (spanDigits t)) in *.
  clearbody D1 r1. subst t.
  unfold rstar, rplus in Hrun. rewrite matchRegex_seq, matchRegex_rep in Hrun.
  set (K2 := fun (s1 : JsString) (c1 : Captures) =>
               matchRegex false
                 (RSeq (ROpt (RChar (ch "."))) (RRep CDigit 1 None)) s1 c1 k) in Hrun.
  assert (Hint : forall ip fp post', D1 ++ r1 = (ip ++ fp) ++ post' ->
                   Digits ip -> Digits fp -> (length (ip ++ fp) <= length D1)%nat).
  { intros ip fp post' Heq Hip Hfp. symmetry in Heq.
    exact (prefix_run is_digit _ _ _ _ Heq (Digits_app _ _ Hip Hfp) Hend). }
  destruct (fraction_cases r1) as [(D2 & r3 & -> & HD2 & HD2ne & Hend3) | Hnofrac].
  - (* digits, a point, digits: taken whole *)
    assert (HK2 : K2 (ch "." :: D2 ++ r3) caps = k r3 caps).
    { unfold K2. cbn [matchRegex]. rewrite N.eqb_refl.
      destruct (Nat.eqb_spec (length (D2 ++ r3)) (length (ch "." :: D2 ++ r3)))
        as [Hl|_]; [cbn in Hl; lia|].
      rewrite repeatClass_greedy;
        [ | exact Hend3 | apply Hk | exact HD2 | destruct D2; [congruence | cbn; lia] ].
      destruct (k r3 caps) eqn:Hres; [reflexivity | exfalso; exact (Hk _ _ Hres)]. }
    rewrite repeatClass_greedy in Hrun;
      [ | exact Hend | rewrite HK2; apply Hk | exact HD1 | lia ].
    rewrite HK2 in Hrun.
    exists (D1 ++ ch "." :: D2), r3.
    split; [rewrite <- app_assoc; reflexivity|].
    split; [exists D1, [ch "."], D2; auto 6|]. split; [exact Hrun|].
    intros w' post' Heq (ip & point & fp & -> & Hip & [-> | ->] & Hfp & Hfne).
    + cbn [app] in *. specialize (Hint ip fp post' Heq Hip Hfp).
      rewrite (length_app D1). lia.
    + rewrite <- app_assoc in Heq. cbn [app] in Heq.
      destruct (run_unique is_digit _ _ _ _ Heq HD1 Hip
                  (endsRun_digit_point _) (endsRun_digit_point _)) as [<- Htail].
      injection Htail as Htail. symmetry in Htail.
      pose proof (prefix_run is_digit _ _ _ _ Htail Hfp Hend3) as Hlen.
      rewrite !length_app. cbn [length]. lia.
  - (* no fraction: the continuation refuses what follows the digits *)
    assert (Hstuck : forall c, repeatClass CDigit 1 None r1 c k = None).
    { intros c. apply repeatClass_stuck; [exact Hend | lia]. }
    assert (HK2 : K2 r1 caps = None).
    { unfold K2. cbn [matchRegex]. rewrite Hstuck.
      destruct r1 as [|x r2]; [reflexivity|].
      destruct (N.eqb_spec (canonicalize false x) (canonicalize false (ch ".")))
        as [Hx|_]; [|reflexivity].
      apply canonicalize_other in Hx; [|not_a_letter]. subst x.
      destruct (Nat.eqb_spec (length r2) (length (ch "." :: r2))) as [Hl|_];
        [cbn in Hl; lia|].
      rewrite repeatClass_stuck; [reflexivity | | lia].
      destruct r2 as [|c r2]; [exact I|]. cbn.
      destruct (is_digit c) eqn:Hc; [|reflexivity].
      assert (Hone : Digits [c])
        by (unfold Digits; cbn [forallb]; rewrite Hc; reflexivity).
      discriminate (Hnofrac [c] r2 eq_refl Hone). }
    destruct D1 as [|d0 D0].
    { cbn [app] in Hrun.
      rewrite (repeatClass_zero CDigit None r1 caps K2 Hend), HK2 in Hrun.
      discriminate. }
    destruct (exists_last (l := d0 :: D0)) as (D1' & d & HD); [discriminate|].
    rewrite HD in *. clear HD d0 D0.
    unfold Digits in HD1. rewrite forallb_app in HD1.
    apply andb_prop in HD1 as [HD1' Hd]. cbn in Hd. rewrite andb_true_r in Hd.
    assert (HKd : K2 (d :: r1) caps = k r1 caps).
    { unfold K2. cbn [matchRegex].
      replace (canonicalize false d =? canonicalize false (ch "."))%N with false.
      - apply (repeatClass_greedy CDigit r1 caps k Hend (Hk _ _) [d] 1%nat);
          [cbn; rewrite Hd; reflexivity | cbn; lia].
      - symmetry. apply N.eqb_neq. intros Hx.
        apply canonicalize_other in Hx; [|not_a_letter]. subst d. discriminate Hd. }
    rewrite <- app_assoc in Hrun. cbn [app] in Hrun.
    rewrite (repeatClass_backtrack CDigit r1 caps K2 d Hend HK2 Hd) in Hrun;
      [ | rewrite HKd; apply Hk | exact HD1' | lia ].
    rewrite HKd in Hrun.
    assert (HD1 : Digits (D1' ++ [d])).
    { unfold Digits. rewrite forallb_app, HD1'. cbn. rewrite Hd. reflexivity. }
    exists (D1' ++ [d]), r1. split; [reflexivity|].
    split; [exists [], [], (D1' ++ [d]); repeat split; auto;
            intros Hnil; apply app_eq_nil in Hnil as [_ Hnil]; discriminate|].
    split; [exact Hrun|].
    intros w' post' Heq (ip & point & fp & -> & Hip & [-> | ->] & Hfp & Hfne).
    + cbn [app] in *. exact (Hint ip fp post' Heq Hip Hfp).
    + exfalso. rewrite <- (app_assoc ip) in Heq. cbn [app] in Heq.
      destruct (run_unique is_digit _ _ _ _ Heq HD1 Hip Hend
                  (endsRun_digit_point _)) as [_ Htail].
      apply Hfne. exact (Hnofrac fp post' Htail Hfp).
Qed.

Lemma sign_not_unit (c : CodeUnit) :
  class_mem (COneOf [ch "-"; ch "+"]) c = true -> decimalUnit c = false.
Proof.
  cbn [class_mem existsb]. rewrite orb_false_r. intros Hc.
  apply orb_prop in Hc as [Hc | Hc]; apply N.eqb_eq in Hc; subst c; reflexivity.
Qed.

(** At any place, the number pattern takes the longest signed number
    that starts there. *)
Lemma numberRe_greedy (t rest : JsString) (caps : Captures) :
  matchAt false numberRe t = Some (rest, caps) ->
  exists w,
    t = w ++ rest /\ SignedNumber w /\
    (forall w' post', t = w' ++ post' -> SignedNumber w' ->
                      (length w' <= length w)%nat).
Proof.
  unfold matchAt, numberRe, rquest. cbn [rseq].
  rewrite matchRegex_seq, matchRegex_rep.
  set (K1 := fun (s1 : JsString) (c1 : Captures) =>
               matchRegex false
                 (RSeq (rstar CDigit) (RSeq (ROpt (RChar (ch "."))) (rplus CDigit)))
                 s1 c1 (fun rest0 caps0 => Some (rest0, caps0))).
  set (signs := COneOf [ch "-"; ch "+"]).
  assert (Hfinal : forall (s' : JsString) (c' : Captures),
            (fun rest0 caps0 => Some (rest0, caps0)) s' c' <> @None MatchState)
    by discriminate.
  assert (Hunsigned : forall u, K1 u [] = Some (rest, caps) ->
    exists w, u = w ++ rest /\ UnsignedNumber w /\
      (forall w' post', u = w' ++ post' -> UnsignedNumber w' ->
                        (length w' <= length w)%nat)).
  { intros u Hu. unfold K1 in Hu.
    apply unsignedRe_greedy in Hu as (w & rest' & -> & Hw & Hk & Hmax);
      [|exact Hfinal].
    injection Hk as -> _. exists w. auto. }
  destruct t as [|c t1].
  { rewrite repeatClass_zero by exact I. intros Hrun.
    destruct (Hunsigned [] Hrun) as (w & Hnil & Hw & _).
    symmetry in Hnil. apply app_eq_nil in Hnil as [-> _].
    destruct (UnsignedNumber_head _ Hw) as (c & w0 & Hcons & _). discriminate. }
  destruct (class_mem signs c) eqn:Hc.
  - (* a sign: taken when an unsigned number follows *)
    cbn [repeatClass option_map Nat.pred]. rewrite Hc.
    assert (Hzero : repeatClass signs 0 (Some 0%nat) t1 [] K1 = K1 t1 []).
    { destruct t1; reflexivity. }
    rewrite Hzero. intros Hrun.
    destruct (K1 t1 []) as [res|] eqn:Hbody.
    + injection Hrun as ->.
      destruct (Hunsigned t1 Hbody) as (w & -> & Hw & Hmax).
      exists (c :: w). split; [reflexivity|]. split.
      * apply SignedNumber_parts. exists [c], w. split; [reflexivity|]. split; [|exact Hw].
        cbn [class_mem existsb signs] in Hc. rewrite orb_false_r in Hc.
        apply orb_prop in Hc as [Hc | Hc]; apply N.eqb_eq in Hc; subst c; auto.
      * intros w' post' Heq Hw'.
        apply SignedNumber_parts in Hw' as (sign & body & -> & Hsign & Hbody').
        destruct Hsign as [-> | [-> | ->]]; cbn [app] in Heq.
        -- exfalso. destruct (UnsignedNumber_head _ Hbody') as (c' & w0 & -> & Hunit).
           cbn [app] in Heq. injection Heq as <- _.
           rewrite (sign_not_unit _ Hc) in Hunit. discriminate.
        -- injection Heq as _ Heq. cbn [length]. apply le_n_S.
           exact (Hmax body post' Heq Hbody').
        -- injection Heq as _ Heq. cbn [length]. apply le_n_S.
           exact (Hmax body post' Heq Hbody').
    + exfalso. destruct (Hunsigned (c :: t1) Hrun) as (w & Heq & Hw & _).
      destruct (UnsignedNumber_head _ Hw) as (c' & w0 & -> & Hunit).
      cbn [app] in Heq. injection Heq as <- _.
      rewrite (sign_not_unit _ Hc) in Hunit. discriminate.
  - (* no sign *)
    rewrite repeatClass_zero by exact Hc. intros Hrun.
    destruct (Hunsigned (c :: t1) Hrun) as (w & Heq & Hw & Hmax).
    exists w. split; [exact Heq|]. split.
    + apply SignedNumber_parts. exists [], w. auto.
    + intros w' post' Heq' Hw'.
      apply SignedNumber_parts in Hw' as (sign & body & -> & Hsign & Hbody').
      destruct Hsign as [-> | [-> | ->]]; cbn [app] in Heq'.
      * exact (Hmax body post' Heq' Hbody').
      * injection Heq' as -> _. discriminate Hc.
      * injection Heq' as -> _. discriminate Hc.
Qed.

(** The fallback branch takes the leftmost number of the string, and the
    longest one that starts there. *)
Lemma firstNumber_some (s : JsString) (m : MatchResult) :
  stringMatch false numberRe s = Some m ->
  exists pre w x,
    NumberAt s pre w /\
    (forall pre' w', NumberAt s pre' w' -> (length pre <= length pre')%nat) /\
    (forall w', NumberAt s pre w' -> (length w' <= length w)%nat) /\
    literalValue w = NFinite x /\ firstNumber s = clamp64 x.
Proof.
  intros Hrun. unfold firstNumber. rewrite Hrun.
  apply searchFrom_matchAt in Hrun
    as (pre & tail & rest & Hs & _ & Hat & Hmatched & Hleft).
  apply numberRe_greedy in Hat as (w & -> & Hw & Hmax).
  rewrite consumed_app in Hmatched. rewrite Hmatched.
  destruct (Number_SignedNumber _ Hw) as [x Hx].
  exists pre, w, x.
  split; [exists rest; auto|]. split; [|split; [|split; [exact Hx|]]].
  - intros pre' w' Hat. apply (Hleft pre' w'). apply NumberAt_OccursAt. exact Hat.
  - intros w' (post' & Hs' & Hw'). rewrite Hs in Hs'. apply app_inv_head in Hs'.
    exact (Hmax w' post' Hs' Hw').
  - rewrite (Number_literal _ _ Hx). reflexivity.
Qed.

Lemma parse_string (str : JsString) :
  parseNutritionNumber (VString str) =
  match rangeMidpoint (normalizeString str) with
  | Some v => v
  | None => firstNumber (normalizeString str)
  end.
Proof. reflexivity. Qed.

Lemma zero_count : CountOrInfinity zero.
Proof. left. exists 0. split; [lia | reflexivity]. Qed.

Lemma firstNumber_count (s : JsString) : CountOrInfinity (firstNumber s).
Proof.
  destruct (stringMatch false numberRe s) as [m|] eqn:Hrun.
  - destruct (firstNumber_some _ _ Hrun) as (pre & w & x & _ & _ & _ & _ & ->).
    apply clamp64_count.
  - destruct (firstNumber_none _ Hrun) as [_ ->]. exact zero_count.
Qed.

(** The ends of a range are unsigned. *)
Lemma range_ends_nonneg (s pre A B : JsString) (a b : Q) :
  RangeAt s pre A B -> literalValue A = NFinite a -> literalValue B = NFinite b ->
  (0 <= a)%Q /\ (0 <= b)%Q.
Proof.
  intros (ws1 & sep & ws2 & post & _ & HA & _ & _ & _ & HB) Ha Hb.
  destruct (Number_Decimal A HA) as (a' & Ha' & Ha0).
  destruct (Number_Decimal B HB) as (b' & Hb' & Hb0).
  rewrite Ha in Ha'. rewrite Hb in Hb'. injection Ha' as <-. injection Hb' as <-.
  auto.
Qed.

Lemma rangeMidpoint_count (s : JsString) (v : JsNumber) :
  rangeMidpoint s = Some v -> CountOrInfinity v.
Proof.
  intros Hv. destruct (stringMatch true rangeRe s) as [m|] eqn:Hrun.
  - destruct (rangeMidpoint_some _ _ Hrun)
      as (pre & A & B & a & b & Hat & _ & _ & Ha & Hb & Hmid).
    rewrite Hmid in Hv. injection Hv as <-.
    destruct (range_ends_nonneg _ _ _ _ _ _ Hat Ha Hb).
    apply midpoint64_count; assumption.
  - destruct (rangeMidpoint_none _ Hrun) as [_ Hnone]. congruence.
Qed.

(** Every input gives a non-negative integer or positive infinity. *)
Lemma parse_count (value : JsValue) :
  CountOrInfinity (parseNutritionNumber value).
Proof.
  destruct value as [| |b|n|str|].
  1-3, 6: exact zero_count.
  - destruct n as [q| | |]; cbn [parseNutritionNumber isFinite];
      try exact zero_count.
    left. rewrite Math_max_round. apply clampRound_nonneg.
  - rewrite parse_string.
    destruct (rangeMidpoint (normalizeString str)) as [v|] eqn:Hmid.
    + exact (rangeMidpoint_count _ _ Hmid).
    + apply firstNumber_count.
Qed.

(** Strings apart, the result is a non-negative integer. *)
Lemma parse_not_string (value : JsValue) :
  notString value -> exists z, 0 <= z /\ parseNutritionNumber value = ofZ z.
Proof.
  intros Hnot. destruct value as [| |b|n|str|];
    try (exists 0; split; [lia | reflexivity]).
  - destruct n as [q| | |]; cbn [parseNutritionNumber isFinite];
      try (exists 0; split; [lia | reflexivity]).
    rewrite Math_max_round. apply clampRound_nonneg.
  - exfalso. exact (Hnot str eq_refl).
Qed.

(** A string without a digit holds neither a range nor a number. *)
Lemma parse_no_digit (str : JsString) :
  ~ HasDigit (normalizeString str) -> parseNutritionNumber (VString str) = zero.
Proof.
  intros Hnorm. rewrite parse_string.
  destruct (stringMatch true rangeRe (normalizeString str)) as [m|] eqn:Hrange.
  - destruct (rangeMidpoint_some _ _ Hrange) as (pre & A & B & a & b & Hat & _).
    exfalso. apply Hnorm, HasRange_HasDigit. exists pre, A, B. exact Hat.
  - destruct (rangeMidpoint_none _ Hrange) as [_ ->].
    destruct (stringMatch false numberRe (normalizeString str)) as [m|] eqn:Hnum.
    + destruct (firstNumber_some _ _ Hnum) as (pre & w & x & (post & Hs & Hw) & _).
      exfalso. apply Hnorm. rewrite Hs.
      apply HasDigit_app. right. apply HasDigit_app. left.
      apply SignedNumber_HasDigit. exact Hw.
    + destruct (firstNumber_none _ Hnum) as [_ ->]. reflexivity.
Qed.

(** *** Negative decimal literals *)

Lemma trim_fixed (c0 c1 : CodeUnit) (mid : JsString) :
  is_space c0 = false -> is_space c1 = false ->
  trim (c0 :: mid ++ [c1]) = c0 :: mid ++ [c1].
Proof.
  intros H0 H1. unfold trim, trimStart, trimEnd. cbn [dropSpaces]. rewrite H0.
  change (c0 :: mid ++ [c1]) with ((c0 :: mid) ++ [c1]).
  rewrite rev_app_distr. cbn [rev app dropSpaces]. rewrite H1.
  change (c1 :: rev mid ++ [c0]) with ([c1] ++ rev (c0 :: mid)).
  rewrite rev_app_distr, rev_involutive. reflexivity.
Qed.

Lemma replaceAll_units (w : JsString) :
  forallb decimalUnit w = true -> replaceAll (ch ",") (ch ".") w = w.
Proof.
  unfold replaceAll. induction w as [|c w IH]; [reflexivity|]. cbn [forallb map].
  intros Hall. apply andb_prop in Hall as [Hc Hw]. rewrite (IH Hw). f_equal.
  destruct (N.eqb_spec c (ch ",")) as [-> | _]; [discriminate Hc | reflexivity].
Qed.

Lemma normalizeString_negative (d : JsString) :
  Decimal d -> normalizeString (ch "-" :: d) = ch "-" :: d.
Proof.
  intros Hd. unfold normalizeString.
  change (replaceAll (ch ",") (ch ".") (ch "-" :: d))
    with (ch "-" :: replaceAll (ch ",") (ch ".") d).
  rewrite (replaceAll_units _ (Decimal_units _ Hd)).
  destruct (Decimal_last _ Hd) as (d0 & c & -> & Hc).
  apply trim_fixed; [reflexivity | apply digit_not_space, Hc].
Qed.

Lemma negative_no_range (d : JsString) :
  Decimal d -> ~ HasRange (ch "-" :: d).
Proof.
  intros Hd (pre & A & B & ws1 & sep & ws2 & post & Hs & HA & Hws1 & Hsep & _).
  apply Decimal_units in Hd.
  destruct (Separator_head _ Hsep) as (x & sep' & -> & Hx).
  assert (HA' : A <> []).
  { destruct HA as (ip & _ & Hne & [-> | (fp & _ & _ & ->)]);
      [exact Hne | destruct ip; discriminate]. }
  assert (Hin : In x d).
  { destruct pre as [|p pre]; [destruct A as [|a A]; [congruence|]|];
      cbn [app] in Hs; injection Hs as _ ->;
      repeat (apply in_or_app; right); left; reflexivity. }
  rewrite forallb_forall in Hd. rewrite (Hd x Hin) in Hx. discriminate.
Qed.

Lemma unsigned_body (ip point fp : JsString) :
  Digits ip -> (point = [] \/ point = [ch "."]) -> Digits fp -> fp <> [] ->
  exists q, (0 <= q)%Q /\ unsignedDecimal (ip ++ point ++ fp) = Some q.
Proof.
  intros Hip [-> | ->] Hfp Hne; eexists; (split; [apply decimalValue_nonneg|]).
  - cbn [app]. apply unsignedDecimal_integer.
    + apply Digits_app; assumption.
    + intros Hnil. apply app_eq_nil in Hnil as [_ ->]. congruence.
  - apply unsignedDecimal_fraction; assumption.
Qed.

(** A number written with a leading minus sign is not positive. *)
Lemma SignedNumber_minus (w : JsString) :
  SignedNumber (ch "-" :: w) ->
  exists q, (0 <= q)%Q /\ literalValue (ch "-" :: w) = NFinite (- q).
Proof.
  intros (sign & ip & point & fp & Hw & Hsign & Hip & Hpoint & Hfp & Hne).
  destruct (unsigned_body ip point fp Hip Hpoint Hfp Hne) as (q & Hq & Hbody).
  destruct Hsign as [-> | [-> | ->]]; cbn [app] in Hw.
  - exfalso. destruct ip as [|c ip].
    + destruct Hpoint as [-> | ->]; [|discriminate Hw].
      destruct fp as [|c fp]; [congruence|]. cbn [app] in Hw. injection Hw as <- _.
      discriminate Hfp.
    + cbn [app] in Hw. injection Hw as <- _. discriminate Hip.
  - injection Hw as ->. exists q. split; [exact Hq|].
    unfold literalValue. rewrite N.eqb_refl, Hbody. reflexivity.
  - discriminate Hw.
Qed.


Lemma parse_negative_literal (d : JsString) :
  Decimal d -> parseNutritionNumber (VString (ch "-" :: d)) = zero.
Proof.
  intros Hd. rewrite parse_string, (normalizeString_negative _ Hd).
  destruct (stringMatch true rangeRe (ch "-" :: d)) as [m|] eqn:Hrange.
  { destruct (rangeMidpoint_some _ _ Hrange) as (pre & A & B & a & b & Hat & _).
    exfalso. apply (negative_no_range _ Hd). exists pre, A, B. exact Hat. }
  destruct (rangeMidpoint_none _ Hrange) as [_ ->].
  assert (Hwhole : NumberAt (ch "-" :: d) [] (ch "-" :: d)).
  { exists []. split; [cbn; rewrite app_nil_r; reflexivity|].
    destruct Hd as (ip & Hip & Hne & [-> | (fp & Hfp & Hfne & ->)]).
    - exists [ch "-"], [], [], ip. repeat split; auto.
    - exists [ch "-"], ip, [ch "."], fp. repeat split; auto. }
  destruct (stringMatch false numberRe (ch "-" :: d)) as [m|] eqn:Hnum.
  - destruct (firstNumber_some _ _ Hnum)
      as (pre & w & x & (post & Hs & Hw) & Hleft & _ & Hx & ->).
    specialize (Hleft [] _ Hwhole). destruct pre; [|cbn in Hleft; lia].
    cbn [app] in Hs. destruct w as [|c w].
    { destruct Hw as (sg & ip & pt & fp & Hnil & _ & _ & _ & _ & Hne).
      symmetry in Hnil. apply app_eq_nil in Hnil as [_ Hnil].
      apply app_eq_nil in Hnil as [_ Hnil]. apply app_eq_nil in Hnil as [_ Hnil].
      congruence. }
    cbn [app] in Hs. injection Hs as <- _.
    destruct (SignedNumber_minus _ Hw) as (q & Hq & Hnumber).
    assert (Hval : NFinite x = NFinite (- q)) by (rewrite <- Hx; exact Hnumber).
    injection Hval as ->. apply clamp64_nonpositive. lra.
  - destruct (firstNumber_none _ Hnum) as [_ ->]. reflexivity.
Qed.

(** C2. On a numeral beyond the range of doubles, here a 1 followed
    by 400 zeros, the string branch of [parseNutritionNumber] returns
    [Infinity], which is no integer, where the number branch returns 0
    for [Infinity].  Strings apart, the result is a non-negative integer;
    on every input it is a non-negative integer or [Infinity], never
    negative and never NaN; [null], [undefined], NaN and strings without
    a digit, such as "invalid", give 0; negative numbers, such as -10,
    and negative decimal literals, such as "-50", give 0. *)
Theorem parseNutritionNumber_string_overflow :
  parseNutritionNumber (VString (ch "1" :: repeat (ch "0") 400)) = NPosInf /\
  parseNutritionNumber (VNumber NPosInf) = zero /\
  (forall value, CountOrInfinity (parseNutritionNumber value)) /\
  (forall value,
     notString value -> exists z, 0 <= z /\ parseNutritionNumber value = ofZ z) /\
  parseNutritionNumber VNull = zero /\
  parseNutritionNumber VUndefined = zero /\
  parseNutritionNumber (VNumber NNaN) = zero /\
  (forall str, ~ HasDigit str -> parseNutritionNumber (VString str) = zero) /\
  parseNutritionNumber (VString (js "invalid")) = zero /\
  (forall q, (q < 0)%Q -> parseNutritionNumber (VNumber (NFinite q)) = zero) /\
  parseNutritionNumber (VNumber (ofZ (-10))) = zero /\
  (forall d, Decimal d -> parseNutritionNumber (VString (ch "-" :: d)) = zero) /\
  parseNutritionNumber (VString (js "-50")) = zero.
Proof.
  split; [vm_compute; reflexivity|].
  split; [|split; [|split; [|split; [|split; [|split; [|split; [|split;
    [|split; [|split; [|split]]]]]]]]]]; try reflexivity.
  - exact parse_count.
  - exact parse_not_string.
  - intros str Hno. apply parse_no_digit.
    intros Hd. apply Hno, normalizeString_digit, Hd.
  - intros q Hq. cbn [parseNutritionNumber isFinite].
    rewrite Math_max_round. apply clampRound_negative. exact Hq.
  - exact parse_negative_literal.
Qed.

(** C3. On a string, [parseNutritionNumber] first turns commas into
    periods (and trims); if the result contains a range [A sep B], it
    returns [max(0, round((A+B)/2))] for the leftmost one, with [B] as
    long as it can be; otherwise, if it contains a digit, it returns
    [max(0, round(x))] for the leftmost signed or unsigned integer or
    decimal [x], as long as it can be; otherwise 0.  [A], [B] and [x] are
    read as doubles, the ones nearest to the decimals written, and the
    sum and its half are those of doubles.  The seven examples evaluate
    as stated. *)
Theorem parseNutritionNumber_string_algorithm (str : JsString) :
  let s := normalizeString str in
  let result := parseNutritionNumber (VString str) in
  s = trim (replaceAll (ch ",") (ch ".") str) /\
  (HasRange s ->
   exists pre A B a b,
     RangeAt s pre A B /\
     (forall pre' A' B', RangeAt s pre' A' B' -> (length pre <= length pre')%nat) /\
     (forall A' B', RangeAt s pre A' B' ->
                    A' = A /\ (length B' <= length B)%nat) /\
     literalValue A = NFinite a /\ literalValue B = NFinite b /\
     Number A = round64 a /\ Number B = round64 b /\
     result = Math_max zero
                (Math_round (js_div_pos (js_add (Number A) (Number B)) 2))) /\
  (~ HasRange s -> HasDigit s ->
   exists pre w x,
     NumberAt s pre w /\
     (forall pre' w', NumberAt s pre' w' -> (length pre <= length pre')%nat) /\
     (forall w', NumberAt s pre w' -> (length w' <= length w)%nat) /\
     literalValue w = NFinite x /\ Number w = round64 x /\
     result = Math_max zero (Math_round (Number w))) /\
  (~ HasRange s -> ~ HasDigit s -> result = zero) /\
  parseNutritionNumber (VString (js "200-300")) = ofZ 250 /\
  parseNutritionNumber (VString (js "50 to 100")) = ofZ 75 /\
  parseNutritionNumber (VString (js "100 " ++ [EN_DASH] ++ js " 200")) = ofZ 150 /\
  parseNutritionNumber (VString (js "100,5")) = ofZ 101 /\
  parseNutritionNumber (VString (js "123,45")) = ofZ 123 /\
  parseNutritionNumber (VString (js "100 kcal")) = ofZ 100 /\
  parseNutritionNumber (VString (js "~50g")) = ofZ 50.
Proof.
  intros s result. subst result. rewrite parse_string. fold s.
  split; [reflexivity|].
  split; [|split; [|split; [|repeat split; vm_compute; reflexivity]]].
  - intros Hrange.
    destruct (stringMatch true rangeRe s) as [m|] eqn:Hrun.
    + destruct (rangeMidpoint_some _ _ Hrun)
        as (pre & A & B & a & b & Hat & Hleft & Hmax & Ha & Hb & ->).
      exists pre, A, B, a, b.
      rewrite (Number_literal _ _ Ha), (Number_literal _ _ Hb). auto 9.
    + destruct (rangeMidpoint_none _ Hrun) as [Hno _]. contradiction.
  - intros Hno Hdigit.
    destruct (stringMatch true rangeRe s) as [m|] eqn:Hrun.
    + destruct (rangeMidpoint_some _ _ Hrun) as (pre & A & B & a & b & Hat & _).
      exfalso. apply Hno. exists pre, A, B. exact Hat.
    + destruct (rangeMidpoint_none _ Hrun) as [_ ->].
      destruct (stringMatch false numberRe s) as [m|] eqn:Hnum.
      * destruct (firstNumber_some _ _ Hnum)
          as (pre & w & x & Hat & Hleft & Hmax & Hx & ->).
        exists pre, w, x. rewrite (Number_literal _ _ Hx). auto 7.
      * destruct (firstNumber_none _ Hnum) as [Hnone _]. contradiction.
  - intros _ Hnodigit. exact (parse_no_digit str Hnodigit).
Qed.

Lemma replaceAll_idempotent (x y : CodeUnit) (s : JsString) :
  x <> y -> replaceAll x y (replaceAll x y s) = replaceAll x y s.
Proof.
  intros Hxy. unfold replaceAll. rewrite map_map. apply map_ext. intros c.
  destruct (N.eqb_spec c x) as [-> | Hc].
  - destruct (N.eqb_spec y x); [congruence | reflexivity].
  - destruct (N.eqb_spec c x); [contradiction | reflexivity].
Qed.

Lemma replaceAll_removes (x y c : CodeUnit) (s : JsString) :
  x <> y -> In c (replaceAll x y s) -> c <> x.
Proof.
  intros Hxy Hin. unfold replaceAll in Hin. apply in_map_iff in Hin as (c0 & <- & _).
  destruct (N.eqb_spec c0 x); congruence.
Qed.

(** C10. Every comma of a string input becomes a period before any
    number is looked for: the result is the same as on the string with
    all commas replaced, the normalized string contains no comma, and a
    thousands separator reads as a decimal point, so that "1,000" gives 1
    and not 1000, and "1,234,567" is read as "1.234.567" and gives 1. *)
Theorem parseNutritionNumber_commas_are_periods :
  (forall str,
     parseNutritionNumber (VString str) =
     parseNutritionNumber (VString (replaceAll (ch ",") (ch ".") str))) /\
  (forall str c, In c (normalizeString str) -> c <> ch ",") /\
  (forall str,
     length (replaceAll (ch ",") (ch ".") str) = length str /\
     forall i c, replaceAll (ch ",") (ch ".") str !! i = Some c ->
       exists c0, str !! i = Some c0 /\
                  c = if (c0 =? ch ",")%N then ch "." else c0) /\
  parseNutritionNumber (VString (js "1,000")) = ofZ 1 /\
  parseNutritionNumber (VString (js "1,000")) <> ofZ 1000 /\
  normalizeString (js "1,234,567") = js "1.234.567" /\
  parseNutritionNumber (VString (js "1,234,567")) = ofZ 1.
Proof.
  split; [|split; [|split; [|repeat split; vm_compute; congruence]]].
  - intros str. rewrite !parse_string. unfold normalizeString.
    rewrite replaceAll_idempotent by discriminate. reflexivity.
  - intros str c Hin. unfold normalizeString in Hin.
    destruct (trim_infix (replaceAll (ch ",") (ch ".") str)) as (pre & post & Heq).
    apply (replaceAll_removes (ch ",") (ch ".") c str); [discriminate|].
    rewrite Heq. apply in_or_app. right. apply in_or_app. left. exact Hin.
  - intros str. unfold replaceAll. split; [apply length_map|].
    induction str as [|c0 str IH]; intros i c Hi; [destruct i; discriminate|].
    destruct i as [|i]; cbn in Hi.
    + injection Hi as <-. exists c0. split; reflexivity.
    + exact (IH i c Hi).
Qed.

(** C9. For each of the five fields, [mergeNutrition] takes the value of
    [primary] when it is a non-zero number and the value of [fallback]
    otherwise (a zero, a NaN or an absent fiber), each field on its own;
    merging a primary whose fields are all zero returns the field values
    of [fallback]. *)
Theorem mergeNutrition_prefers_nonzero (primary fallback : NormalizedNutrition) :
  let merged := mergeNutrition primary fallback in
  calories merged = (if truthy (calories primary) then calories primary
                     else calories fallback) /\
  protein merged = (if truthy (protein primary) then protein primary
                    else protein fallback) /\
  carbs merged = (if truthy (carbs primary) then carbs primary
                  else carbs fallback) /\
  fat merged = (if truthy (fat primary) then fat primary else fat fallback) /\
  fiber merged = match fiber primary with
                 | Some x => if truthy x then Some x else fiber fallback
                 | None => fiber fallback
                 end /\
  (forall q, truthy (NFinite q) = true <-> ~ (q == 0)%Q) /\
  (isNutritionEmpty primary = true ->
   calories merged = calories fallback /\ protein merged = protein fallback /\
   carbs merged = carbs fallback /\ fat merged = fat fallback) /\
  (isNutritionEmpty primary = true ->
   fiber primary = Some zero \/ fiber primary = None ->
   merged = fallback).
Proof.
  assert (Hzero : forall n, isZero n = true -> truthy n = false).
  { intros [q| | |] Hn; try discriminate. cbn in *. rewrite Hn. reflexivity. }
  assert (Hempty : isNutritionEmpty primary = true ->
    truthy (calories primary) = false /\ truthy (protein primary) = false /\
    truthy (carbs primary) = false /\ truthy (fat primary) = false).
  { unfold isNutritionEmpty. rewrite !andb_true_iff.
    intros [[[Hc Hp] Hb] Hf]. auto. }
  cbn zeta. unfold mergeNutrition, orElse, orElseOpt. cbn [calories protein carbs fat fiber].
  repeat (split; [reflexivity|]).
  split; [destruct (fiber primary); reflexivity|].
  split; [|split].
  - intros q. cbn [truthy]. rewrite negb_true_iff, <- not_true_iff_false.
    rewrite Qeq_bool_iff. reflexivity.
  - intros He. destruct (Hempty He) as (-> & -> & -> & ->). auto.
  - intros He Hfiber. destruct (Hempty He) as (-> & -> & -> & ->).
    destruct fallback as [fc fp fb ff ffi]. cbn [calories protein carbs fat fiber].
    destruct Hfiber as [-> | ->]; reflexivity.
Qed.

Lemma firstPresent_cons (raw : gmap string JsValue) (key : string)
    (keys : list string) :
  firstPresent raw (key :: keys) = prop raw key ?? firstPresent raw keys.
Proof.
  cbn [firstPresent]. unfold prop.
  destruct (raw !! key) as [[| | | | |]|]; reflexivity.
Qed.

Lemma nullish_assoc (a b c : JsValue) : (a ?? b) ?? c = a ?? (b ?? c).
Proof. destruct a; reflexivity. Qed.

Lemma parse_nullish_undefined (a : JsValue) :
  parseNutritionNumber (a ?? VUndefined) = parseNutritionNumber a.
Proof. destruct a; reflexivity. Qed.

Lemma parse_nullish_congr (a b b' : JsValue) :
  parseNutritionNumber b = parseNutritionNumber b' ->
  parseNutritionNumber (a ?? b) = parseNutritionNumber (a ?? b').
Proof. intros Hb. destruct a; cbn [nullish]; auto. Qed.

Ltac alias_chain :=
  rewrite ?nullish_assoc, ?firstPresent_cons; cbn [firstPresent];
  repeat (apply parse_nullish_congr);
  symmetry; apply parse_nullish_undefined.

(** C8. Each field of [normalizeNutritionData raw] is
    [parseNutritionNumber] of the first present alias of that field, in
    the fixed order of the source; every field, fiber included, is
    there, and fiber is 0 when no fiber alias is present.  The Indonesian
    aliases of the example give 200, 20, 30, 10. *)
Theorem normalizeNutritionData_first_alias (raw : gmap string JsValue) :
  let n := normalizeNutritionData raw in
  calories n = parseNutritionNumber (firstPresent raw
    ["calories"; "kalori"; "total_calories"; "estimasi_kalori"]%string) /\
  protein n = parseNutritionNumber (firstPresent raw
    ["protein"; "protein_g"; "protein_grams"; "protein_gram"]%string) /\
  carbs n = parseNutritionNumber (firstPresent raw
    ["carbs"; "karbohidrat"; "karbohidrat_g"; "carbs_grams"; "carbs_g"]%string) /\
  fat n = parseNutritionNumber (firstPresent raw
    ["fat"; "lemak"; "lemak_g"; "fat_grams"; "fat_g"]%string) /\
  fiber n = Some (parseNutritionNumber (firstPresent raw
    ["fiber"; "serat"; "fiber_g"]%string)) /\
  (CountOrInfinity (calories n) /\ CountOrInfinity (protein n) /\
   CountOrInfinity (carbs n) /\ CountOrInfinity (fat n) /\
   exists fi, fiber n = Some fi /\ CountOrInfinity fi) /\
  (raw !! "fiber"%string = None -> raw !! "serat"%string = None ->
   raw !! "fiber_g"%string = None -> fiber n = Some zero) /\
  normalizeNutritionData
    (<["kalori"%string := VNumber (ofZ 200)]>
       (<["protein_g"%string := VNumber (ofZ 20)]>
          (<["karbohidrat"%string := VNumber (ofZ 30)]>
             (<["lemak"%string := VNumber (ofZ 10)]> ∅))))
  = mkNutrition (ofZ 200) (ofZ 20) (ofZ 30) (ofZ 10) (Some zero).
Proof.
  cbn zeta. unfold normalizeNutritionData. cbn [calories protein carbs fat fiber].
  split; [alias_chain|]. split; [alias_chain|]. split; [alias_chain|].
  split; [alias_chain|]. split; [f_equal; alias_chain|].
  split; [|split].
  - split; [apply parse_count|]. split; [apply parse_count|].
    split; [apply parse_count|]. split; [apply parse_count|].
    eexists. split; [reflexivity | apply parse_count].
  - intros H1 H2 H3. unfold prop. rewrite H1, H2, H3. reflexivity.
  - vm_compute. reflexivity.
Qed.

(** ** The patterns of [extractNutritionFromText] *)

Lemma groupFree_captures ic r w caps caps' :
  Matches ic r w caps caps' -> groupFree r = true -> caps' = caps.
Proof.
  induction 1 as [| | |r1 r2 w1 w2 caps caps1 caps2 _ IH1 _ IH2
                 |r1 r2 w caps caps' _ IH|r1 r2 w caps caps' _ IH
                 | |r w caps caps' _ IH _| |]; cbn [groupFree]; intros Hfree;
    try reflexivity; try discriminate.
  - apply andb_prop in Hfree as [H1 H2]. rewrite (IH2 H2). exact (IH1 H1).
  - apply andb_prop in Hfree as [H1 _]. exact (IH H1).
  - apply andb_prop in Hfree as [_ H2]. exact (IH H2).
  - exact (IH Hfree).
Qed.

Lemma rseq_groupFree (rs : list Regex) :
  forallb groupFree rs = true -> groupFree (rseq rs) = true.
Proof.
  induction rs as [|r [|r' rs] IH]; cbn [forallb]; intros Hall; [reflexivity | |].
  - cbn. rewrite andb_true_r in Hall. exact Hall.
  - apply andb_prop in Hall as [Hr Hrs].
    change (rseq (r :: r' :: rs)) with (RSeq r (rseq (r' :: rs))).
    cbn [groupFree]. rewrite Hr. exact (IH Hrs).
Qed.

Lemma rlit_groupFree (key : string) : groupFree (rlit key) = true.
Proof.
  unfold rlit. apply rseq_groupFree. induction (js key); [reflexivity | exact IHj].
Qed.

Lemma ralt_groupFree (rs : list Regex) :
  forallb groupFree rs = true -> groupFree (ralt rs) = true.
Proof.
  induction rs as [|r [|r' rs] IH]; cbn [forallb]; intros Hall; [reflexivity | |].
  - cbn. rewrite andb_true_r in Hall. exact Hall.
  - apply andb_prop in Hall as [Hr Hrs].
    change (ralt (r :: r' :: rs)) with (RAlt r (ralt (r' :: rs))).
    cbn [groupFree]. rewrite Hr. exact (IH Hrs).
Qed.

Lemma keywords_groupFree (keys : list string) :
  groupFree (ralt (map rlit keys)) = true.
Proof.
  apply ralt_groupFree. induction keys as [|key keys IH]; [reflexivity|].
  cbn [map forallb]. rewrite rlit_groupFree. exact IH.
Qed.

(** The value pattern matches at least one digit and captures nothing. *)
Lemma valueRe_value ic w caps caps' :
  Matches ic valueRe w caps caps' -> w <> [] /\ caps' = caps.
Proof.
  intros Hm. split; [|exact (groupFree_captures _ _ _ _ _ Hm eq_refl)].
  unfold valueRe, shortDecimalRe in Hm. cbn [rseq] in Hm.
  apply matches_seq in Hm as (w1 & w2 & c1 & -> & Hm & _).
  apply matches_seq in Hm as (ds & w3 & c2 & -> & Hds & _).
  apply matches_rep in Hds as (_ & Hlen & _).
  destruct ds; [cbn in Hlen; lia | discriminate].
Qed.

(** A match of a keyword pattern or of the unit pattern always fills
    group 1. *)
Lemma keyRe_capture (key : string) (m : MatchResult) :
  Matches true (keyRe key) (matched m) [] (groups m) ->
  hasCapture 1 (Some m) = true.
Proof.
  intros Hm. unfold keyRe in Hm. cbn [rseq] in Hm.
  apply matches_seq in Hm as (w0 & w1 & c0 & _ & Hkey & Hm).
  apply groupFree_captures in Hkey as ->; [|apply rlit_groupFree].
  apply matches_seq in Hm as (w2 & w3 & c1 & _ & Hs1 & Hm).
  apply groupFree_captures in Hs1 as ->; [|reflexivity].
  apply matches_seq in Hm as (w4 & w5 & c2 & _ & Hq & Hm).
  apply groupFree_captures in Hq as ->; [|reflexivity].
  apply matches_seq in Hm as (w6 & v & c3 & _ & Hs2 & Hm).
  apply groupFree_captures in Hs2 as ->; [|reflexivity].
  apply matches_group in Hm as (c4 & Hv & Hcaps).
  apply valueRe_value in Hv as [Hne ->].
  unfold hasCapture. rewrite Hcaps. cbn. destruct v; [congruence | reflexivity].
Qed.

Lemma unitRe_capture (keys : list string) (m : MatchResult) :
  Matches true (unitRe keys) (matched m) [] (groups m) ->
  hasCapture 1 (Some m) = true.
Proof.
  intros Hm. unfold unitRe in Hm. cbn [rseq] in Hm.
  apply matches_seq in Hm as (v & w1 & c0 & _ & Hv & Hm).
  apply matches_group in Hv as (c1 & Hv & ->).
  apply valueRe_value in Hv as [Hne ->].
  apply matches_seq in Hm as (w2 & w3 & c2 & _ & Hs & Hm).
  apply groupFree_captures in Hs; [|reflexivity].
  apply groupFree_captures in Hm; [|apply keywords_groupFree].
  unfold hasCapture. rewrite Hm, Hs. cbn. destruct v; [congruence | reflexivity].
Qed.

Lemma stringMatch_capture (r : Regex) (text : JsString) :
  (forall m, Matches true r (matched m) [] (groups m) -> hasCapture 1 (Some m) = true) ->
  hasCapture 1 (stringMatch true r text) = true <-> Occurs true r text.
Proof.
  intros Hcap. destruct (stringMatch true r text) as [m|] eqn:Hrun.
  - apply searchFrom_sound in Hrun as (pre & post & Hs & _ & Hm & _).
    split; [|intros _; exact (Hcap m Hm)].
    intros _. exists pre, (matched m), post, (groups m). auto.
  - split; [discriminate|]. intros Hocc.
    exfalso. exact (searchFrom_none _ _ _ _ Hrun Hocc).
Qed.

Lemma searchKeys_none (text : JsString) (keys : list string) :
  searchKeys text keys = None <->
  forall key, In key keys -> ~ Occurs true (keyRe key) text.
Proof.
  induction keys as [|key keys IH]; cbn [searchKeys].
  - split; [intros _ key [] | reflexivity].
  - pose proof (stringMatch_capture (keyRe key) text (keyRe_capture key)) as Hcap.
    destruct (hasCapture 1 (stringMatch true (keyRe key) text)) eqn:Hhas.
    + split.
      * destruct (stringMatch true (keyRe key) text); discriminate.
      * intros Hno. exfalso. apply (Hno key); [left; reflexivity|].
        apply Hcap. reflexivity.
    + rewrite IH. split.
      * intros Hno key' [<- | Hin]; [|exact (Hno key' Hin)].
        intros Hocc. apply Hcap in Hocc. discriminate.
      * intros Hno key' Hin. apply Hno. right. exact Hin.
Qed.

(** A hit of the keyword loop is the value after the first keyword, in
    the order of [keys], that occurs before a number. *)
Lemma searchKeys_some (text : JsString) (keys : list string) (v : JsNumber) :
  searchKeys text keys = Some v ->
  exists key m,
    In key keys /\ stringMatch true (keyRe key) text = Some m /\
    v = parseNutritionNumber (VString (capture 1 m)).
Proof.
  induction keys as [|key keys IH]; cbn [searchKeys]; [discriminate|].
  destruct (hasCapture 1 (stringMatch true (keyRe key) text)) eqn:Hhas.
  - destruct (stringMatch true (keyRe key) text) as [m|] eqn:Hrun; [|discriminate].
    cbn [option_map]. intros [= <-]. exists key, m.
    split; [left; reflexivity | auto].
  - intros Hv. destruct (IH Hv) as (key' & m & Hin & Hrun & Hval).
    exists key', m. split; [right; exact Hin | auto].
Qed.

Lemma searchNumber_unit (text : JsString) (keys : list string) :
  searchKeys text keys = None ->
  searchNumber text keys =
  option_map (fun r => parseNutritionNumber (VString (capture 1 r)))
    (stringMatch true (unitRe keys) text).
Proof.
  intros Hkeys. unfold searchNumber. rewrite Hkeys.
  pose proof (stringMatch_capture (unitRe keys) text (unitRe_capture keys)) as Hcap.
  destruct (stringMatch true (unitRe keys) text) as [m|] eqn:Hrun; [|reflexivity].
  replace (hasCapture 1 (Some m)) with true; [reflexivity|].
  symmetry. apply Hcap. apply searchFrom_sound in Hrun as (pre & post & Hs & _ & Hm & _).
  exists pre, (matched m), post, (groups m). auto.
Qed.

(** C7. The code at the failing inputs: fiber is never searched.  The
    text "Fiber: 5g" gives a record without fiber, where a search for the
    fiber keyword would find 5, and a text without any nutrient gives a
    record whose fiber is absent, not 0. *)
Lemma extractNutritionFromText_fiber_absent :
  extractNutritionFromText (js "Fiber: 5g")
  = mkNutrition zero zero zero zero None /\
  searchNumber (js "Fiber: 5g") ["fiber"%string] = Some (ofZ 5) /\
  fiber (extractNutritionFromText (js "No nutrition info here")) <> Some zero /\
  (forall text, fiber (extractNutritionFromText text) = None).
Proof.
  split; [vm_compute; reflexivity|]. split; [vm_compute; reflexivity|].
  split; [discriminate | reflexivity].
Qed.

(** * The theorems at concrete inputs *)

Section Witnesses.
Import Retry Mock.

Lemma retry_attempts_count_invocations_witness :
  exists res w',
    retry (H := failingHost networkError) (options 2 100)
      (failingStart networkError) = Some (res, w') /\
    success res = false /\ attempts res = 3 /\ invocations w' = 3%nat.
Proof.
  destruct (retry_attempts_count_invocations (H := failingHost networkError)
              (options 2 100) (failingStart networkError))
    as (res & w' & Hrun & _ & _ & _ & _ & _ & Halways & _).
  - vm_compute. discriminate.
  - exists res, w'. split; [exact Hrun|].
    apply Halways; [reflexivity|].
    intros h. exists networkError. split; reflexivity.
Defined.

Lemma non_retryable_error_stops_witness :
  exists res w',
    retry (mkOptions (Some 2) (Some 100%Q) None None None
             (Some (fun _ => false)) None None)
          (start [] (Rejects validationError)) = Some (res, w') /\
    success res = false /\ attempts res = 1 /\
    error res = Some (mkMockError false "Validation error") /\
    invocations w' = 1%nat.
Proof.
  destruct (non_retryable_error_stops
              (mkOptions (Some 2) (Some 100%Q) None None None
                 (Some (fun _ => false)) None None)
              (start [] (Rejects validationError)) validationError
              eq_refl eq_refl) as [_ Hretry].
  destruct Hretry as (res & w' & Hrun & Hs & Ha & _ & Hid & Hinv & _).
  - vm_compute. discriminate.
  - exists res, w'. repeat split; try assumption.
    apply Hid. reflexivity.
Defined.

Lemma unflagged_response_succeeds_witness :
  exists res w',
    retry (options 2 100) (start [] (Resolves (response 404))) = Some (res, w') /\
    success res = true /\ data res = Some (response 404) /\
    attempts res = 1 /\ invocations w' = 1%nat.
Proof.
  destruct (unflagged_response_succeeds (options 2 100)
              (start [] (Resolves (response 404)))
              (mkResponse 404 "" false)) as [Hstop _].
  destruct Hstop as [_ Hretry]; [reflexivity | reflexivity | reflexivity |].
  destruct Hretry as (res & w' & Hrun & Hs & Hd & Ha & Hinv & _).
  - vm_compute. discriminate.
  - exists res, w'. repeat split; assumption.
Defined.
End Witnesses.

Lemma parseNutritionNumber_string_algorithm_witness :
  exists pre A B a b,
    RangeAt (normalizeString (js "200-300")) pre A B /\
    literalValue A = NFinite a /\ literalValue B = NFinite b /\
    parseNutritionNumber (VString (js "200-300"))
    = Math_max zero (Math_round (js_div_pos (js_add (Number A) (Number B)) 2)).
Proof.
  destruct (parseNutritionNumber_string_algorithm (js "200-300"))
    as (_ & Hrange & _).
  destruct Hrange as (pre & A & B & a & b & Hat & _ & _ & Ha & Hb & _ & _ & Hres).
  - exists [], (js "200"), (js "300"), [], [ch "-"], [], [].
    split; [reflexivity|].
    split; [exists (js "200"); repeat split; [discriminate | left; reflexivity]|].
    split; [reflexivity|]. split; [left; reflexivity|]. split; [reflexivity|].
    exists (js "300"); repeat split; [discriminate | left; reflexivity].
  - exists pre, A, B, a, b. repeat split; assumption.
Defined.

Lemma normalizeNutritionData_first_alias_witness :
  fiber (normalizeNutritionData
           (<["kalori"%string := VString (js "200 kcal")]> ∅)) = Some zero.
Proof.
  destruct (normalizeNutritionData_first_alias
              (<["kalori"%string := VString (js "200 kcal")]> ∅))
    as (_ & _ & _ & _ & _ & _ & Hfiber & _).
  apply Hfiber; vm_compute; reflexivity.
Defined.

Lemma mergeNutrition_prefers_nonzero_witness :
  mergeNutrition (mkNutrition zero zero zero zero None)
                 (mkNutrition (ofZ 300) (ofZ 20) (ofZ 35) (ofZ 10) (Some (ofZ 4)))
  = mkNutrition (ofZ 300) (ofZ 20) (ofZ 35) (ofZ 10) (Some (ofZ 4)).
Proof.
  destruct (mergeNutrition_prefers_nonzero
              (mkNutrition zero zero zero zero None)
              (mkNutrition (ofZ 300) (ofZ 20) (ofZ 35) (ofZ 10) (Some (ofZ 4))))
    as (_ & _ & _ & _ & _ & _ & _ & Hidentity).
  apply Hidentity; [reflexivity | right; reflexivity].
Defined.

Lemma parseNutritionNumber_commas_are_periods_witness :
  ch "." <> ch "," /\
  parseNutritionNumber (VString (js "2,5")) =
  parseNutritionNumber (VString (js "2.5")).
Proof.
  destruct parseNutritionNumber_commas_are_periods as (Hsame & Hnone & _).
  split.
  - apply (Hnone (js "1,000")). vm_compute. right; left; reflexivity.
  - exact (Hsame (js "2,5")).
Defined.

(** * Further properties of the retry executor *)

Section RetryRuns.
Import Retry.
Context {E : ErrorModel} {T : Type} {H : HostModel E T}.

(** An induction principle for the loop: a property of runs holds of
    every run once it holds where the loop returns and is carried back
    across a backoff. *)
Lemma retryLoop_cases (o : Settings) (startTime : Z)
    (P : Z -> Run -> RetryResult E T -> Run -> Prop) :
  (forall attempt w v,
     attempt <= maxRetries' o ->
     fst (fn (host w)) = Resolves v -> accepted o v = true ->
     P attempt w
       (mkResult true (Some v) None (attempt + 1)
          (Date_now (host (snd (invoke w))) - startTime))
       (snd (invoke w))) ->
  (forall w r,
     fst (fn (host w)) = Resolves (IsResponse r) ->
     accepted o (IsResponse r : Value T) = false ->
     P (maxRetries' o) w
       (failure startTime
          (newError (errorMessagePrefix' o ++ " after "
                     ++ showZ (maxRetries' o + 1) ++ " attempts: "
                     ++ showZ (status r) ++ " " ++ statusText r)%string)
          (maxRetries' o + 1) (snd (invoke w)))
       (snd (invoke w))) ->
  (forall attempt w e,
     attempt <= maxRetries' o ->
     fst (fn (host w)) = Rejects e ->
     isRetryable' o e = false \/ attempt = maxRetries' o ->
     P attempt w (failure startTime (toError e) (attempt + 1) (snd (invoke w)))
       (snd (invoke w))) ->
  (forall attempt w res w',
     attempt < maxRetries' o ->
     (exists v, fst (fn (host w)) = Resolves v /\ accepted o v = false) \/
     (exists e, fst (fn (host w)) = Rejects e /\ isRetryable' o e = true) ->
     P (attempt + 1) (backoff o attempt (snd (invoke w))) res w' ->
     P attempt w res w') ->
  forall (fuel : nat) (attempt : Z) (lastError : option ErrorObj) (w : Run),
    attempt <= maxRetries' o ->
    (Z.to_nat (maxRetries' o - attempt) < fuel)%nat ->
    exists res w',
      retryLoop o startTime fuel attempt lastError w = Some (res, w') /\
      P attempt w res w'.
Proof.
  intros Haccept Hflagged Hthrown Hagain.
  induction fuel as [|fuel IH]; intros attempt lastError w Hle Hfuel; [lia|].
  rewrite retryLoop_step by assumption. cbv zeta.
  pose proof (invoke_outcome w) as Hout.
  destruct (fst (invoke w)) as [v | e].
  - destruct (accepted o v) eqn:Hacc.
    + eexists _, _. split; [reflexivity|]. apply Haccept; auto.
    + destruct (attempt >=? maxRetries' o) eqn:Hge.
      * rewrite Z.geb_leb in Hge. apply Z.leb_le in Hge.
        assert (attempt = maxRetries' o) as -> by lia.
        destruct v as [r | v]; [|discriminate Hacc].
        eexists _, _. split; [reflexivity|]. apply Hflagged; auto.
      * rewrite Z.geb_leb in Hge. apply Z.leb_gt in Hge.
        destruct (IH (attempt + 1) lastError (backoff o attempt (snd (invoke w))))
          as (res & w' & Hrun & HP); [lia | lia |].
        exists res, w'. split; [exact Hrun|].
        apply Hagain; [exact Hge | left; eauto | exact HP].
  - destruct (isRetryable' o e) eqn:Hre; cbn [negb orb].
    + destruct (attempt >=? maxRetries' o) eqn:Hge.
      * rewrite Z.geb_leb in Hge. apply Z.leb_le in Hge.
        eexists _, _. split; [reflexivity|]. apply Hthrown; auto. right. lia.
      * rewrite Z.geb_leb in Hge. apply Z.leb_gt in Hge.
        destruct (IH (attempt + 1) (Some (toError e))
                    (backoff o attempt (snd (invoke w))))
          as (res & w' & Hrun & HP); [lia | lia |].
        exists res, w'. split; [exact Hrun|].
        apply Hagain; [exact Hge | right; eauto | exact HP].
    + eexists _, _. split; [reflexivity|]. apply Hthrown; auto.
Qed.

(** The delay computed before a retry, by the hypotheses made on the
    options and on the random source. *)
Lemma retryLoop_last_attempt (o : Settings) (startTime : Z) (fuel : nat)
    (attempt : Z) (lastError : option ErrorObj) (w : Run) :
  attempt <= maxRetries' o ->
  (Z.to_nat (maxRetries' o - attempt) < fuel)%nat ->
  exists res w' last,
    retryLoop o startTime fuel attempt lastError w = Some (res, w') /\
    w' = snd (invoke last) /\
    match fst (fn (host last)) with
    | Resolves v =>
      if accepted o v then
        success res = true /\ data res = Some v /\ error res = None
      else
        success res = false /\ data res = None /\
        attempts res = maxRetries' o + 1 /\
        exists r, v = IsResponse r /\
          error res =
          Some (newError (errorMessagePrefix' o ++ " after "
                          ++ showZ (maxRetries' o + 1) ++ " attempts: "
                          ++ showZ (status r) ++ " " ++ statusText r)%string)
    | Rejects e =>
      success res = false /\ data res = None /\
      error res = Some (toError e) /\
      (isRetryable' o e = false \/ attempts res = maxRetries' o + 1)
    end.
Proof.
  intros Hle Hfuel.
  destruct (retryLoop_cases o startTime
    (fun attempt w0 res w' =>
       exists last,
         w' = snd (invoke last) /\
         match fst (fn (host last)) with
         | Resolves v =>
           if accepted o v then
             success res = true /\ data res = Some v /\ error res = None
           else
             success res = false /\ data res = None /\
             attempts res = maxRetries' o + 1 /\
             exists r, v = IsResponse r /\
               error res =
               Some (newError (errorMessagePrefix' o ++ " after "
                               ++ showZ (maxRetries' o + 1) ++ " attempts: "
                               ++ showZ (status r) ++ " " ++ statusText r)%string)
         | Rejects e =>
           success res = false /\ data res = None /\
           error res = Some (toError e) /\
           (isRetryable' o e = false \/ attempts res = maxRetries' o + 1)
         end))
    with (fuel := fuel) (attempt := attempt) (lastError := lastError) (w := w)
    as (res & w' & Hrun & last & Hlast & Hres).
  - intros attempt0 w0 v _ Hfn Hacc. exists w0. split; [reflexivity|].
    rewrite Hfn, Hacc. repeat split.
  - intros w0 r Hfn Hacc. exists w0. split; [reflexivity|].
    rewrite Hfn, Hacc. cbn [failure success data attempts error].
    repeat split. exists r. split; reflexivity.
  - intros attempt0 w0 e _ Hfn Hwhy. exists w0. split; [reflexivity|].
    rewrite Hfn. cbn [failure success data attempts error].
    repeat split. destruct Hwhy as [Hno | ->]; [left; exact Hno | right; reflexivity].
  - intros attempt0 w0 res w' _ _ HP. exact HP.
  - exact Hle.
  - exact Hfuel.
  - exists res, w', last. auto.
Qed.

(** When every invocation ends in a retryable way, the loop goes on to
    the last permitted attempt. *)
Lemma retryLoop_exhausts (o : Settings) (startTime : Z) (fuel : nat)
    (attempt : Z) (lastError : option ErrorObj) (w : Run) :
  (forall h,
     (exists v, fst (fn h) = Resolves v /\ accepted o v = false) \/
     (exists e, fst (fn h) = Rejects e /\ isRetryable' o e = true)) ->
  attempt <= maxRetries' o ->
  (Z.to_nat (maxRetries' o - attempt) < fuel)%nat ->
  exists res w',
    retryLoop o startTime fuel attempt lastError w = Some (res, w') /\
    success res = false /\ data res = None /\
    attempts res = maxRetries' o + 1 /\
    Z.of_nat (invocations w') =
    Z.of_nat (invocations w) + (maxRetries' o + 1 - attempt) /\
    Z.of_nat (length (sleeps w')) =
    Z.of_nat (length (sleeps w)) + (maxRetries' o - attempt).
Proof.
  intros Hall Hle Hfuel.
  apply (retryLoop_cases o startTime
    (fun attempt w0 res w' =>
       success res = false /\ data res = None /\
       attempts res = maxRetries' o + 1 /\
       Z.of_nat (invocations w') =
       Z.of_nat (invocations w0) + (maxRetries' o + 1 - attempt) /\
       Z.of_nat (length (sleeps w')) =
       Z.of_nat (length (sleeps w0)) + (maxRetries' o - attempt)));
    [| | | |exact Hle|exact Hfuel].
  - intros attempt0 w0 v _ Hfn Hacc. exfalso.
    destruct (Hall (host w0)) as [(v' & Hfn' & Hacc') | (e & Hfn' & _)];
      rewrite Hfn in Hfn'; [|discriminate].
    injection Hfn' as <-. congruence.
  - intros w0 r _ _. cbn [failure success data attempts].
    rewrite invoke_invocations, invoke_sleeps. repeat split; lia.
  - intros attempt0 w0 e _ Hfn Hwhy.
    assert (attempt0 = maxRetries' o) as ->.
    { destruct Hwhy as [Hno | Heq]; [|exact Heq]. exfalso.
      destruct (Hall (host w0)) as [(v & Hfn' & _) | (e' & Hfn' & Hre)];
        rewrite Hfn in Hfn'; [discriminate|].
      injection Hfn' as <-. congruence. }
    cbn [failure success data attempts].
    rewrite invoke_invocations, invoke_sleeps. repeat split; lia.
  - intros attempt0 w0 res w' _ _ (Hs & Hd & Ha & Hinv & Hsl).
    rewrite backoff_invocations, invoke_invocations in Hinv.
    rewrite backoff_sleeps, invoke_sleeps, length_app in Hsl. cbn [length] in Hsl.
    repeat split; try assumption; lia.
Qed.

(** X3. With a non-negative [maxRetries], the result of [retry] always
    describes the last invocation of the operation.  It is a success,
    with the value as data, exactly when that invocation resolved with
    a value other than a flagged response; when it resolved with a
    flagged response the budget is spent and the error message reads
    "<prefix> after <maxRetries + 1> attempts: <status> <statusText>";
    when it threw, the error is the thrown one, and either it was not
    retryable or the budget is spent. *)
Theorem retry_result_reflects_last_attempt (options : RetryOptions E) (w : Run) :
  let o := destructure options in
  0 <= maxRetries' o ->
  exists res w' last,
    retry options w = Some (res, w') /\
    w' = snd (invoke last) /\
    match fst (fn (host last)) with
    | Resolves v =>
      if accepted o v then
        success res = true /\ data res = Some v /\ error res = None
      else
        success res = false /\ data res = None /\
        attempts res = maxRetries' o + 1 /\
        exists r, v = IsResponse r /\
          error res =
          Some (newError (errorMessagePrefix' o ++ " after "
                          ++ showZ (maxRetries' o + 1) ++ " attempts: "
                          ++ showZ (status r) ++ " " ++ statusText r)%string)
    | Rejects e =>
      success res = false /\ data res = None /\
      error res = Some (toError e) /\
      (isRetryable' o e = false \/ attempts res = maxRetries' o + 1)
    end.
Proof.
  intros o Hmax. unfold retry. cbv zeta.
  apply retryLoop_last_attempt; [exact Hmax | apply loopBound_enough].
Qed.

(** X4. With a non-negative [maxRetries], when the operation can only
    throw retryable errors or resolve with flagged responses, [retry]
    spends the whole budget: it fails after exactly [maxRetries + 1]
    invocations and [maxRetries] sleeps. *)
Theorem retry_exhausts_budget (options : RetryOptions E) (w : Run) :
  let o := destructure options in
  0 <= maxRetries' o ->
  (forall h,
     (exists v, fst (fn h) = Resolves v /\ accepted o v = false) \/
     (exists e, fst (fn h) = Rejects e /\ isRetryable' o e = true)) ->
  exists res w',
    retry options w = Some (res, w') /\
    success res = false /\ data res = None /\
    attempts res = maxRetries' o + 1 /\
    Z.of_nat (invocations w') = Z.of_nat (invocations w) + (maxRetries' o + 1) /\
    Z.of_nat (length (sleeps w')) = Z.of_nat (length (sleeps w)) + maxRetries' o.
Proof.
  intros o Hmax Hall. unfold retry. cbv zeta.
  destruct (retryLoop_exhausts (destructure options) (Date_now (host w))
              (loopBound (destructure options)) 0 None w Hall Hmax
              (loopBound_enough _))
    as (res & w' & Hrun & Hs & Hd & Ha & Hinv & Hsl).
  exists res, w'. fold o in Ha, Hinv, Hsl. repeat split; try assumption; lia.
Qed.

(** X5. With a negative [maxRetries] the operation is never invoked
    and nothing is slept: [retry] fails at once with the error "Unknown
    error" and reports [maxRetries + 1] attempts, a number below 1. *)
Theorem retry_without_budget (options : RetryOptions E) (w : Run) :
  let o := destructure options in
  maxRetries' o < 0 ->
  exists res,
    retry options w = Some (res, w) /\
    success res = false /\ data res = None /\
    error res = Some (newError "Unknown error") /\
    attempts res = maxRetries' o + 1 /\ attempts res <= 0 /\
    totalTime res = 0.
Proof.
  intros o Hneg. rewrite (retry_negative_budget options w Hneg).
  eexists. split; [reflexivity|]. cbn [failure success data error attempts totalTime].
  fold o. repeat split; lia.
Qed.

(** X6. Whatever the options, [retry] returns, and the [totalTime] of
    its result is the reading of the clock when it returns minus the
    reading when it was called. *)
Theorem retry_totalTime_is_elapsed_clock (options : RetryOptions E) (w : Run) :
  exists res w',
    retry options w = Some (res, w') /\
    totalTime res = Date_now (host w') - Date_now (host w).
Proof.
  destruct (Z.lt_ge_cases (maxRetries' (destructure options)) 0) as [Hneg | Hmax].
  - rewrite (retry_negative_budget options w Hneg).
    eexists _, _. split; reflexivity.
  - unfold retry. cbv zeta.
    apply (retryLoop_cases (destructure options) (Date_now (host w))
      (fun _ _ res w' => totalTime res = Date_now (host w') - Date_now (host w))).
    + reflexivity.
    + reflexivity.
    + reflexivity.
    + intros attempt w0 res w' _ _ HP. exact HP.
    + exact Hmax.
    + apply loopBound_enough.
Qed.

Lemma prefix_app (needle haystack : string) :
  String.prefix needle haystack = true <->
  exists post, haystack = (needle ++ post)%string.
Proof.
  revert haystack. induction needle as [|a needle IH]; intros haystack.
  - split; [intros _; exists haystack; reflexivity|].
    intros _. destruct haystack; reflexivity.
  - destruct haystack as [|b haystack]; cbn.
    + split; [discriminate | intros [post Hpost]; discriminate Hpost].
    + destruct (Ascii.ascii_dec a b) as [-> | Hne].
      * rewrite IH. split; intros [post Hpost]; exists post.
        -- rewrite Hpost. reflexivity.
        -- cbn [String.append] in Hpost. injection Hpost as ->. reflexivity.
      * split; [discriminate|]. intros [post Hpost].
        cbn [String.append] in Hpost. injection Hpost as Hab _. congruence.
Qed.

Lemma includes_Contains (haystack needle : string) :
  includes haystack needle = true <-> Contains needle haystack.
Proof.
  induction haystack as [|a haystack IH]; cbn [includes].
  - destruct (String.prefix needle "") eqn:Hp.
    + split; [|reflexivity]. intros _. apply prefix_app in Hp as [post Hpost].
      exists ""%string, post. exact Hpost.
    + split; [discriminate|]. intros (pre & post & Heq). exfalso.
      destruct pre; [|discriminate Heq].
      assert (String.prefix needle "" = true) by (apply prefix_app; eauto).
      congruence.
  - destruct (String.prefix needle (String a haystack)) eqn:Hp.
    + split; [|reflexivity]. intros _. apply prefix_app in Hp as [post Hpost].
      exists ""%string, post. exact Hpost.
    + rewrite IH. split.
      * intros (pre & post & ->). exists (String a pre), post. reflexivity.
      * intros (pre & post & Heq). destruct pre as [|b pre].
        -- exfalso.
           assert (String.prefix needle (String a haystack) = true)
             by (apply prefix_app; eauto).
           congruence.
        -- injection Heq as _ ->. exists pre, post. reflexivity.
Qed.

(** X8. The default error predicate retries exactly the thrown [Error]
    objects whose message contains "timeout", "Timeout", "network" or
    "Network", and the [TypeError] objects whose message contains
    "fetch"; a thrown value that is not an [Error] is never retried. *)
Theorem defaultIsRetryable_by_message (error : Thrown E) :
  (defaultIsRetryable error = true <->
   exists e, error = ThrownError e /\
     (instanceofTypeError e = true /\ Contains "fetch" (message e) \/
      Contains "timeout" (message e) \/ Contains "Timeout" (message e) \/
      Contains "network" (message e) \/ Contains "Network" (message e))) /\
  (forall rendering, defaultIsRetryable (ThrownOther rendering) = false).
Proof.
  split; [|reflexivity].
  destruct error as [e | rendering]; cbn [defaultIsRetryable].
  - split.
    + intros Hyes. exists e. split; [reflexivity|].
      destruct (instanceofTypeError e && includes (message e) "fetch") eqn:H1.
      { apply andb_prop in H1 as [Ht Hf]. left. split; [exact Ht|].
        apply includes_Contains. exact Hf. }
      right.
      destruct (includes (message e) "timeout") eqn:H2;
        [left; apply includes_Contains; exact H2 | right].
      destruct (includes (message e) "Timeout") eqn:H3;
        [left; apply includes_Contains; exact H3 | right].
      destruct (includes (message e) "network") eqn:H4;
        [left; apply includes_Contains; exact H4 | right].
      destruct (includes (message e) "Network") eqn:H5;
        [apply includes_Contains; exact H5 | discriminate Hyes].
    + intros (e' & [= <-] & Hwhy).
      rewrite <- !includes_Contains in Hwhy.
      destruct (instanceofTypeError e), (includes (message e) "fetch"),
        (includes (message e) "timeout"), (includes (message e) "Timeout"),
        (includes (message e) "network"), (includes (message e) "Network");
        cbn [andb orb]; try reflexivity; exfalso; intuition discriminate.
  - split; [discriminate|]. intros (e & Heq & _). discriminate Heq.
Qed.

(** [retry] returns whatever the options: with a value on success, with
    an error on failure. *)
Lemma retry_returns (options : RetryOptions E) (w : Run) :
  exists res w',
    retry options w = Some (res, w') /\
    (success res = true /\ (exists v, data res = Some v) \/
     success res = false /\ (exists e, error res = Some e)).
Proof.
  destruct (Z.lt_ge_cases (maxRetries' (destructure options)) 0) as [Hneg | Hmax].
  - rewrite (retry_negative_budget options w Hneg).
    eexists _, _. split; [reflexivity|]. right. split; [reflexivity|].
    eexists. reflexivity.
  - unfold retry. cbv zeta.
    apply (retryLoop_cases (destructure options) (Date_now (host w))
      (fun _ _ res _ =>
         success res = true /\ (exists v, data res = Some v) \/
         success res = false /\ (exists e, error res = Some e)));
      [| | | |exact Hmax|apply loopBound_enough].
    + intros attempt w0 v _ _ _. left. split; [reflexivity|]. eexists. reflexivity.
    + intros w0 r _ _. right. split; [reflexivity|]. eexists. reflexivity.
    + intros attempt w0 e _ _ _. right. split; [reflexivity|]. eexists. reflexivity.
    + intros attempt w0 res w' _ _ HP. exact HP.
Qed.

End RetryRuns.

(** * retryFetch *)

Section FetchFacts.
Import Retry.
Context {E : ErrorModel} {H : HostModel E Empty_set}.

(** Wrapping [isRetryableResponse] leaves the options of [retry] as
    they are. *)
Lemma destructure_fetchOptions (retryOptions : RetryOptions E) :
  destructure (fetchOptions retryOptions) = destructure retryOptions.
Proof.
  unfold destructure, fetchOptions. cbn.
  destruct (isRetryableResponse retryOptions); reflexivity.
Qed.

Lemma retry_fetchOptions (retryOptions : RetryOptions E) (w : Run) :
  retry (fetchOptions retryOptions) w = retry retryOptions w.
Proof. unfold retry. rewrite destructure_fetchOptions. reflexivity. Qed.

(** X9. [retryFetch] ends as [retry] does under the same options: it
    returns the response [retry] succeeded with and throws the error
    [retry] failed with, after the same invocations and sleeps.  Its own
    two errors, "Fetch failed after retries" and "No data returned from
    fetch", are never thrown. *)
Theorem retryFetch_follows_retry (retryOptions : RetryOptions E) (w : Run) :
  exists res w',
    retry retryOptions w = Some (res, w') /\
    (success res = true /\
     (exists r, data res = Some (IsResponse r) /\
                retryFetch retryOptions w = Some (Returns r, w')) \/
     success res = false /\
     (exists e, error res = Some e /\
                retryFetch retryOptions w = Some (Throws e, w'))).
Proof.
  destruct (retry_returns retryOptions w) as (res & w' & Hrun & Hres).
  exists res, w'. split; [exact Hrun|].
  unfold retryFetch. rewrite retry_fetchOptions, Hrun.
  destruct Hres as [[Hs (v & Hv)] | [Hs (e & He)]]; rewrite Hs; cbn [negb].
  - left. split; [reflexivity|]. rewrite Hv.
    destruct v as [r | []]. exists r. split; reflexivity.
  - right. split; [reflexivity|]. rewrite He. exists e. split; reflexivity.
Qed.

(** X10. A response that [retryFetch] returns is the one the last
    [fetch] resolved with, and it is ok or not flagged by
    [isRetryableResponse]: under the default predicate [retryFetch]
    never returns a response that is not ok and has status 429 or at
    least 500. *)
Theorem retryFetch_returns_acceptable
    (retryOptions : RetryOptions E) (w w' : Run) (r : Response) :
  let o := destructure retryOptions in
  retryFetch retryOptions w = Some (Returns r, w') ->
  (ok r = true \/ isRetryableResponse' o r = false) /\
  (exists last,
     w' = snd (invoke last) /\ fst (fn (host last)) = Resolves (IsResponse r)) /\
  (isRetryableResponse retryOptions = None ->
   ok r = true \/ status r < 500 /\ status r <> 429).
Proof.
  intros o. unfold retryFetch. rewrite retry_fetchOptions.
  destruct (Z.lt_ge_cases (maxRetries' o) 0) as [Hneg | Hmax].
  { rewrite (retry_negative_budget retryOptions w Hneg). discriminate. }
  unfold retry. cbv zeta. fold o.
  destruct (retryLoop_last_attempt o (Date_now (host w)) (loopBound o) 0 None w
              Hmax (loopBound_enough o))
    as (res & w1 & last & -> & -> & Hlast).
  intros Hfetch.
  assert (Hdata : success res = true /\ data res = Some (IsResponse r) /\
                  w' = snd (invoke last)).
  { destruct (success res); cbn [negb] in Hfetch; [|discriminate Hfetch].
    destruct (data res) as [[r' | []]|]; [|discriminate Hfetch].
    injection Hfetch as <- <-. auto. }
  destruct Hdata as (Hs & Hd & ->).
  assert (Hacc : fst (fn (host last)) = Resolves (IsResponse r) /\
                 accepted o (IsResponse r : Value Empty_set) = true).
  { destruct (fst (fn (host last))) as [v | e].
    - destruct (accepted o v) eqn:Hacc.
      + destruct Hlast as (_ & Hd' & _). rewrite Hd in Hd'.
        injection Hd' as <-. auto.
      + destruct Hlast as (Hs' & _). congruence.
    - destruct Hlast as (Hs' & _). congruence. }
  destruct Hacc as [Hfn Hacc]. cbn [accepted] in Hacc.
  assert (Hok : ok r = true \/ isRetryableResponse' o r = false).
  { destruct (ok r); [left; reflexivity | right].
    cbn [negb andb] in Hacc. destruct (isRetryableResponse' o r);
      [discriminate Hacc | reflexivity]. }
  split; [exact Hok|]. split; [exists last; auto|].
  intros Hnone. destruct Hok as [Hok | Hno]; [left; exact Hok | right].
  unfold o, destructure in Hno. cbn [isRetryableResponse'] in Hno.
  rewrite Hnone in Hno. cbn [default] in Hno.
  unfold defaultIsRetryableResponse in Hno.
  apply orb_false_elim in Hno as [Hge Heq].
  rewrite Z.geb_leb in Hge. apply Z.leb_gt in Hge. apply Z.eqb_neq in Heq.
  split; assumption.
Qed.

(** X11. When [fetch] keeps resolving with the same flagged response
    that is not ok, [retryFetch] with a non-negative [maxRetries] throws
    after exactly [maxRetries + 1] calls of [fetch] an error whose
    message is "<prefix> after <maxRetries + 1> attempts: <status>
    <statusText>". *)
Theorem retryFetch_throws_after_budget
    (retryOptions : RetryOptions E) (w : Run) (r : Response) :
  let o := destructure retryOptions in
  0 <= maxRetries' o ->
  (forall h, fst (fn h) = Resolves (IsResponse r)) ->
  ok r = false -> isRetryableResponse' o r = true ->
  exists w',
    retryFetch retryOptions w =
    Some (Throws (newError (errorMessagePrefix' o ++ " after "
                            ++ showZ (maxRetries' o + 1) ++ " attempts: "
                            ++ showZ (status r) ++ " " ++ statusText r)%string),
          w') /\
    Z.of_nat (invocations w') = Z.of_nat (invocations w) + (maxRetries' o + 1) /\
    Z.of_nat (length (sleeps w')) = Z.of_nat (length (sleeps w)) + maxRetries' o.
Proof.
  intros o Hmax Hall Hok Hflag.
  assert (Hacc : accepted o (IsResponse r : Value Empty_set) = false).
  { cbn [accepted]. rewrite Hok, Hflag. reflexivity. }
  unfold retryFetch. rewrite retry_fetchOptions. unfold retry. cbv zeta. fold o.
  destruct (retryLoop_exhausts o (Date_now (host w)) (loopBound o) 0 None w)
    as (res & w' & Hrun & Hs & _ & _ & Hinv & Hsl);
    [intros h; left; eauto | exact Hmax | apply loopBound_enough |].
  destruct (retryLoop_last_attempt o (Date_now (host w)) (loopBound o) 0 None w
              Hmax (loopBound_enough o))
    as (res' & w1 & last & Hrun' & _ & Hlast).
  rewrite Hrun in Hrun'. injection Hrun' as <- <-.
  rewrite (Hall (host last)), Hacc in Hlast.
  destruct Hlast as (_ & _ & _ & r' & [= <-] & Herr).
  rewrite Hrun, Hs, Herr. cbn [negb default].
  exists w'. split; [reflexivity|]. split; lia.
Qed.

End FetchFacts.

(** ** The executor at concrete inputs *)

Section RetryRunWitnesses.
Import Retry Mock.

Lemma retry_result_reflects_last_attempt_witness :
  exists res w' last,
    retry (options 2 100)
      (start [Rejects networkError] (Resolves (response 200))) = Some (res, w') /\
    w' = snd (invoke last).
Proof.
  destruct (retry_result_reflects_last_attempt (options 2 100)
              (start [Rejects networkError] (Resolves (response 200))))
    as (res & w' & last & Hrun & Hlast & _).
  - vm_compute. discriminate.
  - exists res, w', last. split; [exact Hrun | exact Hlast].
Defined.

Lemma retry_exhausts_budget_witness :
  exists res w',
    retry (H := respondingHost unavailable) analysisOptions
      (respondingStart unavailable) = Some (res, w') /\
    success res = false /\ attempts res = 4 /\
    Z.of_nat (invocations w') = 4 /\ Z.of_nat (length (sleeps w')) = 3.
Proof.
  destruct (retry_exhausts_budget (H := respondingHost unavailable)
              analysisOptions (respondingStart unavailable))
    as (res & w' & Hrun & Hs & _ & Ha & Hinv & Hsl).
  - vm_compute. discriminate.
  - intros h. left. exists (IsResponse unavailable). split; reflexivity.
  - exists res, w'. repeat split; assumption.
Defined.

Lemma retry_without_budget_witness :
  exists res,
    retry (options (-1) 100) (start [] (Resolves (response 200)))
    = Some (res, start [] (Resolves (response 200))) /\
    attempts res = 0.
Proof.
  destruct (retry_without_budget (options (-1) 100)
              (start [] (Resolves (response 200))))
    as (res & Hrun & _ & _ & _ & Ha & _).
  - reflexivity.
  - exists res. split; [exact Hrun | exact Ha].
Defined.

Lemma retryFetch_returns_acceptable_witness :
  ok notFound = true \/ status notFound < 500 /\ status notFound <> 429.
Proof.
  destruct (retryFetch_returns_acceptable (H := respondingHost notFound)
              (options 2 100) (respondingStart notFound)
              (mkRun (H := respondingHost notFound) 0 1 []) notFound)
    as (_ & _ & Hdefault).
  - vm_compute. reflexivity.
  - apply Hdefault. reflexivity.
Defined.

Lemma retryFetch_throws_after_budget_witness :
  exists w',
    retryFetch (H := respondingHost unavailable) analysisOptions
      (respondingStart unavailable)
    = Some (Throws (mkMockError false
        "Failed to call nutrition-ai after 4 attempts: 503 Service Unavailable"),
            w') /\
    Z.of_nat (invocations w') = 4.
Proof.
  destruct (retryFetch_throws_after_budget (H := respondingHost unavailable)
              analysisOptions (respondingStart unavailable) unavailable)
    as (w' & Hrun & Hinv & _).
  - vm_compute. discriminate.
  - reflexivity.
  - reflexivity.
  - reflexivity.
  - exists w'. split; [exact Hrun | exact Hinv].
Defined.

End RetryRunWitnesses.

(** * Further properties of the normalizer *)


Lemma parseNumber_count (value : JsValue) : CountOrInfinity (parseNumber value).
Proof.
  destruct value as [| |b|n|str|]; try exact zero_count.
  - destruct n as [q| | |]; cbn [parseNumber isFinite]; try exact zero_count.
    left. rewrite Math_max_round. apply clampRound_nonneg.
  - apply firstNumber_count.
Qed.

Lemma parse_fixed_point (z : Z) :
  0 <= z -> parseNutritionNumber (VNumber (ofZ z)) = ofZ z.
Proof.
  intros Hz. unfold ofZ at 1. cbn [parseNutritionNumber isFinite].
  rewrite Math_max_round. apply clampRound_integer. exact Hz.
Qed.

(** A value that one of the parsers returned, parsed again. *)
Lemma parse_again (n : JsNumber) :
  CountOrInfinity n ->
  parseNutritionNumber (VNumber n) = (if isFinite n then n else zero).
Proof.
  intros [(z & Hz & ->) | ->]; [|reflexivity].
  cbn [isFinite ofZ]. exact (parse_fixed_point z Hz).
Qed.

(** X12. [parseNumber], the parser without range support, returns a
    non-negative integer or [Infinity] on every input, never a negative
    number and never NaN, and a non-negative integer on every input that
    is not a string; [Infinity] is what a numeral beyond the range of
    doubles gives, a 1 followed by 400 zeros for one.  [null],
    [undefined], NaN and the infinities give 0, and so does a string
    without a digit. *)
Theorem parseNumber_nonneg_or_infinity :
  (forall value, CountOrInfinity (parseNumber value)) /\
  (forall value,
     notString value -> exists z, 0 <= z /\ parseNumber value = ofZ z) /\
  parseNumber (VString (ch "1" :: repeat (ch "0") 400)) = NPosInf /\
  parseNumber VNull = zero /\ parseNumber VUndefined = zero /\
  parseNumber (VNumber NNaN) = zero /\
  parseNumber (VNumber NPosInf) = zero /\
  parseNumber (VNumber NNegInf) = zero /\
  (forall str, ~ HasDigit str -> parseNumber (VString str) = zero).
Proof.
  split; [exact parseNumber_count|]. split; [|split; [vm_compute; reflexivity|]].
  - intros value Hnot. destruct value as [| |b|n|str|];
      try (exists 0; split; [lia | reflexivity]).
    + destruct n as [q| | |]; cbn [parseNumber isFinite];
        try (exists 0; split; [lia | reflexivity]).
      rewrite Math_max_round. apply clampRound_nonneg.
    + exfalso. exact (Hnot str eq_refl).
  - repeat (split; [reflexivity|]).
    intros str Hno. cbn [parseNumber].
    destruct (stringMatch false numberRe (replaceAll (ch ",") (ch ".") str))
      as [m|] eqn:Hrun.
    + exfalso. apply Hno.
      destruct (firstNumber_some _ _ Hrun) as (pre & w & x & (post & Hs & Hw) & _).
      apply (replaceAll_digit (ch ",") (ch ".")); [reflexivity | reflexivity|].
      rewrite Hs. apply HasDigit_app. right. apply HasDigit_app. left.
      apply SignedNumber_HasDigit. exact Hw.
    + destruct (firstNumber_none _ Hrun) as [_ ->]. reflexivity.
Qed.

(** X13. Normalizing is idempotent on finite results: a finite value
    that [parseNutritionNumber] or [parseNumber] returned is returned
    unchanged when it is parsed again, by either function, and every
    non-negative integer is a fixed point; the [Infinity] that a numeral
    beyond the range of doubles gives becomes 0 when it is parsed
    again. *)
Theorem parseNutritionNumber_idempotent (value : JsValue) :
  (let n := parseNutritionNumber value in
   parseNutritionNumber (VNumber n) = (if isFinite n then n else zero) /\
   parseNumber (VNumber n) = (if isFinite n then n else zero)) /\
  (let n := parseNumber value in
   parseNutritionNumber (VNumber n) = (if isFinite n then n else zero)) /\
  (forall z, 0 <= z -> parseNutritionNumber (VNumber (ofZ z)) = ofZ z) /\
  (let n := parseNutritionNumber (VString (ch "1" :: repeat (ch "0") 400)) in
   n = NPosInf /\ parseNutritionNumber (VNumber n) = zero).
Proof.
  cbn zeta. split; [split|split; [|split]].
  - apply parse_again, parse_count.
  - change (parseNumber (VNumber (parseNutritionNumber value)))
      with (parseNutritionNumber (VNumber (parseNutritionNumber value))).
    apply parse_again, parse_count.
  - apply parse_again, parseNumber_count.
  - exact parse_fixed_point.
  - split; vm_compute; reflexivity.
Qed.

Lemma orElse_assoc (a b c : JsNumber) :
  orElse (orElse a b) c = orElse a (orElse b c).
Proof.
  unfold orElse. destruct (truthy a) eqn:Ha; [rewrite Ha; reflexivity|].
  reflexivity.
Qed.

Lemma orElseOpt_assoc (a b c : option JsNumber) :
  orElseOpt (orElseOpt a b) c = orElseOpt a (orElseOpt b c).
Proof.
  destruct a as [x|]; cbn [orElseOpt]; [|reflexivity].
  destruct (truthy x) eqn:Hx; [|reflexivity]. cbn [orElseOpt]. rewrite Hx.
  reflexivity.
Qed.

(** X14. [mergeNutrition] is associative and idempotent: merging
    three records gives the same record whichever two are merged first,
    and merging a record with itself gives it back. *)
Theorem mergeNutrition_assoc_idempotent (a b c : NormalizedNutrition) :
  mergeNutrition (mergeNutrition a b) c = mergeNutrition a (mergeNutrition b c) /\
  mergeNutrition a a = a.
Proof.
  split.
  - unfold mergeNutrition. cbn [calories protein carbs fat fiber].
    rewrite !orElse_assoc, orElseOpt_assoc. reflexivity.
  - destruct a as [ca pa cba fa fia]. unfold mergeNutrition, orElse, orElseOpt.
    cbn [calories protein carbs fat fiber].
    destruct (truthy ca), (truthy pa), (truthy cba), (truthy fa);
      destruct fia as [x|]; try destruct (truthy x); reflexivity.
Qed.

Lemma isZero_orElse (a b : JsNumber) :
  notNaN a -> isZero (orElse a b) = isZero a && isZero b.
Proof.
  unfold notNaN, orElse. destruct a as [q| | |]; cbn; try discriminate;
    try reflexivity.
  intros _. destruct (Qeq_bool q 0) eqn:Hq; cbn; [reflexivity|].
  rewrite Hq. reflexivity.
Qed.

(** X15. For a primary record whose four nutrients are not NaN, the
    merged record is empty exactly when both records are empty. *)
Theorem mergeNutrition_empty_iff (primary fallback : NormalizedNutrition) :
  notNaN (calories primary) -> notNaN (protein primary) ->
  notNaN (carbs primary) -> notNaN (fat primary) ->
  isNutritionEmpty (mergeNutrition primary fallback)
  = isNutritionEmpty primary && isNutritionEmpty fallback.
Proof.
  intros Hc Hp Hb Hf. unfold isNutritionEmpty, mergeNutrition.
  cbn [calories protein carbs fat].
  rewrite !isZero_orElse by assumption.
  destruct (isZero (calories primary)), (isZero (protein primary)),
    (isZero (carbs primary)), (isZero (fat primary)),
    (isZero (calories fallback)), (isZero (protein fallback)),
    (isZero (carbs fallback)), (isZero (fat fallback)); reflexivity.
Qed.

Lemma prop_insert_ne (raw : gmap string JsValue) (k key : string) (v : JsValue) :
  k <> key -> prop (<[k := v]> raw) key = prop raw key.
Proof. intros Hne. unfold prop. rewrite lookup_insert_ne by exact Hne. reflexivity. Qed.

Lemma prop_delete_ne (raw : gmap string JsValue) (k key : string) :
  k <> key -> prop (delete k raw) key = prop raw key.
Proof. intros Hne. unfold prop. rewrite lookup_delete_ne by exact Hne. reflexivity. Qed.

(** X16. [normalizeNutritionData] reads the twenty-one alias
    properties and nothing else: setting or deleting any other property
    of the raw object leaves the result as it is. *)
Theorem normalizeNutritionData_ignores_other_keys
    (raw : gmap string JsValue) (k : string) (v : JsValue) :
  ~ In k aliasKeys ->
  normalizeNutritionData (<[k := v]> raw) = normalizeNutritionData raw /\
  normalizeNutritionData (delete k raw) = normalizeNutritionData raw.
Proof.
  intros Hk.
  assert (Hne : forall key, In key aliasKeys -> k <> key).
  { intros key Hin ->. exact (Hk Hin). }
  unfold normalizeNutritionData. split.
  - rewrite !prop_insert_ne by (apply Hne; cbn; tauto). reflexivity.
  - rewrite !prop_delete_ne by (apply Hne; cbn; tauto). reflexivity.
Qed.

Lemma nullish_notString (a b : JsValue) :
  notString a -> notString b -> notString (a ?? b).
Proof. intros Ha Hb. destruct a; assumption. Qed.

Lemma prop_notString (raw : gmap string JsValue) (key : string) :
  (forall k str, raw !! k <> Some (VString str)) -> notString (prop raw key).
Proof.
  intros Hraw str Heq. unfold prop in Heq. apply (Hraw key str).
  destruct (raw !! key) as [v|]; [cbn in Heq; congruence | discriminate Heq].
Qed.

(** X17. Whatever the raw object, the five fields
    [normalizeNutritionData] returns are there, fiber among them, and
    each is a non-negative integer or [Infinity]; on an object that
    holds no string, as when the nutrients are JSON numbers, all five
    are non-negative integers; on an object without any alias, the empty
    object for one, all five are 0. *)
Theorem normalizeNutritionData_fields_range (raw : gmap string JsValue) :
  (let n := normalizeNutritionData raw in
   CountOrInfinity (calories n) /\ CountOrInfinity (protein n) /\
   CountOrInfinity (carbs n) /\ CountOrInfinity (fat n) /\
   exists fb, fiber n = Some fb /\ CountOrInfinity fb) /\
  ((forall key str, raw !! key <> Some (VString str)) ->
   exists c p cb f fb,
     0 <= c /\ 0 <= p /\ 0 <= cb /\ 0 <= f /\ 0 <= fb /\
     normalizeNutritionData raw
     = mkNutrition (ofZ c) (ofZ p) (ofZ cb) (ofZ f) (Some (ofZ fb))) /\
  ((forall key, In key aliasKeys -> raw !! key = None) ->
   normalizeNutritionData raw = mkNutrition zero zero zero zero (Some zero)) /\
  normalizeNutritionData ∅ = mkNutrition zero zero zero zero (Some zero).
Proof.
  split; [|split; [|split]].
  - cbn zeta. unfold normalizeNutritionData. cbn [calories protein carbs fat fiber].
    split; [apply parse_count|]. split; [apply parse_count|].
    split; [apply parse_count|]. split; [apply parse_count|].
    eexists. split; [reflexivity | apply parse_count].
  - intros Hraw. unfold normalizeNutritionData.
    repeat match goal with
    | |- context [parseNutritionNumber ?v] =>
      let z := fresh "z" in let Hz := fresh "Hz" in let Hv := fresh "Hv" in
      destruct (parse_not_string v) as (z & Hz & Hv);
        [repeat apply nullish_notString; apply prop_notString, Hraw|];
      rewrite Hv; clear Hv
    end.
    eexists _, _, _, _, _. repeat split; eassumption.
  - intros Hnone. unfold normalizeNutritionData, prop.
    rewrite !Hnone by (cbn; tauto). reflexivity.
  - reflexivity.
Qed.

(** ** Texts without a number *)

Lemma valueRe_HasDigit ic w caps caps' :
  Matches ic valueRe w caps caps' -> HasDigit w.
Proof.
  intros Hm. unfold valueRe, shortDecimalRe in Hm. cbn [rseq] in Hm.
  apply matches_seq in Hm as (w1 & w2 & c1 & -> & Hm & _).
  apply matches_seq in Hm as (ds & w3 & c2 & -> & Hds & _).
  apply matches_rep in Hds as (Hall & Hlen & _).
  apply HasDigit_app. left. apply HasDigit_app. left.
  apply Digits_HasDigit; [exact Hall|]. destruct ds; [cbn in Hlen; lia | discriminate].
Qed.

Lemma keyRe_HasDigit (key : string) w caps caps' :
  Matches true (keyRe key) w caps caps' -> HasDigit w.
Proof.
  intros Hm. unfold keyRe in Hm. cbn [rseq] in Hm.
  apply matches_seq in Hm as (w0 & w1 & c0 & -> & _ & Hm).
  apply matches_seq in Hm as (w2 & w3 & c1 & -> & _ & Hm).
  apply matches_seq in Hm as (w4 & w5 & c2 & -> & _ & Hm).
  apply matches_seq in Hm as (w6 & v & c3 & -> & _ & Hm).
  apply matches_group in Hm as (c4 & Hv & _).
  apply valueRe_HasDigit in Hv.
  repeat (apply HasDigit_app; right). exact Hv.
Qed.

Lemma unitRe_HasDigit (keys : list string) w caps caps' :
  Matches true (unitRe keys) w caps caps' -> HasDigit w.
Proof.
  intros Hm. unfold unitRe in Hm. cbn [rseq] in Hm.
  apply matches_seq in Hm as (v & w1 & c0 & -> & Hv & _).
  apply matches_group in Hv as (c1 & Hv & _).
  apply valueRe_HasDigit in Hv. apply HasDigit_app. left. exact Hv.
Qed.

Lemma Occurs_HasDigit (r : Regex) (text : JsString) :
  (forall w caps', Matches true r w [] caps' -> HasDigit w) ->
  Occurs true r text -> HasDigit text.
Proof.
  intros Hdigit (pre & w & post & caps' & -> & Hm).
  apply HasDigit_app. right. apply HasDigit_app. left. exact (Hdigit _ _ Hm).
Qed.

Lemma searchNumber_no_digit (text : JsString) (keys : list string) :
  ~ HasDigit text -> searchNumber text keys = None.
Proof.
  intros Hno.
  assert (Hkeys : searchKeys text keys = None).
  { apply searchKeys_none. intros key _ Hocc. apply Hno.
    apply (Occurs_HasDigit (keyRe key)); [|exact Hocc].
    intros w caps'. apply keyRe_HasDigit. }
  rewrite (searchNumber_unit _ _ Hkeys).
  destruct (stringMatch true (unitRe keys) text) as [m|] eqn:Hrun; [|reflexivity].
  exfalso. apply Hno. apply (Occurs_HasDigit (unitRe keys)).
  - intros w caps'. apply unitRe_HasDigit.
  - apply searchFrom_sound in Hrun as (pre & post & Hs & _ & Hm & _).
    exists pre, (matched m), post, (groups m). auto.
Qed.

(** X18. From a text without any digit [extractNutritionFromText]
    extracts nothing: calories, protein, carbs and fat are 0, and the
    record is empty for [isNutritionEmpty]. *)
Theorem extractNutritionFromText_without_digits (text : JsString) :
  ~ HasDigit text ->
  extractNutritionFromText text = mkNutrition zero zero zero zero None /\
  isNutritionEmpty (extractNutritionFromText text) = true.
Proof.
  intros Hno. unfold extractNutritionFromText. cbv zeta.
  rewrite !searchNumber_no_digit by exact Hno. split; reflexivity.
Qed.

(** ** The normalizer at concrete inputs *)

Lemma parseNumber_nonneg_or_infinity_witness :
  parseNumber (VString (js "n/a")) = zero.
Proof.
  destruct parseNumber_nonneg_or_infinity
    as (_ & _ & _ & _ & _ & _ & _ & _ & Hnodigit).
  apply Hnodigit. vm_compute. discriminate.
Defined.

Lemma parseNutritionNumber_idempotent_witness :
  parseNutritionNumber (VNumber (ofZ 250)) = ofZ 250.
Proof.
  destruct (parseNutritionNumber_idempotent (VString (js "200-300")))
    as (_ & _ & Hfix & _).
  apply Hfix. lia.
Defined.

Lemma mergeNutrition_empty_iff_witness :
  isNutritionEmpty
    (mergeNutrition (mkNutrition zero zero zero zero (Some zero))
                    (mkNutrition (ofZ 300) zero zero zero None))
  = isNutritionEmpty (mkNutrition zero zero zero zero (Some zero))
    && isNutritionEmpty (mkNutrition (ofZ 300) zero zero zero None).
Proof.
  apply (mergeNutrition_empty_iff
           (mkNutrition zero zero zero zero (Some zero))
           (mkNutrition (ofZ 300) zero zero zero None)); reflexivity.
Defined.

Lemma normalizeNutritionData_ignores_other_keys_witness :
  normalizeNutritionData
    (<["food_name"%string := VString (js "Nasi goreng")]>
       (<["kalori"%string := VString (js "200 kcal")]> ∅))
  = normalizeNutritionData (<["kalori"%string := VString (js "200 kcal")]> ∅).
Proof.
  destruct (normalizeNutritionData_ignores_other_keys
              (<["kalori"%string := VString (js "200 kcal")]> ∅)
              "food_name"%string (VString (js "Nasi goreng"))) as [Hset _].
  - cbn. intuition discriminate.
  - exact Hset.
Defined.

Lemma normalizeNutritionData_fields_range_witness :
  normalizeNutritionData (<["food_name"%string := VString (js "Nasi goreng")]> ∅)
  = mkNutrition zero zero zero zero (Some zero).
Proof.
  destruct (normalizeNutritionData_fields_range
              (<["food_name"%string := VString (js "Nasi goreng")]> ∅))
    as (_ & _ & Hnone & _).
  apply Hnone. intros key Hin. apply lookup_insert_None.
  split; [apply lookup_empty|].
  intros <-. cbn in Hin. intuition discriminate.
Defined.

Lemma extractNutritionFromText_without_digits_witness :
  isNutritionEmpty (extractNutritionFromText (js "No nutrition info here")) = true.
Proof.
  destruct (extractNutritionFromText_without_digits (js "No nutrition info here"))
    as [_ Hempty].
  - vm_compute. discriminate.
  - exact Hempty.
Defined.

(** * The metrics buffer and the tracked calls *)

Section MonitorFacts.
Import Retry PerformanceMonitor.
Context {E : ErrorModel} {B : BrowserModel}.

(** One call: the metric is appended, and the oldest one leaves when the
    buffer would grow beyond its maximal size. *)
Lemma recordMetric_buffer (name : string) (value : JsNumber)
    (unit : option string) (context : option (gmap string JsValue))
    (st : Monitor) :
  let pushed :=
    metricsBuffer st
    ++ [metric name value (default "ms"%string unit) context (browser st)] in
  metricsBuffer (recordMetric name value unit context st)
  = if (MAX_BUFFER_SIZE <? length pushed)%nat then tail pushed else pushed.
Proof.
  cbv zeta. unfold recordMetric. cbv zeta.
  destruct (MAX_BUFFER_SIZE <? _)%nat; reflexivity.
Qed.

Lemma recordMetric_newest (name : string) (value : JsNumber)
    (unit : option string) (context : option (gmap string JsValue))
    (st : Monitor) :
  last (metricsBuffer (recordMetric name value unit context st))
  = Some (metric name value (default "ms"%string unit) context (browser st)).
Proof.
  rewrite recordMetric_buffer. cbv zeta.
  destruct (MAX_BUFFER_SIZE <? _)%nat eqn:Hfull; [|apply last_snoc].
  destruct (metricsBuffer st) as [|m0 buffer]; [discriminate Hfull|].
  cbn [app tail]. apply last_snoc.
Qed.

(** X19. From a buffer of at most 50 metrics, after any sequence of
    [recordMetric] calls the buffer holds, oldest first, the 50 most
    recent of the metrics it held and the metrics recorded since, or all
    of them when they are fewer; so it never holds more than 50, and the
    metric recorded last is its last element. *)
Theorem recordMetric_keeps_newest (calls : list MetricCall) (st : Monitor) :
  (length (metricsBuffer st) <= MAX_BUFFER_SIZE)%nat ->
  let all := metricsBuffer st ++ recorded calls st in
  metricsBuffer (recordAll calls st) = drop (length all - MAX_BUFFER_SIZE) all /\
  (length (metricsBuffer (recordAll calls st)) <= MAX_BUFFER_SIZE)%nat /\
  (forall c calls', calls = calls' ++ [c] ->
     last (metricsBuffer (recordAll calls st))
     = Some (metric (callName c) (callValue c) (default "ms"%string (callUnit c))
               (callContext c) (browser (recordAll calls' st)))).
Proof.
  intros Hlen. cbv zeta.
  assert (Hwindow : forall calls st,
    (length (metricsBuffer st) <= MAX_BUFFER_SIZE)%nat ->
    metricsBuffer (recordAll calls st)
    = drop (length (metricsBuffer st ++ recorded calls st) - MAX_BUFFER_SIZE)
        (metricsBuffer st ++ recorded calls st)).
  { clear. induction calls as [|c calls IH]; intros st Hlen.
    - cbn [recordAll fold_left recorded]. rewrite app_nil_r.
      replace (length (metricsBuffer st) - MAX_BUFFER_SIZE)%nat with 0%nat by lia.
      reflexivity.
    - change (recordAll (c :: calls) st) with (recordAll calls (record st c)).
      cbn [recorded].
      set (m := metric (callName c) (callValue c) (default "ms"%string (callUnit c))
                  (callContext c) (browser st)).
      set (rest := recorded calls (record st c)).
      assert (Hbuf : metricsBuffer (record st c)
                     = if (MAX_BUFFER_SIZE <? length (metricsBuffer st ++ [m]))%nat
                       then tail (metricsBuffer st ++ [m])
                       else metricsBuffer st ++ [m])
        by apply recordMetric_buffer.
      rewrite length_app in Hbuf. cbn [length] in Hbuf.
      destruct (MAX_BUFFER_SIZE <? length (metricsBuffer st) + 1)%nat eqn:Hfull.
      + apply Nat.ltb_lt in Hfull.
        destruct (metricsBuffer st) as [|m0 buffer] eqn:Hold;
          [cbn [length] in Hfull; unfold MAX_BUFFER_SIZE in Hfull; lia|].
        cbn [app tail] in Hbuf. cbn [length] in Hfull, Hlen.
        rewrite IH by (rewrite Hbuf, length_app; cbn [length]; lia).
        fold rest. rewrite Hbuf.
        change ((m0 :: buffer) ++ m :: rest) with ([m0] ++ (buffer ++ m :: rest)).
        rewrite <- app_assoc. cbn [app].
        replace (length (m0 :: buffer ++ m :: rest) - MAX_BUFFER_SIZE)%nat
          with (S (length (buffer ++ m :: rest) - MAX_BUFFER_SIZE)).
        * reflexivity.
        * cbn [length]. rewrite length_app. cbn [length]. lia.
      + apply Nat.ltb_ge in Hfull.
        rewrite IH by (rewrite Hbuf, length_app; cbn [length]; lia).
        fold rest. rewrite Hbuf, <- app_assoc. reflexivity. }
  split; [exact (Hwindow calls st Hlen)|]. split.
  - rewrite (Hwindow calls st Hlen), length_drop. lia.
  - intros c calls' ->. unfold recordAll. rewrite fold_left_app.
    cbn [fold_left]. apply recordMetric_newest.
Qed.

(** The context of a recorded metric: [url] and [userAgent] come from
    the browser, every other property from the context passed in. *)
Lemma metric_context (name : string) (value : JsNumber) (unit : string)
    (context : option (gmap string JsValue)) (b : Browser) (k : string) :
  PerformanceMonitor.context (metric name value unit context b) !! k =
  if decide (k = "url"%string) then Some (VString (location_pathname b))
  else if decide (k = "userAgent"%string)
       then Some (VString (navigator_userAgent b))
       else default ∅ context !! k.
Proof.
  unfold metric. cbn [PerformanceMonitor.context].
  destruct (decide (k = "url"%string)) as [-> | Hurl].
  - apply lookup_insert_eq.
  - rewrite lookup_insert_ne by congruence.
    destruct (decide (k = "userAgent"%string)) as [-> | Hua].
    + apply lookup_insert_eq.
    + rewrite lookup_insert_ne by congruence. reflexivity.
Qed.

(** [default] at a value that is there. *)
Ltac default_some :=
  repeat match goal with
         | |- context [default ?x (Some ?y)] => change (default x (Some y)) with y
         end.

(** Lookup of a property written by the tracked calls. *)
Ltac lookup_written :=
  rewrite metric_context;
  repeat (rewrite decide_False by discriminate);
  try (rewrite decide_True by reflexivity);
  default_some;
  repeat (rewrite lookup_insert_ne by discriminate);
  try (rewrite lookup_insert_eq);
  reflexivity.

(** Lookup of a property that the tracked calls do not write. *)
Ltac lookup_passed Hk :=
  cbn [In] in Hk; rewrite metric_context;
  repeat (rewrite decide_False by (intros ->; tauto));
  default_some;
  repeat (rewrite lookup_insert_ne by (intros <-; tauto));
  reflexivity.



End MonitorFacts.

(** * The parser without ranges against the parser with ranges *)

Lemma app_split_le (a x p y : JsString) :
  a ++ x = p ++ y -> (length a <= length p)%nat ->
  exists k, p = a ++ k /\ x = k ++ y.
Proof.
  intros Heq Hlen. apply app_eq_inv in Heq as [(k & -> & ->) | (k & -> & ->)].
  - rewrite length_app in Hlen. destruct k; [|cbn in Hlen; lia].
    exists []. rewrite !app_nil_r. auto.
  - exists k. auto.
Qed.

Lemma Spaces_rev (w : JsString) : Spaces w -> Spaces (rev w).
Proof.
  unfold Spaces. induction w as [|c w IH]; [reflexivity|]. cbn [forallb rev].
  intros Hw. apply andb_prop in Hw as [Hc Hw].
  rewrite forallb_app, (IH Hw). cbn. rewrite Hc. reflexivity.
Qed.

Lemma dropSpaces_spaces (s : JsString) :
  exists pre, s = pre ++ dropSpaces s /\ Spaces pre.
Proof.
  induction s as [|c s (pre & IH & Hpre)]; [exists []; split; reflexivity|].
  cbn [dropSpaces]. destruct (is_space c) eqn:Hc.
  - exists (c :: pre). split; [cbn; f_equal; exact IH|].
    unfold Spaces. cbn. rewrite Hc. exact Hpre.
  - exists []. split; reflexivity.
Qed.

(** [trim] strips white space, and nothing else, at both ends. *)
Lemma trim_spaces (s : JsString) :
  exists a b, s = a ++ trim s ++ b /\ Spaces a /\ Spaces b.
Proof.
  unfold trim, trimEnd, trimStart.
  destruct (dropSpaces_spaces s) as (a & Ha & Hsa).
  destruct (dropSpaces_spaces (rev (dropSpaces s))) as (b & Hb & Hsb).
  exists a, (rev b). split; [|split; [exact Hsa | apply Spaces_rev, Hsb]].
  rewrite <- rev_app_distr, <- Hb, rev_involutive. exact Ha.
Qed.

(** A number starts and ends with a code unit that is not white space. *)
Lemma SignedNumber_head (w : JsString) :
  SignedNumber w -> exists c w0, w = c :: w0 /\ is_space c = false.
Proof.
  intros Hw. apply SignedNumber_parts in Hw as (sign & body & -> & Hsign & Hbody).
  destruct Hsign as [-> | [-> | ->]].
  - destruct (UnsignedNumber_head _ Hbody) as (c & w0 & -> & Hc).
    exists c, w0. split; [reflexivity|].
    destruct (is_space c) eqn:Hs; [|reflexivity].
    apply space_not_unit in Hs. congruence.
  - eexists _, _. split; reflexivity.
  - eexists _, _. split; reflexivity.
Qed.

Lemma SignedNumber_last (w : JsString) :
  SignedNumber w -> exists w0 c, w = w0 ++ [c] /\ is_space c = false.
Proof.
  intros (sign & ip & point & fp & -> & _ & _ & _ & Hfp & Hne).
  destruct (Digits_last _ Hfp Hne) as (f0 & c & -> & Hc).
  exists (sign ++ ip ++ point ++ f0), c. rewrite <- !app_assoc.
  split; [reflexivity | apply digit_not_space, Hc].
Qed.

(** The numbers of a string padded with white space are the numbers of
    the string. *)
Lemma NumberAt_padded (a t b pre w : JsString) :
  Spaces a -> Spaces b ->
  NumberAt (a ++ t ++ b) pre w <-> exists pre', pre = a ++ pre' /\ NumberAt t pre' w.
Proof.
  intros Ha Hb. split.
  - intros (post & Hs & Hw).
    destruct (SignedNumber_head _ Hw) as (c & w0 & Hhead & Hc).
    destruct (SignedNumber_last _ Hw) as (w1 & d & Hlast & Hd).
    assert (Hlen : (length a <= length pre)%nat).
    { apply (prefix_run is_space a pre (t ++ b) (w ++ post)); [exact Hs | exact Ha|].
      rewrite Hhead. cbn. exact Hc. }
    destruct (app_split_le _ _ _ _ Hs Hlen) as (pre' & -> & Ht).
    exists pre'. split; [reflexivity|].
    assert (Hrev : rev b ++ rev t = rev post ++ rev (pre' ++ w)).
    { rewrite <- !rev_app_distr. f_equal. rewrite Ht, <- app_assoc. reflexivity. }
    assert (Hlen' : (length (rev b) <= length (rev post))%nat).
    { apply (prefix_run is_space (rev b) (rev post) (rev t) (rev (pre' ++ w)));
        [exact Hrev | apply Spaces_rev, Hb|].
      rewrite Hlast, app_assoc, rev_app_distr. cbn. exact Hd. }
    destruct (app_split_le _ _ _ _ Hrev Hlen') as (k & Hpost & Hk).
    exists (rev k). split; [|exact Hw].
    apply (f_equal (@rev CodeUnit)) in Hk.
    rewrite rev_involutive, rev_app_distr, rev_involutive in Hk.
    rewrite Hk, <- app_assoc. reflexivity.
  - intros (pre' & -> & post & -> & Hw). exists (post ++ b).
    split; [|exact Hw]. rewrite <- !app_assoc. reflexivity.
Qed.

(** The fallback branch does not see white space around the string. *)
Lemma firstNumber_padded (a t b : JsString) :
  Spaces a -> Spaces b -> firstNumber (a ++ t ++ b) = firstNumber t.
Proof.
  intros Ha Hb.
  destruct (stringMatch false numberRe (a ++ t ++ b)) as [m|] eqn:Hrun.
  - destruct (firstNumber_some _ _ Hrun)
      as (pre & w & x & Hat & Hleft & Hlong & Hx & ->).
    destruct (proj1 (NumberAt_padded a t b pre w Ha Hb) Hat) as (pre' & -> & Hat').
    destruct (stringMatch false numberRe t) as [m'|] eqn:Hrun'.
    + destruct (firstNumber_some _ _ Hrun')
        as (p2 & w2 & x2 & Hat2 & Hleft2 & Hlong2 & Hx2 & ->).
      assert (Hat2s : NumberAt (a ++ t ++ b) (a ++ p2) w2).
      { apply NumberAt_padded; [exact Ha | exact Hb|]. exists p2. auto. }
      pose proof (Hleft _ _ Hat2s) as H1. pose proof (Hleft2 _ _ Hat') as H2.
      rewrite !length_app in H1.
      destruct Hat' as (post' & Ht & Hw). destruct Hat2 as (post2 & Ht2 & Hw2).
      assert (Hpre : p2 = pre' /\ w2 ++ post2 = w ++ post').
      { apply app_inj_1; [lia | congruence]. }
      destruct Hpre as [-> Hrest].
      assert (H3 : (length w2 <= length w)%nat) by (apply Hlong; exact Hat2s).
      assert (H4 : (length w <= length w2)%nat).
      { apply Hlong2. exists post'. auto. }
      assert (Hww : w2 = w /\ post2 = post') by (apply app_inj_1; [lia | exact Hrest]).
      destruct Hww as [-> _]. rewrite Hx in Hx2. injection Hx2 as ->. reflexivity.
    + exfalso. destruct (firstNumber_none _ Hrun') as [Hno _]. apply Hno.
      destruct Hat' as (post' & -> & Hw).
      apply HasDigit_app. right. apply HasDigit_app. left.
      apply SignedNumber_HasDigit, Hw.
  - destruct (firstNumber_none _ Hrun) as [Hno ->].
    destruct (stringMatch false numberRe t) as [m'|] eqn:Hrun'.
    + exfalso. apply Hno.
      destruct (firstNumber_some _ _ Hrun') as (p2 & w2 & x2 & (post2 & -> & Hw2) & _).
      apply HasDigit_app. right. apply HasDigit_app. left.
      apply HasDigit_app. right. apply HasDigit_app. left.
      apply SignedNumber_HasDigit, Hw2.
    + destruct (firstNumber_none _ Hrun') as [_ ->]. reflexivity.
Qed.

Lemma firstNumber_trim (s : JsString) : firstNumber (trim s) = firstNumber s.
Proof.
  destruct (trim_spaces s) as (a & b & Hs & Ha & Hb).
  rewrite Hs at 2. symmetry. apply firstNumber_padded; assumption.
Qed.

Lemma HasRange_trim (s : JsString) : HasRange (trim s) -> HasRange s.
Proof.
  intros (pre & A & B & ws1 & sep & ws2 & post & Ht & Hrest).
  destruct (trim_infix s) as (a & b & Hs).
  exists (a ++ pre), A, B, ws1, sep, ws2, (post ++ b).
  split; [|exact Hrest]. rewrite Hs at 1. rewrite Ht, <- !app_assoc. reflexivity.
Qed.

(** X22. [parseNumber] agrees with [parseNutritionNumber] on every
    value that is not a string and on every string that, commas turned
    into periods, contains no range; on a range the two differ: "200-300"
    is 200 for [parseNumber] and 250 for [parseNutritionNumber]. *)
Theorem parseNumber_agrees_without_range :
  (forall value, (forall str, value <> VString str) ->
     parseNumber value = parseNutritionNumber value) /\
  (forall str, ~ HasRange (replaceAll (ch ",") (ch ".") str) ->
     parseNumber (VString str) = parseNutritionNumber (VString str)) /\
  parseNumber (VString (js "200-300")) = ofZ 200 /\
  parseNutritionNumber (VString (js "200-300")) = ofZ 250.
Proof.
  split; [|split; [|split; vm_compute; reflexivity]].
  - intros [| |b|n|str|] Hnot; try reflexivity. exfalso. exact (Hnot str eq_refl).
  - intros str Hno. rewrite parse_string. cbn [parseNumber].
    unfold normalizeString.
    destruct (stringMatch true rangeRe (trim (replaceAll (ch ",") (ch ".") str)))
      as [m|] eqn:Hrun.
    + exfalso. apply Hno, HasRange_trim.
      destruct (rangeMidpoint_some _ _ Hrun) as (pre & A & B & a & b & Hat & _).
      exists pre, A, B. exact Hat.
    + destruct (rangeMidpoint_none _ Hrun) as [_ ->].
      symmetry. apply firstNumber_trim.
Qed.

Lemma parseNumber_agrees_without_range_witness :
  parseNumber (VString (js " 100 kcal ")) =
  parseNutritionNumber (VString (js " 100 kcal ")).
Proof.
  destruct parseNumber_agrees_without_range as (_ & Hsame & _).
  apply Hsame. intros (pre & A & B & ws1 & sep & ws2 & post & Hs & _ & _ & Hsep & _).
  assert (Hin : forall c, In c sep -> In c (js " 100 kcal ")).
  { intros c Hc. change (replaceAll (ch ",") (ch ".") (js " 100 kcal "))
      with (js " 100 kcal ") in Hs. rewrite Hs.
    apply in_or_app. right. apply in_or_app. right. apply in_or_app. right.
    apply in_or_app. left. exact Hc. }
  destruct Hsep as [-> | [-> | [-> | (t & o & Ht & _ & ->)]]].
  - specialize (Hin _ (or_introl eq_refl)). vm_compute in Hin. intuition discriminate.
  - specialize (Hin _ (or_introl eq_refl)). vm_compute in Hin. intuition discriminate.
  - specialize (Hin _ (or_introl eq_refl)). vm_compute in Hin. intuition discriminate.
  - specialize (Hin _ (or_introl eq_refl)).
    destruct Ht as [-> | ->]; vm_compute in Hin; intuition discriminate.
Defined.

(** * The values extracted from a text are bounded *)

Lemma matches_class ic cl w caps caps' :
  Matches ic (RClass cl) w caps caps' ->
  exists x, w = [x] /\ class_mem cl x = true /\ caps' = caps.
Proof. inversion 1; subst; eauto. Qed.

Lemma shortDecimalRe_ShortDecimal ic w caps caps' :
  Matches ic shortDecimalRe w caps caps' -> ShortDecimal w.
Proof.
  unfold shortDecimalRe. cbn [rseq]. intros Hm.
  apply matches_seq in Hm as (ip & w2 & c1 & -> & Hip & Hopt).
  apply matches_rep in Hip as (Hdig & Hlo & Hhi & _).
  exists ip. split; [exact Hdig|].
  split; [split; [exact Hlo | apply (Hhi 4%nat); reflexivity]|].
  apply matches_opt in Hopt as [[-> _] | [_ Hfrac]].
  - left. apply app_nil_r.
  - right. apply matches_seq in Hfrac as (p & fp & c2 & -> & Hp & Hfp).
    apply matches_class in Hp as (x & -> & Hx & _).
    apply matches_rep in Hfp as (Hfd & Hfl & _).
    exists x, fp. cbn [class_mem existsb] in Hx. rewrite orb_false_r in Hx.
    apply orb_prop in Hx. rewrite !N.eqb_eq in Hx.
    split; [exact Hx|]. split; [exact Hfd|].
    split; [destruct fp; [cbn in Hfl; lia | discriminate] | reflexivity].
Qed.

Lemma valueRe_ValueWord w caps caps' :
  Matches true valueRe w caps caps' -> ValueWord w.
Proof.
  unfold valueRe. cbn [rseq]. intros Hm.
  apply matches_seq in Hm as (A & w2 & c1 & -> & HA & Hopt).
  apply shortDecimalRe_ShortDecimal in HA.
  apply matches_opt in Hopt as [[-> _] | [_ Hrange]].
  - left. rewrite app_nil_r. exact HA.
  - right.
    apply matches_seq in Hrange as (ws1 & w3 & c2 & -> & Hws1 & Hrange).
    apply spaces_star in Hws1 as [Hws1 _].
    apply matches_seq in Hrange as (sep & w4 & c3 & -> & Hsep & Hrange).
    apply separatorRe_Separator in Hsep as [Hsep _].
    apply matches_seq in Hrange as (ws2 & B & c4 & -> & Hws2 & HB).
    apply spaces_star in Hws2 as [Hws2 _].
    apply shortDecimalRe_ShortDecimal in HB.
    exists A, ws1, sep, ws2, B. repeat split; assumption.
Qed.

(** The value of at most four integer digits and a fraction is below
    10000. *)
Lemma digitsValue_bound (l : JsString) :
  Digits l -> forall acc,
    (digitsValue acc l < (acc + 1) * Npos (pow10 (length l)))%N.
Proof.
  unfold Digits. induction l as [|c l IH]; intros Hl acc.
  - cbn. lia.
  - cbn [forallb] in Hl. apply andb_prop in Hl as [Hc Hl].
    apply digit_range in Hc. cbn [digitsValue length pow10].
    specialize (IH Hl (acc * 10 + (c - 48))%N).
    change (N.pos (10 * pow10 (length l)))
      with (10 * N.pos (pow10 (length l)))%N.
    nia.
Qed.

Lemma pow10_le_4 (n : nat) : (n <= 4)%nat -> (pow10 n <= 10000)%positive.
Proof.
  intros Hn. do 5 (destruct n as [|n]; [cbn; lia|]). lia.
Qed.

Lemma pow10_app (a b : JsString) :
  pow10 (length (a ++ b)) = (pow10 (length a) * pow10 (length b))%positive.
Proof.
  induction a as [|c a IH]; [cbn; lia|]. cbn [app length pow10]. rewrite IH. lia.
Qed.

Lemma decimalValue_short (ip fp : JsString) :
  Digits ip -> Digits fp -> (length ip <= 4)%nat ->
  (decimalValue ip fp < 10000)%Q.
Proof.
  intros Hip Hfp Hlen. unfold decimalValue, Qlt. cbn [Qnum Qden].
  pose proof (digitsValue_bound (ip ++ fp) (Digits_app _ _ Hip Hfp) 0%N) as Hb.
  rewrite pow10_app in Hb. pose proof (pow10_le_4 _ Hlen) as H4.
  nia.
Qed.

(** Commas into periods, on the parts of a value. *)
Lemma replaceAll_app (x y : CodeUnit) (a b : JsString) :
  replaceAll x y (a ++ b) = replaceAll x y a ++ replaceAll x y b.
Proof. unfold replaceAll. apply map_app. Qed.

Lemma replaceAll_Digits (w : JsString) :
  Digits w -> replaceAll (ch ",") (ch ".") w = w.
Proof. intros Hw. apply replaceAll_units, Digits_units, Hw. Qed.

Lemma replaceAll_Spaces (w : JsString) :
  Spaces w -> replaceAll (ch ",") (ch ".") w = w.
Proof.
  unfold Spaces, replaceAll. induction w as [|c w IH]; [reflexivity|].
  cbn [forallb map]. intros Hall. apply andb_prop in Hall as [Hc Hw].
  rewrite (IH Hw). f_equal.
  destruct (N.eqb_spec c (ch ",")) as [-> | _]; [discriminate Hc | reflexivity].
Qed.

Lemma replaceAll_Separator (sep : JsString) :
  Separator sep -> replaceAll (ch ",") (ch ".") sep = sep.
Proof.
  intros [-> | [-> | [-> | (t & o & Ht & Ho & ->)]]]; try reflexivity.
  destruct Ht as [-> | ->], Ho as [-> | ->]; reflexivity.
Qed.

(** A short decimal, commas turned into periods, is a decimal below
    10000. *)
Lemma ShortDecimal_value (w : JsString) :
  ShortDecimal w ->
  Decimal (replaceAll (ch ",") (ch ".") w) /\
  exists q, literalValue (replaceAll (ch ",") (ch ".") w) = NFinite q /\
            (0 <= q)%Q /\ (q < 10000)%Q.
Proof.
  intros (ip & Hip & [Hlo Hhi] & Hw).
  assert (Hne : ip <> []) by (destruct ip; [cbn in Hlo; lia | discriminate]).
  destruct Hw as [-> | (p & fp & Hp & Hfp & Hfne & ->)].
  - rewrite (replaceAll_Digits _ Hip). split.
    + exists ip. auto.
    + exists (decimalValue ip []).
      split; [apply Number_unsigned, unsignedDecimal_integer; assumption|].
      split; [apply decimalValue_nonneg|].
      apply decimalValue_short; [exact Hip | reflexivity | exact Hhi].
  - assert (Hnorm : replaceAll (ch ",") (ch ".") (ip ++ p :: fp)
                    = ip ++ ch "." :: fp).
    { rewrite replaceAll_app, (replaceAll_Digits _ Hip).
      change (p :: fp) with ([p] ++ fp).
      rewrite replaceAll_app, (replaceAll_Digits _ Hfp).
      destruct Hp as [-> | ->]; reflexivity. }
    rewrite Hnorm. split.
    + exists ip. split; [exact Hip|]. split; [exact Hne|]. right. exists fp. auto.
    + exists (decimalValue ip fp).
      split; [apply Number_unsigned, unsignedDecimal_fraction; assumption|].
      split; [apply decimalValue_nonneg|].
      apply decimalValue_short; assumption.
Qed.

(** [trim] leaves a string without white space at its ends as it is. *)
Lemma dropSpaces_noop (s : JsString) : endsRun is_space s -> dropSpaces s = s.
Proof. destruct s as [|c s]; [reflexivity|]. cbn. intros ->. reflexivity. Qed.

Lemma trim_noop (s : JsString) :
  endsRun is_space s -> endsRun is_space (rev s) -> trim s = s.
Proof.
  intros Hhead Hlast. unfold trim, trimEnd, trimStart.
  rewrite (dropSpaces_noop _ Hhead), (dropSpaces_noop _ Hlast).
  apply rev_involutive.
Qed.

Lemma Decimal_ends (d rest : JsString) :
  Decimal d -> endsRun is_space (d ++ rest) /\ endsRun is_space (rev (rest ++ d)).
Proof.
  intros Hd. destruct (Decimal_head _ Hd) as (c & d' & -> & Hc).
  destruct (Decimal_last _ Hd) as (d0 & c' & Heq & Hc').
  split; [cbn; apply digit_not_space, Hc|].
  rewrite Heq, app_assoc, rev_app_distr. cbn. apply digit_not_space, Hc'.
Qed.

Lemma Decimal_SignedNumber (d : JsString) : Decimal d -> SignedNumber d.
Proof.
  intros (ip & Hip & Hne & [-> | (fp & Hfp & Hfne & ->)]).
  - exists [], [], [], ip. repeat split; auto.
  - exists [], ip, [ch "."], fp. repeat split; auto.
Qed.

(** A string that is a number is the number the fallback branch finds. *)
Lemma firstNumber_whole (w : JsString) (x : Q) :
  SignedNumber w -> literalValue w = NFinite x -> firstNumber w = clamp64 x.
Proof.
  intros Hw Hx.
  destruct (stringMatch false numberRe w) as [m|] eqn:Hrun.
  - destruct (firstNumber_some _ _ Hrun)
      as (pre & w' & x' & (post & Hs & Hw') & Hleft & Hlong & Hx' & ->).
    assert (Hat : NumberAt w [] w) by (exists []; rewrite app_nil_r; auto).
    pose proof (Hleft _ _ Hat) as Hpre.
    destruct pre as [|c pre]; [|cbn in Hpre; lia].
    pose proof (Hlong _ Hat) as Hlen. cbn [app] in Hs.
    assert (Hsum : length w = (length w' + length post)%nat)
      by (rewrite Hs at 1; apply length_app).
    destruct post as [|c post]; [|cbn in Hsum; lia].
    rewrite app_nil_r in Hs. subst w'. congruence.
  - exfalso. destruct (firstNumber_none _ Hrun) as [Hno _].
    apply Hno, SignedNumber_HasDigit, Hw.
Qed.

Lemma Decimal_no_range (d : JsString) : Decimal d -> rangeMidpoint d = None.
Proof.
  intros Hd. destruct (stringMatch true rangeRe d) as [m|] eqn:Hrun;
    [|apply (rangeMidpoint_none _ Hrun)].
  exfalso.
  destruct (rangeMidpoint_some _ _ Hrun)
    as (pre & A & B & a & b & (ws1 & sep & ws2 & post & Hs & _ & _ & Hsep & _) & _).
  pose proof (Decimal_units _ Hd) as Hu. rewrite Hs in Hu.
  destruct (Separator_head _ Hsep) as (x & rest & -> & Hx).
  rewrite !forallb_app in Hu. cbn [forallb] in Hu. rewrite Hx in Hu.
  repeat (apply andb_prop in Hu as [? Hu]). discriminate.
Qed.

(** A string that is a range is the range the range branch finds. *)
Lemma rangeMidpoint_whole (A ws1 sep ws2 B : JsString) (a b : Q) :
  Decimal A -> Spaces ws1 -> Separator sep -> Spaces ws2 -> Decimal B ->
  literalValue A = NFinite a -> literalValue B = NFinite b ->
  rangeMidpoint (A ++ ws1 ++ sep ++ ws2 ++ B) = Some (midpoint64 a b).
Proof.
  intros HA Hws1 Hsep Hws2 HB Ha Hb.
  set (s := A ++ ws1 ++ sep ++ ws2 ++ B).
  assert (Hat : RangeAt s [] A B).
  { exists ws1, sep, ws2, []. rewrite app_nil_r. repeat split; assumption. }
  destruct (stringMatch true rangeRe s) as [m|] eqn:Hrun.
  - destruct (rangeMidpoint_some _ _ Hrun)
      as (pre & A' & B' & a' & b' & Hat' & Hleft & Huniq & Ha' & Hb' & ->).
    pose proof (Hleft _ _ _ Hat) as Hpre.
    destruct pre as [|c pre]; [|cbn in Hpre; lia].
    destruct (Huniq _ _ Hat) as [-> Hlen].
    destruct Hat' as (ws1' & sep' & ws2' & post' & Hs' & _ & Hws1' & Hsep' & Hws2' & HB').
    unfold s in Hs'. cbn [app] in Hs'. apply app_inv_head in Hs'.
    destruct (Separator_head_space _ Hsep) as (y & sy & Hy & Hys).
    destruct (Separator_head_space _ Hsep') as (y' & sy' & Hy' & Hys').
    destruct (Decimal_head _ HB) as (cb & B0 & HcB & Hcb).
    destruct (Decimal_head _ HB') as (cb' & B0' & HcB' & Hcb').
    destruct (run_unique is_space _ _ _ _ Hs' Hws1 Hws1') as [<- Hs2].
    { rewrite Hy. exact Hys. }
    { rewrite Hy'. exact Hys'. }
    destruct (Separator_unique _ _ _ _ Hsep Hsep' Hs2) as [<- Hs3].
    destruct (run_unique is_space _ _ _ _ Hs3 Hws2 Hws2') as [<- Hs4].
    { rewrite HcB. cbn. apply digit_not_space, Hcb. }
    { rewrite HcB'. cbn. apply digit_not_space, Hcb'. }
    assert (Hsum : length B = (length B' + length post')%nat)
      by (rewrite Hs4; apply length_app).
    destruct post' as [|c post']; [|cbn in Hsum; lia].
    rewrite app_nil_r in Hs4. subst B'. congruence.
  - exfalso. destruct (rangeMidpoint_none _ Hrun) as [Hno _].
    apply Hno. exists [], A, B. exact Hat.
Qed.

Lemma clampRound_below (q : Q) (n : Z) :
  (0 <= q)%Q -> (q < inject_Z n)%Q ->
  exists z, 0 <= z <= n /\ clampRound q = ofZ z.
Proof.
  intros H0 Hn. exists (Z.max 0 (Qfloor (q + (1 # 2)))). split; [|reflexivity].
  pose proof (Qfloor_le (q + (1 # 2))) as Hle.
  assert (Hlt : (inject_Z (Qfloor (q + (1 # 2))) < inject_Z (n + 1))%Q).
  { rewrite inject_Z_plus. change (inject_Z 1) with 1%Q. lra. }
  rewrite <- Zlt_Qlt in Hlt.
  assert (0 <= n).
  { assert (Hpos : (inject_Z 0 < inject_Z (n + 1))%Q).
    { rewrite inject_Z_plus. change (inject_Z 1) with 1%Q.
      change (inject_Z 0) with 0%Q. lra. }
    rewrite <- Zlt_Qlt in Hpos. lia. }
  lia.
Qed.

(** What the value group captures parses to an integer from 0 to 10000. *)
Lemma parse_ValueWord (w : JsString) :
  ValueWord w ->
  exists z, 0 <= z <= 10000 /\ parseNutritionNumber (VString w) = ofZ z.
Proof.
  intros Hw. rewrite parse_string. unfold normalizeString.
  destruct Hw as [Hw | (A & ws1 & sep & ws2 & B & -> & HA & Hws1 & Hsep & Hws2 & HB)].
  - destruct (ShortDecimal_value _ Hw) as (Hd & q & Hq & Hq0 & Hq1).
    destruct (Decimal_ends _ [] Hd) as [Hhead Hlast].
    rewrite app_nil_r in Hhead. cbn [app] in Hlast.
    rewrite (trim_noop _ Hhead Hlast), (Decimal_no_range _ Hd).
    rewrite (firstNumber_whole _ q (Decimal_SignedNumber _ Hd) Hq).
    apply clamp64_le; [lia | exact Hq0|].
    change (inject_Z 10000) with 10000%Q. lra.
  - destruct (ShortDecimal_value _ HA) as (HdA & a & Ha & Ha0 & Ha1).
    destruct (ShortDecimal_value _ HB) as (HdB & b & Hb & Hb0 & Hb1).
    rewrite !replaceAll_app, (replaceAll_Spaces _ Hws1), (replaceAll_Spaces _ Hws2),
      (replaceAll_Separator _ Hsep).
    set (A' := replaceAll (ch ",") (ch ".") A) in *.
    set (B' := replaceAll (ch ",") (ch ".") B) in *.
    destruct (Decimal_ends A' (ws1 ++ sep ++ ws2 ++ B') HdA) as [Hhead _].
    destruct (Decimal_ends B' (A' ++ ws1 ++ sep ++ ws2) HdB) as [_ Hlast].
    rewrite <- !app_assoc in Hlast.
    rewrite (trim_noop _ Hhead Hlast).
    rewrite (rangeMidpoint_whole A' ws1 sep ws2 B' a b) by assumption.
    apply midpoint64_le; try assumption; try lia;
      change (inject_Z 10000) with 10000%Q; lra.
Qed.

(** A match of a keyword pattern or of the unit pattern captures such a
    value in group 1. *)
Lemma keyRe_value (key : string) (w : JsString) (caps : Captures) :
  Matches true (keyRe key) w [] caps ->
  exists v, getCapture 1 caps = Some v /\ ValueWord v.
Proof.
  intros Hm. unfold keyRe in Hm. cbn [rseq] in Hm.
  apply matches_seq in Hm as (w0 & w1 & c0 & _ & _ & Hm).
  apply matches_seq in Hm as (w2 & w3 & c1 & _ & _ & Hm).
  apply matches_seq in Hm as (w4 & w5 & c2 & _ & _ & Hm).
  apply matches_seq in Hm as (w6 & v & c3 & _ & _ & Hm).
  apply matches_group in Hm as (c4 & Hv & ->).
  exists v. split; [reflexivity | exact (valueRe_ValueWord _ _ _ Hv)].
Qed.

Lemma unitRe_value (keys : list string) (w : JsString) (caps : Captures) :
  Matches true (unitRe keys) w [] caps ->
  exists v, getCapture 1 caps = Some v /\ ValueWord v.
Proof.
  intros Hm. unfold unitRe in Hm. cbn [rseq] in Hm.
  apply matches_seq in Hm as (v & w1 & c0 & _ & Hv & Hm).
  apply matches_group in Hv as (c1 & Hv & ->).
  apply matches_seq in Hm as (w2 & w3 & c2 & _ & Hs & Hm).
  apply groupFree_captures in Hs; [|reflexivity].
  apply groupFree_captures in Hm; [|apply keywords_groupFree].
  subst. exists v. split; [reflexivity | exact (valueRe_ValueWord _ _ _ Hv)].
Qed.

Lemma capture_bounded (r : Regex) (text : JsString) (m : MatchResult) :
  (forall w caps, Matches true r w [] caps ->
     exists v, getCapture 1 caps = Some v /\ ValueWord v) ->
  stringMatch true r text = Some m ->
  exists z, 0 <= z <= 10000 /\
            parseNutritionNumber (VString (capture 1 m)) = ofZ z.
Proof.
  intros Hvalue Hrun.
  apply searchFrom_sound in Hrun as (pre & post & _ & _ & Hm & _).
  destruct (Hvalue _ _ Hm) as (v & Hcap & Hv).
  unfold capture. rewrite Hcap. apply parse_ValueWord, Hv.
Qed.

Lemma searchNumber_bounded (text : JsString) (keys : list string) :
  exists z, 0 <= z <= 10000 /\ default zero (searchNumber text keys) = ofZ z.
Proof.
  destruct (searchKeys text keys) as [v|] eqn:Hkeys.
  - unfold searchNumber. rewrite Hkeys.
    destruct (searchKeys_some _ _ _ Hkeys) as (key & m & _ & Hrun & ->).
    exact (capture_bounded _ _ _ (keyRe_value key) Hrun).
  - rewrite (searchNumber_unit _ _ Hkeys).
    destruct (stringMatch true (unitRe keys) text) as [m|] eqn:Hrun.
    + exact (capture_bounded _ _ _ (unitRe_value keys) Hrun).
    + exists 0. split; [lia | reflexivity].
Qed.

(** What [extractNutritionFromText] does: it searches the four nutrients
    calories, protein, carbs and fat; for each, the value after the first
    keyword alias that is followed by a number, else the value before a
    keyword alias, else nothing; a nutrient without a match is 0, a
    nutrient with a match is a non-negative integer.  No fiber field is
    returned. *)
Theorem extractNutritionFromText_four_nutrients (text : JsString) :
  let n := extractNutritionFromText text in
  fiber n = None /\
  calories n = default zero (searchNumber text caloriesKeys) /\
  protein n = default zero (searchNumber text proteinKeys) /\
  carbs n = default zero (searchNumber text carbsKeys) /\
  fat n = default zero (searchNumber text fatKeys) /\
  (forall keys,
     (forall v, searchKeys text keys = Some v ->
        searchNumber text keys = Some v /\
        exists key m,
          In key keys /\ stringMatch true (keyRe key) text = Some m /\
          v = parseNutritionNumber (VString (capture 1 m))) /\
     ((exists key, In key keys /\ Occurs true (keyRe key) text) ->
      exists v, searchKeys text keys = Some v) /\
     ((forall key, In key keys -> ~ Occurs true (keyRe key) text) ->
      Occurs true (unitRe keys) text ->
      exists m, stringMatch true (unitRe keys) text = Some m /\
                searchNumber text keys
                = Some (parseNutritionNumber (VString (capture 1 m)))) /\
     ((forall key, In key keys -> ~ Occurs true (keyRe key) text) ->
      ~ Occurs true (unitRe keys) text ->
      searchNumber text keys = None /\
      default zero (searchNumber text keys) = zero) /\
     (exists z, 0 <= z /\ default zero (searchNumber text keys) = ofZ z)) /\
  extractNutritionFromText
    (js "Calories: 200, Protein: 20g, Carbs: 30g, Fat: 10g")
  = mkNutrition (ofZ 200) (ofZ 20) (ofZ 30) (ofZ 10) None /\
  extractNutritionFromText
    (js "Kalori: 200, Protein: 20g, Karbohidrat: 30g, Lemak: 10g")
  = mkNutrition (ofZ 200) (ofZ 20) (ofZ 30) (ofZ 10) None.
Proof.
  cbn zeta. repeat (split; [reflexivity|]).
  split; [|split; vm_compute; reflexivity].
  intros keys. split; [|split; [|split; [|split]]].
  - intros v Hv. split; [unfold searchNumber; rewrite Hv; reflexivity|].
    exact (searchKeys_some _ _ _ Hv).
  - intros (key & Hin & Hocc).
    destruct (searchKeys text keys) as [v|] eqn:Hkeys; [eauto|].
    exfalso. exact (proj1 (searchKeys_none text keys) Hkeys key Hin Hocc).
  - intros Hno Hocc. apply searchKeys_none in Hno.
    rewrite (searchNumber_unit _ _ Hno).
    destruct (stringMatch true (unitRe keys) text) as [m|] eqn:Hrun.
    + exists m. split; reflexivity.
    + exfalso. exact (searchFrom_none _ _ _ _ Hrun Hocc).
  - intros Hno Hnounit. apply searchKeys_none in Hno.
    rewrite (searchNumber_unit _ _ Hno).
    destruct (stringMatch true (unitRe keys) text) as [m|] eqn:Hrun;
      [|split; reflexivity].
    exfalso. apply Hnounit.
    apply searchFrom_sound in Hrun as (pre & post & Hs & _ & Hm & _).
    exists pre, (matched m), post, (groups m). auto.
  - destruct (searchNumber_bounded text keys) as (z & Hz & Hv).
    exists z. split; [lia | exact Hv].
Qed.

Lemma extractNutritionFromText_four_nutrients_witness :
  searchNumber (js "Calories: 200") caloriesKeys = Some (ofZ 200).
Proof.
  destruct (extractNutritionFromText_four_nutrients (js "Calories: 200"))
    as (_ & _ & _ & _ & _ & Hkeys & _).
  destruct (Hkeys caloriesKeys) as (Hfirst & _).
  destruct (Hfirst (ofZ 200)) as [Hnum _]; [vm_compute; reflexivity|].
  exact Hnum.
Defined.

(** X23. Whatever the text, the four nutrients
    [extractNutritionFromText] returns are integers from 0 to 10000: the
    patterns read at most four integer digits of a number, so of
    "Calories: 12345" the value 1234 is extracted. *)
Theorem extractNutritionFromText_fields_bounded (text : JsString) :
  (exists c p cb f,
     0 <= c <= 10000 /\ 0 <= p <= 10000 /\ 0 <= cb <= 10000 /\ 0 <= f <= 10000 /\
     extractNutritionFromText text
     = mkNutrition (ofZ c) (ofZ p) (ofZ cb) (ofZ f) None) /\
  extractNutritionFromText (js "Calories: 12345")
  = mkNutrition (ofZ 1234) zero zero zero None.
Proof.
  split; [|vm_compute; reflexivity].
  unfold extractNutritionFromText. cbv zeta.
  destruct (searchNumber_bounded text caloriesKeys) as (c & Hc & ->).
  destruct (searchNumber_bounded text proteinKeys) as (p & Hp & ->).
  destruct (searchNumber_bounded text carbsKeys) as (cb & Hcb & ->).
  destruct (searchNumber_bounded text fatKeys) as (f & Hf & ->).
  exists c, p, cb, f. auto.
Qed.

(** * Numerals: printing an integer and parsing it back *)

Lemma js_app (s1 s2 : string) : js (s1 ++ s2) = js s1 ++ js s2.
Proof.
  induction s1 as [|a s1 IH]; [reflexivity|].
  change (js (String a s1 ++ s2)) with (N_of_ascii a :: js (s1 ++ s2)).
  rewrite IH. reflexivity.
Qed.

(** The digits a decimal numeral is printed with, and their value. *)
Lemma string_of_uint_Digits (d : Decimal.uint) :
  Digits (js (NilEmpty.string_of_uint d)).
Proof.
  unfold Digits. induction d; cbn [NilEmpty.string_of_uint]; [reflexivity|..];
    exact IHd.
Qed.

Lemma string_of_uint_acc (d : Decimal.uint) :
  forall acc : positive,
    digitsValue (Npos acc) (js (NilEmpty.string_of_uint d))
    = Npos (Pos.of_uint_acc d acc).
Proof.
  induction d; intros acc; cbn [NilEmpty.string_of_uint Pos.of_uint_acc];
    [reflexivity|..];
    change (js (String ?a ?s)) with (N_of_ascii a :: js s);
    cbn [digitsValue]; rewrite <- IHd; f_equal; cbn; lia.
Qed.

Lemma string_of_uint_value (d : Decimal.uint) :
  digitsValue 0 (js (NilEmpty.string_of_uint d)) = Pos.of_uint d.
Proof.
  induction d; cbn [NilEmpty.string_of_uint Pos.of_uint]; [reflexivity|..];
    change (js (String ?a ?s)) with (N_of_ascii a :: js s);
    cbn [digitsValue]; [exact IHd|..]; apply string_of_uint_acc.
Qed.

(** The numeral of a non-negative integer: digits, at least one, whose
    value is the integer. *)
Lemma showZ_digits (n : Z) :
  0 <= n ->
  Digits (js (Retry.showZ n)) /\ js (Retry.showZ n) <> [] /\
  digitsValue 0 (js (Retry.showZ n)) = Z.to_N n.
Proof.
  intros Hn. destruct n as [|p|p]; [repeat split; discriminate | | lia].
  unfold Retry.showZ. cbn [Z.to_int NilZero.string_of_int].
  assert (Hzero : NilZero.string_of_uint (Pos.to_uint p)
                  = NilEmpty.string_of_uint (Pos.to_uint p)).
  { pose proof (DecimalPos.Unsigned.to_uint_nonnil p) as Hnil.
    destruct (Pos.to_uint p); [congruence|..]; reflexivity. }
  rewrite Hzero. split; [apply string_of_uint_Digits|]. split.
  - pose proof (DecimalPos.Unsigned.to_uint_nonnil p) as Hnil.
    destruct (Pos.to_uint p); [congruence|..]; discriminate.
  - rewrite string_of_uint_value. apply DecimalPos.Unsigned.of_to.
Qed.

Lemma showZ_negative (p : positive) :
  js (Retry.showZ (Z.neg p)) = ch "-" :: js (Retry.showZ (Z.pos p)).
Proof. reflexivity. Qed.

Lemma showZ_Decimal (n : Z) :
  0 <= n ->
  Decimal (js (Retry.showZ n)) /\
  literalValue (js (Retry.showZ n)) = NFinite (inject_Z n).
Proof.
  intros Hn. destruct (showZ_digits n Hn) as (Hd & Hne & Hv). split.
  - exists (js (Retry.showZ n)). auto.
  - rewrite (Number_unsigned _ _ (unsignedDecimal_integer _ Hd Hne)).
    unfold decimalValue, inject_Z. rewrite app_nil_r, Hv, Z2N.id by exact Hn.
    reflexivity.
Qed.

(** X24. Parsing the decimal numeral of an integer gives the integer
    back, clamped at 0: for every integer [n] below 2^53 in absolute
    value, which a double holds exactly and [String(n)] prints in
    digits, [parseNutritionNumber(String(n))] and [parseNumber(String(n))]
    are [max(0, n)]. *)
Theorem parseNutritionNumber_reads_numerals (n : Z) :
  Z.abs n < 2 ^ 53 ->
  parseNutritionNumber (VString (js (Retry.showZ n))) = ofZ (Z.max 0 n) /\
  parseNumber (VString (js (Retry.showZ n))) = ofZ (Z.max 0 n).
Proof.
  intros Hbound. destruct (Z.lt_ge_cases n 0) as [Hneg | Hpos].
  - destruct n as [|p|p]; try lia. rewrite showZ_negative.
    destruct (showZ_Decimal (Z.pos p)) as [Hd Hnum]; [lia|].
    change (Z.max 0 (Z.neg p)) with 0. split.
    + apply parse_negative_literal, Hd.
    + cbn [parseNumber].
      assert (Hsame : replaceAll (ch ",") (ch ".") (ch "-" :: js (Retry.showZ (Z.pos p)))
                      = ch "-" :: js (Retry.showZ (Z.pos p))).
      { change (ch "-" :: js (Retry.showZ (Z.pos p)))
          with ([ch "-"] ++ js (Retry.showZ (Z.pos p))).
        rewrite replaceAll_app, (replaceAll_units _ (Decimal_units _ Hd)).
        reflexivity. }
      rewrite Hsame.
      assert (Hs : SignedNumber (ch "-" :: js (Retry.showZ (Z.pos p)))).
      { apply SignedNumber_parts. exists [ch "-"], (js (Retry.showZ (Z.pos p))).
        split; [reflexivity|]. split; [auto|].
        destruct (proj1 (SignedNumber_parts _) (Decimal_SignedNumber _ Hd))
          as (sign & body & Heq & Hsign & Hbody).
        destruct (Decimal_head _ Hd) as (c & d' & Hc & Hdig).
        destruct Hsign as [-> | [-> | ->]]; cbn [app] in Heq.
        - rewrite Heq. exact Hbody.
        - rewrite Hc in Heq. injection Heq as -> _. discriminate Hdig.
        - rewrite Hc in Heq. injection Heq as -> _. discriminate Hdig. }
      destruct (SignedNumber_minus _ Hs) as (q & Hq & Hval).
      rewrite (firstNumber_whole _ _ Hs Hval).
      apply clamp64_nonpositive. lra.
  - destruct (showZ_Decimal n) as [Hd Hnum]; [lia|].
    rewrite Z.max_r by lia.
    assert (Hsame : replaceAll (ch ",") (ch ".") (js (Retry.showZ n))
                    = js (Retry.showZ n))
      by apply replaceAll_units, Decimal_units, Hd.
    split.
    + rewrite parse_string. unfold normalizeString. rewrite Hsame.
      destruct (Decimal_ends _ [] Hd) as [Hhead Hlast].
      rewrite app_nil_r in Hhead. cbn [app] in Hlast.
      rewrite (trim_noop _ Hhead Hlast), (Decimal_no_range _ Hd).
      rewrite (firstNumber_whole _ _ (Decimal_SignedNumber _ Hd) Hnum).
      apply clamp64_integer. lia.
    + cbn [parseNumber]. rewrite Hsame.
      rewrite (firstNumber_whole _ _ (Decimal_SignedNumber _ Hd) Hnum).
      apply clamp64_integer. lia.
Qed.

Lemma parseNutritionNumber_reads_numerals_witness :
  parseNutritionNumber (VString (js (Retry.showZ 250))) = ofZ (Z.max 0 250).
Proof.
  destruct (parseNutritionNumber_reads_numerals 250) as [Hparse _].
  - reflexivity.
  - exact Hparse.
Defined.

(** ** The buffer at a concrete input *)

Lemma recordMetric_keeps_newest_witness :
  (length
     (PerformanceMonitor.metricsBuffer
        (PerformanceMonitor.recordAll (B := PerformanceMonitor.exampleBrowser)
           [PerformanceMonitor.mkCall "lcp" (NFinite 1200) None None]
           (PerformanceMonitor.mkMonitor (B := PerformanceMonitor.exampleBrowser) [] 0%Q)))
   <= PerformanceMonitor.MAX_BUFFER_SIZE)%nat.
Proof.
  destruct (recordMetric_keeps_newest (B := PerformanceMonitor.exampleBrowser)
              [PerformanceMonitor.mkCall "lcp" (NFinite 1200) None None]
              (PerformanceMonitor.mkMonitor (B := PerformanceMonitor.exampleBrowser) [] 0%Q))
    as (_ & Hlen & _).
  - vm_compute. lia.
  - exact Hlen.
Defined.

(** * The size of a file, formatted *)

Lemma digitsValue_snoc (l : JsString) (c : CodeUnit) :
  forall acc, digitsValue acc (l ++ [c]) = (digitsValue acc l * 10 + (c - 48))%N.
Proof.
  induction l as [|x l IH]; intros acc; [reflexivity|].
  cbn [app digitsValue]. apply IH.
Qed.

(** The numeral of a digit is one code unit. *)
Lemma showZ_digit (d : Z) :
  0 <= d <= 9 -> js (Retry.showZ d) = [(48 + Z.to_N d)%N].
Proof.
  intros Hd.
  assert (Hcases : d = 0 \/ d = 1 \/ d = 2 \/ d = 3 \/ d = 4 \/ d = 5 \/ d = 6
                   \/ d = 7 \/ d = 8 \/ d = 9) by lia.
  repeat destruct Hcases as [-> | Hcases]; try reflexivity.
  subst d. reflexivity.
Qed.

(** What [toFixed(1)] prints reads back as a number within a twentieth
    of the number printed. *)
Lemma toFixed1_reads_back (x : Q) :
  (0 <= x)%Q ->
  exists q, literalValue (js (ImageCompression.toFixed1 x)) = NFinite q /\
            (x - (1 # 20) < q)%Q /\ (q <= x + (1 # 20))%Q.
Proof.
  intros Hx. unfold ImageCompression.toFixed1. cbv zeta.
  set (n := Qfloor (x * 10 + (1 # 2))).
  assert (Hn : 0 <= n).
  { apply (Qfloor_resp_le 0) in Hx as H0.
    assert (Hle : (0 <= x * 10 + (1 # 2))%Q) by lra.
    apply Qfloor_resp_le in Hle. exact Hle. }
  assert (Ha : 0 <= n / 10) by (apply Z.div_pos; lia).
  assert (Hd : 0 <= n mod 10 <= 9) by (pose proof (Z.mod_pos_bound n 10); lia).
  destruct (showZ_digits _ Ha) as (HA & HAne & HAv).
  rewrite !js_app. change (js ".") with [ch "."]. cbn [app].
  rewrite (showZ_digit _ Hd).
  set (c := (48 + Z.to_N (n mod 10))%N).
  assert (Hc : Digits [c]).
  { unfold Digits. cbn [forallb]. rewrite andb_true_r. apply digit_range.
    unfold c. lia. }
  rewrite (Number_unsigned _ _
             (unsignedDecimal_fraction _ [c] HA Hc ltac:(discriminate))).
  eexists. split; [reflexivity|].
  unfold decimalValue. rewrite digitsValue_snoc, HAv.
  cbn [length pow10].
  replace (Z.of_N (Z.to_N (n / 10) * 10 + (c - 48)))%N with n.
  - pose proof (Qfloor_le (x * 10 + (1 # 2))) as Hlo.
    pose proof (Qlt_floor (x * 10 + (1 # 2))) as Hhi.
    fold n in Hlo, Hhi. rewrite inject_Z_plus in Hhi.
    change (inject_Z 1) with 1%Q in Hhi.
    change (10 * 1)%positive with 10%positive.
    assert (Hq : ((n # 10) * 10 == inject_Z n)%Q).
    { unfold Qeq, Qmult, inject_Z. cbn. lia. }
    set (q := (n # 10)%Q) in *. clearbody q. split; lra.
  - unfold c. rewrite N2Z.inj_add, N2Z.inj_mul, Z2N.id by exact Ha.
    replace (48 + Z.to_N (n mod 10) - 48)%N with (Z.to_N (n mod 10)) by lia.
    rewrite Z2N.id by lia. change (Z.of_N 10) with 10.
    pose proof (Z.div_mod n 10). lia.
Qed.

(** X25. [formatFileSize] shows a size of [bytes] from 0 to below
    2^53, the sizes a file can have, in the unit its magnitude selects,
    and the number it shows reads back, as a decimal, within a twentieth
    of the size in that unit: exactly the bytes below 1024, the kilobytes
    to one decimal below 1024 * 1024, the megabytes to one decimal from
    there on.  The unit is chosen before rounding: 1048575 bytes are
    shown as "1024.0 KB". *)
Theorem formatFileSize_reads_back (bytes : Z) :
  0 <= bytes < 2 ^ 53 ->
  (exists num q,
     literalValue (js num) = NFinite q /\
     (bytes < 1024 /\
      ImageCompression.formatFileSize bytes = (num ++ " B")%string /\
      q = inject_Z bytes \/
      1024 <= bytes < 1024 * 1024 /\
      ImageCompression.formatFileSize bytes = (num ++ " KB")%string /\
      (inject_Z bytes / 1024 - (1 # 20) < q)%Q /\
      (q <= inject_Z bytes / 1024 + (1 # 20))%Q \/
      1024 * 1024 <= bytes /\
      ImageCompression.formatFileSize bytes = (num ++ " MB")%string /\
      (inject_Z bytes / (1024 * 1024) - (1 # 20) < q)%Q /\
      (q <= inject_Z bytes / (1024 * 1024) + (1 # 20))%Q)) /\
  ImageCompression.formatFileSize 0 = "0 B"%string /\
  ImageCompression.formatFileSize 1536 = "1.5 KB"%string /\
  ImageCompression.formatFileSize 1048575 = "1024.0 KB"%string /\
  ImageCompression.formatFileSize 1048576 = "1.0 MB"%string.
Proof.
  intros [Hbytes _]. split; [|repeat split; vm_compute; reflexivity].
  unfold ImageCompression.formatFileSize.
  destruct (Z.ltb_spec bytes 1024) as [Hb | Hb].
  - destruct (showZ_Decimal bytes Hbytes) as [_ Hnum].
    exists (Retry.showZ bytes), (inject_Z bytes). split; [exact Hnum|].
    left. auto.
  - destruct (Z.ltb_spec bytes (1024 * 1024)) as [Hk | Hm].
    + assert (Hx : (0 <= inject_Z bytes / 1024)%Q).
      { assert (H0 : (0 <= inject_Z bytes)%Q) by (rewrite <- (Zle_Qle 0); lia).
        unfold Qdiv. change (/ 1024)%Q with (1 # 1024)%Q. lra. }
      destruct (toFixed1_reads_back _ Hx) as (q & Hq & Hlo & Hhi).
      exists (ImageCompression.toFixed1 (inject_Z bytes / 1024)), q.
      split; [exact Hq|]. right. left. auto.
    + assert (Hx : (0 <= inject_Z bytes / (1024 * 1024))%Q).
      { assert (H0 : (0 <= inject_Z bytes)%Q) by (rewrite <- (Zle_Qle 0); lia).
        unfold Qdiv. change (/ (1024 * 1024))%Q with (1 # 1048576)%Q. lra. }
      destruct (toFixed1_reads_back _ Hx) as (q & Hq & Hlo & Hhi).
      exists (ImageCompression.toFixed1 (inject_Z bytes / (1024 * 1024))), q.
      split; [exact Hq|]. right. right. auto.
Qed.

Lemma formatFileSize_reads_back_witness :
  exists num q,
    literalValue (js num) = NFinite q /\
    ImageCompression.formatFileSize 2560 = (num ++ " KB")%string /\
    (q <= inject_Z 2560 / 1024 + (1 # 20))%Q.
Proof.
  destruct (formatFileSize_reads_back 2560) as [(num & q & Hq & Hcases) _].
  - lia.
  - exists num, q. split; [exact Hq|].
    destruct Hcases as [(Hlt & _) | [(_ & Hfmt & _ & Hhi) | (Hge & _)]];
      [lia | auto | lia].
Defined.

(** * compressImage *)

Section CompressFacts.
Import ImageCompression.
Context {E : Retry.ErrorModel} {C : CanvasModel}.

Lemma Qgt_bool_iff (a b : Q) : Qgt_bool a b = true <-> (b < a)%Q.
Proof.
  unfold Qgt_bool. rewrite negb_true_iff, <- not_true_iff_false, Qle_bool_iff.
  split; [apply Qnot_le_lt | apply Qlt_not_le].
Qed.

Lemma Qgt_bool_false (a b : Q) : Qgt_bool a b = false <-> (a <= b)%Q.
Proof.
  unfold Qgt_bool. rewrite negb_false_iff. apply Qle_bool_iff.
Qed.

Lemma js_div_finite (a b : Q) : (0 < b)%Q -> js_div a b = round64 (a / b).
Proof.
  intros Hb. unfold js_div. destruct (Qeq_bool b 0) eqn:Hz; [|reflexivity].
  apply Qeq_bool_iff in Hz. lra.
Qed.

(** The shorter side [a] of an image scaled as the longer side [b] is
    scaled to [m]: [(a / b) * m] on doubles. *)
Lemma scaled_side (a b m : Q) :
  (1 <= a)%Q -> (a <= b)%Q -> (b <= inject_Z (2 ^ 53))%Q ->
  (1 <= m)%Q -> IsDouble m ->
  exists q,
    js_mul (js_div a b) m = NFinite q /\ (0 < q)%Q /\ (q <= m)%Q /\
    (m * a - m * a * pow2 (-51) <= q * b)%Q /\
    (q * b <= m * a + m * a * pow2 (-51))%Q.
Proof.
  intros Ha Hab Hb Hm Hdouble.
  assert (Hb0 : (0 < b)%Q) by lra.
  rewrite (js_div_finite a b Hb0).
  assert (Hx : (a / b * b == a)%Q) by (field; lra).
  assert (Hx0 : (0 < a / b)%Q) by (apply Qlt_shift_div_l; lra).
  assert (Hx1 : (a / b <= 1)%Q) by (apply Qle_shift_div_r; lra).
  assert (Hxmin : (pow2 (-53) <= a / b)%Q).
  { apply Qle_shift_div_l; [exact Hb0|].
    change (pow2 (-53)) with (1 # 9007199254740992)%Q.
    change (inject_Z (2 ^ 53)) with 9007199254740992%Q in Hb. lra. }
  set (x := (a / b)%Q) in *. clearbody x.
  destruct (round64_between x 0 1) as (r1 & Hr1 & Hr10 & Hr11);
    [vm_compute; discriminate | vm_compute; discriminate
     | change (inject_Z 0) with 0%Q; lra | change (inject_Z 1) with 1%Q; lra |].
  change (inject_Z 0) with 0%Q in Hr10. change (inject_Z 1) with 1%Q in Hr11.
  assert (Hnormal1 : (pow2 (-1022) <= x)%Q).
  { apply Qle_trans with (pow2 (-53)); [apply pow2_le; lia | exact Hxmin]. }
  destruct (round64_error x r1 Hnormal1 Hr1) as [He1 He2].
  rewrite Hr1. cbn [js_mul].
  pose proof (round64_double m (r1 * m) Hdouble) as Hq1.
  pose proof (round64_nonneg (r1 * m)) as Hq0.
  change (pow2 (-53)) with (1 # 9007199254740992)%Q in *.
  assert (Hr1min : ((1 # 18014398509481984) <= r1)%Q) by lra.
  assert (Hnormal2 : (pow2 (-1022) <= r1 * m)%Q).
  { apply Qle_trans with (1 # 18014398509481984)%Q;
      [apply Qlt_le_weak; vm_compute; reflexivity|].
    assert (Hprod : (r1 * 1 <= r1 * m)%Q) by (apply Qmult_le_l; lra). lra. }
  assert (Hle2 : (r1 * m <= m)%Q).
  { assert (Hprod : (r1 * m <= 1 * m)%Q) by (apply Qmult_le_compat_r; lra). lra. }
  specialize (Hq1 Hle2).
  assert (Hge2 : (0 <= r1 * m)%Q) by (apply Qmult_le_0_compat; lra).
  specialize (Hq0 Hge2).
  destruct (round64 (r1 * m)) as [q| | |] eqn:Hq; try contradiction.
  unfold js_le, zero in Hq0, Hq1.
  destruct (round64_error (r1 * m) q Hnormal2 Hq) as [He3 He4].
  change (pow2 (-53)) with (1 # 9007199254740992)%Q in He3, He4.
  exists q. split; [reflexivity|].
  change (pow2 (-51)) with (1 # 2251799813685248)%Q.
  set (eps := (1 # 9007199254740992)%Q) in *.
  assert (Heps : (eps == 1 # 9007199254740992)%Q) by reflexivity.
  assert (H4 : ((1 # 2251799813685248) == 4 * eps)%Q) by reflexivity.
  clearbody eps.
  assert (Hrb1 : (a - a * eps <= r1 * b)%Q).
  { assert (Hprod : ((x - x * eps) * b <= r1 * b)%Q)
      by (apply Qmult_le_compat_r; lra).
    nra. }
  assert (Hrb2 : (r1 * b <= a + a * eps)%Q).
  { assert (Hprod : (r1 * b <= (x + x * eps) * b)%Q)
      by (apply Qmult_le_compat_r; lra).
    nra. }
  assert (Hqb1 : ((r1 * b) * m - (r1 * b) * m * eps <= q * b)%Q).
  { assert (Hprod : ((r1 * m - r1 * m * eps) * b <= q * b)%Q)
      by (apply Qmult_le_compat_r; lra).
    nra. }
  assert (Hqb2 : (q * b <= (r1 * b) * m + (r1 * b) * m * eps)%Q).
  { assert (Hprod : (q * b <= (r1 * m + r1 * m * eps) * b)%Q)
      by (apply Qmult_le_compat_r; lra).
    nra. }
  set (rb := (r1 * b)%Q) in *. clearbody rb.
  assert (Ht : (0 < r1 * m)%Q) by (apply Qmult_lt_0_compat; lra).
  assert (Hte : (r1 * m * eps <= r1 * m * (1 # 2))%Q)
    by (apply Qmult_le_l; [exact Ht | lra]).
  split; [lra|]. split; [exact Hq1|].
  clear Hnormal1 Hnormal2 Hq Hr1 Hdouble.
  assert (Hma : (0 < m * a)%Q) by (apply Qmult_lt_0_compat; lra).
  assert (Hu1 : ((a - a * eps) * m <= rb * m)%Q)
    by (apply Qmult_le_compat_r; lra).
  assert (Hu2 : (rb * m <= (a + a * eps) * m)%Q)
    by (apply Qmult_le_compat_r; lra).
  assert (Hlo : ((a - a * eps) * m * (1 - eps) <= rb * m * (1 - eps))%Q)
    by (apply Qmult_le_compat_r; lra).
  assert (Hhi : (rb * m * (1 + eps) <= (a + a * eps) * m * (1 + eps))%Q)
    by (apply Qmult_le_compat_r; lra).
  assert (He0 : (0 <= m * a * eps)%Q) by (apply Qmult_le_0_compat; lra).
  assert (He00 : (0 <= m * a * eps * eps)%Q) by (apply Qmult_le_0_compat; lra).
  assert (He01 : (m * a * eps * eps <= m * a * eps * 1)%Q).
  { destruct (Qeq_dec (m * a * eps) 0) as [Hz | Hnz].
    - rewrite Hz. lra.
    - apply Qmult_le_l; lra. }
  assert (Hme : (m * a * eps == m * a * (1 # 9007199254740992))%Q)
    by (rewrite Heps; reflexivity).
  set (U := (rb * m)%Q) in *. clearbody U.
  split.
  - apply Qle_trans with (U * (1 - eps))%Q; [|lra].
    apply Qle_trans with ((a - a * eps) * m * (1 - eps))%Q; [|exact Hlo].
    lra.
  - apply Qle_trans with (U * (1 + eps))%Q; [lra|].
    apply Qle_trans with ((a + a * eps) * m * (1 + eps))%Q; [exact Hhi|].
    lra.
Qed.

(** X26. The new dimensions of an image whose sides are positive
    integers below 2^53, for a [maxWidthOrHeight] that is a double and
    at least 1: an image that fits is left as it is; otherwise the longer
    side becomes [maxWidthOrHeight] and the other side is the double that
    [(short / long) * maxWidthOrHeight] gives, which is positive, at most
    [maxWidthOrHeight], and keeps the aspect ratio up to the rounding of
    the two operations, a relative error of at most 2^-51. *)
Theorem newDimensions_keeps_aspect_ratio
    (width height : N) (maxWidthOrHeight : Q) :
  (0 < width < 2 ^ 53)%N -> (0 < height < 2 ^ 53)%N ->
  (1 <= maxWidthOrHeight)%Q -> IsDouble maxWidthOrHeight ->
  let w := inject_Z (Z.of_N width) in
  let h := inject_Z (Z.of_N height) in
  let m := maxWidthOrHeight in
  exists w' h',
    newDimensions width height maxWidthOrHeight = (NFinite w', NFinite h') /\
    (0 < w')%Q /\ (0 < h')%Q /\
    ((w <= m)%Q /\ (h <= m)%Q -> w' = w /\ h' = h) /\
    ((m < w)%Q \/ (m < h)%Q ->
     (w' <= m)%Q /\ (h' <= m)%Q /\
     ((h < w)%Q ->
      w' = m /\
      (m * h - m * h * pow2 (-51) <= h' * w)%Q /\
      (h' * w <= m * h + m * h * pow2 (-51))%Q) /\
     ((w <= h)%Q ->
      h' = m /\
      (m * w - m * w * pow2 (-51) <= w' * h)%Q /\
      (w' * h <= m * w + m * w * pow2 (-51))%Q)).
Proof.
  intros Hw Hh Hmax Hdouble w h m.
  assert (Hw1 : (1 <= w)%Q).
  { unfold w. change 1%Q with (inject_Z 1). rewrite <- Zle_Qle. lia. }
  assert (Hh1 : (1 <= h)%Q).
  { unfold h. change 1%Q with (inject_Z 1). rewrite <- Zle_Qle. lia. }
  assert (Hw53 : (w <= inject_Z (2 ^ 53))%Q).
  { unfold w. rewrite <- Zle_Qle. change (2 ^ 53)%N with 9007199254740992%N in Hw.
    change (2 ^ 53) with 9007199254740992. lia. }
  assert (Hh53 : (h <= inject_Z (2 ^ 53))%Q).
  { unfold h. rewrite <- Zle_Qle. change (2 ^ 53)%N with 9007199254740992%N in Hh.
    change (2 ^ 53) with 9007199254740992. lia. }
  unfold newDimensions. cbv zeta. fold w h m.
  destruct (Qgt_bool w m || Qgt_bool h m) eqn:Hbig.
  - destruct (Qgt_bool w h) eqn:Hwide.
    + apply Qgt_bool_iff in Hwide.
      destruct (scaled_side h w m) as (q & Hq & Hq0 & Hqm & Hlo & Hhi);
        try assumption; [lra|].
      rewrite Hq. exists m, q. split; [reflexivity|].
      assert (Hwm : (m < w)%Q).
      { apply orb_prop in Hbig as [Hb | Hb]; apply Qgt_bool_iff in Hb; lra. }
      split; [lra|]. split; [exact Hq0|]. split; [intros [? ?]; lra|].
      intros _. split; [lra|]. split; [exact Hqm|]. split.
      * intros _. auto.
      * intros Hle. lra.
    + apply Qgt_bool_false in Hwide.
      destruct (scaled_side w h m) as (q & Hq & Hq0 & Hqm & Hlo & Hhi);
        try assumption.
      rewrite Hq. exists q, m. split; [reflexivity|].
      split; [exact Hq0|]. split; [lra|].
      assert (Hhm : (m < h)%Q).
      { apply orb_prop in Hbig as [Hb | Hb]; apply Qgt_bool_iff in Hb; lra. }
      split; [intros [? ?]; lra|].
      intros _. split; [exact Hqm|]. split; [lra|]. split.
      * intros Hlt. lra.
      * intros _. auto.
  - apply orb_false_elim in Hbig as [Hb1 Hb2].
    apply Qgt_bool_false in Hb1, Hb2.
    exists w, h. split; [reflexivity|].
    split; [lra|]. split; [lra|]. split; [auto|].
    intros [? | ?]; lra.
Qed.


End CompressFacts.

(** ** compressImage at a concrete input *)

Lemma newDimensions_keeps_aspect_ratio_witness :
  exists w' h',
    ImageCompression.newDimensions 4000 3000 1920 = (NFinite w', NFinite h') /\
    (w' <= 1920)%Q /\ (h' <= 1920)%Q.
Proof.
  destruct (newDimensions_keeps_aspect_ratio 4000 3000 1920)
    as (w' & h' & Hdim & _ & _ & _ & Hbig).
  - split; reflexivity.
  - split; reflexivity.
  - vm_compute. discriminate.
  - exists 1920%Q. split; [vm_compute; reflexivity | reflexivity].
  - destruct Hbig as (Hw & Hh & _); [left; reflexivity|].
    exists w', h'. split; [exact Hdim|]. split; [exact Hw | exact Hh].
Defined.


(** * A number with text around it *)

Lemma lookup_HasDigit (l : JsString) (i : nat) (c : CodeUnit) :
  l !! i = Some c -> is_digit c = true -> HasDigit l.
Proof.
  intros Hl Hc. unfold HasDigit. apply existsb_exists. exists c.
  split; [|exact Hc]. apply list_elem_of_In. eapply list_elem_of_lookup_2, Hl.
Qed.

Lemma lookup_Digits (l : JsString) (i : nat) (c : CodeUnit) :
  Digits l -> l !! i = Some c -> is_digit c = true.
Proof.
  unfold Digits. rewrite forallb_forall. intros Hall Hl. apply Hall.
  apply list_elem_of_In. eapply list_elem_of_lookup_2, Hl.
Qed.

(** In a text whose digits are one block, a digit lies in the block. *)
Lemma block_digit (P D S : JsString) (i : nat) (c : CodeUnit) :
  ~ HasDigit P -> ~ HasDigit S ->
  (P ++ D ++ S) !! i = Some c -> is_digit c = true ->
  (length P <= i < length P + length D)%nat.
Proof.
  intros HP HS Hl Hc.
  destruct (Nat.lt_ge_cases i (length P)) as [Hlt | Hge].
  - exfalso. rewrite lookup_app_l in Hl by exact Hlt.
    exact (HP (lookup_HasDigit _ _ _ Hl Hc)).
  - split; [exact Hge|]. rewrite lookup_app_r in Hl by exact Hge.
    destruct (Nat.lt_ge_cases (i - length P) (length D)) as [Hlt | Hge']; [lia|].
    exfalso. rewrite lookup_app_r in Hl by exact Hge'.
    exact (HS (lookup_HasDigit _ _ _ Hl Hc)).
Qed.

Lemma block_inside (P D S : JsString) (i : nat) (c : CodeUnit) :
  Digits D -> (length P <= i < length P + length D)%nat ->
  (P ++ D ++ S) !! i = Some c -> is_digit c = true.
Proof.
  intros HD [Hlo Hhi] Hl. rewrite lookup_app_r in Hl by exact Hlo.
  rewrite lookup_app_l in Hl by lia. exact (lookup_Digits _ _ _ HD Hl).
Qed.

Lemma lookup_middle (pre post : JsString) (c : CodeUnit) :
  (pre ++ c :: post) !! length pre = Some c.
Proof. apply list_lookup_middle. reflexivity. Qed.

(** Such a text holds no range. *)
Lemma block_no_range (P D S : JsString) :
  ~ HasDigit P -> ~ HasDigit S -> Digits D -> ~ HasRange (P ++ D ++ S).
Proof.
  intros HP HS HD (pre & A & B & ws1 & sep & ws2 & post & Hs & HA & _ & Hsep & _ & HB).
  destruct (Decimal_head _ HA) as (a0 & A' & -> & Ha0).
  destruct (Decimal_last _ HB) as (B' & b1 & -> & Hb1).
  destruct (Separator_head _ Hsep) as (x & sep' & -> & Hx).
  assert (Hia : (P ++ D ++ S) !! length pre = Some a0).
  { rewrite Hs. cbn [app]. apply lookup_middle. }
  assert (Hix : (P ++ D ++ S) !! length (pre ++ (a0 :: A') ++ ws1) = Some x).
  { rewrite Hs.
    replace (pre ++ (a0 :: A') ++ ws1 ++ (x :: sep') ++ ws2 ++ (B' ++ [b1]) ++ post)
      with ((pre ++ (a0 :: A') ++ ws1) ++ x :: (sep' ++ ws2 ++ (B' ++ [b1]) ++ post))
      by (rewrite <- !app_assoc; reflexivity).
    apply lookup_middle. }
  assert (Hib : (P ++ D ++ S)
                !! length (pre ++ (a0 :: A') ++ ws1 ++ (x :: sep') ++ ws2 ++ B')
                = Some b1).
  { rewrite Hs.
    replace (pre ++ (a0 :: A') ++ ws1 ++ (x :: sep') ++ ws2 ++ (B' ++ [b1]) ++ post)
      with ((pre ++ (a0 :: A') ++ ws1 ++ (x :: sep') ++ ws2 ++ B') ++ b1 :: post)
      by (rewrite <- !app_assoc; reflexivity).
    apply lookup_middle. }
  pose proof (block_digit _ _ _ _ _ HP HS Hia Ha0) as Ra.
  pose proof (block_digit _ _ _ _ _ HP HS Hib Hb1) as Rb.
  assert (Hdx : is_digit x = true).
  { apply (block_inside P D S (length (pre ++ (a0 :: A') ++ ws1)) x HD);
      [|exact Hix].
    rewrite !length_app in *. cbn [length] in *. lia. }
  unfold decimalUnit in Hx. rewrite Hdx in Hx. discriminate Hx.
Qed.

(** A number starts with at most a sign and a point before its first
    digit. *)
Lemma SignedNumber_lead (w : JsString) :
  SignedNumber w ->
  exists lead d rest,
    w = lead ++ d :: rest /\ is_digit d = true /\
    Forall (fun c => c = ch "-" \/ c = ch "+" \/ c = ch ".") lead.
Proof.
  intros (sign & ip & point & fp & -> & Hsign & Hip & Hpoint & Hfp & Hne).
  assert (Hs : Forall (fun c => c = ch "-" \/ c = ch "+" \/ c = ch ".") sign).
  { destruct Hsign as [-> | [-> | ->]];
      [apply Forall_nil_2 | apply Forall_cons_2; [auto | apply Forall_nil_2] ..]. }
  destruct ip as [|d ip].
  - destruct fp as [|d fp]; [congruence|].
    unfold Digits in Hfp. cbn in Hfp. apply andb_prop in Hfp as [Hd _].
    exists (sign ++ point), d, fp. rewrite <- app_assoc.
    split; [reflexivity|]. split; [exact Hd|].
    apply Forall_app. split; [exact Hs|].
    destruct Hpoint as [-> | ->];
      [apply Forall_nil_2 | apply Forall_cons_2; [auto | apply Forall_nil_2]].
  - unfold Digits in Hip. cbn in Hip. apply andb_prop in Hip as [Hd _].
    exists sign, d, (ip ++ point ++ fp). auto.
Qed.

(** In a text whose digits are one block, not preceded by a sign or a
    point, the fallback branch finds the block. *)
Lemma block_firstNumber (P D S : JsString) (x : Q) :
  ~ HasDigit P -> ~ HasDigit S -> Digits D -> D <> [] ->
  (forall P0 c, P = P0 ++ [c] -> c <> ch "-" /\ c <> ch "+" /\ c <> ch ".") ->
  literalValue D = NFinite x ->
  firstNumber (P ++ D ++ S) = clamp64 x.
Proof.
  intros HP HS HD Hne Hlast Hx.
  assert (HDs : SignedNumber D) by (apply Decimal_SignedNumber; exists D; auto).
  assert (Hat : NumberAt (P ++ D ++ S) P D) by (exists S; auto).
  destruct (stringMatch false numberRe (P ++ D ++ S)) as [m|] eqn:Hrun.
  - destruct (firstNumber_some _ _ Hrun)
      as (pre & w & x' & (post & Hs & Hw) & Hleft & Hlong & Hx' & ->).
    pose proof (Hleft _ _ Hat) as Hpre.
    destruct (SignedNumber_lead _ Hw) as (lead & d & rest & Hwd & Hd & Hlead).
    assert (Hid : (P ++ D ++ S) !! length (pre ++ lead) = Some d).
    { rewrite Hs, Hwd.
      replace (pre ++ (lead ++ d :: rest) ++ post)
        with ((pre ++ lead) ++ d :: (rest ++ post))
        by (rewrite <- !app_assoc; reflexivity).
      apply lookup_middle. }
    pose proof (block_digit _ _ _ _ _ HP HS Hid Hd) as Rd.
    rewrite length_app in Rd.
    assert (Hpre' : length pre = length P).
    { destruct (Nat.eq_dec (length pre) (length P)) as [Heq | Hneq]; [exact Heq|].
      exfalso. assert (Hlt : (length pre < length P)%nat) by lia.
      destruct (exists_last (l := P)) as (P0 & c & HPc).
      { intros ->. cbn in Hlt. lia. }
      destruct (Hlast P0 c HPc) as (H1 & H2 & H3).
      assert (Hc : (P ++ D ++ S) !! (length P - 1)%nat = Some c).
      { rewrite HPc, <- app_assoc. cbn [app].
        replace (length (P0 ++ [c]) - 1)%nat with (length P0)
          by (rewrite length_app; cbn; lia).
        apply lookup_middle. }
      assert (Hc' : lead !! (length P - 1 - length pre)%nat = Some c).
      { rewrite Hs, Hwd in Hc.
        rewrite lookup_app_r in Hc by lia.
        rewrite <- app_assoc in Hc. rewrite lookup_app_l in Hc by lia.
        exact Hc. }
      rewrite Forall_forall in Hlead.
      specialize (Hlead c (list_elem_of_lookup_2 _ _ _ Hc')). tauto. }
    assert (Hsame : pre = P /\ w ++ post = D ++ S).
    { apply app_inj_1; [exact Hpre' | congruence]. }
    destruct Hsame as [-> Hrest].
    pose proof (Hlong _ Hat) as Hlen.
    destruct (SignedNumber_last _ Hw) as (w0 & c1 & Hw1 & _).
    assert (Hc1 : is_digit c1 = true).
    { destruct Hw as (sign & ip & point & fp & Hweq & _ & _ & _ & Hfp & Hfne).
      destruct (Digits_last _ Hfp Hfne) as (f0 & c2 & -> & Hc2).
      rewrite Hw1 in Hweq. rewrite !app_assoc in Hweq.
      apply app_inj_tail in Hweq as [_ ->]. exact Hc2. }
    assert (Hi1 : (P ++ D ++ S) !! length (P ++ w0) = Some c1).
    { rewrite Hs, Hw1.
      replace (P ++ (w0 ++ [c1]) ++ post) with ((P ++ w0) ++ c1 :: post)
        by (rewrite <- !app_assoc; reflexivity).
      apply lookup_middle. }
    pose proof (block_digit _ _ _ _ _ HP HS Hi1 Hc1) as R1.
    rewrite length_app in R1.
    assert (Hwlen : length w = length D).
    { rewrite Hw1 in Hlen |- *. rewrite length_app in Hlen |- *.
      cbn [length] in Hlen |- *. lia. }
    assert (HwD : w = D /\ post = S) by (apply app_inj_1; [exact Hwlen | exact Hrest]).
    destruct HwD as [-> _]. rewrite Hx in Hx'. injection Hx' as <-. reflexivity.
  - exfalso. destruct (firstNumber_none _ Hrun) as [Hno _]. apply Hno.
    apply HasDigit_app. right. apply HasDigit_app. left.
    apply Digits_HasDigit; assumption.
Qed.

Lemma no_range_midpoint (s : JsString) : ~ HasRange s -> rangeMidpoint s = None.
Proof.
  intros Hno. destruct (stringMatch true rangeRe s) as [m|] eqn:Hrun;
    [|apply (rangeMidpoint_none _ Hrun)].
  exfalso. apply Hno.
  destruct (rangeMidpoint_some _ _ Hrun) as (pre & A & B & _ & _ & Hat & _).
  exists pre, A, B. exact Hat.
Qed.

Lemma replaceAll_last (x y : CodeUnit) (s p : JsString) (c' : CodeUnit) :
  replaceAll x y s = p ++ [c'] ->
  exists s0 c, s = s0 ++ [c] /\ c' = if (c =? x)%N then y else c.
Proof.
  intros Heq. destruct s as [|a s] using rev_ind.
  - destruct p; discriminate Heq.
  - clear IHs. rewrite replaceAll_app in Heq. cbn in Heq.
    apply app_inj_tail in Heq as [_ <-]. exists s, a. auto.
Qed.

(** X29. A number with text around it: when the only digits of a string
    are the decimal numeral of an integer [n] from 0 to 2^53 - 1, and the
    character just before the numeral is not a sign, a point or a comma,
    [parseNutritionNumber] and [parseNumber] return [n], whatever the text
    before and after it is (a unit, a label, white space). *)
Theorem parseNutritionNumber_tolerates_text (n : Z) (before after : JsString) :
  0 <= n < 2 ^ 53 ->
  ~ HasDigit before -> ~ HasDigit after ->
  (forall b0 c, before = b0 ++ [c] ->
                c <> ch "-" /\ c <> ch "+" /\ c <> ch "." /\ c <> ch ",") ->
  parseNutritionNumber (VString (before ++ js (Retry.showZ n) ++ after)) = ofZ n /\
  parseNumber (VString (before ++ js (Retry.showZ n) ++ after)) = ofZ n.
Proof.
  intros [Hn Hsafe] Hbefore Hafter Hlast.
  destruct (showZ_digits n Hn) as (Hd & Hne & _).
  destruct (showZ_Decimal n Hn) as [_ Hnum].
  set (D := js (Retry.showZ n)) in *.
  set (P := replaceAll (ch ",") (ch ".") before).
  set (S := replaceAll (ch ",") (ch ".") after).
  assert (Hs : replaceAll (ch ",") (ch ".") (before ++ D ++ after) = P ++ D ++ S).
  { rewrite !replaceAll_app, (replaceAll_Digits _ Hd). reflexivity. }
  assert (HP : ~ HasDigit P).
  { unfold P. rewrite replaceAll_digit by reflexivity. exact Hbefore. }
  assert (HS : ~ HasDigit S).
  { unfold S. rewrite replaceAll_digit by reflexivity. exact Hafter. }
  assert (HPlast : forall P0 c, P = P0 ++ [c] ->
                                c <> ch "-" /\ c <> ch "+" /\ c <> ch ".").
  { intros P0 c' HPc. destruct (replaceAll_last _ _ _ _ _ HPc) as (b0 & c & Hb & ->).
    destruct (Hlast b0 c Hb) as (H1 & H2 & H3 & H4).
    destruct (N.eqb_spec c (ch ",")) as [Hc | _]; [congruence|]. auto. }
  assert (Hfirst : firstNumber (P ++ D ++ S) = ofZ n).
  { rewrite (block_firstNumber P D S (inject_Z n) HP HS Hd Hne HPlast Hnum).
    apply clamp64_integer. lia. }
  split.
  - rewrite parse_string. unfold normalizeString. rewrite Hs.
    rewrite no_range_midpoint.
    + rewrite firstNumber_trim. exact Hfirst.
    + intros Hr. apply HasRange_trim in Hr.
      exact (block_no_range P D S HP HS Hd Hr).
  - cbn [parseNumber]. rewrite Hs. exact Hfirst.
Qed.

Lemma parseNutritionNumber_tolerates_text_witness :
  parseNutritionNumber (VString (js "approx. ~100 kcal, per serving")) = ofZ 100.
Proof.
  destruct (parseNutritionNumber_tolerates_text
              100 (js "approx. ~") (js " kcal, per serving")) as [Hparse _].
  - split; [discriminate | reflexivity].
  - intros Hd. vm_compute in Hd. discriminate Hd.
  - intros Hd. vm_compute in Hd. discriminate Hd.
  - intros b0 c Heq.
    change (js "approx. ~") with (js "approx. " ++ [ch "~"]) in Heq.
    apply app_inj_tail in Heq as [_ <-].
    repeat split; discriminate.
  - exact Hparse.
Defined.

(** * Structured data merged with extracted text *)

Lemma orElse_count (a b : JsNumber) :
  CountOrInfinity a -> orElse a b = if isZero a then b else a.
Proof. intros [(z & _ & ->) | ->]; [destruct z|]; reflexivity. Qed.

Lemma orElseOpt_count (a : JsNumber) :
  CountOrInfinity a ->
  orElseOpt (Some a) None = if isZero a then None else Some a.
Proof. intros [(z & _ & ->) | ->]; [destruct z|]; reflexivity. Qed.

Lemma isZero_zero (a : JsNumber) :
  CountOrInfinity a -> isZero a = true -> a = zero.
Proof.
  intros [(z & _ & ->) | ->] Hz; [|discriminate Hz].
  destruct z; [reflexivity | discriminate Hz | discriminate Hz].
Qed.

(** X30. Merging the normalized record of any raw object with the record
    extracted from any text: the four nutrients of the result are
    non-negative integers or [Infinity], each the normalized one unless
    that is 0 and then the extracted one, so the result is empty exactly
    when both records are; its fiber is the normalized fiber unless that
    is 0, and then it is [undefined], never 0. *)
Theorem mergeNutrition_of_normalized_and_extracted
    (raw : gmap string JsValue) (text : JsString) :
  let primary := normalizeNutritionData raw in
  let fallback := extractNutritionFromText text in
  let merged := mergeNutrition primary fallback in
  (CountOrInfinity (calories merged) /\ CountOrInfinity (protein merged) /\
   CountOrInfinity (carbs merged) /\ CountOrInfinity (fat merged)) /\
  (calories merged
   = if isZero (calories primary) then calories fallback else calories primary) /\
  (protein merged
   = if isZero (protein primary) then protein fallback else protein primary) /\
  (carbs merged
   = if isZero (carbs primary) then carbs fallback else carbs primary) /\
  (fat merged
   = if isZero (fat primary) then fat fallback else fat primary) /\
  isNutritionEmpty merged = isNutritionEmpty primary && isNutritionEmpty fallback /\
  (fiber merged = None <-> fiber primary = Some zero) /\
  (fiber merged = None \/ fiber merged = fiber primary) /\
  fiber merged <> Some zero.
Proof.
  cbv zeta.
  assert (Hfallback : forall keys, CountOrInfinity (default zero (searchNumber text keys))).
  { intros keys. destruct (searchNumber_bounded text keys) as (z & Hz & ->).
    left. exists z. split; [lia | reflexivity]. }
  unfold mergeNutrition, isNutritionEmpty, normalizeNutritionData,
    extractNutritionFromText.
  cbv zeta. cbn [calories protein carbs fat fiber].
  repeat match goal with
  | |- context [parseNutritionNumber ?v] =>
    let n := fresh "n" in let Hn := fresh "Hn" in
    pose proof (parse_count v) as Hn;
    set (n := parseNutritionNumber v) in *; clearbody n
  end.
  repeat match goal with
  | |- context [default zero (searchNumber text ?keys)] =>
    let n := fresh "e" in let Hn := fresh "He" in
    pose proof (Hfallback keys) as Hn;
    set (n := default zero (searchNumber text keys)) in *; clearbody n
  end.
  clear Hfallback.
  rewrite !orElse_count, orElseOpt_count by assumption.
  split.
  { repeat split;
      match goal with |- CountOrInfinity (if isZero ?a then _ else _) =>
        destruct (isZero a); assumption end. }
  repeat (split; [reflexivity|]).
  split.
  { repeat match goal with
    | H : CountOrInfinity ?a |- context [isZero ?a] =>
      let Hz := fresh "Hz" in
      destruct (isZero a) eqn:Hz; [apply (isZero_zero a H) in Hz; subst a|];
      clear H
    end; cbn [isZero zero Qeq_bool andb];
    repeat match goal with
    | H : isZero ?a = false |- _ => rewrite H; clear H
    end; cbn [andb]; try reflexivity;
    repeat match goal with
    | |- context [isZero ?a] => destruct (isZero a)
    end; reflexivity. }
  match goal with
  | H : CountOrInfinity ?a |- context [Some ?a] =>
    destruct (isZero a) eqn:Hz; [apply (isZero_zero a H) in Hz; subst a|]
  end.
  - split; [split; reflexivity|]. split; [left; reflexivity | discriminate].
  - split; [split; [discriminate|] |].
    + intros Heq. injection Heq as ->. discriminate Hz.
    + split; [right; reflexivity|]. intros Heq. injection Heq as ->.
      discriminate Hz.
Qed.

(** * Arithmetic on doubles *)

Section DoubleArithmetic.
Local Open Scope Q_scope.

Lemma IsDouble_opp (q : Q) : IsDouble q -> IsDouble (- q).
Proof.
  intros (r & Hr & Hrq). exists (- r). rewrite round64_opp, Hr.
  split; [reflexivity|]. rewrite Hrq. reflexivity.
Qed.

Lemma IsDouble_comp (p q : Q) : p == q -> IsDouble p -> IsDouble q.
Proof.
  intros Hpq (r & Hr & Hrp). exists r. rewrite <- (round64_comp _ _ Hpq).
  split; [exact Hr | rewrite Hrp; exact Hpq].
Qed.

Lemma IsDouble_Z (n : Z) : (Z.abs n <= 2 ^ 53)%Z -> IsDouble (inject_Z n).
Proof. intros Hn. exists (inject_Z n). rewrite round64_Z by exact Hn. split; reflexivity. Qed.

(** Rounding gives a double. *)
Lemma round64_idem (x y : Q) : round64 x = NFinite y -> IsDouble y.
Proof.
  assert (Hpos : forall x y, 0 < x -> round64 x = NFinite y -> IsDouble y).
  { clear x y. intros x y Hx Hy.
    destruct (round64_finite_pos x y Hx Hy) as [Hyv Hmax].
    rewrite nearest_unfold in Hyv, Hmax.
    set (e := exponent x) in *. set (n := roundHalfEven (x / pow2 e)) in *.
    assert (He : (-1074 <= e)%Z) by (unfold e, exponent; lia).
    assert (Hn0 : (0 <= n)%Z).
    { assert (Hs : 0 <= x / pow2 e).
      { apply Qle_shift_div_l; [apply pow2_pos | lra]. }
      apply roundHalfEven_nonneg in Hs. change 0 with (inject_Z 0) in Hs.
      rewrite <- Zle_Qle in Hs. exact Hs. }
    assert (Hn53 : (n <= 2 ^ 53)%Z).
    { pose proof (scaled_lt x Hx) as Hlt. fold e in Hlt.
      apply Qlt_le_weak, roundHalfEven_mono in Hlt. fold n in Hlt.
      rewrite (roundHalfEven_comp _ _ (pow2_Z 53 ltac:(lia))), roundHalfEven_Z in Hlt.
      exact Hlt. }
    destruct (Z.eq_dec n 0%Z) as [Hz | Hnz].
    - apply (IsDouble_comp 0); [|exact (IsDouble_Z 0 ltac:(vm_compute; discriminate))].
      rewrite Hyv, Hz. change (inject_Z 0) with 0. ring.
    - destruct (Z.eq_dec n (2 ^ 53)%Z) as [Hfull | Hpart].
      + apply (IsDouble_comp (inject_Z (2 ^ 52) * pow2 (e + 1))).
        { rewrite Hyv, Hfull, pow2_succ. change (inject_Z (2 ^ 53)) with (2 * inject_Z (2 ^ 52)).
          ring. }
        exists (Qred (inject_Z (2 ^ 52) * pow2 (e + 1))).
        split; [|apply Qred_correct].
        apply round64_repr_pos; [split; reflexivity | lia|].
        rewrite Hfull in Hmax. rewrite pow2_succ.
        change (inject_Z (2 ^ 53)) with (2 * inject_Z (2 ^ 52)) in Hmax. lra.
      + apply (IsDouble_comp (inject_Z n * pow2 e)); [symmetry; exact Hyv|].
        exists (Qred (inject_Z n * pow2 e)). split; [|apply Qred_correct].
        apply round64_repr_pos; [lia | exact He | exact Hmax]. }
  intros Hy. destruct (Q_dec x 0) as [[Hneg | Hp] | Hz].
  - apply (IsDouble_comp (- - y)); [ring|]. apply IsDouble_opp.
    apply (Hpos (- x)); [lra|]. rewrite round64_opp, Hy. reflexivity.
  - exact (Hpos x y Hp Hy).
  - rewrite (round64_zero x Hz) in Hy. injection Hy as <-.
    exact (IsDouble_Z 0 ltac:(vm_compute; discriminate)).
Qed.

(** A number between a double and its opposite rounds between them. *)
Lemma round64_within (q x : Q) :
  IsDouble q -> - q <= x -> x <= q ->
  exists r, round64 x = NFinite r /\ - q <= r /\ r <= q.
Proof.
  intros Hq Hlo Hhi. pose proof (round64_double q x Hq Hhi) as H1.
  assert (H2 : js_le (round64 (- x)) (NFinite q))
    by (apply round64_double; [exact Hq | lra]).
  rewrite round64_opp in H2.
  destruct (round64 x) as [r| | |]; try contradiction.
  exists r. unfold js_le, js_neg in *. split; [reflexivity|]. split; lra.
Qed.

End DoubleArithmetic.

(** * The backoff delays in double arithmetic *)

Section DelayArithmetic.
Local Open Scope Q_scope.

Lemma IsDouble_pow2 (k : Z) : (-1022 <= k <= 1023)%Z -> IsDouble (pow2 k).
Proof.
  intros Hk. apply (IsDouble_comp (inject_Z (2 ^ 52) * pow2 (k - 52))).
  { rewrite <- (pow2_Z 52) by lia. rewrite <- pow2_plus.
    replace (52 + (k - 52))%Z with k by lia. reflexivity. }
  exists (Qred (inject_Z (2 ^ 52) * pow2 (k - 52))). split; [|apply Qred_correct].
  apply round64_repr_pos; [split; reflexivity | lia|].
  rewrite <- (pow2_Z 52) by lia. rewrite <- pow2_plus. apply pow2_lt. lia.
Qed.

(** A number up to [2^1023] rounds to a finite double. *)
Lemma round64_finite (x : Q) :
  0 <= x -> x <= pow2 1023 ->
  exists r, round64 x = NFinite r /\ 0 <= r /\ r <= pow2 1023.
Proof.
  intros H0 H1. pose proof (pow2_pos 1023) as Hp.
  destruct (round64_within (pow2 1023) x) as (r & Hr & _ & Hhi);
    [apply IsDouble_pow2; lia | lra | exact H1|].
  exists r. split; [exact Hr|]. split; [|exact Hhi].
  pose proof (round64_nonneg x H0) as Hn. rewrite Hr in Hn. exact Hn.
Qed.

Lemma round64_overflow (x : Q) : 0 <= x -> round64 x = NPosInf -> pow2 1023 < x.
Proof.
  intros H0 Hinf. destruct (Qlt_le_dec (pow2 1023) x) as [Hlt | Hle]; [exact Hlt|].
  destruct (round64_finite x H0 Hle) as (r & Hr & _). congruence.
Qed.

(** The outcomes of rounding a non-negative number. *)
Lemma round64_nonneg_cases (x : Q) :
  0 <= x ->
  (exists r, round64 x = NFinite r /\ 0 <= r) \/ round64 x = NPosInf.
Proof.
  intros H0. pose proof (round64_nonneg x H0) as Hn.
  destruct (round64 x) as [r| | |]; try contradiction; [left | right; reflexivity].
  exists r. split; [reflexivity | exact Hn].
Qed.

Lemma round64_fifth :
  round64 0.2 = NFinite (3602879701896397 # 18014398509481984).
Proof. vm_compute. reflexivity. Qed.

Lemma Math_pow_nonneg (m : Q) (n : Z) : 0 <= m -> js_le zero (Math_pow m n).
Proof.
  intros Hm. unfold Math_pow. destruct (n =? 0)%Z; [discriminate|].
  destruct (Qeq_bool m 0 && (n <? 0)%Z); [exact I|].
  apply round64_nonneg, Qpower_0_le, Hm.
Qed.

Lemma js_times_nonneg (i : Q) (p : JsNumber) :
  0 < i -> js_le zero p -> js_le zero (js_times (NFinite i) p).
Proof.
  intros Hi Hp. destruct p as [q| | |]; try contradiction.
  - apply round64_nonneg. unfold js_le, zero in Hp. apply Qmult_le_0_compat; lra.
  - cbn [js_times]. destruct (Qeq_bool i 0) eqn:Hz.
    + apply Qeq_bool_iff in Hz. lra.
    + destruct (Qle_bool 0 i) eqn:Hle; [exact I|].
      assert (Hle' : Qle_bool 0 i = true) by (apply Qle_bool_iff; lra). congruence.
Qed.

Lemma Math_min_cap (e : JsNumber) (M : Q) :
  js_le zero e -> 0 <= M ->
  exists b, Math_min e (NFinite M) = NFinite b /\ 0 <= b /\ b <= M.
Proof.
  intros He HM. destruct e as [q| | |]; try contradiction.
  - exists (Qmin q M). split; [reflexivity|]. unfold js_le, zero in He.
    split; [apply Q.min_glb; assumption | apply Q.le_min_r].
  - exists M. split; [reflexivity|]. split; [exact HM | apply Qle_refl].
Qed.

Lemma Math_min_mono (a b : JsNumber) (M : Q) :
  js_le a b -> js_le (Math_min a (NFinite M)) (Math_min b (NFinite M)).
Proof.
  destruct a as [p| | |], b as [q| | |]; cbn [js_le Math_min]; try tauto.
  - intros Hpq. apply Q.min_le_compat_r, Hpq.
  - intros _. apply Q.le_min_r.
  - intros _. apply Qle_refl.
Qed.

Lemma js_times_mono (i : Q) (p q : JsNumber) :
  0 < i -> js_le zero p -> js_le p q ->
  js_le (js_times (NFinite i) p) (js_times (NFinite i) q).
Proof.
  intros Hi Hp Hpq.
  assert (Hinf : js_times (NFinite i) NPosInf = NPosInf).
  { cbn [js_times]. destruct (Qeq_bool i 0) eqn:Hz.
    - apply Qeq_bool_iff in Hz. lra.
    - destruct (Qle_bool 0 i) eqn:Hle; [reflexivity|].
      assert (Hle' : Qle_bool 0 i = true) by (apply Qle_bool_iff; lra). congruence. }
  destruct p as [a| | |], q as [b| | |]; try contradiction.
  - cbn [js_times]. apply round64_mono. unfold js_le in Hpq.
    apply Qmult_le_l; assumption.
  - rewrite Hinf. pose proof (round64_notNaN (i * a)) as Hn.
    cbn [js_times]. destruct (round64 (i * a)); try exact I. congruence.
  - rewrite Hinf. exact I.
Qed.

End DelayArithmetic.

(** ** The jitter *)

Section JitterArithmetic.
Local Open Scope Q_scope.

Lemma jitter_unit (r : Q) :
  0 <= r -> r <= 1 ->
  exists u, js_sub (js_times (NFinite r) (NFinite 2)) (NFinite 1) = NFinite u /\
            - (1) <= u /\ u <= 1.
Proof.
  intros H0 H1. cbn [js_times].
  destruct (round64_within 2 (r * 2)) as (t & Ht & _ & Hhi);
    [exact (IsDouble_Z 2 ltac:(vm_compute; discriminate)) | lra | lra|].
  pose proof (round64_nonneg (r * 2) ltac:(lra)) as Hlo. rewrite Ht in Hlo |- *.
  unfold js_le, zero in Hlo. unfold js_sub. cbn [js_neg js_add].
  destruct (round64_within 1 (t + - (1))) as (u & Hu & Hu0 & Hu1);
    [exact (IsDouble_Z 1 ltac:(vm_compute; discriminate)) | lra | lra|].
  exists u. auto.
Qed.

Lemma jitter_value (u a : Q) :
  IsDouble a -> 0 <= a -> - (1) <= u -> u <= 1 ->
  exists v, js_times (NFinite u) (NFinite a) = NFinite v /\ - a <= v /\ v <= a.
Proof.
  intros Ha H0 Hu0 Hu1. cbn [js_times].
  apply round64_within; [exact Ha | nra | nra].
Qed.

Lemma jitter_amount (b : Q) :
  0 <= b -> b <= pow2 1023 ->
  exists a, js_times (NFinite b) (round64 0.2) = NFinite a /\ IsDouble a /\ 0 <= a.
Proof.
  intros H0 H1. rewrite round64_fifth. cbn [js_times].
  destruct (round64_finite (b * (3602879701896397 # 18014398509481984)))
    as (a & Ha & Ha0 & _); [nra | nra|].
  exists a. split; [exact Ha|]. split; [exact (round64_idem _ _ Ha) | exact Ha0].
Qed.

Lemma Math_max_zero (x lo hi : JsNumber) :
  x <> NNaN -> js_le lo x -> js_le x hi -> js_le zero hi ->
  js_le zero (Math_max zero x) /\ js_le lo (Math_max zero x) /\
  js_le (Math_max zero x) hi.
Proof.
  intros Hnan Hlo Hhi H0. destruct x as [q| | |]; [| congruence | |].
  - cbn [Math_max zero]. destruct (Qle_bool 0 q) eqn:Hq.
    + apply Qle_bool_iff in Hq. auto.
    + assert (Hneg : q < 0).
      { apply Qnot_le_lt. intros Hle. apply Qle_bool_iff in Hle. congruence. }
      split; [apply Qle_refl|]. split; [|exact H0].
      apply (js_le_trans _ (NFinite q)); [exact Hlo|]. cbn [js_le]. lra.
  - cbn [Math_max zero]. split; [exact I|]. split; [|exact Hhi].
    destruct lo; try contradiction; exact I.
  - cbn [Math_max zero]. split; [apply Qle_refl|]. split; [|exact H0].
    destruct lo; try contradiction. exact I.
Qed.

End JitterArithmetic.

(** ** How far rounding moves a delay *)

Section DelayAccuracy.
Local Open Scope Q_scope.

(** The unit roundoff, and the double nearest to 0.2 in terms of it. *)
Lemma roundoff_facts :
  0 < pow2 (-53) /\ pow2 (-53) <= 1 # 1000 /\
  pow2 (-52) == 2 * pow2 (-53) /\ pow2 (-51) == 4 * pow2 (-53) /\
  (3602879701896397 # 18014398509481984) == (1 # 5) * (1 + pow2 (-53) * (1 # 2)).
Proof.
  split; [apply pow2_pos|]. split; [vm_compute; discriminate|].
  split; [vm_compute; reflexivity|]. split; vm_compute; reflexivity.
Qed.

(** A rounded number in the normal range, within the unit roundoff. *)
Lemma round64_normal (x : Q) :
  pow2 (-1022) <= x -> x <= pow2 1023 ->
  exists r, round64 x = NFinite r /\
            x * (1 - pow2 (-53)) <= r /\ r <= x * (1 + pow2 (-53)).
Proof.
  intros Hlo Hhi. pose proof (pow2_pos (-1022)) as Hp.
  destruct (round64_finite x) as (r & Hr & _); [lra | exact Hhi|].
  exists r. split; [exact Hr|].
  destruct (round64_error x r Hlo Hr) as [H1 H2]. split; lra.
Qed.

(** Base plus and minus the jitter amount, against 0.8 and 1.2 times the
    base. *)
Lemma jitter_bounds (b : Q) :
  pow2 (-1000) <= b -> b <= pow2 1000 ->
  let amount := js_times (NFinite b) (round64 0.2) in
  exists lo hi,
    js_sub (NFinite b) amount = NFinite lo /\
    js_add (NFinite b) amount = NFinite hi /\
    (8 # 10) * b * (1 - pow2 (-52)) <= lo /\
    hi <= (12 # 10) * b * (1 + pow2 (-52)).
Proof.
  intros Hlo Hhi amount.
  destruct roundoff_facts as (He0 & He1 & He2 & _ & Hc).
  assert (Hsmall : pow2 (-1022) <= (1 # 8) * pow2 (-1000)).
  { vm_compute. discriminate. }
  assert (Hbig : 2 * pow2 1000 <= pow2 1023).
  { vm_compute. discriminate. }
  pose proof (pow2_pos (-1000)) as Hp.
  assert (Hc0 : (1 # 5) <= 3602879701896397 # 18014398509481984)
    by (vm_compute; discriminate).
  assert (Hc1 : (3602879701896397 # 18014398509481984) <= (1 # 4))
    by (vm_compute; discriminate).
  assert (Hamount : amount = round64 (b * (3602879701896397 # 18014398509481984))).
  { unfold amount. rewrite round64_fifth. reflexivity. }
  rewrite Hamount. clear Hamount amount.
  pose proof (round64_normal (b * (3602879701896397 # 18014398509481984))) as Hna.
  pose proof (fun a => round64_normal (b + - a)) as Hnl.
  pose proof (fun a => round64_normal (b + a)) as Hnh.
  set (c := 3602879701896397 # 18014398509481984) in *.
  set (e := pow2 (-53)) in *. set (e2 := pow2 (-52)) in *.
  set (tiny := pow2 (-1022)) in *.
  set (small := pow2 (-1000)) in *. set (big := pow2 1000) in *.
  set (huge := pow2 1023) in *. clearbody c e e2 tiny small big huge.
  assert (Hb0 : 0 < b) by lra.
  assert (Hee : 0 <= e * e) by nra.
  assert (Heee : 0 <= e * e * e) by (apply Qmult_le_0_compat; lra).
  assert (Hg1 : (8 # 10) * b * (1 - e2) == b * ((8 # 10) * (1 - 2 * e)))
    by (rewrite He2; ring).
  assert (Hg2 : (12 # 10) * b * (1 + e2) == b * ((12 # 10) * (1 + 2 * e)))
    by (rewrite He2; ring).
  assert (Hbc0 : b * (1 # 5) <= b * c) by (apply Qmult_le_l; assumption).
  assert (Hbc1 : b * c <= b * (1 # 4)) by (apply Qmult_le_l; assumption).
  destruct Hna as (a & Ha & Ha0 & Ha1); [lra | lra|].
  rewrite Ha. unfold js_sub. cbn [js_neg js_add].
  assert (Hcb : b * c == b * ((1 # 5) * (1 + e * (1 # 2)))) by (rewrite Hc; reflexivity).
  assert (Ha1' : a <= b * ((1 # 5) * (1 + e * (1 # 2)) * (1 + e))).
  { rewrite Hcb in Ha1. lra. }
  assert (Hab : a <= b * (3 # 10)).
  { apply Qle_trans with (1 := Ha1'). apply Qmult_le_l; [exact Hb0 | nra]. }
  assert (Ha' : 0 <= a).
  { apply Qle_trans with (2 := Ha0). apply Qmult_le_0_compat; lra. }
  destruct (Hnl a) as (lo & Hl & Hl0 & _); [lra | lra|].
  destruct (Hnh a) as (hi & Hh & _ & Hh1); [lra | lra|].
  exists lo, hi. split; [exact Hl|]. split; [exact Hh|].
  split.
  - apply Qle_trans with ((b + - a) * (1 - e)); [|exact Hl0].
    apply Qle_trans with (b * (1 - (1 # 5) * (1 + e * (1 # 2)) * (1 + e)) * (1 - e)).
    + assert (Hpoly : (8 # 10) * (1 - 2 * e)
                      <= (1 - (1 # 5) * (1 + e * (1 # 2)) * (1 + e)) * (1 - e)) by nra.
      apply (Qmult_le_l _ _ b Hb0) in Hpoly. lra.
    + apply Qmult_le_compat_r; [lra | lra].
  - apply Qle_trans with ((b + a) * (1 + e)); [exact Hh1|].
    apply Qle_trans with (b * (1 + (1 # 5) * (1 + e * (1 # 2)) * (1 + e)) * (1 + e)).
    + apply Qmult_le_compat_r; [lra | lra].
    + assert (Hpoly : (1 + (1 # 5) * (1 + e * (1 # 2)) * (1 + e)) * (1 + e)
                      <= (12 # 10) * (1 + 2 * e)) by nra.
      apply (Qmult_le_l _ _ b Hb0) in Hpoly. lra.
Qed.

(** Integer settings: the base delay is exact as long as the product is
    at most [2^53]. *)
Lemma baseDelay_exact (a k n : Z) (i m M : Q) :
  (0 < a)%Z -> (0 < k)%Z -> (0 <= n)%Z -> (a * k ^ n <= 2 ^ 53)%Z ->
  i == inject_Z a -> m == inject_Z k ->
  Math_min (js_times (NFinite i) (Math_pow m n)) (NFinite M)
  = NFinite (Qmin (inject_Z (a * k ^ n)) M).
Proof.
  intros Ha Hk Hn Hle Hi Hm.
  assert (Hkn : (0 < k ^ n)%Z) by (apply Z.pow_pos_nonneg; lia).
  assert (Hpow : Math_pow m n = NFinite (inject_Z (k ^ n))).
  { unfold Math_pow. destruct (n =? 0)%Z eqn:Hz.
    - apply Z.eqb_eq in Hz. subst n. reflexivity.
    - assert (Hneg : (n <? 0)%Z = false) by (apply Z.ltb_ge; lia).
      rewrite Hneg, andb_false_r.
      rewrite (round64_comp _ (inject_Z (k ^ n))).
      + apply round64_Z. nia.
      + rewrite Hm. symmetry. apply Zpower_Qpower. exact Hn. }
  rewrite Hpow. cbn [js_times].
  rewrite (round64_comp _ (inject_Z (a * k ^ n))).
  - rewrite round64_Z by lia. reflexivity.
  - rewrite Hi, inject_Z_mult. reflexivity.
Qed.

(** Settings of at least 1: the base delay is the exact one up to two
    roundings. *)
Lemma baseDelay_accuracy (n : Z) (i m M : Q) :
  1 <= i -> 1 <= m -> (0 <= n)%Z -> 0 <= M -> M <= pow2 1023 ->
  exists b,
    Math_min (js_times (NFinite i) (Math_pow m n)) (NFinite M) = NFinite b /\
    Qmin (i * m ^ n * (1 - pow2 (-51))) M <= b /\
    b <= Qmin (i * m ^ n * (1 + pow2 (-51))) M.
Proof.
  intros Hi Hm Hn HM0 HM1.
  destruct roundoff_facts as (He0 & He1 & _ & He4 & _).
  assert (Hsmall : pow2 (-1022) <= 1 # 2) by (vm_compute; discriminate).
  assert (Hx : 1 <= m ^ n) by (apply Qpower_1_le; assumption).
  set (x := m ^ n) in *.
  assert (Hp : exists p, Math_pow m n = p /\
            (p = NPosInf /\ pow2 1023 < x \/
             exists rp, p = NFinite rp /\
                        x * (1 - pow2 (-53)) <= rp /\ rp <= x * (1 + pow2 (-53)))).
  { unfold Math_pow. destruct (n =? 0)%Z eqn:Hz.
    - apply Z.eqb_eq in Hz. exists (NFinite 1). split; [reflexivity|]. right.
      exists 1. split; [reflexivity|]. unfold x. subst n.
      change (m ^ 0) with 1. split; lra.
    - assert (Hneg : (n <? 0)%Z = false) by (apply Z.ltb_ge; lia).
      rewrite Hneg, andb_false_r. fold x. exists (round64 x). split; [reflexivity|].
      destruct (round64_nonneg_cases x) as [(rp & Hrp & _) | Hinf]; [lra | |].
      + right. exists rp. split; [exact Hrp|].
        destruct (round64_error x rp) as [H1 H2]; [lra | exact Hrp|]. split; lra.
      + left. split; [exact Hinf|]. apply round64_overflow; [lra | exact Hinf]. }
  destruct Hp as (p & -> & Hp).
  pose proof (fun y r => round64_error y r) as Herr.
  pose proof round64_overflow as Hov.
  set (e := pow2 (-53)) in *. set (e4 := pow2 (-51)) in *.
  set (tiny := pow2 (-1022)) in *. set (huge := pow2 1023) in *.
  clearbody e e4 tiny huge x.
  assert (Hix : 1 <= i * x) by nra.
  assert (Hg : i * x * e4 == 4 * (i * x * e)) by (rewrite He4; ring).
  assert (Hlow : i * x * (1 - e4) <= i * x) by nra.
  assert (Hup : i * x <= i * x * (1 + e4)) by nra.
  assert (Hinf : js_times (NFinite i) NPosInf = NPosInf).
  { cbn [js_times]. destruct (Qeq_bool i 0) eqn:Hz.
    - apply Qeq_bool_iff in Hz. lra.
    - destruct (Qle_bool 0 i) eqn:Hle; [reflexivity|].
      assert (Hle' : Qle_bool 0 i = true) by (apply Qle_bool_iff; lra). congruence. }
  destruct Hp as [[-> Hover] | (rp & -> & Hrp0 & Hrp1)].
  - rewrite Hinf. exists M. split; [reflexivity|]. split; [apply Q.le_min_r|].
    apply Q.min_glb; [|apply Qle_refl]. nra.
  - cbn [js_times].
    assert (Hi0 : 0 < i) by lra.
    assert (Hy0 : i * (x * (1 - e)) <= i * rp) by (apply Qmult_le_l; assumption).
    assert (Hy1 : i * rp <= i * (x * (1 + e))) by (apply Qmult_le_l; assumption).
    assert (Hxe : 0 <= i * x * e) by (apply Qmult_le_0_compat; lra).
    assert (Hxee : e * (i * x * e) <= (1 # 1000) * (i * x * e))
      by (apply Qmult_le_compat_r; [exact He1 | exact Hxe]).
    assert (Hxee0 : 0 <= i * x * e * e) by (apply Qmult_le_0_compat; lra).
    assert (Hxe1 : i * x * e <= i * x * (1 # 1000))
      by (apply Qmult_le_l; [lra | exact He1]).
    assert (Hirp : (1 # 2) <= i * rp) by lra.
    assert (Hye0 : i * (x * (1 - e)) * e <= i * rp * e)
      by (apply Qmult_le_compat_r; lra).
    assert (Hye1 : i * rp * e <= i * (x * (1 + e)) * e)
      by (apply Qmult_le_compat_r; lra).
    destruct (round64_nonneg_cases (i * rp)) as [(re & Hre & _) | Hover]; [lra | |].
    + rewrite Hre. exists (Qmin re M). split; [reflexivity|].
      destruct (Herr (i * rp) re) as [H1 H2]; [lra | exact Hre|].
      split; apply Q.min_le_compat_r; lra.
    + rewrite Hover. exists M. split; [reflexivity|]. split; [apply Q.le_min_r|].
      apply Q.min_glb; [|apply Qle_refl].
      apply Hov in Hover; [|lra]. lra.
Qed.

End DelayAccuracy.

(** ** Draws that are doubles *)

Section UnitInterval.
Local Open Scope Q_scope.

(** The largest double below 1. *)
Lemma double_below_one (r : Q) : IsDouble r -> r < 1 -> r <= 1 - pow2 (-53).
Proof.
  intros (q & Hq & Hqr) Hr1.
  destruct (Qlt_le_dec (1 - pow2 (-53)) r) as [Hnear | Hle]; [|exact Hle].
  exfalso.
  assert (Hhalf : (1 # 2) <= 1 - pow2 (-53)) by (vm_compute; discriminate).
  assert (Hr0 : 0 < r) by lra.
  assert (Hb : binade r = (-1)%Z).
  { apply binade_unique; [exact Hr0|]. change (pow2 (-1)) with (1 # 2).
    change (pow2 (-1 + 1)) with 1. split; lra. }
  destruct (round64_finite_pos r q Hr0 Hq) as [Hqn _].
  rewrite nearest_unfold in Hqn. unfold exponent in Hqn. rewrite Hb in Hqn.
  change (Z.max (-1) (-1022) - 52)%Z with (-53)%Z in Hqn.
  set (z := roundHalfEven (r / pow2 (-53))) in *.
  assert (Hrz : r * pow2 53 == inject_Z z).
  { rewrite <- Hqr, Hqn. rewrite <- Qmult_assoc, <- pow2_plus.
    change (pow2 (-53 + 53)) with 1. ring. }
  assert (Hone : pow2 (-53) * pow2 53 == 1) by (rewrite <- pow2_plus; reflexivity).
  assert (Hc1 : inject_Z (2 ^ 53 - 1) == pow2 53 - 1) by (vm_compute; reflexivity).
  assert (Hc2 : inject_Z (2 ^ 53) == pow2 53) by (vm_compute; reflexivity).
  pose proof (pow2_pos 53) as Hp.
  assert (Hm1 : (1 - pow2 (-53)) * pow2 53 < r * pow2 53)
    by (apply Qmult_lt_compat_r; assumption).
  assert (Hm2 : r * pow2 53 < 1 * pow2 53)
    by (apply Qmult_lt_compat_r; assumption).
  assert (Hlo : inject_Z (2 ^ 53 - 1) < inject_Z z).
  { rewrite Hc1, <- Hrz. set (a := pow2 53) in *. set (b := pow2 (-53)) in *.
    clearbody a b. lra. }
  assert (Hhi : inject_Z z < inject_Z (2 ^ 53)).
  { rewrite Hc2, <- Hrz. lra. }
  rewrite <- Zlt_Qlt in Hlo, Hhi. lia.
Qed.

(** [Math.random() * 2 - 1] for a draw that is a double below 1. *)
Lemma jitter_unit_strict (r : Q) :
  IsDouble r -> 0 <= r -> r < 1 ->
  exists u, js_sub (js_times (NFinite r) (NFinite 2)) (NFinite 1) = NFinite u /\
            - (1) <= u /\ u < 1.
Proof.
  intros Hd H0 H1. pose proof (double_below_one r Hd H1) as Hr.
  destruct (jitter_unit r H0 (Qlt_le_weak _ _ H1)) as (u & Hu & Hu0 & _).
  exists u. split; [exact Hu|]. split; [exact Hu0|].
  assert (Hd2 : IsDouble (inject_Z (2 ^ 53 - 1) * pow2 (-52))).
  { exists (Qred (inject_Z (2 ^ 53 - 1) * pow2 (-52))). split; [|apply Qred_correct].
    apply round64_repr_pos; [split; reflexivity | lia | vm_compute; reflexivity]. }
  assert (Hd1 : IsDouble (inject_Z (2 ^ 52 - 1) * pow2 (-52))).
  { exists (Qred (inject_Z (2 ^ 52 - 1) * pow2 (-52))). split; [|apply Qred_correct].
    apply round64_repr_pos; [split; reflexivity | lia | vm_compute; reflexivity]. }
  assert (Hv2 : inject_Z (2 ^ 53 - 1) * pow2 (-52) == 2 - 2 * pow2 (-53))
    by (vm_compute; reflexivity).
  assert (Hv1 : inject_Z (2 ^ 52 - 1) * pow2 (-52) == 1 - 2 * pow2 (-53))
    by (vm_compute; reflexivity).
  pose proof (pow2_pos (-53)) as He.
  cbn [js_times] in Hu.
  pose proof (round64_double _ (r * 2) Hd2 ltac:(lra)) as Ht.
  destruct (round64 (r * 2)) as [t| | |] eqn:Htv; try contradiction.
  - unfold js_sub in Hu. cbn [js_neg js_add js_le] in Hu, Ht.
    pose proof (round64_double _ (t + - (1)) Hd1 ltac:(lra)) as Hv.
    rewrite Hu in Hv. cbn [js_le] in Hv. lra.
  - discriminate Hu.
Qed.

End UnitInterval.

(** ** [calculateDelay] *)

Section DelayFacts.
Import Retry.
Context {E : ErrorModel} {T : Type} {H : HostModel E T}.

Lemma Math_pow_mono (m : Q) (n : Z) :
  (1 <= m)%Q -> js_le (Math_pow m n) (Math_pow m (n + 1)).
Proof.
  intros Hm. unfold Math_pow.
  assert (Hz : Qeq_bool m 0 = false).
  { destruct (Qeq_bool m 0) eqn:Hz; [|reflexivity].
    apply Qeq_bool_iff in Hz. lra. }
  rewrite Hz. cbn [andb].
  assert (Hone : round64 1 = NFinite 1%Q) by (vm_compute; reflexivity).
  assert (Hstep : (m ^ n <= m ^ (n + 1))%Q)
    by (apply Qpower_le_compat_l; [lia | exact Hm]).
  destruct (Z.eqb_spec n 0) as [-> | Hn0].
  - change (0 + 1 =? 0) with false. cbv iota. rewrite <- Hone.
    apply round64_mono. exact Hstep.
  - destruct (Z.eqb_spec (n + 1) 0) as [Hn1 | Hn1].
    + rewrite <- Hone. apply round64_mono. rewrite Hn1 in Hstep. exact Hstep.
    + apply round64_mono. exact Hstep.
Qed.

(** The delay without jitter is a finite number between 0 and
    [maxDelay]. *)
Lemma calculateDelay_base (n : Z) (i M m : Q) :
  (0 < i)%Q -> (0 <= m)%Q -> (0 <= M)%Q ->
  exists b,
    Math_min (js_times (NFinite i) (Math_pow m n)) (NFinite M) = NFinite b /\
    (0 <= b)%Q /\ (b <= M)%Q.
Proof.
  intros Hi Hm HM. apply Math_min_cap; [|exact HM].
  apply js_times_nonneg; [exact Hi | apply Math_pow_nonneg, Hm].
Qed.

Lemma calculateDelay_plain (n : Z) (i M m : Q) (h : Host) :
  calculateDelay n i M m false h
  = (Math_min (js_times (NFinite i) (Math_pow m n)) (NFinite M), h).
Proof. reflexivity. Qed.

Lemma calculateDelay_jittered (n : Z) (i M m : Q) (h : Host) :
  fst (calculateDelay n i M m true h)
  = let base := Math_min (js_times (NFinite i) (Math_pow m n)) (NFinite M) in
    Math_max zero
      (js_add base
         (js_times (js_sub (js_times (NFinite (fst (Math_random h))) (NFinite 2))
                      (NFinite 1))
            (js_times base (round64 0.2)))).
Proof. unfold calculateDelay. destruct (Math_random h). reflexivity. Qed.

(** With jitter, the delay is a number between the base less the jitter
    amount and the base plus the jitter amount, and not below 0. *)
Lemma calculateDelay_jitter (n : Z) (i M m b a : Q) (h : Host) :
  (0 <= fst (Math_random h))%Q -> (fst (Math_random h) <= 1)%Q ->
  Math_min (js_times (NFinite i) (Math_pow m n)) (NFinite M) = NFinite b ->
  (0 <= b)%Q ->
  js_times (NFinite b) (round64 0.2) = NFinite a ->
  let jittered := fst (calculateDelay n i M m true h) in
  js_le zero jittered /\
  js_le (js_sub (NFinite b) (NFinite a)) jittered /\
  js_le jittered (js_add (NFinite b) (NFinite a)).
Proof.
  intros Hr0 Hr1 Hb Hb0 Ha jittered. unfold jittered.
  rewrite calculateDelay_jittered. cbv zeta. rewrite Hb, Ha.
  assert (Hda : IsDouble a).
  { rewrite round64_fifth in Ha. exact (round64_idem _ _ Ha). }
  assert (Ha0 : (0 <= a)%Q).
  { rewrite round64_fifth in Ha. cbn [js_times] in Ha.
    pose proof (round64_nonneg (b * (3602879701896397 # 18014398509481984))) as Hn.
    rewrite Ha in Hn. apply Hn. apply Qmult_le_0_compat; [exact Hb0|].
    vm_compute. discriminate. }
  destruct (jitter_unit _ Hr0 Hr1) as (u & -> & Hu0 & Hu1).
  destruct (jitter_value u a Hda Ha0 Hu0 Hu1) as (v & -> & Hv0 & Hv1).
  unfold js_sub. cbn [js_neg js_add].
  apply Math_max_zero.
  - apply round64_notNaN.
  - apply round64_mono. lra.
  - apply round64_mono. lra.
  - apply round64_nonneg. lra.
Qed.

(** The jitter amount of a base up to [2^1023] is finite. *)
Lemma jitterAmount_finite (b : Q) :
  (0 <= b)%Q -> (b <= pow2 1023)%Q ->
  exists a, js_times (NFinite b) (round64 0.2) = NFinite a /\ (0 <= a)%Q.
Proof.
  intros H0 H1. destruct (jitter_amount b H0 H1) as (a & Ha & _ & Ha0).
  exists a. auto.
Qed.

(** A delay is at most the longest one, and finite when that one is. *)
Lemma calculateDelay_le_longest (n : Z) (i M m : Q) (jitter : bool) (h : Host)
    (bound : Q) :
  (0 < i)%Q -> (0 <= m)%Q -> (0 <= M)%Q ->
  (0 <= fst (Math_random h))%Q -> (fst (Math_random h) <= 1)%Q ->
  js_le (longestDelay n i M m jitter) (NFinite bound) ->
  exists d, fst (calculateDelay n i M m jitter h) = NFinite d /\
            (0 <= d)%Q /\ (d <= bound)%Q.
Proof.
  intros Hi Hm HM Hr0 Hr1 Hbound. unfold longestDelay in Hbound. cbv zeta in Hbound.
  destruct (calculateDelay_base n i M m Hi Hm HM) as (b & Hb & Hb0 & Hb1).
  destruct jitter.
  - rewrite Hb in Hbound.
    assert (Hn : js_le zero (js_times (NFinite b) (round64 0.2))).
    { rewrite round64_fifth. apply round64_nonneg.
      apply Qmult_le_0_compat; [exact Hb0 | vm_compute; discriminate]. }
    destruct (js_times (NFinite b) (round64 0.2)) as [a| | |] eqn:Ha;
      try contradiction.
    destruct (calculateDelay_jitter n i M m b a h Hr0 Hr1 Hb Hb0 Ha)
      as (Hj0 & _ & Hj1).
    pose proof (js_le_trans _ _ _ Hj1 Hbound) as Hj.
    destruct (fst (calculateDelay n i M m true h)) as [d| | |];
      cbn [js_le zero] in Hj0, Hj; try contradiction.
    exists d. auto.
  - rewrite calculateDelay_plain. cbn [fst]. rewrite Hb in Hbound |- *.
    exists b. auto.
Qed.

End DelayFacts.

(** ** The delay formula *)

Section DelayTheorems.
Import Retry.
Context {E : ErrorModel} {T : Type} {H : HostModel E T}.

(** With jitter, the longest delay of a [maxDelay] between 1 and
    [2^1000] is 1.2 times [maxDelay], up to rounding. *)
Lemma longestDelay_le_max (n : Z) (i M m : Q) (jitter : bool) :
  (0 < i)%Q -> (0 <= m)%Q -> (1 <= M)%Q -> (M <= pow2 1000)%Q ->
  js_le (longestDelay n i M m jitter)
    (NFinite (M * (if jitter then (12 # 10) * (1 + pow2 (-52)) else 1))%Q).
Proof.
  intros Hi Hm HM0 HM1. unfold longestDelay. cbv zeta.
  destruct (calculateDelay_base n i M m Hi Hm ltac:(lra)) as (b & -> & Hb0 & Hb1).
  destruct jitter; [|cbn [js_le]; lra].
  assert (Hsmall : (pow2 (-1000) <= 1)%Q) by (vm_compute; discriminate).
  destruct (jitter_bounds M ltac:(lra) HM1) as (lo & hi & _ & Hhi & _ & Hbound).
  rewrite round64_fifth in Hhi |- *. cbn [js_times] in Hhi |- *.
  set (c := (3602879701896397 # 18014398509481984)%Q) in *.
  assert (Hc : (0 <= c)%Q) by (vm_compute; discriminate).
  assert (Hbc : (b * c <= M * c)%Q) by (apply Qmult_le_compat_r; assumption).
  pose proof (round64_mono _ _ Hbc) as Hmono.
  pose proof (round64_nonneg (b * c) ltac:(apply Qmult_le_0_compat; assumption))
    as Hnonneg.
  destruct (round64 (M * c)) as [aM| | |]; try discriminate Hhi.
  destruct (round64 (b * c)) as [ab| | |]; try contradiction.
  cbn [js_add js_le zero] in *.
  assert (Hsum : (b + ab <= M + aM)%Q) by lra.
  pose proof (round64_mono _ _ Hsum) as Hle. rewrite Hhi in Hle.
  apply (js_le_trans _ _ _ Hle). cbn [js_le]. lra.
Qed.

(** C5. For every attempt index [n], positive [initialDelay] and
    [backoffMultiplier] and a positive [maxDelay] of at most [2^1023]:
    without jitter the delay is
    [Math.min(initialDelay * Math.pow(backoffMultiplier, n), maxDelay)]
    in double arithmetic and no random number is drawn; it is a finite
    number between 0 and [maxDelay]; it is exactly
    [min(initialDelay * backoffMultiplier^n, maxDelay)] when the two
    settings are whole numbers, [n] is not negative and the product is
    at most [2^53] (100 then 200 for [initialDelay = 100] and multiplier
    2, capped at [maxDelay]), and within a relative error of [2^-51] of
    it when the two settings are at least 1; the loop sleeps that delay
    before the retry that follows attempt [n].  With jitter, for the
    draw [r] of
    [Math.random] and [u = r * 2 - 1], the delay is
    [max(0, base + u * (base * 0.2))] in double arithmetic; when
    [0 <= r < 1] then [-1 <= u <= 1], with [u < 1] for a draw that is a
    double, the delay is not negative and lies between [base] less and
    [base] plus the jitter amount, and for a [base] between [2^-1000] and
    [2^1000] it lies within 20% of [base] up to a relative error of
    [2^-52]. *)
Theorem calculateDelay_formula
    (n : Z) (initialDelay maxDelay backoffMultiplier : Q) (h : Host) :
  (0 < initialDelay)%Q -> (0 < maxDelay)%Q -> (maxDelay <= pow2 1023)%Q ->
  (0 < backoffMultiplier)%Q ->
  let base :=
    Math_min (js_times (NFinite initialDelay) (Math_pow backoffMultiplier n))
      (NFinite maxDelay) in
  let amount := js_times base (round64 0.2) in
  let jittered :=
    fst (calculateDelay n initialDelay maxDelay backoffMultiplier true h) in
  let r := fst (Math_random h) in
  let u := js_sub (js_times (NFinite r) (NFinite 2)) (NFinite 1) in
  calculateDelay n initialDelay maxDelay backoffMultiplier false h = (base, h) /\
  (exists b, base = NFinite b /\ (0 <= b)%Q /\ (b <= maxDelay)%Q) /\
  (forall a k : Z,
     0 < a -> 0 < k -> 0 <= n -> a * k ^ n <= 2 ^ 53 ->
     (initialDelay == inject_Z a)%Q -> (backoffMultiplier == inject_Z k)%Q ->
     base = NFinite (Qmin (inject_Z (a * k ^ n)) maxDelay)) /\
  ((1 <= initialDelay)%Q -> (1 <= backoffMultiplier)%Q -> 0 <= n ->
   exists b,
     base = NFinite b /\
     (Qmin (initialDelay * backoffMultiplier ^ n * (1 - pow2 (-51))) maxDelay
      <= b)%Q /\
     (b <= Qmin (initialDelay * backoffMultiplier ^ n * (1 + pow2 (-51)))
             maxDelay)%Q) /\
  calculateDelay 0 100 maxDelay 2 false h = (NFinite (Qmin 100 maxDelay), h) /\
  calculateDelay 1 100 maxDelay 2 false h = (NFinite (Qmin 200 maxDelay), h) /\
  (forall (o : Settings) (w : Run),
     sleeps (backoff o n w) =
     sleeps w ++ [fst (calculateDelay n (initialDelay' o) (maxDelay' o)
                         (backoffMultiplier' o) (jitter' o) (host w))]) /\
  jittered = Math_max zero (js_add base (js_times u amount)) /\
  ((0 <= r)%Q -> (r < 1)%Q ->
   (exists v, u = NFinite v /\ (- (1) <= v)%Q /\ (v <= 1)%Q /\
              (IsDouble r -> (v < 1)%Q)) /\
   js_le zero jittered /\
   js_le (js_sub base amount) jittered /\
   js_le jittered (js_add base amount) /\
   forall b,
     base = NFinite b -> (pow2 (-1000) <= b)%Q -> (b <= pow2 1000)%Q ->
     exists j,
       jittered = NFinite j /\
       ((8 # 10) * b * (1 - pow2 (-52)) <= j)%Q /\
       (j <= (12 # 10) * b * (1 + pow2 (-52)))%Q).
Proof.
  intros Hi HM0 HM1 Hm base amount jittered r u.
  destruct (calculateDelay_base n initialDelay maxDelay backoffMultiplier Hi
              (Qlt_le_weak _ _ Hm) (Qlt_le_weak _ _ HM0)) as (b & Hb & Hb0 & Hb1).
  fold base in Hb.
  split; [reflexivity|].
  split; [exists b; auto|].
  split.
  { intros a k Ha Hk Hn Hle Hia Hmk.
    exact (baseDelay_exact a k n _ _ _ Ha Hk Hn Hle Hia Hmk). }
  split.
  { intros Hi1 Hm1 Hn.
    exact (baseDelay_accuracy n _ _ _ Hi1 Hm1 Hn (Qlt_le_weak _ _ HM0) HM1). }
  split.
  { rewrite calculateDelay_plain. f_equal;
    exact (baseDelay_exact 100 2 0 100 2 maxDelay ltac:(lia) ltac:(lia) ltac:(lia)
             ltac:(vm_compute; discriminate) ltac:(reflexivity) ltac:(reflexivity)). }
  split.
  { rewrite calculateDelay_plain. f_equal;
    exact (baseDelay_exact 100 2 1 100 2 maxDelay ltac:(lia) ltac:(lia) ltac:(lia)
             ltac:(vm_compute; discriminate) ltac:(reflexivity) ltac:(reflexivity)). }
  split; [intros o w; apply backoff_sleeps|].
  split; [exact (calculateDelay_jittered n _ _ _ h)|].
  intros Hr0 Hr1.
  destruct (jitterAmount_finite b Hb0 (Qle_trans _ _ _ Hb1 HM1)) as (a & Ha & Ha0).
  assert (Hamount : amount = NFinite a) by (unfold amount; rewrite Hb; exact Ha).
  destruct (calculateDelay_jitter n _ _ _ b a h Hr0 (Qlt_le_weak _ _ Hr1) Hb Hb0 Ha)
    as (Hj0 & Hj1 & Hj2).
  fold jittered in Hj0, Hj1, Hj2.
  split.
  { destruct (jitter_unit r Hr0 (Qlt_le_weak _ _ Hr1)) as (v & Hv & Hv0 & Hv1).
    exists v. split; [exact Hv|]. split; [exact Hv0|]. split; [exact Hv1|].
    intros Hd. destruct (jitter_unit_strict r Hd Hr0 Hr1) as (v' & Hv' & _ & Hlt).
    assert (Heq : NFinite v = NFinite v') by (rewrite <- Hv; exact Hv').
    injection Heq as ->. exact Hlt. }
  rewrite Hb, Hamount.
  split; [exact Hj0|]. split; [exact Hj1|]. split; [exact Hj2|].
  intros b' Hb' Hlo Hhi. injection Hb' as <-.
  destruct (jitter_bounds b Hlo Hhi) as (lo & hi & Hl & Hh & Hl0 & Hh1).
  rewrite Ha in Hl, Hh. rewrite Hl in Hj1. rewrite Hh in Hj2.
  destruct jittered as [j| | |]; cbn [js_le] in Hj1, Hj2; try contradiction.
  exists j. split; [reflexivity|]. split; lra.
Qed.

(** X7. Without jitter, for a positive [initialDelay] and a multiplier
    of at least 1, the delay never decreases from one attempt to the next
    and never exceeds [maxDelay]. *)
Theorem calculateDelay_monotone_capped
    (n : Z) (initialDelay maxDelay backoffMultiplier : Q) (h : Host) :
  (0 < initialDelay)%Q -> (1 <= backoffMultiplier)%Q ->
  let delay := fun k =>
    fst (calculateDelay k initialDelay maxDelay backoffMultiplier false h) in
  js_le (delay n) (delay (n + 1)) /\ js_le (delay (n + 1)) (NFinite maxDelay).
Proof.
  intros Hi Hb delay. unfold delay. rewrite !calculateDelay_plain. cbn [fst].
  assert (Hpow : forall k, js_le zero (Math_pow backoffMultiplier k)).
  { intros k. apply Math_pow_nonneg. lra. }
  split.
  - apply Math_min_mono, js_times_mono; [exact Hi | apply Hpow|].
    apply Math_pow_mono, Hb.
  - pose proof (js_times_nonneg initialDelay _ Hi (Hpow (n + 1))) as Hn.
    destruct (js_times (NFinite initialDelay) (Math_pow backoffMultiplier (n + 1)));
      try contradiction; cbn [Math_min js_le]; [apply Q.le_min_r | apply Qle_refl].
Qed.

End DelayTheorems.

(** ** The time spent waiting *)

Section RetryWaits.
Import Retry.
Context {E : ErrorModel} {T : Type} {H : HostModel E T}.

(** X1. With jitter switched off and a non-negative [maxRetries], the
    delays [retry] sleeps are the backoff schedule: one sleep after each
    attempt but the last, the sleep after attempt [n] being
    [Math.min(initialDelay * Math.pow(backoffMultiplier, n), maxDelay)];
    for whole-number settings whose largest product is at most [2^53]
    that is exactly [min(initialDelay * backoffMultiplier^n, maxDelay)]. *)
Theorem retry_backoff_schedule (options : RetryOptions E) (w : Run) :
  let o := destructure options in
  0 <= maxRetries' o -> jitter' o = false ->
  exists res w',
    retry options w = Some (res, w') /\
    sleeps w' =
    sleeps w ++
    map (fun n => Math_min (js_times (NFinite (initialDelay' o))
                              (Math_pow (backoffMultiplier' o) n))
                    (NFinite (maxDelay' o)))
        (seqZ 0 (attempts res - 1)) /\
    forall a k : Z,
      0 < a -> 0 < k -> a * k ^ maxRetries' o <= 2 ^ 53 ->
      (initialDelay' o == inject_Z a)%Q -> (backoffMultiplier' o == inject_Z k)%Q ->
      sleeps w' =
      sleeps w ++
      map (fun n => NFinite (Qmin (inject_Z (a * k ^ n)) (maxDelay' o)))
          (seqZ 0 (attempts res - 1)).
Proof.
  intros o Hmax Hjitter. unfold retry. cbv zeta. fold o.
  set (delay := fun n : Z =>
    Math_min (js_times (NFinite (initialDelay' o)) (Math_pow (backoffMultiplier' o) n))
      (NFinite (maxDelay' o))).
  destruct (retryLoop_cases o (Date_now (host w))
    (fun attempt w0 res w' =>
       attempt + 1 <= attempts res /\ attempts res <= maxRetries' o + 1 /\
       sleeps w' = sleeps w0 ++ map delay (seqZ attempt (attempts res - 1 - attempt))))
    with (fuel := loopBound o) (attempt := 0) (lastError := @None ErrorObj) (w := w)
    as (res & w' & Hrun & _ & Hle & Hsleeps).
  - intros attempt w0 v Hatt _ _. cbn [attempts].
    replace (attempt + 1 - 1 - attempt) with 0 by lia.
    rewrite invoke_sleeps, app_nil_r. split; [lia|]. split; [lia | reflexivity].
  - intros w0 r _ _. cbn [attempts failure].
    replace (maxRetries' o + 1 - 1 - maxRetries' o) with 0 by lia.
    rewrite invoke_sleeps, app_nil_r. split; [lia|]. split; [lia | reflexivity].
  - intros attempt w0 e Hatt _ _. cbn [attempts failure].
    replace (attempt + 1 - 1 - attempt) with 0 by lia.
    rewrite invoke_sleeps, app_nil_r. split; [lia|]. split; [lia | reflexivity].
  - intros attempt w0 res w' _ _ (Hatt & Hle & Hsleeps). split; [lia|].
    split; [exact Hle|].
    rewrite Hsleeps, backoff_sleeps, invoke_sleeps, Hjitter.
    rewrite (seqZ_cons attempt) by lia. cbn [map].
    rewrite <- app_assoc. cbn [app]. do 3 f_equal.
    unfold Z.succ, Z.pred. f_equal. lia.
  - exact Hmax.
  - apply loopBound_enough.
  - exists res, w'. split; [exact Hrun|].
    assert (Hschedule : sleeps w' = sleeps w ++ map delay (seqZ 0 (attempts res - 1))).
    { rewrite Hsleeps. do 3 f_equal. lia. }
    split; [exact Hschedule|].
    intros a k Ha Hk Hprod Hi Hm. rewrite Hschedule. f_equal.
    apply map_ext_in. intros n Hin.
    apply list_elem_of_In, elem_of_seqZ in Hin.
    apply baseDelay_exact; try assumption; try lia.
    apply Z.le_trans with (2 := Hprod).
    apply Z.mul_le_mono_nonneg_l; [lia|].
    apply Z.pow_le_mono_r; lia.
Qed.

(** X2. With a non-negative [maxRetries], a positive [initialDelay], a
    non-negative multiplier, a [maxDelay] between 1 and [2^1000] and a
    random source that draws from [0, 1): [retry] sleeps once between
    two attempts and never after the last one, so at most [maxRetries]
    times, and every sleep is a finite number between 0 and [maxDelay],
    or [1.2 * maxDelay] up to a relative error of [2^-52] under jitter. *)
Theorem retry_sleeps_bounded (options : RetryOptions E) (w : Run) :
  let o := destructure options in
  0 <= maxRetries' o ->
  (0 < initialDelay' o)%Q -> (0 <= backoffMultiplier' o)%Q ->
  (1 <= maxDelay' o)%Q -> (maxDelay' o <= pow2 1000)%Q ->
  (forall h, (0 <= fst (Math_random h))%Q /\ (fst (Math_random h) < 1)%Q) ->
  exists res w' delays,
    retry options w = Some (res, w') /\
    sleeps w' = sleeps w ++ map NFinite delays /\
    Z.of_nat (length delays) = attempts res - 1 /\
    Z.of_nat (length delays) <= maxRetries' o /\
    Forall (fun d =>
              (0 <= d)%Q /\
              (d <= maxDelay' o
                    * (if jitter' o then (12 # 10) * (1 + pow2 (-52)) else 1))%Q)
           delays.
Proof.
  intros o Hmax Hi Hb Hm0 Hm1 Hrandom. unfold retry. cbv zeta. fold o.
  assert (Hm : (0 <= maxDelay' o)%Q) by lra.
  destruct (retryLoop_cases o (Date_now (host w))
    (fun attempt w0 res w' =>
       exists delays,
         sleeps w' = sleeps w0 ++ map NFinite delays /\
         Z.of_nat (length delays) = attempts res - 1 - attempt /\
         attempts res <= maxRetries' o + 1 /\
         Forall (fun d =>
                   (0 <= d)%Q /\
                   (d <= maxDelay' o
                         * (if jitter' o then (12 # 10) * (1 + pow2 (-52)) else 1))%Q)
                delays))
    with (fuel := loopBound o) (attempt := 0) (lastError := @None ErrorObj) (w := w)
    as (res & w' & Hrun & delays & Hsleeps & Hlen & Hle & Hall).
  - intros attempt w0 v Hle _ _. exists []. cbn [attempts length map].
    rewrite invoke_sleeps, app_nil_r. repeat split; [lia | lia | constructor].
  - intros w0 r _ _. exists []. cbn [attempts failure length map].
    rewrite invoke_sleeps, app_nil_r. repeat split; [lia | lia | constructor].
  - intros attempt w0 e Hle _ _. exists []. cbn [attempts failure length map].
    rewrite invoke_sleeps, app_nil_r. repeat split; [lia | lia | constructor].
  - intros attempt w0 res w' Hlt _ (delays & Hsleeps & Hlen & Hle & Hall).
    destruct (Hrandom (host (snd (invoke w0)))) as [Hr0 Hr1].
    destruct (calculateDelay_le_longest attempt _ _ _ (jitter' o) _ _
                Hi Hb Hm Hr0 (Qlt_le_weak _ _ Hr1)
                (longestDelay_le_max attempt _ _ _ (jitter' o) Hi Hb Hm0 Hm1))
      as (d & Hd & Hd0 & Hd1).
    exists (d :: delays). rewrite Hsleeps, backoff_sleeps, invoke_sleeps, Hd.
    rewrite <- app_assoc. cbn [app length map].
    split; [reflexivity|]. split; [lia|]. split; [exact Hle|].
    constructor; [split; assumption | exact Hall].
  - exact Hmax.
  - apply loopBound_enough.
  - exists res, w', delays. split; [exact Hrun|]. split; [exact Hsleeps|].
    split; [lia|]. split; [lia | exact Hall].
Qed.

Lemma Qsum_nonneg (l : list Q) : Forall (fun d => (0 <= d)%Q) l -> (0 <= Qsum l)%Q.
Proof.
  induction 1 as [|d l Hd _ IH]; cbn [Qsum fold_right]; [lra|].
  fold (Qsum l). lra.
Qed.

(** The sleeps of a call add up to at most the sum of any bounds of the
    longest delays. *)
Lemma retry_waits (options : RetryOptions E) (w : Run) (bound : Z -> Q) :
  let o := destructure options in
  (forall h, (0 <= fst (Math_random h))%Q /\ (fst (Math_random h) < 1)%Q) ->
  0 <= maxRetries' o ->
  (0 < initialDelay' o)%Q -> (0 <= backoffMultiplier' o)%Q ->
  (0 <= maxDelay' o)%Q ->
  (forall n, 0 <= n < maxRetries' o ->
     js_le (longestDelay n (initialDelay' o) (maxDelay' o) (backoffMultiplier' o)
              (jitter' o))
       (NFinite (bound n))) ->
  waitsAtMost options w (maxRetries' o + 1)
    (Qsum (map bound (seqZ 0 (maxRetries' o)))).
Proof.
  intros o Hrandom Hmax Hi Hb Hm Hbound. unfold waitsAtMost, retry. cbv zeta. fold o.
  assert (Hdelay : forall n h, 0 <= n < maxRetries' o ->
    exists d, fst (calculateDelay n (initialDelay' o) (maxDelay' o)
                     (backoffMultiplier' o) (jitter' o) h) = NFinite d /\
              (0 <= d)%Q /\ (d <= bound n)%Q).
  { intros n h Hn. destruct (Hrandom h) as [Hr0 Hr1].
    exact (calculateDelay_le_longest n _ _ _ (jitter' o) h (bound n)
             Hi Hb Hm Hr0 (Qlt_le_weak _ _ Hr1) (Hbound n Hn)). }
  assert (Hbounds : forall first count, 0 <= first ->
    first + count <= maxRetries' o ->
    (0 <= Qsum (map bound (seqZ first count)))%Q).
  { intros first count Hfirst Hlast.
    apply Qsum_nonneg, Stdlib.Lists.List.Forall_forall.
    intros d Hin. apply in_map_iff in Hin as (n & <- & Hin).
    apply list_elem_of_In, elem_of_seqZ in Hin.
    destruct (Hdelay n (host w) ltac:(lia)) as (d & _ & Hd0 & Hd1). lra. }
  destruct (retryLoop_cases o (Date_now (host w))
    (fun attempt w0 res w' =>
       0 <= attempt ->
       exists delays,
         sleeps w' = sleeps w0 ++ map NFinite delays /\
         attempts res <= maxRetries' o + 1 /\
         (Qsum delays <=
          Qsum (map bound (seqZ attempt (maxRetries' o - attempt))))%Q))
    with (fuel := loopBound o) (attempt := 0) (lastError := @None ErrorObj)
         (w := w)
    as (res & w' & Hrun & Hres).
  - intros attempt w0 v Hle _ _ H0. exists []. cbn [attempts map].
    rewrite invoke_sleeps, app_nil_r. split; [reflexivity|]. split; [lia|].
    cbn [Qsum fold_right]. apply Hbounds; lia.
  - intros w0 r _ _ H0. exists []. cbn [attempts failure map].
    rewrite invoke_sleeps, app_nil_r. split; [reflexivity|]. split; [lia|].
    cbn [Qsum fold_right]. apply Hbounds; lia.
  - intros attempt w0 e Hle _ _ H0. exists []. cbn [attempts failure map].
    rewrite invoke_sleeps, app_nil_r. split; [reflexivity|]. split; [lia|].
    cbn [Qsum fold_right]. apply Hbounds; lia.
  - intros attempt w0 res w' Hlt _ IH H0.
    destruct (IH ltac:(lia)) as (delays & Hsleeps & Hle & Hsum).
    destruct (Hdelay attempt (host (snd (invoke w0))) ltac:(lia))
      as (d & Hd & Hd0 & Hd1).
    exists (d :: delays). rewrite Hsleeps, backoff_sleeps, invoke_sleeps, Hd.
    rewrite <- app_assoc. cbn [app map]. split; [reflexivity|]. split; [exact Hle|].
    rewrite (seqZ_cons attempt) by lia. cbn [map Qsum fold_right].
    fold (Qsum delays).
    fold (Qsum (map bound (seqZ (Z.succ attempt) (Z.pred (maxRetries' o - attempt))))).
    replace (Z.pred (maxRetries' o - attempt))
      with (maxRetries' o - (attempt + 1)) by lia.
    change (Z.succ attempt) with (attempt + 1). lra.
  - exact Hmax.
  - apply loopBound_enough.
  - destruct (Hres ltac:(lia)) as (delays & Hsleeps & Hle & Hsum).
    exists res, w', delays.
    replace (maxRetries' o - 0) with (maxRetries' o) in Hsum by lia. auto.
Qed.

(** X28. With a random source that draws from [0, 1): for a non-negative
    [maxRetries], a positive [initialDelay], a non-negative multiplier
    and [maxDelay], and any bounds of the longest delays (base plus
    jitter amount, in double arithmetic) of the attempts before the last,
    the delays [retry] sleeps add up to at most the sum of those bounds.
    For the four presets, with the jitter they leave switched on, a call
    makes at most 3, 4, 6 and 3 attempts and waits at most 3600, 8400,
    18600 and 7200 milliseconds. *)
Theorem retry_total_sleep_bounded :
  (forall h, (0 <= fst (Math_random h))%Q /\ (fst (Math_random h) < 1)%Q) ->
  (forall (options : RetryOptions E) (w : Run) (bound : Z -> Q),
     let o := destructure options in
     0 <= maxRetries' o ->
     (0 < initialDelay' o)%Q -> (0 <= backoffMultiplier' o)%Q ->
     (0 <= maxDelay' o)%Q ->
     (forall n, 0 <= n < maxRetries' o ->
        js_le (longestDelay n (initialDelay' o) (maxDelay' o)
                 (backoffMultiplier' o) (jitter' o))
          (NFinite (bound n))) ->
     waitsAtMost options w (maxRetries' o + 1)
       (Qsum (map bound (seqZ 0 (maxRetries' o))))) /\
  (forall w : Run,
     waitsAtMost (presetOptions quick) w 3 3600 /\
     waitsAtMost (presetOptions standard) w 4 8400 /\
     waitsAtMost (presetOptions aggressive) w 6 18600 /\
     waitsAtMost (presetOptions conservative) w 3 7200).
Proof.
  intros Hrandom.
  split.
  { intros options w bound o Hmax Hi Hb Hm Hbound.
    exact (retry_waits options w bound Hrandom Hmax Hi Hb Hm Hbound). }
  assert (Hpreset : forall (preset : Preset) (w : Run) (n : Z) (total : Q),
    0 <= presetMaxRetries preset <= 5 -> (0 < presetInitialDelay preset)%Q ->
    (0 <= presetBackoffMultiplier preset)%Q -> (0 <= presetMaxDelay preset)%Q ->
    presetMaxRetries preset + 1 <= n ->
    let bound := fun k =>
      ((12 # 10) * Qmin (presetInitialDelay preset * 2 ^ k) (presetMaxDelay preset))%Q in
    forallb (fun k =>
      match longestDelay k (presetInitialDelay preset) (presetMaxDelay preset)
              (presetBackoffMultiplier preset) true with
      | NFinite d => Qle_bool d (bound k)
      | _ => false
      end) (seqZ 0 (presetMaxRetries preset)) = true ->
    (Qsum (map bound (seqZ 0 (presetMaxRetries preset))) <= total)%Q ->
    waitsAtMost (presetOptions preset) w n total).
  { intros preset w n total Hmax Hi Hb Hm Hn bound Hlongest Htotal.
    destruct (retry_waits (presetOptions preset) w bound Hrandom
                ltac:(cbn; lia) Hi Hb Hm)
      as (res & w' & delays & Hrun & Hsleeps & Hle & Hsum).
    - intros k Hk. cbn [destructure presetOptions default jitter' jitter
        initialDelay' initialDelay maxDelay' maxDelay backoffMultiplier'
        backoffMultiplier maxRetries' maxRetries] in Hk |- *.
      unfold id in Hk. rewrite forallb_forall in Hlongest.
      assert (Hin : In k (seqZ 0 (presetMaxRetries preset)))
        by (apply list_elem_of_In, elem_of_seqZ; lia).
      specialize (Hlongest k Hin). cbv beta in Hlongest.
      destruct (longestDelay k _ _ _ true) as [d| | |]; try discriminate Hlongest.
      apply Qle_bool_iff, Hlongest.
    - exists res, w', delays. split; [exact Hrun|]. split; [exact Hsleeps|].
      split; [exact (Z.le_trans _ _ _ Hle Hn)|].
      exact (Qle_trans _ _ _ Hsum Htotal). }
  intros w. repeat split; apply Hpreset; try (vm_compute; discriminate);
    try (vm_compute; reflexivity); try (cbn; lia).
Qed.

End RetryWaits.

(** ** Delays at concrete settings *)

Section DelayWitnesses.
Import Retry Retry.Mock.

(** The delay is not the exact [min(initialDelay * backoffMultiplier^n,
    maxDelay)] in general: for [initialDelay = 100], the multiplier 1.1
    (the double nearest to it) and attempt 2 the code returns the double
    121.00000000000001421..., which is not [100 * 1.1^2].  With jitter
    on, for the base 3 and the draw 0, so that [u = -1], the code returns
    the double nearest to 2.4: that is below 80% of the base, and it is
    not [base * (1 + u * 0.2)] evaluated in doubles either, which is
    2.4000000000000003552.... *)
Lemma calculateDelay_not_exact :
  round64 (11 # 10) = NFinite (2476979795053773 # 2251799813685248) /\
  fst (calculateDelay (H := mockHost) 2 100 1000000000
         (2476979795053773 # 2251799813685248) false
         (mkMockHost [] (Rejects networkError) 0 [0%Q]))
  = NFinite (8514618045497345 # 70368744177664) /\
  ~ ((8514618045497345 # 70368744177664)
     == Qmin (100 * (2476979795053773 # 2251799813685248) ^ 2) 1000000000)%Q /\
  fst (calculateDelay (H := mockHost) 0 3 1000000000 2 false
         (mkMockHost [] (Rejects networkError) 0 [0%Q]))
  = NFinite 3 /\
  fst (calculateDelay (H := mockHost) 0 3 1000000000 2 true
         (mkMockHost [] (Rejects networkError) 0 [0%Q]))
  = NFinite (5404319552844595 # 2251799813685248) /\
  ((5404319552844595 # 2251799813685248) < 3 * (8 # 10))%Q /\
  js_times (NFinite 3)
    (js_add (NFinite 1) (js_times (NFinite (- (1))) (round64 0.2)))
  = NFinite (1351079888211149 # 562949953421312) /\
  ((5404319552844595 # 2251799813685248)
   < (1351079888211149 # 562949953421312))%Q.
Proof.
  split; [vm_compute; reflexivity|]. split; [vm_compute; reflexivity|].
  split; [vm_compute; discriminate|]. split; [vm_compute; reflexivity|].
  split; [vm_compute; reflexivity|]. split; [vm_compute; reflexivity|].
  split; vm_compute; reflexivity.
Qed.

Lemma calculateDelay_formula_witness :
  calculateDelay (H := mockHost) 1 100 1000 2 false
    (mkMockHost [] (Rejects networkError) 0 [(3 # 4)%Q])
    = (NFinite (Qmin (inject_Z (100 * 2 ^ 1)) 1000),
       mkMockHost [] (Rejects networkError) 0 [(3 # 4)%Q]) /\
  js_le zero
    (fst (calculateDelay (H := mockHost) 1 100 1000 2 true
            (mkMockHost [] (Rejects networkError) 0 [(3 # 4)%Q]))).
Proof.
  destruct (calculateDelay_formula (H := mockHost) 1 100 1000 2
              (mkMockHost [] (Rejects networkError) 0 [(3 # 4)%Q]))
    as (Hplain & _ & Hexact & _ & _ & _ & _ & _ & Hjitter);
    [reflexivity | reflexivity | vm_compute; discriminate | reflexivity |].
  split.
  - rewrite Hplain.
    apply (f_equal (fun d => (d, mkMockHost [] (Rejects networkError) 0 [(3 # 4)%Q]))).
    apply (Hexact 100 2); [reflexivity | reflexivity | discriminate
                          | vm_compute; discriminate | reflexivity | reflexivity].
  - destruct Hjitter as (_ & Hnonneg & _); [vm_compute; discriminate | reflexivity |].
    exact Hnonneg.
Defined.

Lemma calculateDelay_monotone_capped_witness :
  js_le (fst (calculateDelay (H := mockHost) 1 100 1000 2 false
                (mkMockHost [] (Rejects networkError) 0 [])))
        (fst (calculateDelay (H := mockHost) 2 100 1000 2 false
                (mkMockHost [] (Rejects networkError) 0 []))).
Proof.
  destruct (calculateDelay_monotone_capped (H := mockHost) 1 100 1000 2
              (mkMockHost [] (Rejects networkError) 0 []))
    as [Hstep _].
  - reflexivity.
  - vm_compute. discriminate.
  - exact Hstep.
Defined.

Lemma retry_backoff_schedule_witness :
  exists res w',
    retry (H := failingHost networkError) steadyOptions
      (failingStart networkError) = Some (res, w') /\
    sleeps w' =
    map (fun n => Math_min (js_times (NFinite 1000) (Math_pow 2 n)) (NFinite 10000))
        (seqZ 0 (attempts res - 1)).
Proof.
  destruct (retry_backoff_schedule (H := failingHost networkError)
              steadyOptions (failingStart networkError))
    as (res & w' & Hrun & Hsleeps & _).
  - vm_compute. discriminate.
  - reflexivity.
  - exists res, w'. split; [exact Hrun | exact Hsleeps].
Defined.

Lemma retry_sleeps_bounded_witness :
  exists res w' delays,
    retry (H := failingHost networkError) (options 2 100)
      (failingStart networkError) = Some (res, w') /\
    sleeps w' = map NFinite delays /\ Z.of_nat (length delays) <= 2.
Proof.
  destruct (retry_sleeps_bounded (H := failingHost networkError)
              (options 2 100) (failingStart networkError))
    as (res & w' & delays & Hrun & Hsleeps & _ & Hlen & _).
  - vm_compute. discriminate.
  - reflexivity.
  - vm_compute. discriminate.
  - vm_compute. discriminate.
  - vm_compute. discriminate.
  - intros h. split; [vm_compute; discriminate | reflexivity].
  - exists res, w', delays. split; [exact Hrun|]. split; [exact Hsleeps | exact Hlen].
Defined.

Lemma retry_total_sleep_bounded_witness :
  waitsAtMost (H := failingHost networkError) (presetOptions standard)
    (failingStart networkError) 4 8400.
Proof.
  destruct (retry_total_sleep_bounded (H := failingHost networkError))
    as [_ Hpresets].
  - intros h. split; [vm_compute; discriminate | reflexivity].
  - destruct (Hpresets (failingStart networkError)) as (_ & Hstandard & _).
    exact Hstandard.
Defined.

End DelayWitnesses.
